(** * Sparse LU kernels of LASAGNA ([tools/sparse.c]): a shallow embedding

    The C functions of [tools/sparse.c] are transcribed as executable Rocq
    functions.  C arrays are lists indexed by [Z]; every array access is
    checked, and an access outside the array (undefined behaviour in C)
    makes the embedded function return [None].  [int] values are modelled
    as [Z]: the indices and counters of this file stay far below [2^31] on
    every array that fits in memory, and signed overflow would be undefined
    in C in any case.  [double] values are IEEE 754 binary64 numbers, that
    is Rocq's primitive [float]. *)

From Stdlib Require Import ZArith Lia Floats.
From stdpp Require Import base tactics option list list_numbers.

Local Open Scope Z_scope.

(** ** C arrays *)

Module Mem.

(** [a[i]] as an r-value. *)
Definition rd {A : Type} (a : list A) (i : Z) : option A :=
  if decide (0 ≤ i) then a !! Z.to_nat i else None.

(** [a[i] = v]. *)
Definition wr {A : Type} (a : list A) (i : Z) (v : A) : option (list A) :=
  if decide (0 ≤ i < Z.of_nat (length a))
  then Some (<[Z.to_nat i := v]> a) else None.

(** Fresh storage of [len] cells.  [malloc] leaves the contents
    unspecified and [calloc] zeroes them; the model fills both with the
    given value, and no function below reads a [malloc]ed cell before
    writing it on inputs whose accesses stay in range. *)
Definition alloc {A : Type} (len : Z) (v : A) : list A :=
  replicate (Z.to_nat len) v.

Section Facts.
Context {A : Type}.
Implicit Types (a : list A) (i j : Z) (v : A).

Lemma rd_Some a i v :
  rd a i = Some v → 0 ≤ i < Z.of_nat (length a).
Proof.
  unfold rd. case_decide; [|done].
  intros Hl%lookup_lt_Some. lia.
Qed.

Lemma rd_is_Some a i :
  0 ≤ i < Z.of_nat (length a) → is_Some (rd a i).
Proof.
  intros ?. unfold rd. rewrite decide_True by lia.
  apply lookup_lt_is_Some. lia.
Qed.

Lemma wr_Some a i v a' :
  wr a i v = Some a' →
  0 ≤ i < Z.of_nat (length a) ∧ a' = <[Z.to_nat i := v]> a.
Proof. unfold wr. case_decide; [|done]. by intros [= <-]. Qed.

Lemma wr_is_Some a i v :
  0 ≤ i < Z.of_nat (length a) → wr a i v = Some (<[Z.to_nat i := v]> a).
Proof. intros ?. unfold wr. by rewrite decide_True. Qed.

Lemma wr_length a i v a' : wr a i v = Some a' → length a' = length a.
Proof. intros [_ ->]%wr_Some. apply length_insert. Qed.

Lemma rd_wr_eq a i v a' : wr a i v = Some a' → rd a' i = Some v.
Proof.
  intros [? ->]%wr_Some. unfold rd. rewrite decide_True by lia.
  apply list_lookup_insert_eq. lia.
Qed.

Lemma rd_wr_ne a i j v a' : wr a i v = Some a' → i ≠ j → rd a' j = rd a j.
Proof.
  intros [? ->]%wr_Some ?. unfold rd. case_decide; [|done].
  apply list_lookup_insert_ne. lia.
Qed.

Lemma rd_wr a i j v a' :
  wr a i v = Some a' →
  rd a' j = if decide (i = j) then Some v else rd a j.
Proof.
  intros H. case_decide as Hij.
  - subst. by eapply rd_wr_eq.
  - by eapply rd_wr_ne.
Qed.

Lemma rd_alloc len v i : 0 ≤ i < len → rd (alloc len v) i = Some v.
Proof.
  intros ?. unfold rd, alloc. rewrite decide_True by lia.
  apply lookup_replicate_2. lia.
Qed.
End Facts.

End Mem.

Import Mem.

(** ** C loops *)

(** What one run of a loop body asks for: go on with the next index, or
    leave the loop ([break], or a [return] inside the loop). *)
Inductive ctl (St : Type) : Type :=
  | Next (s : St)
  | Break (s : St).
Arguments Next {St} s.
Arguments Break {St} s.

(** [cnt] further runs of the body of [for (i = ...; ...; i++)], the next
    one at index [i]. *)
Fixpoint iter_range {St : Type} (cnt : nat) (i : Z)
    (body : Z → St → option St) (s : St) : option St :=
  match cnt with
  | O => Some s
  | S c =>
      match body i s with
      | Some s' => iter_range c (i + 1) body s'
      | None => None
      end
  end.

(** [for (i = lo; i < hi; i++) body], for a body that neither changes
    [hi] nor leaves the loop. *)
Definition for_range {St : Type} (lo hi : Z)
    (body : Z → St → option St) (s : St) : option St :=
  iter_range (Z.to_nat (hi - lo)) lo body s.

(** The same with a body that may leave the loop; the result carries the
    value of the loop variable on exit, and whether the loop was left
    from inside ([Break]) or ran to its bound ([Next]). *)
Fixpoint iter_break {St : Type} (cnt : nat) (i : Z)
    (body : Z → St → option (ctl St)) (s : St) : option (Z * ctl St) :=
  match cnt with
  | O => Some (i, Next s)
  | S c =>
      match body i s with
      | Some (Next s') => iter_break c (i + 1) body s'
      | Some (Break s') => Some (i, Break s')
      | None => None
      end
  end.

Definition for_break {St : Type} (lo hi : Z)
    (body : Z → St → option (ctl St)) (s : St) : option (Z * ctl St) :=
  iter_break (Z.to_nat (hi - lo)) lo body s.

Section LoopRules.
Context {St : Type}.

Lemma for_range_step lo hi body (s : St) :
  lo < hi →
  for_range lo hi body s = body lo s ≫= for_range (lo + 1) hi body.
Proof.
  intros ?. unfold for_range.
  replace (Z.to_nat (hi - lo)) with (S (Z.to_nat (hi - (lo + 1)))) by lia.
  simpl. by destruct (body lo s).
Qed.

(** A loop whose range is empty does nothing. *)
Lemma for_range_empty lo hi body (s : St) :
  hi ≤ lo → for_range lo hi body s = Some s.
Proof.
  intros ?. unfold for_range.
  by replace (Z.to_nat (hi - lo)) with O by lia.
Qed.

(** Partial correctness of a [for] loop from an invariant.  The loop
    variable ends at [Z.max lo hi]: at [hi], or at [lo] when the range is
    empty. *)
Lemma for_range_inv (I : Z → St → Prop) lo hi body s s' :
  for_range lo hi body s = Some s' →
  I lo s →
  (∀ i t t', lo ≤ i < hi → I i t → body i t = Some t' → I (i + 1) t') →
  I (Z.max lo hi) s'.
Proof.
  unfold for_range. intros Hrun H0 Hstep.
  remember (Z.to_nat (hi - lo)) as cnt eqn:Hc.
  revert lo s Hc Hrun H0 Hstep.
  induction cnt as [|c IH]; intros lo s Hc Hrun H0 Hstep; simpl in Hrun.
  - simplify_eq. by replace (Z.max lo hi) with lo by lia.
  - destruct (body lo s) as [t|] eqn:Hb; [|done].
    replace (Z.max lo hi) with (Z.max (lo + 1) hi) by lia.
    apply (IH (lo + 1) t); [lia|done| |].
    + apply (Hstep lo s t); [lia|done..].
    + intros i u u' ?. apply Hstep. lia.
Qed.

(** Total correctness: the loop returns, in a state satisfying the
    invariant. *)
Lemma for_range_total (I : Z → St → Prop) lo hi body s :
  I lo s →
  (∀ i t, lo ≤ i < hi → I i t → ∃ t', body i t = Some t' ∧ I (i + 1) t') →
  ∃ s', for_range lo hi body s = Some s' ∧ I (Z.max lo hi) s'.
Proof.
  unfold for_range. intros H0 Hstep.
  remember (Z.to_nat (hi - lo)) as cnt eqn:Hc.
  revert lo s Hc H0 Hstep.
  induction cnt as [|c IH]; intros lo s Hc H0 Hstep; simpl.
  - exists s. split; [done|]. by replace (Z.max lo hi) with lo by lia.
  - destruct (Hstep lo s) as (t & -> & Ht); [lia|done|].
    replace (Z.max lo hi) with (Z.max (lo + 1) hi) by lia.
    apply (IH (lo + 1) t); [lia|done|].
    intros i u ?. apply Hstep. lia.
Qed.

(** Partial correctness of a loop that may be left from inside: [I] is
    the invariant of the runs that go on, [Q i] holds of the state in
    which the loop is left at index [i]. *)
Lemma for_break_inv (I : Z → St → Prop) (Q : Z → St → Prop) lo hi body s r :
  for_break lo hi body s = Some r →
  I lo s →
  (∀ i t t', lo ≤ i < hi → I i t → body i t = Some (Next t') → I (i + 1) t') →
  (∀ i t t', lo ≤ i < hi → I i t → body i t = Some (Break t') → Q i t') →
  match r with
  | (i, Next s') => i = Z.max lo hi ∧ I i s'
  | (i, Break s') => lo ≤ i < hi ∧ Q i s'
  end.
Proof.
  unfold for_break. intros Hrun H0 Hnext Hbrk.
  remember (Z.to_nat (hi - lo)) as cnt eqn:Hc.
  revert lo s Hc Hrun H0 Hnext Hbrk.
  induction cnt as [|c IH]; intros lo s Hc Hrun H0 Hnext Hbrk; simpl in Hrun.
  - simplify_eq. split; [lia|done].
  - destruct (body lo s) as [[t|t]|] eqn:Hb; [| |done].
    + assert (I (lo + 1) t) as Ht by (eapply Hnext; [|done..]; lia).
      assert (match r with
              | (i, Next s') => i = Z.max (lo + 1) hi ∧ I i s'
              | (i, Break s') => lo + 1 ≤ i < hi ∧ Q i s'
              end) as Hr.
      { apply (IH (lo + 1) t); [lia|done|done| |].
        - intros ??? ?. apply Hnext. lia.
        - intros ??? ?. apply Hbrk. lia. }
      destruct r as [i [s'|s']]; destruct Hr; split; (lia || done).
    + simplify_eq. split; [lia|]. eapply Hbrk; [|done..]. lia.
Qed.

(** Total correctness of the same loops. *)
Lemma for_break_total (I : Z → St → Prop) (Q : Z → St → Prop) lo hi body s :
  I lo s →
  (∀ i t, lo ≤ i < hi → I i t →
     (∃ t', body i t = Some (Next t') ∧ I (i + 1) t') ∨
     (∃ t', body i t = Some (Break t') ∧ Q i t')) →
  (∃ s', for_break lo hi body s = Some (Z.max lo hi, Next s')
         ∧ I (Z.max lo hi) s') ∨
  (∃ i s', for_break lo hi body s = Some (i, Break s')
           ∧ lo ≤ i < hi ∧ Q i s').
Proof.
  unfold for_break. intros H0 Hstep.
  remember (Z.to_nat (hi - lo)) as cnt eqn:Hc.
  revert lo s Hc H0 Hstep.
  induction cnt as [|c IH]; intros lo s Hc H0 Hstep; simpl.
  - left. exists s. by replace (Z.max lo hi) with lo by lia.
  - destruct (Hstep lo s) as [(t & -> & Ht)|(t & -> & Ht)]; [lia|done| |].
    + replace (Z.max lo hi) with (Z.max (lo + 1) hi) by lia.
      destruct (IH (lo + 1) t) as [?|(i & s' & ? & ? & ?)]; [lia|done| | |].
      * intros i u ?. apply Hstep. lia.
      * by left.
      * right. exists i, s'. split_and!; [done|lia|lia|done].
    + right. exists lo, t. split_and!; [done|lia|lia|done].
Qed.
End LoopRules.

(** ** Data model *)

(** Modelled from the spec: the header [sparse.h] that declares [sp_mat]
    is not part of the sources; the fields are those that [sp_mat_alloc]
    fills and that section 3 of the specification lists.  A matrix in
    compressed-column form: the entries of column [j] are at the
    positions [Ap[j] .. Ap[j+1]-1] of [Ai] (row indices) and [Ax]
    (values). *)
Record sp_mat (T : Type) : Type := Build_sp_mat {
  ncols : Z;
  nrows : Z;
  maxnz : Z;
  Ax : list T;
  Ai : list Z;
  Ap : list Z;
}.
Arguments Build_sp_mat {T} _ _ _ _ _ _.
Arguments ncols {T} _.
Arguments nrows {T} _.
Arguments maxnz {T} _.
Arguments Ax {T} _.
Arguments Ai {T} _.
Arguments Ap {T} _.

(** Modelled from the spec: the status codes [_SUCCESS_] and [_FAILURE_]
    and the truth values [_TRUE_] and [_FALSE_] come from [common.h],
    which is not part of the sources.  The statuses are two distinct
    values; the truth values are [bool]. *)
Inductive status : Type := SUCCESS | FAILURE.

(** [size_t neq = G->ncols]: the conversion of an [int] to a 64-bit
    unsigned integer. *)
Definition size_t_of_int (i : Z) : Z := i mod 2 ^ 64.

(** The value of an arithmetic expression of type [int]: 32 bits in
    two's complement, with wrap-around. *)
Definition int_wrap (z : Z) : Z := (z + 2 ^ 31) mod 2 ^ 32 - 2 ^ 31.

(** ** Column grouping *)

Module Grouping.

(** [for (i = 0; i < neq; i++) a[i] = v;] *)
Definition fill (neq : Z) (v : Z) (a : list Z) : option (list Z) :=
  for_range 0 neq (λ i a, wr a i v) a.

(** [for (i = Ap[col]; i < Ap[col+1]; i++) filled[Ai[i]] = 1;] *)
Definition mark_rows (Ap Ai : list Z) (col : Z) (filled : list Z)
    : option (list Z) :=
  lo ← rd Ap col;
  hi ← rd Ap (col + 1);
  for_range lo hi (λ i f, r ← rd Ai i; wr f r 1) filled.

(** The test of [column_grouping]:
    [fitted = 1;
     for (i = Ap[testcol]; i < Ap[testcol+1]; i++)
       if (filled[Ai[i]] == 1) { fitted = 0; break; }],
    with the test [filled[Ai[i]] == 1] passed as [hit]. *)
Definition fits_with (hit : Z → bool) (Ap Ai : list Z) (testcol : Z)
    (filled : list Z) : option bool :=
  lo ← rd Ap testcol;
  hi ← rd Ap (testcol + 1);
  r ← for_break lo hi
        (λ i fitted,
           r ← rd Ai i;
           v ← rd filled r;
           if hit v then Some (Break false) else Some (Next fitted))
        true;
  match r with
  | (_, Next fitted) | (_, Break fitted) => Some fitted
  end.

(** The body of the [testcol] loop of [column_grouping], after its
    test [col_g[testcol] == -1] has succeeded. *)
Definition try_fit (hit : Z → bool) (Ap Ai : list Z) (groupnum testcol : Z)
    (s : list Z * list Z) : option (list Z * list Z) :=
  let '(col_g, filled) := s in
  fitted ← fits_with hit Ap Ai testcol filled;
  if fitted : bool
  then col_g' ← wr col_g testcol groupnum;
       filled' ← mark_rows Ap Ai testcol filled;
       Some (col_g', filled')
  else Some (col_g, filled).

Abbreviation gstate := (list Z * list Z)%type.

(** One run of the [testcol] loop of [column_grouping]. *)
Definition test_column (Ap Ai : list Z) (groupnum testcol : Z)
    (s : gstate) : option gstate :=
  g ← rd s.1 testcol;
  if decide (g = -1)
  then try_fit (λ v, bool_decide (v = 1)) Ap Ai groupnum testcol s
  else Some s.

(** One run of the [curcol] loop of [column_grouping]; the state is
    [groupnum] with [(col_g, filled)]. *)
Definition open_group (Ap Ai : list Z) (neq curcol : Z)
    (s : Z * gstate) : option (Z * gstate) :=
  let '(groupnum, (col_g, filled)) := s in
  g ← rd col_g curcol;
  if decide (g = -1) then
    let groupnum := groupnum + 1 in
    col_g ← wr col_g curcol groupnum;
    filled ← fill neq 0 filled;
    filled ← mark_rows Ap Ai curcol filled;
    s' ← for_range (curcol + 1) neq (test_column Ap Ai groupnum)
           (col_g, filled);
    Some (groupnum, s')
  else Some s.

(** [column_grouping]; the result is the returned value with the final
    contents of [col_g] and [filled]. *)
Definition column_grouping {T} (G : sp_mat T) (col_g filled : list Z)
    : option (Z * gstate) :=
  let neq := size_t_of_int (ncols G) in
  col_g ← fill neq (-1) col_g;
  for_range 0 neq (open_group (Ap G) (Ai G) neq) (-1, (col_g, filled)).

(** One run of the [testcol] loop of [column_grouping2]; the state is
    [done] with [(col_g, filled)]. *)
Definition test_column2 (Ap Ai : list Z) (groupnum testcol : Z)
    (s : bool * gstate) : option (bool * gstate) :=
  let '(done, s) := s in
  g ← rd s.1 testcol;
  if decide (g ≠ -1) then Some (done, s)
  else
    s' ← try_fit (λ v, bool_decide (v ≠ 0)) Ap Ai groupnum testcol s;
    Some (false, s').

(** One run of the [groupnum] loop of [column_grouping2]. *)
Definition fill_group (Ap Ai : list Z) (neq groupnum : Z)
    (s : gstate) : option (ctl gstate) :=
  let '(col_g, filled) := s in
  filled ← fill neq 0 filled;
  '(done, s') ←
    for_range 0 neq (test_column2 Ap Ai groupnum) (true, (col_g, filled));
  if done : bool then Some (Break s') else Some (Next s').

(** [column_grouping2]. *)
Definition column_grouping2 {T} (G : sp_mat T) (col_g filled : list Z)
    : option (Z * gstate) :=
  let neq := size_t_of_int (ncols G) in
  col_g ← fill neq (-1) col_g;
  r ← for_break 0 neq (fill_group (Ap G) (Ai G) neq) (col_g, filled);
  match r with
  | (groupnum, Next s) | (groupnum, Break s) => Some (groupnum - 1, s)
  end.

End Grouping.


(** ** Specification of the grouping *)

(** Row [r] occurs in column [j] of the pattern [(Ap, Ai)]. *)
Definition in_col (Ap Ai : list Z) (j r : Z) : Prop :=
  ∃ lo hi i, rd Ap j = Some lo ∧ rd Ap (j + 1) = Some hi
             ∧ lo ≤ i < hi ∧ rd Ai i = Some r.

(** The columns [i] and [j] have a row in common. *)
Definition conflict (Ap Ai : list Z) (i j : Z) : Prop :=
  ∃ r, in_col Ap Ai i r ∧ in_col Ap Ai j r.

(** A pattern with [n] columns that the grouping can work on: the column
    pointers and the row indices can be read, and every row index is
    below [n] (the marker array [filled] has one cell per column, so the
    pattern is that of a square matrix). *)
Definition pattern_ok (Ap Ai : list Z) (n : Z) : Prop :=
  ∀ j, 0 ≤ j < n →
    ∃ lo hi, rd Ap j = Some lo ∧ rd Ap (j + 1) = Some hi
             ∧ ∀ i, lo ≤ i < hi → ∃ r, rd Ai i = Some r ∧ 0 ≤ r < n.

(** Column [j] collides with a column of group [g] that comes before it. *)
Definition beaten (Ap Ai col_g : list Z) (g j : Z) : Prop :=
  ∃ i, 0 ≤ i < j ∧ rd col_g i = Some g ∧ conflict Ap Ai i j.

(** Group [g] is the first fit of column [j]: no column of [g] before
    [j] collides with [j], and every group below [g] holds a column
    before [j] that does. *)
Definition ff_at (Ap Ai col_g : list Z) (j g : Z) : Prop :=
  (∀ i, 0 ≤ i < j → rd col_g i = Some g → ¬ conflict Ap Ai i j)
  ∧ (∀ g', 0 ≤ g' < g → beaten Ap Ai col_g g' j).

(** [col_g] is the first-fit grouping of the [n] columns. *)
Definition first_fit (Ap Ai : list Z) (n : Z) (col_g : list Z) : Prop :=
  ∀ j, 0 ≤ j < n → ∃ g, rd col_g j = Some g ∧ 0 ≤ g ∧ ff_at Ap Ai col_g j g.

(** [r] is the largest group number of [col_g], and [-1] when there is
    no column. *)
Definition last_group (n : Z) (col_g : list Z) (r : Z) : Prop :=
  -1 ≤ r
  ∧ (∀ j g, 0 ≤ j < n → rd col_g j = Some g → g ≤ r)
  ∧ (0 ≤ r → ∃ j, 0 ≤ j < n ∧ rd col_g j = Some r).

Section GroupingProofs.
Variables (Ap Ai : list Z) (n : Z).
Hypothesis Hpat : pattern_ok Ap Ai n.

Import Grouping.

(** [filled] marks exactly the rows in [P]. *)
Definition filled_is (f : list Z) (P : Z → Prop) : Prop :=
  ∀ r, 0 ≤ r < n → (rd f r = Some 1 ∧ P r) ∨ (rd f r = Some 0 ∧ ¬ P r).

Lemma filled_is_ext f P Q :
  filled_is f P → (∀ r, 0 ≤ r < n → P r ↔ Q r) → filled_is f Q.
Proof.
  intros Hf HPQ r Hr. destruct (Hf r Hr) as [[??]|[??]]; [left|right];
    (split; [done|]); rewrite <-HPQ; done.
Qed.

Lemma fill_spec v a :
  n ≤ Z.of_nat (length a) →
  ∃ a', fill n v a = Some a' ∧ length a' = length a
        ∧ (∀ i, 0 ≤ i < n → rd a' i = Some v)
        ∧ (∀ i, n ≤ i → rd a' i = rd a i).
Proof.
  intros Hlen. unfold fill.
  destruct (for_range_total
    (λ i a', length a' = length a
             ∧ (∀ k, 0 ≤ k < i → rd a' k = Some v)
             ∧ (∀ k, 0 ≤ i → i ≤ k → rd a' k = rd a k))
    0 n (λ i a, wr a i v) a) as (a' & Hrun & Hl & Hlo & Hhi).
  - split_and!; [done|lia|done].
  - intros i t Hi (Hl & Hlo & Hhi).
    rewrite wr_is_Some by lia. eexists; split; [done|].
    assert (wr t i v = Some (<[Z.to_nat i:=v]> t)) as Hw
      by (apply wr_is_Some; lia).
    split_and!.
    + by rewrite length_insert.
    + intros k Hk. rewrite (rd_wr _ _ _ _ _ Hw). case_decide; [done|].
      apply Hlo. lia.
    + intros k _ Hk. rewrite (rd_wr _ _ _ _ _ Hw). case_decide; [lia|].
      apply Hhi; lia.
  - exists a'. split_and!; [done|done| |].
    + intros i Hi. apply Hlo. lia.
    + intros i Hi. destruct (decide (0 ≤ i)).
      * apply Hhi; lia.
      * unfold rd. by rewrite !decide_False by lia.
Qed.

Lemma fill_zero a :
  n ≤ Z.of_nat (length a) →
  ∃ a', fill n 0 a = Some a' ∧ length a' = length a
        ∧ filled_is a' (λ _, False).
Proof.
  intros Hlen. destruct (fill_spec 0 a Hlen) as (a' & ? & ? & Hlo & _).
  exists a'. split_and!; [done..|]. intros r Hr. right. split; [auto|tauto].
Qed.

Lemma mark_rows_spec j f P :
  0 ≤ j < n → n ≤ Z.of_nat (length f) → filled_is f P →
  ∃ f', mark_rows Ap Ai j f = Some f' ∧ length f' = length f
        ∧ filled_is f' (λ r, P r ∨ in_col Ap Ai j r).
Proof.
  intros Hj Hlen Hf. destruct (Hpat j Hj) as (lo & hi & Hlo & Hhi & Hrows).
  unfold mark_rows. rewrite Hlo, Hhi. simpl.
  destruct (for_range_total
    (λ i f', length f' = length f
             ∧ filled_is f' (λ r, P r ∨ ∃ k, lo ≤ k < i ∧ rd Ai k = Some r))
    lo hi (λ i f, r ← rd Ai i; wr f r 1) f) as (f' & Hrun & Hl & Hf').
  - split; [done|]. eapply filled_is_ext; [done|]. intros r _.
    split; [by left|]. intros [?|(k & ? & _)]; [done|lia].
  - intros i t Hi [Hl Ht]. destruct (Hrows i Hi) as (r & Hr & Hrn).
    rewrite Hr. simpl.
    assert (wr t r 1 = Some (<[Z.to_nat r:=1]> t)) as Hw
      by (apply wr_is_Some; lia).
    rewrite Hw. eexists; split; [done|]. split; [by rewrite length_insert|].
    intros r' Hr'. rewrite (rd_wr _ _ _ _ _ Hw). case_decide as Heq.
    + subst r'. left. split; [done|]. right. exists i. split; [lia|done].
    + destruct (Ht r' Hr') as [[? HP]|[? HP]]; [left|right]; (split; [done|]).
      * destruct HP as [?|(k & ? & ?)]; [by left|]. right. exists k.
        split; [lia|done].
      * intros [?|(k & Hk & Hrk)]; apply HP; [by left|].
        right. exists k. split; [|done].
        destruct (decide (k = i)); [congruence|lia].
  - exists f'. split_and!; [done..|]. eapply filled_is_ext; [done|].
    intros r _. split; (intros [?|Hin]; [by left|right]).
    + destruct Hin as (k & ? & ?). exists lo, hi, k. split_and!; (done || lia).
    + destruct Hin as (lo' & hi' & k & ? & ? & ? & ?). simplify_eq.
      exists k. split; [lia|done].
Qed.

Lemma fits_with_spec hit j f P :
  hit 1 = true → hit 0 = false →
  0 ≤ j < n → filled_is f P →
  (fits_with hit Ap Ai j f = Some true ∧ ∀ r, in_col Ap Ai j r → ¬ P r)
  ∨ (fits_with hit Ap Ai j f = Some false ∧ ∃ r, in_col Ap Ai j r ∧ P r).
Proof.
  intros Hh1 Hh0 Hj Hf. destruct (Hpat j Hj) as (lo & hi & Hlo & Hhi & Hrows).
  unfold fits_with. rewrite Hlo, Hhi. simpl.
  destruct (for_break_total
    (λ i (b : bool), b = true
                     ∧ ∀ k r, lo ≤ k < i → rd Ai k = Some r → ¬ P r)
    (λ _ (b : bool), b = false ∧ ∃ r, in_col Ap Ai j r ∧ P r)
    lo hi
    (λ i fitted, r ← rd Ai i; v ← rd f r;
                 if hit v then Some (Break false) else Some (Next fitted))
    true) as [(b & -> & -> & Hall)|(i & b & -> & Hi & -> & r & Hin & HP)].
  - split; [done|]. intros; lia.
  - intros i b Hi [-> Hall]. destruct (Hrows i Hi) as (r & Hr & Hrn).
    rewrite Hr. simpl. destruct (Hf r Hrn) as [[-> HP]|[-> HP]]; simpl.
    + rewrite Hh1. right. eexists; split; [done|]. split; [done|].
      exists r. split; [|done]. by exists lo, hi, i.
    + rewrite Hh0. left. eexists; split; [done|]. split; [done|].
      intros k r' Hk Hr'. destruct (decide (k = i)) as [->|].
      * by simplify_eq.
      * eapply Hall; [|done]. lia.
  - left. split; [done|]. intros r Hin.
    destruct Hin as (lo' & hi' & k & ? & ? & ? & ?). simplify_eq.
    eapply Hall; [|done]. lia.
  - right. split; [done|]. by exists r.
Qed.

(** *** The invariant of the scan for one group *)

(** The rows of the columns of group [g] before column [t]. *)
Definition members (g t : Z) (cg : list Z) (r : Z) : Prop :=
  ∃ i, 0 ≤ i < t ∧ rd cg i = Some g ∧ in_col Ap Ai i r.

(** The groups below [g] are complete and the scan for group [g] has
    looked at the columns before [t]: a column without a group collides
    with every group below [g] (and with [g] if it is before [t]); a
    column with a group has its first fit, and is before [t] if the
    group is [g]. *)
Definition Cols (g t : Z) (cg : list Z) : Prop :=
  ∀ j, 0 ≤ j < n → ∃ v, rd cg j = Some v ∧
    ((v = -1 ∧ (∀ g', 0 ≤ g' < g → beaten Ap Ai cg g' j)
              ∧ (j < t → beaten Ap Ai cg g j))
     ∨ (0 ≤ v ≤ g ∧ ff_at Ap Ai cg j v ∧ (v = g → j < t))).

(** [cg'] keeps the groups that [cg] has given. *)
Definition keeps (cg cg' : list Z) : Prop :=
  length cg' = length cg
  ∧ ∀ i v, rd cg i = Some v → v ≠ -1 → rd cg' i = Some v.

Lemma keeps_refl cg : keeps cg cg.
Proof. by split. Qed.

Lemma keeps_trans cg1 cg2 cg3 : keeps cg1 cg2 → keeps cg2 cg3 → keeps cg1 cg3.
Proof. intros [? H1] [? H2]. split; [congruence|]. intros i v ??. eauto. Qed.

Lemma keeps_wr cg t g cg' :
  rd cg t = Some (-1) → wr cg t g = Some cg' → keeps cg cg'.
Proof.
  intros Ht Hw. split; [by eapply wr_length|]. intros i v Hi Hv.
  rewrite (rd_wr _ _ _ _ _ Hw). case_decide; [|done]. simplify_eq.
Qed.

Lemma beaten_keeps cg cg' g j :
  keeps cg cg' → 0 ≤ g → beaten Ap Ai cg g j → beaten Ap Ai cg' g j.
Proof.
  intros [_ Hk] Hg (i & ? & ? & ?). exists i. split_and!; [lia..| |done].
  apply Hk; [done|lia].
Qed.

Lemma Cols_skip g t cg v :
  0 ≤ t < n → Cols g t cg → rd cg t = Some v → v ≠ -1 →
  Cols g (t + 1) cg ∧ ∀ r, members g (t + 1) cg r ↔ members g t cg r.
Proof.
  intros Hn HC Ht Hv. split.
  - intros j Hj. destruct (HC j Hj) as (w & Hw & Hcase). exists w.
    split; [done|]. destruct Hcase as [(-> & ? & Hb)|(? & ? & ?)].
    + left. split_and!; [done..|]. intros ?. apply Hb.
      destruct (decide (j = t)); [simplify_eq|lia].
    + right. split_and!; try done; lia.
  - intros r. split; intros (i & Hi & Hg & Hin); exists i;
      (split; [|done]).
    + destruct (decide (i = t)) as [->|]; [|lia]. simplify_eq.
      destruct (HC t Hn) as (w & Hw & [(-> & _)|(_ & _ & Hlt)]);
        simplify_eq. lia.
    + lia.
Qed.

Lemma Cols_reject g t cg :
  0 ≤ g → 0 ≤ t < n → Cols g t cg → rd cg t = Some (-1) →
  (∃ r, in_col Ap Ai t r ∧ members g t cg r) →
  Cols g (t + 1) cg ∧ ∀ r, members g (t + 1) cg r ↔ members g t cg r.
Proof.
  intros Hg Hn HC Ht (r & Hr & i & Hi & Hig & Hir). split.
  - intros j Hj. destruct (HC j Hj) as (w & Hw & Hcase). exists w.
    split; [done|]. destruct Hcase as [(-> & ? & Hb)|(? & ? & ?)].
    + left. split_and!; [done..|]. intros ?.
      destruct (decide (j = t)) as [->|]; [|apply Hb; lia].
      exists i. split_and!; try done; try lia. by exists r.
    + right. split_and!; try done; lia.
  - intros r'. split; intros (i' & Hi' & Hg' & Hin'); exists i';
      (split; [|done]); [|lia].
    destruct (decide (i' = t)) as [->|]; [|lia]. simplify_eq. lia.
Qed.

Lemma Cols_add g t cg cg' :
  0 ≤ g → 0 ≤ t < n → Cols g t cg → rd cg t = Some (-1) →
  (∀ r, in_col Ap Ai t r → ¬ members g t cg r) →
  wr cg t g = Some cg' →
  Cols g (t + 1) cg'
  ∧ ∀ r, members g (t + 1) cg' r ↔ members g t cg r ∨ in_col Ap Ai t r.
Proof.
  intros Hg Hn HC Ht Hfit Hw.
  assert (keeps cg cg') as Hk by by eapply keeps_wr.
  assert (∀ i, i ≠ t → rd cg' i = rd cg i) as Hne.
  { intros i ?. rewrite (rd_wr _ _ _ _ _ Hw). by rewrite decide_False. }
  assert (rd cg' t = Some g) as Heq by by eapply rd_wr_eq.
  split.
  - intros j Hj. destruct (decide (j = t)) as [->|Hjt].
    + exists g. split; [done|]. right. split_and!; try lia.
      destruct (HC t Hn) as (w & Hw' & [(_ & Hlow & _)|(? & _)]);
        simplify_eq; [|lia].
      split.
      * intros i Hi Hig (r & Hir & Htr). apply (Hfit r Htr).
        exists i. rewrite Hne in Hig by lia. done.
      * intros g' Hg'. eapply beaten_keeps; [done|lia|]. by apply Hlow.
    + destruct (HC j Hj) as (w & Hw' & Hcase). exists w.
      rewrite Hne by done. split; [done|].
      destruct Hcase as [(-> & Hlow & Hb)|(? & [Hff1 Hff2] & Hlt)].
      * left. split_and!; [done| |].
        -- intros g' ?. eapply beaten_keeps; [done|lia|]. by apply Hlow.
        -- intros ?. eapply beaten_keeps; [done|lia|]. apply Hb. lia.
      * right. split_and!; try lia.
        -- split.
           ++ intros i Hi Hig. destruct (decide (i = t)) as [->|].
              ** simplify_eq. lia.
              ** rewrite Hne in Hig by done. by apply Hff1.
           ++ intros g' ?. eapply beaten_keeps; [done|lia|]. by apply Hff2.
  - intros r. split.
    + intros (i & Hi & Hig & Hir). destruct (decide (i = t)) as [->|].
      * by right.
      * left. exists i. rewrite Hne in Hig by done. split; [lia|done].
    + intros [(i & Hi & Hig & Hir)|Hir].
      * exists i. rewrite Hne by lia. split; [lia|done].
      * exists t. split; [lia|done].
Qed.

(** The state of the scan for group [g], about to look at column [t];
    [cg0] is [col_g] when the scan began, [lf] the length of [filled]. *)
Definition ScanSt (g t : Z) (lf : nat) (cg0 : list Z) (s : list Z * list Z)
    : Prop :=
  Cols g t s.1 ∧ filled_is s.2 (members g t s.1)
  ∧ keeps cg0 s.1 ∧ length s.2 = lf.

Lemma try_fit_spec hit g t lf cg0 s :
  hit 1 = true → hit 0 = false →
  0 ≤ g → 0 ≤ t < n → n ≤ Z.of_nat (length cg0) → n ≤ Z.of_nat lf →
  ScanSt g t lf cg0 s → rd s.1 t = Some (-1) →
  ∃ s', try_fit hit Ap Ai g t s = Some s' ∧ ScanSt g (t + 1) lf cg0 s'
        ∧ ∃ j, 0 ≤ j < n ∧ rd s'.1 j = Some g.
Proof.
  intros Hh1 Hh0 Hg Ht Hlc Hlf (HC & Hf & Hk & Hl) Hun.
  destruct s as [cg f]; simpl in *. unfold try_fit.
  destruct (fits_with_spec hit t f _ Hh1 Hh0 Ht Hf)
    as [[-> Hfit]|[-> Hhit]]; simpl.
  - assert (wr cg t g = Some (<[Z.to_nat t:=g]> cg)) as Hw.
    { apply wr_is_Some. destruct Hk as [-> _]. lia. }
    rewrite Hw. simpl.
    destruct (mark_rows_spec t f _ Ht ltac:(lia) Hf) as (f' & -> & Hl' & Hf').
    simpl. eexists; split; [done|].
    destruct (Cols_add g t cg _ Hg Ht HC Hun Hfit Hw) as [HC' Hm].
    split.
    + split_and!; simpl; [done| | |congruence].
      * eapply filled_is_ext; [done|]. intros r _. by rewrite Hm.
      * eapply keeps_trans; [done|]. by eapply keeps_wr.
    + exists t. split; [done|]. simpl. by eapply rd_wr_eq.
  - eexists; split; [done|].
    destruct (Cols_reject g t cg Hg Ht HC Hun Hhit) as [HC' Hm].
    split.
    + split_and!; simpl; [done| |done..].
      eapply filled_is_ext; [done|]. intros r _. by rewrite Hm.
    + destruct Hhit as (r & _ & i & ? & ? & _). exists i. simpl.
      split; [lia|done].
Qed.

Lemma ScanSt_skip g t lf cg0 s v :
  0 ≤ t < n → ScanSt g t lf cg0 s → rd s.1 t = Some v → v ≠ -1 →
  ScanSt g (t + 1) lf cg0 s.
Proof.
  intros Ht (HC & Hf & Hk & Hl) Hv Hne.
  destruct (Cols_skip g t _ v Ht HC Hv Hne) as [HC' Hm].
  split_and!; [done| |done..].
  eapply filled_is_ext; [done|]. intros r _. by rewrite Hm.
Qed.

Lemma ScanSt_rd g t lf cg0 s j :
  0 ≤ j < n → ScanSt g t lf cg0 s → ∃ v, rd s.1 j = Some v.
Proof. intros Hj (HC & _). destruct (HC j Hj) as (v & ? & _). eauto. Qed.

Lemma test_column_spec g t lf cg0 s :
  0 ≤ g → 0 ≤ t < n → n ≤ Z.of_nat (length cg0) → n ≤ Z.of_nat lf →
  ScanSt g t lf cg0 s →
  ∃ s', test_column Ap Ai g t s = Some s' ∧ ScanSt g (t + 1) lf cg0 s'.
Proof.
  intros Hg Ht Hlc Hlf HS. unfold test_column.
  destruct (ScanSt_rd g t lf cg0 s t Ht HS) as [v Hv]. rewrite Hv. simpl.
  case_decide as Hd.
  - subst v.
    destruct (try_fit_spec (λ v, bool_decide (v = 1)) g t lf cg0 s)
      as (s' & ? & ? & _); eauto.
  - exists s. split; [done|]. by eapply ScanSt_skip.
Qed.

(** The scan of [column_grouping2] also carries [done]: as long as it
    is set the scan has met no column without a group and has changed
    nothing; once it is cleared group [g] has a column. *)
Definition ScanSt2 (g t : Z) (lf : nat) (cg0 : list Z)
    (s : bool * (list Z * list Z)) : Prop :=
  ScanSt g t lf cg0 s.2
  ∧ (s.1 = true → s.2.1 = cg0 ∧ ∀ j, 0 ≤ j < t → rd cg0 j ≠ Some (-1))
  ∧ (s.1 = false → ∃ j, 0 ≤ j < n ∧ rd s.2.1 j = Some g).

Lemma test_column2_spec g t lf cg0 s :
  0 ≤ g → 0 ≤ t < n → n ≤ Z.of_nat (length cg0) → n ≤ Z.of_nat lf →
  ScanSt2 g t lf cg0 s →
  ∃ s', test_column2 Ap Ai g t s = Some s' ∧ ScanSt2 g (t + 1) lf cg0 s'.
Proof.
  intros Hg Ht Hlc Hlf (HS & Hd1 & Hd0). unfold test_column2.
  destruct s as [done s]; simpl in *.
  destruct (ScanSt_rd g t lf cg0 s t Ht HS) as [v Hv]. rewrite Hv. simpl.
  case_decide as Hd.
  - eexists; split; [done|]. split_and!; simpl; [by eapply ScanSt_skip| |done].
    intros Hdone. destruct (Hd1 Hdone) as [Heq Hall]. split; [done|].
    rewrite Heq in Hv.
    intros j Hj. destruct (decide (j = t)) as [->|]; [congruence|].
    apply Hall. lia.
  - assert (v = -1) as -> by lia.
    destruct (try_fit_spec (λ v, bool_decide (v ≠ 0)) g t lf cg0 s)
      as (s' & -> & ? & ?); eauto.
    simpl. eexists; split; [done|]. split_and!; simpl; done.
Qed.

(** *** The group loops *)

(** The groups below [G] are complete. *)
Definition Closed (G : Z) (cg : list Z) : Prop :=
  ∀ j, 0 ≤ j < n → ∃ v, rd cg j = Some v ∧
    ((v = -1 ∧ ∀ g', 0 ≤ g' < G → beaten Ap Ai cg g' j)
     ∨ (0 ≤ v < G ∧ ff_at Ap Ai cg j v)).

Lemma Cols_Closed g cg : Cols g n cg → Closed (g + 1) cg.
Proof.
  intros HC j Hj. destruct (HC j Hj) as (v & Hv & Hcase). exists v.
  split; [done|]. destruct Hcase as [(-> & Hlow & Hb)|(? & ? & ?)].
  - left. split; [done|]. intros g' ?.
    destruct (decide (g' = g)) as [->|]; [apply Hb|apply Hlow]; lia.
  - right. split; [lia|done].
Qed.

Lemma Closed_Cols g c cg :
  Closed g cg → (∀ j, 0 ≤ j < c → rd cg j ≠ Some (-1)) → Cols g c cg.
Proof.
  intros HC Hall j Hj. destruct (HC j Hj) as (v & Hv & Hcase). exists v.
  split; [done|]. destruct Hcase as [(-> & Hlow)|(? & ?)].
  - left. split_and!; [done..|]. intros ?. destruct (Hall j); [lia|done].
  - right. split_and!; try done; lia.
Qed.

Lemma Closed_members g c cg r :
  0 ≤ g → c ≤ n → Closed g cg → ¬ members g c cg r.
Proof.
  intros Hg Hc HC (i & Hi & Hig & _).
  destruct (HC i) as (v & Hv & [(-> & _)|(? & _)]); [lia|..]; simplify_eq; lia.
Qed.

Lemma Closed_first_fit G cg :
  Closed G cg → (∀ j, 0 ≤ j < n → rd cg j ≠ Some (-1)) →
  first_fit Ap Ai n cg ∧ ∀ j g, 0 ≤ j < n → rd cg j = Some g → g < G.
Proof.
  intros HC Hall. split.
  - intros j Hj. destruct (HC j Hj) as (v & Hv & [(-> & _)|(? & ?)]).
    + by destruct (Hall j Hj).
    + exists v. split_and!; [done|lia|done].
  - intros j g Hj Hg. destruct (HC j Hj) as (v & Hv & [(-> & _)|(? & ?)]).
    + by destruct (Hall j Hj).
    + simplify_eq. lia.
Qed.

(** The invariant of the [curcol] loop of [column_grouping]. *)
Definition V1 (lcg lf : nat) (c : Z) (s : Z * (list Z * list Z)) : Prop :=
  -1 ≤ s.1 ∧ length s.2.1 = lcg ∧ length s.2.2 = lf
  ∧ Closed (s.1 + 1) s.2.1
  ∧ (∀ j, 0 ≤ j < c → rd s.2.1 j ≠ Some (-1))
  ∧ (0 ≤ s.1 → ∃ j, 0 ≤ j < n ∧ rd s.2.1 j = Some s.1).

Lemma open_group_spec lcg lf c s :
  0 ≤ c < n → n ≤ Z.of_nat lcg → n ≤ Z.of_nat lf →
  V1 lcg lf c s →
  ∃ s', open_group Ap Ai n c s = Some s' ∧ V1 lcg lf (c + 1) s'.
Proof.
  intros Hc Hlcg Hlf. destruct s as [gn [cg f]].
  intros (Hgn & Hl1 & Hl2 & HC & Hall & Hwit); simpl in *.
  unfold open_group.
  destruct (HC c Hc) as (v & Hv & Hcase). rewrite Hv. simpl.
  case_decide as Hd.
  - subst v. set (g := gn + 1).
    assert (wr cg c g = Some (<[Z.to_nat c:=g]> cg)) as Hw
      by (apply wr_is_Some; lia).
    rewrite Hw. simpl. set (cg1 := <[Z.to_nat c:=g]> cg) in *.
    destruct (fill_zero f ltac:(lia)) as (f0 & -> & Hl0 & Hf0). simpl.
    destruct (mark_rows_spec c f0 _ Hc ltac:(lia) Hf0) as (f1 & -> & Hlf1 & Hf1).
    simpl.
    assert (Cols g c cg) as HCc by by apply Closed_Cols.
    destruct (Cols_add g c cg cg1 ltac:(lia) Hc HCc Hv) as [HC1 Hm]; [|done|].
    { intros r _. apply Closed_members; [lia..|done]. }
    assert (keeps cg cg1) as Hk by by eapply keeps_wr.
    assert (length cg1 = lcg) as Hlcg1 by by destruct Hk as [-> _].
    destruct (for_range_total (λ t s, ScanSt g t lf cg1 s) (c + 1) n
                (test_column Ap Ai g) (cg1, f1)) as (s' & -> & HS').
    { split_and!; simpl; [done| |apply keeps_refl|congruence].
      eapply filled_is_ext; [done|]. intros r _. rewrite Hm. split.
      - intros [[]|?]. by right.
      - intros [Hmem|?]; [|by right].
        exfalso. revert Hmem. apply Closed_members; [lia..|done]. }
    { intros t s Ht HS. apply test_column_spec; [lia..|done]. }
    replace (Z.max (c + 1) n) with n in HS' by lia.
    simpl. eexists; split; [done|].
    destruct HS' as (HCn & _ & Hk' & Hlf').
    assert (keeps cg s'.1) as Hkk by by eapply keeps_trans.
    assert (rd s'.1 c = Some g) as Hc'.
    { destruct Hk' as [_ Hk']. apply Hk'; [|lia]. by eapply rd_wr_eq. }
    split_and!; simpl; [lia|by destruct Hk' as [-> _]|done
                        |by apply Cols_Closed| |].
    + intros j Hj. destruct (decide (j = c)) as [->|].
      * rewrite Hc'. intros [=]. lia.
      * destruct (HC j ltac:(lia)) as (w & Hw' & _).
        assert (w ≠ -1) by (intros ->; destruct (Hall j); [lia|done]).
        destruct Hkk as [_ Hkk]. rewrite (Hkk j w); [congruence|done..].
    + intros _. by exists c.
  - eexists; split; [done|]. split_and!; simpl; try done.
    intros j Hj. destruct (decide (j = c)) as [->|]; [congruence|].
    apply Hall. lia.
Qed.

(** The invariant of the [groupnum] loop of [column_grouping2], and the
    state in which the loop is left. *)
Definition V2 (lcg lf : nat) (g : Z) (s : list Z * list Z) : Prop :=
  length s.1 = lcg ∧ length s.2 = lf ∧ Closed g s.1
  ∧ (∀ j, 0 ≤ j < g → j < n → rd s.1 j ≠ Some (-1))
  ∧ (1 ≤ g → ∃ j, 0 ≤ j < n ∧ rd s.1 j = Some (g - 1)).

Definition Q2 (lcg : nat) (g : Z) (s : list Z * list Z) : Prop :=
  length s.1 = lcg ∧ Closed g s.1
  ∧ (∀ j, 0 ≤ j < n → rd s.1 j ≠ Some (-1))
  ∧ (1 ≤ g → ∃ j, 0 ≤ j < n ∧ rd s.1 j = Some (g - 1)).

Lemma fill_group_spec lcg lf g s :
  0 ≤ g < n → n ≤ Z.of_nat lcg → n ≤ Z.of_nat lf →
  V2 lcg lf g s →
  (∃ s', fill_group Ap Ai n g s = Some (Next s') ∧ V2 lcg lf (g + 1) s')
  ∨ (∃ s', fill_group Ap Ai n g s = Some (Break s') ∧ Q2 lcg g s').
Proof.
  intros Hg Hlcg Hlf. destruct s as [cg f].
  intros (Hl1 & Hl2 & HC & Hall & Hwit); simpl in *.
  unfold fill_group.
  destruct (fill_zero f ltac:(lia)) as (f0 & -> & Hl0 & Hf0). simpl.
  destruct (for_range_total (λ t s, ScanSt2 g t lf cg s) 0 n
              (test_column2 Ap Ai g) (true, (cg, f0))) as (s' & -> & HS').
  { split_and!; simpl; [ | |done].
    - split_and!; simpl; [ | |apply keeps_refl|congruence].
      + apply Closed_Cols; [done|]. intros; lia.
      + eapply filled_is_ext; [done|]. intros r _. split; [done|].
        intros (i & ? & _). lia.
    - split; [done|]. intros; lia. }
  { intros t s Ht HS. apply test_column2_spec; [lia..|done]. }
  replace (Z.max 0 n) with n in HS' by lia.
  destruct s' as [done [cg' f']].
  destruct HS' as ((HCn & _ & Hk & Hlf') & Hd1 & Hd0); simpl in *.
  destruct done.
  - right. eexists; split; [done|].
    destruct (Hd1 eq_refl) as [-> Hgrouped]. by split_and!.
  - left. eexists; split; [done|].
    split_and!; simpl; [by destruct Hk as [-> _]|done|by apply Cols_Closed
                        | |by replace (g + 1 - 1) with g by lia; auto].
    assert (∀ j, 0 ≤ j < g → ∃ w, rd cg j = Some w ∧ rd cg' j = Some w
                                  ∧ 0 ≤ w < g) as Hold.
    { intros j Hj. destruct (HC j ltac:(lia)) as (w & Hw & [(-> & _)|(? & _)]).
      - destruct (Hall j); [lia..|done].
      - exists w. split_and!; try done; try lia.
        destruct Hk as [_ Hk]. apply Hk; [done|lia]. }
    intros j Hj Hjn. destruct (decide (j = g)) as [->|].
    + destruct (HCn g ltac:(lia)) as (v & -> & [(-> & _ & Hb)|(? & _)]);
        [|intros [=]; lia].
      destruct Hb as (i & Hi & Hig & _); [lia|].
      destruct (Hold i Hi) as (w & _ & ? & ?). simplify_eq. lia.
    + destruct (Hold j ltac:(lia)) as (w & _ & -> & ?). intros [=]. lia.
Qed.

End GroupingProofs.

(** *** Both implementations compute the first-fit grouping *)

(** The inputs of the grouping: [ncols] fits its type, the pattern is
    that of a square matrix, and [col_g] and [filled] have a cell per
    column. *)
Definition grouping_input {T} (G : sp_mat T) (col_g filled : list Z) : Prop :=
  0 ≤ ncols G < 2 ^ 64
  ∧ pattern_ok (Ap G) (Ai G) (ncols G)
  ∧ ncols G ≤ Z.of_nat (length col_g)
  ∧ ncols G ≤ Z.of_nat (length filled).

(** A decision procedure for [pattern_ok]. *)
Definition pattern_okb (Ap Ai : list Z) (n : Z) : bool :=
  forallb
    (λ j, match rd Ap j, rd Ap (j + 1) with
          | Some lo, Some hi =>
              forallb (λ i, match rd Ai i with
                            | Some r => bool_decide (0 ≤ r < n)
                            | None => false
                            end)
                      (seqZ lo (hi - lo))
          | _, _ => false
          end)
    (seqZ 0 n).

Lemma elem_of_seqZ_range lo len i : lo ≤ i < lo + len → i ∈ seqZ lo len.
Proof.
  intros ?. apply list_elem_of_lookup. exists (Z.to_nat (i - lo)).
  apply lookup_seqZ. lia.
Qed.

Lemma pattern_okb_ok Ap Ai n : pattern_okb Ap Ai n = true → pattern_ok Ap Ai n.
Proof.
  unfold pattern_okb. rewrite forallb_forall. intros Hall j Hj.
  specialize (Hall j). rewrite <-list_elem_of_In in Hall.
  specialize (Hall (elem_of_seqZ_range 0 n j ltac:(lia))).
  destruct (rd Ap j) as [lo|]; [|done].
  destruct (rd Ap (j + 1)) as [hi|]; [|done].
  exists lo, hi. split_and!; [done..|]. intros i Hi.
  rewrite forallb_forall in Hall. specialize (Hall i).
  rewrite <-list_elem_of_In in Hall.
  specialize (Hall (elem_of_seqZ_range lo (hi - lo) i ltac:(lia))).
  destruct (rd Ai i) as [r|]; [|done]. exists r. split; [done|].
  by apply bool_decide_eq_true in Hall.
Qed.

Lemma size_t_of_int_id i : 0 ≤ i < 2 ^ 64 → size_t_of_int i = i.
Proof. intros ?. unfold size_t_of_int. by apply Z.mod_small. Qed.

Lemma int_wrap_id z : - 2 ^ 31 ≤ z < 2 ^ 31 → int_wrap z = z.
Proof. intros ?. unfold int_wrap. rewrite Z.mod_small; lia. Qed.

Lemma column_grouping_first_fit {T} (G : sp_mat T) col_g filled :
  grouping_input G col_g filled →
  ∃ r cg f, Grouping.column_grouping G col_g filled = Some (r, (cg, f))
            ∧ first_fit (Ap G) (Ai G) (ncols G) cg
            ∧ last_group (ncols G) cg r.
Proof.
  intros (Hn & Hpat & Hlc & Hlf). unfold Grouping.column_grouping.
  rewrite size_t_of_int_id by done. set (n := ncols G) in *.
  destruct (fill_spec n (-1) col_g Hlc) as (cg1 & -> & Hl1 & Hinit & _).
  simpl.
  destruct (for_range_total (V1 (Ap G) (Ai G) n (length cg1) (length filled))
              0 n (Grouping.open_group (Ap G) (Ai G) n) (-1, (cg1, filled)))
    as ([r [cg f]] & -> & HV).
  { split_and!; simpl; [done..| | |intros; lia].
    - intros j Hj. exists (-1). split; [by apply Hinit|]. left.
      split; [done|]. intros; lia.
    - intros; lia. }
  { intros c s Hc HV. apply open_group_spec; [done|lia..|done]. }
  replace (Z.max 0 n) with n in HV by lia.
  destruct HV as (Hr & _ & _ & HC & Hall & Hwit); simpl in *.
  destruct (Closed_first_fit _ _ _ _ _ HC Hall) as [Hff Hlt].
  exists r, cg, f. do 2 (split; [done|]). split_and!; [done| |done].
  intros j g Hj Hg. specialize (Hlt j g Hj Hg). lia.
Qed.

Lemma column_grouping2_first_fit {T} (G : sp_mat T) col_g filled :
  grouping_input G col_g filled →
  ∃ r cg f, Grouping.column_grouping2 G col_g filled = Some (r, (cg, f))
            ∧ first_fit (Ap G) (Ai G) (ncols G) cg
            ∧ last_group (ncols G) cg r.
Proof.
  intros (Hn & Hpat & Hlc & Hlf). unfold Grouping.column_grouping2.
  rewrite size_t_of_int_id by done. set (n := ncols G) in *.
  destruct (fill_spec n (-1) col_g Hlc) as (cg1 & -> & Hl1 & Hinit & _).
  simpl.
  destruct (for_break_total
              (V2 (Ap G) (Ai G) n (length cg1) (length filled))
              (Q2 (Ap G) (Ai G) n (length cg1))
              0 n (Grouping.fill_group (Ap G) (Ai G) n) (cg1, filled))
    as [([cg f] & -> & HV)|(g & [cg f] & -> & Hg & HQ)].
  { split_and!; simpl; [done..| | |intros; lia].
    - intros j Hj. exists (-1). split; [by apply Hinit|]. left.
      split; [done|]. intros; lia.
    - intros; lia. }
  { intros g s Hg HV. apply fill_group_spec; [done|lia..|done]. }
  - replace (Z.max 0 n) with n in * by lia.
    destruct HV as (_ & _ & HC & Hall & Hwit); simpl in *.
    destruct (Closed_first_fit _ _ _ _ _ HC) as [Hff Hlt].
    { intros j Hj. apply Hall; lia. }
    exists (n - 1), cg, f. do 2 (split; [done|]). split_and!; [lia| |].
    + intros j g Hj Hg. specialize (Hlt j g Hj Hg). lia.
    + intros ?. apply Hwit. lia.
  - destruct HQ as (_ & HC & Hall & Hwit); simpl in *.
    destruct (Closed_first_fit _ _ _ _ _ HC Hall) as [Hff Hlt].
    exists (g - 1), cg, f. do 2 (split; [done|]). split_and!; [lia| |].
    + intros j g' Hj Hg'. specialize (Hlt j g' Hj Hg'). lia.
    + intros ?. apply Hwit. lia.
Qed.

(** The first-fit grouping is unique. *)
Lemma first_fit_unique Ap Ai n cg1 cg2 :
  first_fit Ap Ai n cg1 → first_fit Ap Ai n cg2 →
  ∀ j, 0 ≤ j < n → rd cg1 j = rd cg2 j.
Proof.
  intros H1 H2 j [Hj0 Hjn]. revert Hjn. pattern j.
  apply Z_lt_induction; [clear j Hj0|done]. intros j IH Hjn.
  destruct (decide (0 ≤ j)) as [Hj0|]; [|unfold rd; by rewrite !decide_False].
  destruct (H1 j ltac:(lia)) as (g1 & Hg1 & ? & Hno1 & Hlow1).
  destruct (H2 j ltac:(lia)) as (g2 & Hg2 & ? & Hno2 & Hlow2).
  rewrite Hg1, Hg2. f_equal.
  destruct (Z.lt_trichotomy g1 g2) as [Hlt|[?|Hlt]]; [|done|]; exfalso.
  - destruct (Hlow2 g1 ltac:(lia)) as (i & Hi & Hig & Hc).
    apply (Hno1 i Hi); [|done]. rewrite IH; [done|lia..].
  - destruct (Hlow1 g2 ltac:(lia)) as (i & Hi & Hig & Hc).
    apply (Hno2 i Hi); [|done]. rewrite <-IH; [done|lia..].
Qed.

Lemma last_group_unique n cg1 cg2 r1 r2 :
  (∀ j, 0 ≤ j < n → rd cg1 j = rd cg2 j) →
  last_group n cg1 r1 → last_group n cg2 r2 → r1 = r2.
Proof.
  intros Heq (? & Hle1 & Hw1) (? & Hle2 & Hw2).
  destruct (Z.lt_trichotomy r1 r2) as [Hlt|[?|Hlt]]; [|done|]; exfalso.
  - destruct Hw2 as (j & Hj & Hr); [lia|]. rewrite <-Heq in Hr by done.
    specialize (Hle1 j r2 Hj Hr). lia.
  - destruct Hw1 as (j & Hj & Hr); [lia|]. rewrite Heq in Hr by done.
    specialize (Hle2 j r1 Hj Hr). lia.
Qed.

(** In a first-fit grouping the groups in use are [0 .. r], where [r]
    is the largest one. *)
Lemma first_fit_groups Ap Ai n cg r :
  first_fit Ap Ai n cg → last_group n cg r →
  (∀ j, 0 ≤ j < n → ∃ g, rd cg j = Some g ∧ 0 ≤ g ≤ r)
  ∧ (∀ g, 0 ≤ g ≤ r → ∃ j, 0 ≤ j < n ∧ rd cg j = Some g).
Proof.
  intros Hff (? & Hle & Hw). split.
  - intros j Hj. destruct (Hff j Hj) as (g & Hg & ? & _). exists g.
    split; [done|]. specialize (Hle j g Hj Hg). lia.
  - intros g Hg. destruct Hw as (j & Hj & Hr); [lia|].
    destruct (decide (g = r)) as [->|]; [by exists j|].
    destruct (Hff j Hj) as (g' & Hg' & _ & _ & Hlow). simplify_eq.
    destruct (Hlow g ltac:(lia)) as (i & Hi & Hig & _).
    exists i. split; [lia|done].
Qed.

(** Two columns of one group of a first-fit grouping share no row. *)
Lemma first_fit_disjoint Ap Ai n cg i j g :
  first_fit Ap Ai n cg →
  0 ≤ i < n → 0 ≤ j < n → i ≠ j →
  rd cg i = Some g → rd cg j = Some g → ¬ conflict Ap Ai i j.
Proof.
  intros Hff Hi Hj Hne Hgi Hgj Hc.
  destruct (Z.lt_trichotomy i j) as [Hlt|[?|Hlt]]; [|done|].
  - destruct (Hff j Hj) as (g' & Hg' & _ & Hno & _). simplify_eq.
    by apply (Hno i ltac:(lia) Hgi).
  - destruct (Hff i Hi) as (g' & Hg' & _ & Hno & _). simplify_eq.
    apply (Hno j ltac:(lia) Hgj). destruct Hc as (r & ? & ?). by exists r.
Qed.

(** The number of distinct group numbers held by the columns
    [0 .. n-1]. *)
Definition num_groups (n : Z) (col_g : list Z) : Z :=
  Z.of_nat (length (remove_dups (take (Z.to_nat n) col_g))).

Lemma num_groups_range n cg r :
  0 ≤ n → -1 ≤ r →
  (∀ j, 0 ≤ j < n → ∃ g, rd cg j = Some g ∧ 0 ≤ g ≤ r) →
  (∀ g, 0 ≤ g ≤ r → ∃ j, 0 ≤ j < n ∧ rd cg j = Some g) →
  num_groups n cg = r + 1.
Proof.
  intros Hn Hr Hall Hex. unfold num_groups.
  assert (remove_dups (take (Z.to_nat n) cg) ≡ₚ seqZ 0 (r + 1)) as ->.
  { apply NoDup_Permutation; [apply NoDup_remove_dups|apply NoDup_seqZ|].
    intros x. rewrite elem_of_remove_dups, list_elem_of_lookup. split.
    - intros (k & Hk). apply lookup_take_Some in Hk as [Hk Hlt].
      destruct (Hall (Z.of_nat k) ltac:(lia)) as (g & Hg & ?).
      unfold rd in Hg. rewrite decide_True, Nat2Z.id in Hg by lia.
      simplify_eq. apply elem_of_seqZ_range. lia.
    - intros [k Hk]%list_elem_of_lookup. apply lookup_seqZ in Hk as [-> ?].
      destruct (Hex (0 + Z.of_nat k) ltac:(lia)) as (j & Hj & Hg).
      exists (Z.to_nat j). unfold rd in Hg. rewrite decide_True in Hg by lia.
      apply lookup_take_Some. split; [done|lia]. }
  rewrite length_seqZ. lia.
Qed.

(** The pattern of the 3x3 matrix with entries at (0,0), (1,0), (0,1)
    and (2,2). *)
Definition pattern3 : sp_mat unit :=
  Build_sp_mat 3 3 4 [(); (); (); ()] [0; 1; 0; 2] [0; 2; 3; 4].

Lemma pattern3_input : grouping_input pattern3 [0; 0; 0] [0; 0; 0].
Proof.
  split_and!; simpl; try lia. by apply pattern_okb_ok.
Qed.

(** *** Claims on the column grouping *)

(** C7 (as stated it fails): on [pattern3] the grouping makes two groups
    (columns 0 and 2 in group 0, column 1 in group 1) and
    [column_grouping] returns 1, not the number of groups. *)
Lemma column_grouping_not_group_count :
  ¬ (∀ r s, Grouping.column_grouping pattern3 [0; 0; 0] [0; 0; 0] = Some (r, s) →
            r = num_groups (ncols pattern3) s.1).
Proof.
  intros H. specialize (H 1 ([0; 1; 0], [1; 0; 0]) eq_refl).
  vm_compute in H. discriminate.
Qed.

(** C7 (amended): on every square pattern, [column_grouping] and
    [column_grouping2] return the number of groups they created minus
    one, that is the largest group number ([-1] when there is no
    column), and every column is assigned one group, numbered between 0
    and the returned value. *)
Theorem column_grouping_returns_last_group {T} (G : sp_mat T) col_g filled :
  grouping_input G col_g filled →
  (∃ r cg f, Grouping.column_grouping G col_g filled = Some (r, (cg, f))
             ∧ r = num_groups (ncols G) cg - 1
             ∧ ∀ j, 0 ≤ j < ncols G → ∃ g, rd cg j = Some g ∧ 0 ≤ g ≤ r)
  ∧ (∃ r cg f, Grouping.column_grouping2 G col_g filled = Some (r, (cg, f))
               ∧ r = num_groups (ncols G) cg - 1
               ∧ ∀ j, 0 ≤ j < ncols G → ∃ g, rd cg j = Some g ∧ 0 ≤ g ≤ r).
Proof.
  intros Hin. pose proof Hin as ([Hn _] & _).
  split.
  - destruct (column_grouping_first_fit G col_g filled Hin)
      as (r & cg & f & Hrun & Hff & Hlast).
    destruct (first_fit_groups _ _ _ _ _ Hff Hlast) as [Hall Hex].
    exists r, cg, f. split_and!; [done| |done].
    rewrite (num_groups_range _ _ r); [lia|done| |done..].
    by destruct Hlast.
  - destruct (column_grouping2_first_fit G col_g filled Hin)
      as (r & cg & f & Hrun & Hff & Hlast).
    destruct (first_fit_groups _ _ _ _ _ Hff Hlast) as [Hall Hex].
    exists r, cg, f. split_and!; [done| |done].
    rewrite (num_groups_range _ _ r); [lia|done| |done..].
    by destruct Hlast.
Qed.

Lemma column_grouping_returns_last_group_witness :
  (∃ r cg f,
     Grouping.column_grouping pattern3 [0; 0; 0] [0; 0; 0] = Some (r, (cg, f))
     ∧ r = num_groups (ncols pattern3) cg - 1
     ∧ ∀ j, 0 ≤ j < ncols pattern3 → ∃ g, rd cg j = Some g ∧ 0 ≤ g ≤ r)
  ∧ (∃ r cg f,
       Grouping.column_grouping2 pattern3 [0; 0; 0] [0; 0; 0] = Some (r, (cg, f))
       ∧ r = num_groups (ncols pattern3) cg - 1
       ∧ ∀ j, 0 ≤ j < ncols pattern3 → ∃ g, rd cg j = Some g ∧ 0 ≤ g ≤ r).
Proof.
  apply (column_grouping_returns_last_group pattern3 [0; 0; 0] [0; 0; 0]).
  split_and!; simpl; try lia. apply pattern_okb_ok. vm_compute. reflexivity.
Defined.

(** Every column holds a group number, and two distinct columns with
    the same group number have no row index in common. *)
Definition grouped_disjoint {T} (G : sp_mat T)
    (res : option (Z * (list Z * list Z))) : Prop :=
  ∃ r cg f, res = Some (r, (cg, f))
    ∧ (∀ j, 0 ≤ j < ncols G → ∃ g, rd cg j = Some g ∧ 0 ≤ g)
    ∧ (∀ i j g, 0 ≤ i < ncols G → 0 ≤ j < ncols G → i ≠ j →
         rd cg i = Some g → rd cg j = Some g →
         ¬ ∃ row, in_col (Ap G) (Ai G) i row ∧ in_col (Ap G) (Ai G) j row).

(** C8: when [column_grouping] or [column_grouping2] has run on a square
    pattern, every column holds a group number, and two distinct columns
    with the same group number have no row index in common. *)
Theorem column_grouping_disjoint {T} (G : sp_mat T) col_g filled :
  grouping_input G col_g filled →
  grouped_disjoint G (Grouping.column_grouping G col_g filled)
  ∧ grouped_disjoint G (Grouping.column_grouping2 G col_g filled).
Proof.
  intros Hin.
  assert (∀ res, (∃ r cg f, res = Some (r, (cg, f))
                            ∧ first_fit (Ap G) (Ai G) (ncols G) cg) →
                 grouped_disjoint G res) as Hgd.
  { intros res (r & cg & f & Hrun & Hff).
    exists r, cg, f. split_and!; [done| |].
    - intros j Hj. destruct (Hff j Hj) as (g & ? & ? & _). by exists g.
    - intros i j g Hi Hj Hne Hgi Hgj. by eapply first_fit_disjoint. }
  split; apply Hgd.
  - destruct (column_grouping_first_fit G col_g filled Hin)
      as (r & cg & f & ? & ? & _). by exists r, cg, f.
  - destruct (column_grouping2_first_fit G col_g filled Hin)
      as (r & cg & f & ? & ? & _). by exists r, cg, f.
Qed.

Lemma column_grouping_disjoint_witness :
  grouped_disjoint pattern3
    (Grouping.column_grouping pattern3 [0; 0; 0] [0; 0; 0])
  ∧ grouped_disjoint pattern3
      (Grouping.column_grouping2 pattern3 [0; 0; 0] [0; 0; 0]).
Proof.
  apply (column_grouping_disjoint pattern3 [0; 0; 0] [0; 0; 0]).
  split_and!; simpl; try lia. apply pattern_okb_ok. vm_compute. reflexivity.
Defined.

(** C9: on every square pattern [column_grouping] and [column_grouping2]
    return the same value and leave the same group number in [col_g]
    for every column. *)
Theorem column_grouping_equiv {T} (G : sp_mat T) col_g filled :
  grouping_input G col_g filled →
  ∃ r cg1 f1 cg2 f2,
    Grouping.column_grouping G col_g filled = Some (r, (cg1, f1))
    ∧ Grouping.column_grouping2 G col_g filled = Some (r, (cg2, f2))
    ∧ ∀ j, 0 ≤ j < ncols G → rd cg1 j = rd cg2 j.
Proof.
  intros Hin.
  destruct (column_grouping_first_fit G col_g filled Hin)
    as (r1 & cg1 & f1 & Hrun1 & Hff1 & Hlast1).
  destruct (column_grouping2_first_fit G col_g filled Hin)
    as (r2 & cg2 & f2 & Hrun2 & Hff2 & Hlast2).
  pose proof (first_fit_unique _ _ _ _ _ Hff1 Hff2) as Heq.
  assert (r1 = r2) as <- by by eapply last_group_unique.
  by exists r1, cg1, f1, cg2, f2.
Qed.

Lemma column_grouping_equiv_witness :
  ∃ r cg1 f1 cg2 f2,
    Grouping.column_grouping pattern3 [0; 0; 0] [0; 0; 0] = Some (r, (cg1, f1))
    ∧ Grouping.column_grouping2 pattern3 [0; 0; 0] [0; 0; 0] = Some (r, (cg2, f2))
    ∧ ∀ j, 0 ≤ j < ncols pattern3 → rd cg1 j = rd cg2 j.
Proof.
  apply (column_grouping_equiv pattern3 [0; 0; 0] [0; 0; 0]).
  split_and!; simpl; try lia. apply pattern_okb_ok. vm_compute. reflexivity.
Defined.

(** ** The pattern of A + A' *)

Module PatternUnion.

(** [realloc(a, sizeof(int) * len)], with [len] of type [int]; [None]
    is the null pointer.  A request of no byte returns the null pointer
    (the GNU C library frees the block), and so does a negative [len],
    which as a [size_t] is beyond any memory.  A request of more is
    taken to succeed: the cells kept are unchanged, new cells hold [v]
    (their contents are unspecified in C). *)
Definition realloc {A : Type} (a : list A) (len : Z) (v : A)
    : option (list A) :=
  if decide (0 < len)
  then Some (take (Z.to_nat len) a ++ replicate (Z.to_nat len - length a) v)
  else None.

(** [for (i = 0; i < Ap[n]; i++) w_and_Cp[Ai[i]]++;] *)
Definition count_rows (Ai : list Z) (nnz : Z) (w : list Z) : option (list Z) :=
  for_range 0 nnz
    (λ i w, r ← rd Ai i; c ← rd w r; wr w r (c + 1)) w.

(** [for (j = 0, nz = 0; j < n; j++)
       { Tp[j] = nz; nz += w_and_Cp[j]; w_and_Cp[j] = Tp[j]; }];
    the state is [(nz, Tp, w_and_Cp)]. *)
Definition cumulate (n : Z) (s : Z * list Z * list Z)
    : option (Z * list Z * list Z) :=
  for_range 0 n
    (λ j '(nz, Tp, w),
       Tp ← wr Tp j nz;
       c ← rd w j;
       t ← rd Tp j;
       w ← wr w j t;
       Some (nz + c, Tp, w)) s.

(** [for (j = 0; j < n; j++)
       for (i = Ap[j]; i < Ap[j+1]; i++)
         { q = w_and_Cp[Ai[i]]; Ti[q] = j; w_and_Cp[Ai[i]]++; }];
    the state is [(Ti, w_and_Cp)]. *)
Definition scatter (Ap Ai : list Z) (n : Z) (s : list Z * list Z)
    : option (list Z * list Z) :=
  for_range 0 n
    (λ j s,
       lo ← rd Ap j;
       hi ← rd Ap (j + 1);
       for_range lo hi
         (λ i '(Ti, w),
            r ← rd Ai i;
            q ← rd w r;
            Ti ← wr Ti q j;
            c ← rd w r;
            w ← wr w r (c + 1);
            Some (Ti, w)) s) s.

(** The state of the merge of one column: the two read positions, the
    write position [nz] and the output [Ci_loc]. *)
Record merge_state : Type := MergeState {
  colAptr : Z;
  colTptr : Z;
  nz : Z;
  Ci_loc : list Z;
}.

(** [while ((colAptr < colAend) && (colTptr < colTend)) { ... nz++; }].
    Every run of the body moves one of the two read positions forward,
    so [fuel] runs are enough when [fuel] is at least the number of
    entries left in the two columns. *)
Fixpoint merge_while (fuel : nat) (Ai Ti : list Z) (colAend colTend : Z)
    (s : merge_state) : option merge_state :=
  if bool_decide (colAptr s < colAend) && bool_decide (colTptr s < colTend)
  then
    match fuel with
    | O => None
    | S fuel =>
        a ← rd Ai (colAptr s);
        t ← rd Ti (colTptr s);
        s' ← (if bool_decide (a < t) then
                c ← wr (Ci_loc s) (nz s) a;
                Some (MergeState (colAptr s + 1) (colTptr s) (nz s) c)
              else if bool_decide (t < a) then
                c ← wr (Ci_loc s) (nz s) t;
                Some (MergeState (colAptr s) (colTptr s + 1) (nz s) c)
              else
                c ← wr (Ci_loc s) (nz s) a;
                Some (MergeState (colAptr s + 1) (colTptr s + 1) (nz s) c));
        merge_while fuel Ai Ti colAend colTend
          (MergeState (colAptr s') (colTptr s') (nz s' + 1) (Ci_loc s'))
    end
  else Some s.

(** [for ( ; ptr < end; ptr++) { Ci_loc[nz] = src[ptr]; nz++; }];
    the state is [(nz, Ci_loc)]. *)
Definition copy_rest (src : list Z) (ptr end_ : Z) (s : Z * list Z)
    : option (Z * list Z) :=
  for_range ptr end_
    (λ p '(nz, c), v ← rd src p; c ← wr c nz v; Some (nz + 1, c)) s.

(** One run of the column loop of the merge; the state is
    [(nz, Ci_loc, w_and_Cp)]. *)
Definition merge_column (Ap Ai Tp Ti : list Z) (j : Z)
    (s : Z * list Z * list Z) : option (Z * list Z * list Z) :=
  let '(nz0, Ci0, w) := s in
  colAptr0 ← rd Ap j;
  colAend ← rd Ap (j + 1);
  colTptr0 ← rd Tp j;
  colTend ← rd Tp (j + 1);
  m ← merge_while (Z.to_nat ((colAend - colAptr0) + (colTend - colTptr0)))
        Ai Ti colAend colTend (MergeState colAptr0 colTptr0 nz0 Ci0);
  '(nz1, Ci1) ← copy_rest Ai (colAptr m) colAend (nz m, Ci_loc m);
  '(nz2, Ci2) ← copy_rest Ti (colTptr m) colTend (nz1, Ci1);
  w ← wr w (j + 1) nz2;
  Some (nz2, Ci2, w).

(** [get_pattern_A_plus_AT]; the result is the status with [*Cp] and
    [*Ci].  The allocations before the loops are taken to succeed (when
    one fails the C function returns its error status before computing
    anything).  The size of the last one, [nz + nz/5 + 2*n], is an
    [int]; when [realloc] returns the null pointer the function returns
    the failure status, with [*Ci] null and [*Cp] not set: the lists
    returned are then empty. *)
Definition get_pattern_A_plus_AT (Ap Ai : list Z) (n : Z)
    : option (status * list Z * list Z) :=
  let w_and_Cp := alloc (n + 1) 0 in
  let Tp := alloc (n + 1) 0 in
  nnz ← rd Ap n;
  let Ti := alloc nnz 0 in
  w_and_Cp ← count_rows Ai nnz w_and_Cp;
  '(nz, Tp, w_and_Cp) ← cumulate n (0, Tp, w_and_Cp);
  Tp ← wr Tp n nz;
  '(Ti, w_and_Cp) ← scatter Ap Ai n (Ti, w_and_Cp);
  let Ci_loc := alloc (2 * nnz) 0 in
  w_and_Cp ← wr w_and_Cp 0 0;
  '(nz, Ci_loc, w_and_Cp) ←
    for_range 0 n (merge_column Ap Ai Tp Ti) (0, Ci_loc, w_and_Cp);
  match realloc Ci_loc (int_wrap (nz + nz `quot` 5 + 2 * n)) 0 with
  | None => Some (FAILURE, [], [])
  | Some Ci => Some (SUCCESS, w_and_Cp, Ci)
  end.

End PatternUnion.

(** The row indices of column [j] of the pattern [(Cp, Ci)], in storage
    order. *)
Definition column_rows (Cp Ci : list Z) (j : Z) : option (list Z) :=
  lo ← rd Cp j;
  hi ← rd Cp (j + 1);
  mapM (rd Ci) (seqZ lo (hi - lo)).

(** Column [j] of [(Cp, Ci)] holds no row twice, and its rows are those
    of [rows]. *)
Definition has_rows (Cp Ci : list Z) (j : Z) (rows : list Z) : Prop :=
  ∃ l, column_rows Cp Ci j = Some l ∧ NoDup l ∧ ∀ r, r ∈ l ↔ r ∈ rows.

(** Membership in an explicit list. *)
Ltac solve_elem :=
  rewrite ?elem_of_cons, ?elem_of_nil; intuition lia.

(** An explicit list without repetition. *)
Ltac solve_nodup :=
  rewrite ?NoDup_cons, ?NoDup_nil, ?elem_of_cons, ?elem_of_nil;
  intuition lia.

(** *** Claims on the pattern of A + A' *)

(** C5: on the pattern with entries at (0,0), (1,0), (0,1), (2,2) the
    output keeps the diagonal: row 0 occurs in column 0 and row 2 in
    column 2.  The function merges column [j] of A with column [j] of
    the transpose and drops nothing. *)
Theorem get_pattern_keeps_diagonal :
  ∃ Cp Ci l0 l2,
    PatternUnion.get_pattern_A_plus_AT [0; 2; 3; 4] [0; 1; 0; 2] 3
      = Some (SUCCESS, Cp, Ci)
    ∧ column_rows Cp Ci 0 = Some l0 ∧ 0 ∈ l0
    ∧ column_rows Cp Ci 2 = Some l2 ∧ 2 ∈ l2.
Proof.
  exists [0; 2; 3; 4], [0; 1; 0; 2; 0; 0; 0; 0; 0; 0], [0; 1], [2].
  split_and!; [by vm_compute..| |by vm_compute|]; solve_elem.
Qed.

(** C6 (as stated it fails): column 1 of the output has the single row
    0; the entry (1,0) of A gives the entry (0,1) of the transpose, which
    lies in column 1 at row 0, not at row 1. *)
Lemma union_pattern3_not_as_stated :
  ¬ (∃ Cp Ci,
       PatternUnion.get_pattern_A_plus_AT [0; 2; 3; 4] [0; 1; 0; 2] 3
         = Some (SUCCESS, Cp, Ci)
       ∧ has_rows Cp Ci 0 [0; 1]
       ∧ has_rows Cp Ci 1 [0; 1]
       ∧ has_rows Cp Ci 2 [2]).
Proof.
  intros (Cp & Ci & Hrun & _ & (l & Hl & _ & Hmem) & _).
  vm_compute in Hrun. injection Hrun as <- <-.
  vm_compute in Hl. injection Hl as <-.
  destruct (Hmem 1) as [_ H1]. revert H1. clear. solve_elem.
Qed.

(** C6 (amended): on that pattern the output holds exactly the rows 0
    and 1 in column 0, the row 0 in column 1 (row 1 does not occur in
    column 1) and the row 2 in column 2, and no row twice in a
    column. *)
Theorem union_pattern3 :
  ∃ Cp Ci,
    PatternUnion.get_pattern_A_plus_AT [0; 2; 3; 4] [0; 1; 0; 2] 3
      = Some (SUCCESS, Cp, Ci)
    ∧ has_rows Cp Ci 0 [0; 1]
    ∧ has_rows Cp Ci 1 [0]
    ∧ has_rows Cp Ci 2 [2]
    ∧ ¬ in_col Cp Ci 1 1.
Proof.
  exists [0; 2; 3; 4], [0; 1; 0; 2; 0; 0; 0; 0; 0; 0].
  split; [by vm_compute|]. split_and!.
  - exists [0; 1]. split_and!; [by vm_compute|solve_nodup|].
    intros r. solve_elem.
  - exists [0]. split_and!; [by vm_compute|solve_nodup|].
    intros r. solve_elem.
  - exists [2]. split_and!; [by vm_compute|solve_nodup|].
    intros r. solve_elem.
  - intros (lo & hi & i & Hlo & Hhi & Hi & Hr).
    vm_compute in Hlo. vm_compute in Hhi.
    injection Hlo as <-. injection Hhi as <-.
    assert (i = 2) as -> by lia. vm_compute in Hr. discriminate.
Qed.

(** ** Sparse LU factorisation *)

(** The scalars of the factorisation: [double] for [sp_ludcmp] and
    [sp_refactor], [double complex] for [sp_ludcmp_cx] and
    [sp_refactor_cx], whose code is the same up to the scalar type and
    [cabs] for [fabs].  Magnitudes, the pivot tolerance and their
    comparisons are [double] in both. *)
Class Scalar (T : Type) : Type := {
  s_zero : T;
  s_one : T;
  s_sub : T → T → T;
  s_mul : T → T → T;
  s_div : T → T → T;
  s_abs : T → float;
}.

#[export] Instance double_scalar : Scalar float := {|
  s_zero := 0%float;
  s_one := 1%float;
  s_sub := PrimFloat.sub;
  s_mul := PrimFloat.mul;
  s_div := PrimFloat.div;
  s_abs := PrimFloat.abs;
|}.

(** Modelled from the spec: [sparse.h], which declares [sp_num], is not
    part of the sources; the fields are those that [sp_num_alloc] fills
    and that section 3 of the specification lists.  [xi] is the block
    [xi[0]] of [n*n] cells; the row pointer [xi[k]] is [xi[0] + k*n]. *)
Module Num.
Record sp_num (T : Type) : Type := Build_sp_num {
  n : Z;
  L : sp_mat T;
  U : sp_mat T;
  xi : list Z;
  topvec : list Z;
  pinv : list Z;
  p : list Z;
  q : option (list Z);
  w : list T;
  wamd : list Z;
}.
Arguments Build_sp_num {T} _ _ _ _ _ _ _ _ _ _.
Arguments n {T} _.
Arguments L {T} _.
Arguments U {T} _.
Arguments xi {T} _.
Arguments topvec {T} _.
Arguments pinv {T} _.
Arguments p {T} _.
Arguments q {T} _.
Arguments w {T} _.
Arguments wamd {T} _.
End Num.

Abbreviation sp_num := Num.sp_num.

(** Field updates. *)
Definition with_Ax {T} (M : sp_mat T) (v : list T) : sp_mat T :=
  Build_sp_mat (ncols M) (nrows M) (maxnz M) v (Ai M) (Ap M).
Definition with_Ai {T} (M : sp_mat T) (v : list Z) : sp_mat T :=
  Build_sp_mat (ncols M) (nrows M) (maxnz M) (Ax M) v (Ap M).
Definition with_Ap {T} (M : sp_mat T) (v : list Z) : sp_mat T :=
  Build_sp_mat (ncols M) (nrows M) (maxnz M) (Ax M) (Ai M) v.

Definition with_L {T} (N : sp_num T) (v : sp_mat T) : sp_num T :=
  Num.Build_sp_num (Num.n N) v (Num.U N) (Num.xi N) (Num.topvec N)
    (Num.pinv N) (Num.p N) (Num.q N) (Num.w N) (Num.wamd N).
Definition with_U {T} (N : sp_num T) (v : sp_mat T) : sp_num T :=
  Num.Build_sp_num (Num.n N) (Num.L N) v (Num.xi N) (Num.topvec N)
    (Num.pinv N) (Num.p N) (Num.q N) (Num.w N) (Num.wamd N).
Definition with_xi {T} (N : sp_num T) (v : list Z) : sp_num T :=
  Num.Build_sp_num (Num.n N) (Num.L N) (Num.U N) v (Num.topvec N)
    (Num.pinv N) (Num.p N) (Num.q N) (Num.w N) (Num.wamd N).
Definition with_topvec {T} (N : sp_num T) (v : list Z) : sp_num T :=
  Num.Build_sp_num (Num.n N) (Num.L N) (Num.U N) (Num.xi N) v
    (Num.pinv N) (Num.p N) (Num.q N) (Num.w N) (Num.wamd N).
Definition with_pinv {T} (N : sp_num T) (v : list Z) : sp_num T :=
  Num.Build_sp_num (Num.n N) (Num.L N) (Num.U N) (Num.xi N) (Num.topvec N)
    v (Num.p N) (Num.q N) (Num.w N) (Num.wamd N).
Definition with_p {T} (N : sp_num T) (v : list Z) : sp_num T :=
  Num.Build_sp_num (Num.n N) (Num.L N) (Num.U N) (Num.xi N) (Num.topvec N)
    (Num.pinv N) v (Num.q N) (Num.w N) (Num.wamd N).
Definition with_w {T} (N : sp_num T) (v : list T) : sp_num T :=
  Num.Build_sp_num (Num.n N) (Num.L N) (Num.U N) (Num.xi N) (Num.topvec N)
    (Num.pinv N) (Num.p N) (Num.q N) v (Num.wamd N).

(** Modelled from the spec: the allocation macro [lasagna_alloc] of
    [common.h], which is not part of the sources.  By sections 4.1 and 7
    of the specification a failed allocation makes the function return
    the failure status at once.  [len] is the number of cells asked
    for, an [int] that the request multiplies by the unsigned size of a
    cell: a negative [len] is then a size beyond any memory and the
    result is the null pointer, [None]; any other request is taken to
    succeed.  Fresh cells hold [v] (section 4.1 has them initialised
    with zero); no result below depends on what they hold. *)
Definition lasagna_alloc {A : Type} (len : Z) (v : A) : option (list A) :=
  if decide (0 ≤ len) then Some (alloc len v) else None.

(** [sp_mat_alloc]: the status and, on success, the matrix; the block
    of the structure itself is taken to be obtained. *)
Definition sp_mat_alloc {T} `{Scalar T} (ncols nrows maxnz : Z)
    : status * option (sp_mat T) :=
  let ncp := int_wrap (ncols + 1) in
  match lasagna_alloc maxnz s_zero with
  | None => (FAILURE, None)
  | Some Ax_ =>
    match lasagna_alloc maxnz 0 with
    | None => (FAILURE, None)
    | Some Ai_ =>
      match lasagna_alloc ncp 0 with
      | None => (FAILURE, None)
      | Some Ap_ => (SUCCESS, Some (Build_sp_mat ncols nrows maxnz Ax_ Ai_ Ap_))
      end
    end
  end.

(** [sp_num_alloc]: the status and, on success, the context.  The
    sizes are computed in [int].  [xi] is a block of [n] row pointers,
    of which [xi[0]] receives a block of [n * n] cells and [xi[k]]
    points [k * n] cells into it.  The result is undefined, [None],
    when the store to [xi[0]] is outside the block of the pointers
    ([n] is 0) or when a row pointer is computed beyond the end of the
    block of the cells (the size [n * n] has wrapped). *)
Definition sp_num_alloc {T} `{Scalar T} (n : Z)
    : option (status * option (sp_num T)) :=
  let maxnz := int_wrap (n * int_wrap (n + 1)) in
  let maxnz := maxnz `quot` 2 in
  match sp_mat_alloc n n maxnz with
  | (SUCCESS, Some L) =>
    match sp_mat_alloc n n maxnz with
    | (SUCCESS, Some U) =>
      match lasagna_alloc n 0 with
      | None => Some (FAILURE, None)
      | Some rows =>
        if decide (0 < Z.of_nat (length rows)) then
          match lasagna_alloc (int_wrap (n * n)) 0 with
          | None => Some (FAILURE, None)
          | Some xi =>
            if decide ((n - 1) * n ≤ Z.of_nat (length xi)) then
              match lasagna_alloc n 0, lasagna_alloc n 0, lasagna_alloc n 0,
                    lasagna_alloc (int_wrap (n + 1)) 0,
                    lasagna_alloc n s_zero,
                    lasagna_alloc (int_wrap (8 * int_wrap (n + 1))) 0 with
              | Some topvec, Some pinv, Some p, Some q, Some w, Some wamd =>
                  Some (SUCCESS,
                        Some (Num.Build_sp_num n L U xi topvec pinv p
                                (Some q) w wamd))
              | _, _, _, _, _, _ => Some (FAILURE, None)
              end
            else None
          end
        else None
      end
    | _ => Some (FAILURE, None)
    end
  | _ => Some (FAILURE, None)
  end.

(** Modelled from the spec: the marking macros of [sparse.h], which is
    not part of the sources.  Section 3 of the specification gives the
    flip as [-(value)-2], its own inverse; a column is marked when its
    pointer is flipped, that is negative. *)
Definition SPFLIP (i : Z) : Z := - i - 2.
Definition SPUNFLIP (i : Z) : Z := if decide (i < 0) then SPFLIP i else i.
Definition SPMARKED (w : list Z) (j : Z) : option bool :=
  v ← rd w j; Some (bool_decide (v < 0)).
Definition SPMARK (w : list Z) (j : Z) : option (list Z) :=
  v ← rd w j; wr w j (SPFLIP v).

Module LU.

(** The row pointer [N->xi[k]], as an offset into the block. *)
Definition xi_row {T} (N : sp_num T) (k : Z) : option Z :=
  if decide (0 ≤ k < Num.n N) then Some (k * Num.n N) else None.

(** The state of the depth-first search: the column pointers [Gp] with
    their marks, the stack pointer [*top], and the block of [xi]. *)
Record dfs_state : Type := DfsState {
  dGp : list Z;
  dtop : Z;
  dxi : list Z;
}.

(** [dfsr]; [xik] is the offset of the row [xik] in the block of [xi].
    The recursion is on [fuel], the number of nested calls allowed. *)
Fixpoint dfsr (fuel : nat) (j : Z) (Gi : list Z) (xik : Z) (pinv : list Z)
    (s : dfs_state) : option dfs_state :=
  match fuel with
  | O => None
  | S fuel =>
      jnew ← rd pinv j;
      Gp ← SPMARK (dGp s) j;
      let s := DfsState Gp (dtop s) (dxi s) in
      s ← (if decide (0 ≤ jnew) then
             g1 ← rd Gp jnew;
             g2 ← rd Gp (jnew + 1);
             for_range (SPUNFLIP g1) (SPUNFLIP g2)
               (λ p s,
                  i ← rd Gi p;
                  m ← SPMARKED (dGp s) i;
                  if m : bool then Some s
                  else dfsr fuel i Gi xik pinv s)
               s
           else Some s);
      let top := dtop s - 1 in
      xi ← wr (dxi s) (xik + top) j;
      Some (DfsState (dGp s) top xi)
  end.

(** [reachr]; the result is the returned [top] with the final [Gp] and
    [xi].  A nested call of [dfsr] marks a column that was not marked,
    so there are never more nested calls than cells in [Gp]. *)
Definition reachr (Gncols : Z) (Bp Bi Gp Gi : list Z) (k xik : Z)
    (xi pinv : list Z) : option (Z * list Z * list Z) :=
  lo ← rd Bp k;
  hi ← rd Bp (k + 1);
  s ← for_range lo hi
        (λ p s,
           i ← rd Bi p;
           m ← SPMARKED (dGp s) i;
           if m : bool then Some s
           else dfsr (S (length Gp)) i Gi xik pinv s)
        (DfsState Gp Gncols xi);
  Gp ← for_range (dtop s) Gncols
         (λ p Gp, i ← rd (dxi s) (xik + p); SPMARK Gp i) (dGp s);
  Some (dtop s, Gp, dxi s).

Section WithScalar.
Context {T : Type} `{Scalar T}.

(** [sp_splsolve]; the result is the final [x]. *)
Definition sp_splsolve (G B : sp_mat T) (k : Z) (xi : list Z) (xik top : Z)
    (x : list T) (pinv : list Z) : option (list T) :=
  let n := ncols G in
  x ← for_range top n (λ p x, i ← rd xi (xik + p); wr x i s_zero) x;
  lo ← rd (Ap B) k;
  hi ← rd (Ap B) (k + 1);
  x ← for_range lo hi
        (λ p x, i ← rd (Ai B) p; v ← rd (Ax B) p; wr x i v) x;
  for_range top n
    (λ px x,
       j ← rd xi (xik + px);
       J ← rd pinv j;
       if decide (J < 0) then Some x
       else
         gJ ← rd (Ap G) J;
         d ← rd (Ax G) gJ;
         xj ← rd x j;
         x ← wr x j (s_div xj d);
         q ← rd (Ap G) (J + 1);
         for_range (gJ + 1) q
           (λ p x,
              i ← rd (Ai G) p;
              g ← rd (Ax G) p;
              xj ← rd x j;
              xi' ← rd x i;
              wr x i (s_sub xi' (s_mul g xj)))
           x)
    x.

(** The context with the local variables [lnz] and [unz] of
    [sp_ludcmp] and [sp_refactor].  The local pointers of the C code
    ([Li = N->L->Ai], [x = N->w], [pvec = N->p] and so on) are names for
    the arrays of the context. *)
Record lu_loc : Type := LuLoc {
  cN : sp_num T;
  lnz : Z;
  unz : Z;
}.

(** [for (i = 0; i < n; i++) a[i] = v;] *)
Definition fill {A : Type} (n : Z) (v : A) (a : list A) : option (list A) :=
  for_range 0 n (λ i a, wr a i v) a.

(** The column that step [k] works on: [q ? q[k] : k]. *)
Definition col_of (N : sp_num T) (k : Z) : option Z :=
  match Num.q N with
  | Some q => rd q k
  | None => Some k
  end.

(** The first part of step [k] of [sp_ludcmp], up to the triangular
    solve; the result is [col] and [top] with the new state. *)
Definition step_solve (A : sp_mat T) (k : Z) (s : lu_loc)
    : option (Z * Z * lu_loc) :=
  let N := cN s in
  Lp ← wr (Ap (Num.L N)) k (lnz s);
  Up ← wr (Ap (Num.U N)) k (unz s);
  let N := with_U (with_L N (with_Ap (Num.L N) Lp)) (with_Ap (Num.U N) Up) in
  col ← col_of N k;
  xik ← xi_row N k;
  '(top, Gp, xi) ←
    reachr (ncols (Num.L N)) (Ap A) (Ai A) (Ap (Num.L N)) (Ai (Num.L N))
      col xik (Num.xi N) (Num.pinv N);
  let N := with_xi (with_L N (with_Ap (Num.L N) Gp)) xi in
  topvec ← wr (Num.topvec N) k top;
  let N := with_topvec N topvec in
  x ← sp_splsolve (Num.L N) A col (Num.xi N) xik top (Num.w N) (Num.pinv N);
  Some (col, top, LuLoc (with_w N x) (lnz s) (unz s)).

(** The state of the pivot search: [ipiv], [a], and [U] with [unz]. *)
Record pivot_state : Type := PivotState {
  ipiv : Z;
  a : float;
  pU : sp_mat T;
  punz : Z;
}.

(** The pivot search of step [k]:
    [for (p = top; p < n; p++) { i = N->xi[k][p]; if (pinv[i] < 0) ... }]. *)
Definition find_pivot (n : Z) (xi : list Z) (xik top : Z)
    (pinv : list Z) (x : list T) (s : pivot_state) : option pivot_state :=
  for_range top n
    (λ p s,
       i ← rd xi (xik + p);
       pi ← rd pinv i;
       if decide (pi < 0) then
         xv ← rd x i;
         let t := s_abs xv in
         if PrimFloat.ltb (a s) t
         then Some (PivotState i t (pU s) (punz s))
         else Some s
       else
         Ui ← wr (Ai (pU s)) (punz s) pi;
         xv ← rd x i;
         Ux ← wr (Ax (pU s)) (punz s) xv;
         Some (PivotState (ipiv s) (a s) (with_Ax (with_Ai (pU s) Ui) Ux)
                 (punz s + 1)))
    s.

(** The choice between the largest candidate and the diagonal one:
    [if ((pinv[col] < 0) && (fabs(x[col]) >= a*pivtol)) ipiv = col;]. *)
Definition choose_pivot (pinv : list Z) (x : list T) (col : Z)
    (pivtol : float) (ipiv : Z) (a : float) : option Z :=
  pc ← rd pinv col;
  if decide (pc < 0) then
    xc ← rd x col;
    if PrimFloat.leb (PrimFloat.mul a pivtol) (s_abs xc)
    then Some col else Some ipiv
  else Some ipiv.

(** The last loop of step [k]: the rows without a pivot go to [L],
    and [x] is cleared.  The state is [(L, lnz, x)]. *)
Definition store_L (n : Z) (xi : list Z) (xik top : Z) (pinv : list Z)
    (pivot : T) (s : sp_mat T * Z * list T) : option (sp_mat T * Z * list T) :=
  for_range top n
    (λ p '(L, lnz, x),
       i ← rd xi (xik + p);
       pi ← rd pinv i;
       '(L, lnz) ←
         (if decide (pi < 0) then
            Li ← wr (Ai L) lnz i;
            xv ← rd x i;
            Lx ← wr (Ax L) lnz (s_div xv pivot);
            Some (with_Ax (with_Ai L Li) Lx, lnz + 1)
          else Some (L, lnz));
       x ← wr x i s_zero;
       Some (L, lnz, x))
    s.

(** Step [k] of [sp_ludcmp]; [Break] is [return _FAILURE_]. *)
Definition ludcmp_step (A : sp_mat T) (pivtol : float) (k : Z) (s : lu_loc)
    : option (ctl lu_loc) :=
  let n := ncols A in
  '(col, top, s) ← step_solve A k s;
  let N := cN s in
  xik ← xi_row N k;
  ps ← find_pivot n (Num.xi N) xik top (Num.pinv N) (Num.w N)
         (PivotState (-1) (-1)%float (Num.U N) (unz s));
  let N := with_U N (pU ps) in
  if bool_decide (ipiv ps = -1) || PrimFloat.leb (a ps) 0%float
  then Some (Break (LuLoc N (lnz s) (punz ps)))
  else
    ipiv ← choose_pivot (Num.pinv N) (Num.w N) col pivtol (ipiv ps) (a ps);
    pivot ← rd (Num.w N) ipiv;
    Ui ← wr (Ai (Num.U N)) (punz ps) k;
    Ux ← wr (Ax (Num.U N)) (punz ps) pivot;
    let unz := punz ps + 1 in
    pinv ← wr (Num.pinv N) ipiv k;
    pvec ← wr (Num.p N) k ipiv;
    Li ← wr (Ai (Num.L N)) (lnz s) ipiv;
    Lx ← wr (Ax (Num.L N)) (lnz s) s_one;
    let lnz := lnz s + 1 in
    '(L, lnz, x) ←
      store_L n (Num.xi N) xik top pinv pivot
        (with_Ax (with_Ai (Num.L N) Li) Lx, lnz, Num.w N);
    let N :=
      with_w (with_L (with_p (with_pinv
        (with_U N (with_Ax (with_Ai (Num.U N) Ui) Ux)) pinv) pvec) L) x in
    Some (Next (LuLoc N lnz unz)).

(** The initialisation of [sp_ludcmp]. *)
Definition ludcmp_init (n : Z) (N : sp_num T) : option lu_loc :=
  x ← fill n s_zero (Num.w N);
  pinv ← fill n (-1) (Num.pinv N);
  Lp ← fill (n + 1) 0 (Ap (Num.L N));
  Some (LuLoc (with_L (with_pinv (with_w N x) pinv) (with_Ap (Num.L N) Lp)) 0 0).

(** The end of [sp_ludcmp] and [sp_refactor]:
    [Lp[n] = lnz; Up[n] = unz;
     for (p = 0; p < lnz; p++) Li[p] = pinv[Li[p]];]. *)
Definition finalize (n : Z) (s : lu_loc) : option (sp_num T) :=
  let N := cN s in
  Lp ← wr (Ap (Num.L N)) n (lnz s);
  Up ← wr (Ap (Num.U N)) n (unz s);
  Li ← for_range 0 (lnz s)
         (λ p Li, i ← rd Li p; v ← rd (Num.pinv N) i; wr Li p v)
         (Ai (Num.L N));
  Some (with_U (with_L N (with_Ai (with_Ap (Num.L N) Lp) Li))
          (with_Ap (Num.U N) Up)).

(** The column loop of [sp_ludcmp]: the result is the step at which
    the loop was left with [return _FAILURE_] ([Break]), or [n] when all
    steps were made ([Next]). *)
Definition ludcmp_loop (N : sp_num T) (A : sp_mat T) (pivtol : float)
    : option (Z * ctl lu_loc) :=
  s ← ludcmp_init (ncols A) N;
  for_break 0 (ncols A) (ludcmp_step A pivtol) s.

(** [sp_ludcmp]; the result is the returned status with the context as
    the call leaves it. *)
Definition sp_ludcmp (N : sp_num T) (A : sp_mat T) (pivtol : float)
    : option (status * sp_num T) :=
  r ← ludcmp_loop N A pivtol;
  match r with
  | (_, Break s) => Some (FAILURE, cN s)
  | (_, Next s) => N' ← finalize (ncols A) s; Some (SUCCESS, N')
  end.

(** The loop over the reachable rows of step [k] of [sp_refactor]; the
    state is [(L, lnz, U, unz, x)]. *)
Definition refactor_rows (n k : Z) (xi : list Z) (xik top : Z)
    (pinv : list Z) (pivot : T)
    (s : sp_mat T * Z * sp_mat T * Z * list T)
    : option (sp_mat T * Z * sp_mat T * Z * list T) :=
  for_range top n
    (λ p '(L, lnz, U, unz, x),
       i ← rd xi (xik + p);
       pi ← rd pinv i;
       '(U, unz) ←
         (if decide (pi < k) then
            Ui ← wr (Ai U) unz pi;
            xv ← rd x i;
            Ux ← wr (Ax U) unz xv;
            Some (with_Ax (with_Ai U Ui) Ux, unz + 1)
          else Some (U, unz));
       '(L, lnz) ←
         (if decide (pi > k) then
            Li ← wr (Ai L) lnz i;
            xv ← rd x i;
            Lx ← wr (Ax L) lnz (s_div xv pivot);
            Some (with_Ax (with_Ai L Li) Lx, lnz + 1)
          else Some (L, lnz));
       x ← wr x i s_zero;
       Some (L, lnz, U, unz, x))
    s.

(** Step [k] of [sp_refactor]. *)
Definition refactor_step (A : sp_mat T) (k : Z) (s : lu_loc)
    : option lu_loc :=
  let n := ncols A in
  let N := cN s in
  Lp ← wr (Ap (Num.L N)) k (lnz s);
  Up ← wr (Ap (Num.U N)) k (unz s);
  let N := with_U (with_L N (with_Ap (Num.L N) Lp)) (with_Ap (Num.U N) Up) in
  col ← col_of N k;
  top ← rd (Num.topvec N) k;
  xik ← xi_row N k;
  x ← sp_splsolve (Num.L N) A col (Num.xi N) xik top (Num.w N) (Num.pinv N);
  ipiv ← rd (Num.p N) k;
  pivot ← rd x ipiv;
  Li ← wr (Ai (Num.L N)) (lnz s) ipiv;
  Lx ← wr (Ax (Num.L N)) (lnz s) s_one;
  let lnz := lnz s + 1 in
  '(L, lnz, U, unz, x) ←
    refactor_rows n k (Num.xi N) xik top (Num.pinv N) pivot
      (with_Ax (with_Ai (Num.L N) Li) Lx, lnz, Num.U N, unz s, x);
  Ui ← wr (Ai U) unz k;
  Ux ← wr (Ax U) unz pivot;
  let unz := unz + 1 in
  Some (LuLoc (with_w (with_U (with_L N L) (with_Ax (with_Ai U Ui) Ux)) x)
          lnz unz).

(** [sp_refactor]. *)
Definition sp_refactor (N : sp_num T) (A : sp_mat T)
    : option (status * sp_num T) :=
  let n := ncols A in
  x ← fill n s_zero (Num.w N);
  Lp ← fill (n + 1) 0 (Ap (Num.L N));
  let N := with_L (with_w N x) (with_Ap (Num.L N) Lp) in
  s ← for_range 0 n (refactor_step A) (LuLoc N 0 0);
  N' ← finalize n s;
  Some (SUCCESS, N').

End WithScalar.
End LU.

(** ** Facts on [double] arithmetic *)

Module DoubleFacts.

(** A zero of either sign, or a NaN: the values that sums, products and
    quotients of zeros can take. *)
Definition null (v : float) : Prop :=
  match Prim2SF v with
  | S754_zero _ | S754_nan => True
  | _ => False
  end.

Lemma null_zero : null 0%float.
Proof. by vm_compute. Qed.

Lemma eqb_zero_null v : PrimFloat.eqb v 0%float = true → null v.
Proof.
  rewrite FloatAxioms.eqb_spec. unfold null.
  replace (Prim2SF 0%float) with (S754_zero false) by done.
  destruct (Prim2SF v) as [[]|[]| |[] ? ?]; done.
Qed.

Lemma null_div v d : null v → null (v / d)%float.
Proof.
  unfold null. rewrite FloatAxioms.div_spec. unfold SF64div, SFdiv.
  destruct (Prim2SF v) as [[]|[]| |[] ? ?]; try done;
    destruct (Prim2SF d) as [[]|[]| |[] ? ?]; done.
Qed.

Lemma null_mul g v : null v → null (g * v)%float.
Proof.
  unfold null. rewrite FloatAxioms.mul_spec. unfold SF64mul, SFmul.
  destruct (Prim2SF v) as [[]|[]| |[] ? ?]; try done;
    destruct (Prim2SF g) as [[]|[]| |[] ? ?]; done.
Qed.

Lemma null_sub u v : null u → null v → null (u - v)%float.
Proof.
  unfold null. rewrite FloatAxioms.sub_spec. unfold SF64sub, SFsub.
  destruct (Prim2SF u) as [[]|[]| |[] ? ?]; try done;
    destruct (Prim2SF v) as [[]|[]| |[] ? ?]; done.
Qed.

(** A magnitude of a null value that compares above something is a
    zero. *)
Lemma null_abs_leb a v :
  null v → PrimFloat.ltb a (PrimFloat.abs v) = true → PrimFloat.leb (PrimFloat.abs v) 0%float = true.
Proof.
  unfold null. rewrite FloatAxioms.ltb_spec, FloatAxioms.leb_spec, FloatAxioms.abs_spec.
  replace (Prim2SF 0%float) with (S754_zero false) by done.
  destruct (Prim2SF v) as [[]|[]| |[] ? ?]; try done;
    destruct (Prim2SF a) as [[]|[]| |[] ? ?]; done.
Qed.

Lemma null_abs_not_pos v :
  null v → PrimFloat.ltb 0%float (PrimFloat.abs v) = false.
Proof.
  unfold null. rewrite FloatAxioms.ltb_spec, FloatAxioms.abs_spec.
  replace (Prim2SF 0%float) with (S754_zero false) by done.
  destruct (Prim2SF v) as [[]|[]| |[] ? ?]; done.
Qed.

(** The order of [double]: a value that is not above [a] is not above
    anything larger than [a]. *)
Lemma SFltb_chain a b t :
  SFltb a t = false → SFltb a b = true → SFltb b t = false.
Proof.
  unfold SFltb, SFcompare.
  destruct a as [[]|[]| |[] ma ea], b as [[]|[]| |[] mb eb],
           t as [[]|[]| |[] mt et]; try done;
    rewrite ?Pos.compare_cont_spec; simpl;
    destruct (Z.compare_spec ea eb), (Z.compare_spec ea et),
             (Z.compare_spec eb et); try done; try lia; subst;
    destruct (Pos.compare_spec ma mb), (Pos.compare_spec ma mt),
             (Pos.compare_spec mb mt); simpl; try done; try lia.
Qed.

Lemma ltb_irrefl a : PrimFloat.ltb a a = false.
Proof.
  rewrite FloatAxioms.ltb_spec. unfold SFltb, SFcompare.
  destruct (Prim2SF a) as [[]|[]| |[] m e]; try done;
    by rewrite Z.compare_refl, ?Pos.compare_cont_refl.
Qed.

(** A value that compares above something and is not above zero is at
    most zero. *)
Lemma not_pos_leb b a :
  PrimFloat.ltb b a = true → PrimFloat.ltb 0%float a = false →
  PrimFloat.leb a 0%float = true.
Proof.
  rewrite !FloatAxioms.ltb_spec, FloatAxioms.leb_spec.
  replace (Prim2SF 0%float) with (S754_zero false) by done.
  unfold SFltb, SFleb, SFcompare.
  destruct (Prim2SF a) as [[]|[]| |[] ma ea],
           (Prim2SF b) as [[]|[]| |[] mb eb]; done.
Qed.

Lemma ltb_chain a b t :
  PrimFloat.ltb a t = false → PrimFloat.ltb a b = true →
  PrimFloat.ltb b t = false.
Proof. rewrite !FloatAxioms.ltb_spec. apply SFltb_chain. Qed.

(** What is not above [a] is not above zero when [a] is at most zero. *)
Lemma leb_ltb_chain a t :
  PrimFloat.ltb a t = false → PrimFloat.leb a 0%float = true →
  PrimFloat.ltb 0%float t = false.
Proof.
  rewrite !FloatAxioms.ltb_spec, FloatAxioms.leb_spec.
  replace (Prim2SF 0%float) with (S754_zero false) by done.
  unfold SFltb, SFleb, SFcompare.
  destruct (Prim2SF a) as [[]|[]| |[] ma ea],
           (Prim2SF t) as [[]|[]| |[] mt et]; done.
Qed.

(** A NaN or an infinity of either sign. *)
Definition nan_or_inf (v : float) : Prop :=
  match Prim2SF v with
  | S754_nan | S754_infinity _ => True
  | _ => False
  end.

(** A quotient by a zero of either sign is a NaN or an infinity. *)
Lemma div_zero_nan_or_inf x z :
  PrimFloat.eqb z 0%float = true → nan_or_inf (x / z)%float.
Proof.
  rewrite FloatAxioms.eqb_spec. unfold nan_or_inf.
  rewrite FloatAxioms.div_spec. unfold SF64div, SFdiv.
  replace (Prim2SF 0%float) with (S754_zero false) by done.
  destruct (Prim2SF z) as [[]|[]| |[] ? ?]; try done;
    destruct (Prim2SF x) as [[]|[]| |[] ? ?]; done.
Qed.

End DoubleFacts.

(** ** Properties of the factorisation *)

Section LUProofs.
Context {T : Type} `{Scalar T}.
Import LU.

(** Row [i] is a pivot candidate of a step: it is on the stack
    [xik[top .. n-1]] of the reachable rows and has no pivot yet. *)
Definition candidate (xi pinv : list Z) (xik top n i : Z) : Prop :=
  ∃ p, top ≤ p < n ∧ rd xi (xik + p) = Some i
       ∧ ∃ v, rd pinv i = Some v ∧ v < 0.

(** The test that makes step [k] take the diagonal candidate [col]. *)
Definition prefers_diagonal (pinv : list Z) (x : list T) (col : Z)
    (pivtol amax : float) : bool :=
  match rd pinv col with
  | Some pc =>
      if decide (pc < 0) then
        match rd x col with
        | Some xc => PrimFloat.leb (PrimFloat.mul amax pivtol) (s_abs xc)
        | None => false
        end
      else false
  | None => false
  end.

Lemma sp_refactor_status (N : sp_num T) A r :
  sp_refactor N A = Some r → r.1 = SUCCESS.
Proof.
  unfold sp_refactor. intros Hr.
  repeat (apply bind_Some in Hr as (? & _ & Hr)). by simplify_eq.
Qed.

(** What the first part of a step leaves unchanged. *)
Lemma step_solve_frame A k (s : lu_loc) col top s1 :
  step_solve A k s = Some (col, top, s1) →
  col_of (cN s) k = Some col
  ∧ wr (Num.topvec (cN s)) k top = Some (Num.topvec (cN s1))
  ∧ Num.n (cN s1) = Num.n (cN s)
  ∧ Num.q (cN s1) = Num.q (cN s)
  ∧ Num.pinv (cN s1) = Num.pinv (cN s)
  ∧ Num.p (cN s1) = Num.p (cN s)
  ∧ lnz s1 = lnz s ∧ unz s1 = unz s.
Proof.
  unfold step_solve. intros Hs.
  apply bind_Some in Hs as (Lp & HLp & Hs).
  apply bind_Some in Hs as (Up & HUp & Hs).
  apply bind_Some in Hs as (col' & Hcol & Hs).
  apply bind_Some in Hs as (xik & Hxik & Hs).
  apply bind_Some in Hs as ([[top' Gp] xi'] & Hreach & Hs).
  apply bind_Some in Hs as (tv & Htv & Hs).
  apply bind_Some in Hs as (x & Hx & Hs).
  simpl in *. simplify_eq. simpl. done.
Qed.

Lemma xi_row_frame (N N' : sp_num T) k :
  Num.n N' = Num.n N → xi_row N' k = xi_row N k.
Proof. unfold xi_row. by intros ->. Qed.

(** The pivot search: [a] is not exceeded by the magnitude of any
    candidate, and [ipiv] is a candidate of magnitude [a], or [-1] when
    no candidate compares above [-1]. *)
Lemma find_pivot_spec n xi xik top pinv (x : list T) U0 unz0 ps :
  find_pivot n xi xik top pinv x (PivotState (-1) (-1)%float U0 unz0) = Some ps →
  (∀ i xv, candidate xi pinv xik top n i → rd x i = Some xv →
           PrimFloat.ltb (a ps) (s_abs xv) = false)
  ∧ ((ipiv ps = -1 ∧ a ps = (-1)%float)
     ∨ (candidate xi pinv xik top n (ipiv ps)
        ∧ ∃ xv b, rd x (ipiv ps) = Some xv ∧ a ps = s_abs xv
                  ∧ PrimFloat.ltb b (a ps) = true)).
Proof.
  intros Hrun. unfold find_pivot in Hrun.
  apply (for_range_inv
    (λ p ps,
       (∀ i xv, candidate xi pinv xik top (Z.min p n) i → rd x i = Some xv →
                PrimFloat.ltb (a ps) (s_abs xv) = false)
       ∧ ((ipiv ps = -1 ∧ a ps = (-1)%float)
          ∨ (candidate xi pinv xik top (Z.min p n) (ipiv ps)
             ∧ ∃ xv b, rd x (ipiv ps) = Some xv ∧ a ps = s_abs xv
                       ∧ PrimFloat.ltb b (a ps) = true)))) in Hrun.
  - destruct Hrun as [Hmax Hsel]. split.
    + intros i xv (p & Hp & ?) ?. eapply Hmax; [|done]. exists p.
      split; [lia|done].
    + destruct Hsel as [?|[(p & Hp & ?) ?]]; [by left|right].
      split; [|done]. exists p. split; [lia|done].
  - split; [|by left]. intros i xv (p & Hp & _). lia.
  - clear Hrun. intros p s s' Hp [Hmax Hsel] Hbody.
    apply bind_Some in Hbody as (i & Hi & Hbody).
    apply bind_Some in Hbody as (pi & Hpi & Hbody).
    assert (∀ i', candidate xi pinv xik top (Z.min (p + 1) n) i' →
                  candidate xi pinv xik top (Z.min p n) i'
                  ∨ (i' = i ∧ pi < 0)) as Hsplit.
    { intros i' (p' & Hp' & Hi' & v & Hv & Hneg).
      destruct (decide (p' = p)) as [->|].
      - right. simplify_eq. done.
      - left. exists p'. split; [lia|]. eauto. }
    assert (∀ i', candidate xi pinv xik top (Z.min p n) i' →
                  candidate xi pinv xik top (Z.min (p + 1) n) i') as Hmono.
    { intros i' (p' & Hp' & ?). exists p'. split; [lia|done]. }
    case_decide as Hneg.
    + apply bind_Some in Hbody as (xv & Hxv & Hbody).
      destruct (PrimFloat.ltb (a s) (s_abs xv)) eqn:Hlt; simplify_eq; simpl.
      * split.
        -- intros i' xv' Hc Hxv'.
           destruct (Hsplit i' Hc) as [Hold|[-> _]].
           ++ eapply DoubleFacts.ltb_chain; [|done]. by eapply Hmax.
           ++ simplify_eq. apply DoubleFacts.ltb_irrefl.
        -- right. split.
           ++ exists p. split; [lia|]. eauto.
           ++ exists xv, (a s). done.
      * split.
        -- intros i' xv' Hc Hxv'.
           destruct (Hsplit i' Hc) as [Hold|[-> _]].
           ++ by eapply Hmax.
           ++ by simplify_eq.
        -- destruct Hsel as [?|[? ?]]; [by left|right]. split; [|done].
           by apply Hmono.
    + apply bind_Some in Hbody as (Ui & HUi & Hbody).
      apply bind_Some in Hbody as (xv & Hxv & Hbody).
      apply bind_Some in Hbody as (Ux & HUx & Hbody).
      simplify_eq; simpl. split.
      * intros i' xv' Hc Hxv'.
        destruct (Hsplit i' Hc) as [Hold|[-> ?]]; [|lia].
        by eapply Hmax.
      * destruct Hsel as [?|[? ?]]; [by left|right]. split; [|done].
        by apply Hmono.
Qed.

Lemma choose_pivot_spec pinv (x : list T) col pivtol ipiv0 a0 ipiv' :
  choose_pivot pinv x col pivtol ipiv0 a0 = Some ipiv' →
  ipiv' = (if prefers_diagonal pinv x col pivtol a0 then col else ipiv0).
Proof.
  unfold choose_pivot, prefers_diagonal. intros Hc.
  apply bind_Some in Hc as (pc & -> & Hc). case_decide; [|by simplify_eq].
  apply bind_Some in Hc as (xc & -> & Hc).
  by destruct (PrimFloat.leb _ _); simplify_eq.
Qed.

(** The test that ends a step with [return _FAILURE_]. *)
Definition no_pivot (ps : @pivot_state T) : bool :=
  bool_decide (ipiv ps = -1) || PrimFloat.leb (a ps) 0%float.

(** The parts of a step of [sp_ludcmp]. *)
Lemma ludcmp_step_inv A pivtol k (s : lu_loc) r :
  ludcmp_step A pivtol k s = Some r →
  ∃ col top s1 xik ps,
    step_solve A k s = Some (col, top, s1)
    ∧ xi_row (cN s1) k = Some xik
    ∧ find_pivot (ncols A) (Num.xi (cN s1)) xik top (Num.pinv (cN s1))
        (Num.w (cN s1)) (PivotState (-1) (-1)%float (Num.U (cN s1)) (unz s1))
      = Some ps
    ∧ ((no_pivot ps = true ∧ ∃ s2, r = Break s2
          ∧ Num.topvec (cN s2) = Num.topvec (cN s1)
          ∧ Num.pinv (cN s2) = Num.pinv (cN s1)
          ∧ Num.p (cN s2) = Num.p (cN s1)
          ∧ Num.q (cN s2) = Num.q (cN s1)
          ∧ Num.n (cN s2) = Num.n (cN s1))
       ∨ (no_pivot ps = false ∧ ∃ ipiv' s2, r = Next s2
            ∧ choose_pivot (Num.pinv (cN s1)) (Num.w (cN s1)) col pivtol
                (ipiv ps) (a ps) = Some ipiv'
            ∧ wr (Num.pinv (cN s1)) ipiv' k = Some (Num.pinv (cN s2))
            ∧ wr (Num.p (cN s1)) k ipiv' = Some (Num.p (cN s2))
            ∧ Num.topvec (cN s2) = Num.topvec (cN s1)
            ∧ Num.q (cN s2) = Num.q (cN s1)
            ∧ Num.n (cN s2) = Num.n (cN s1))).
Proof.
  unfold ludcmp_step. intros Hs.
  apply bind_Some in Hs as ([[col top] s1] & Hsolve & Hs).
  apply bind_Some in Hs as (xik & Hxik & Hs).
  apply bind_Some in Hs as (ps & Hps & Hs).
  exists col, top, s1, xik, ps. split_and!; [done..|].
  fold (no_pivot ps) in Hs. destruct (no_pivot ps).
  - left. split; [done|]. eexists. split; [by simplify_eq|done].
  - right. split; [done|].
    apply bind_Some in Hs as (ipiv' & Hch & Hs).
    apply bind_Some in Hs as (pivot & _ & Hs).
    apply bind_Some in Hs as (Ui & _ & Hs).
    apply bind_Some in Hs as (Ux & _ & Hs).
    apply bind_Some in Hs as (pinv' & Hpinv & Hs).
    apply bind_Some in Hs as (pvec' & Hpvec & Hs).
    apply bind_Some in Hs as (Li & _ & Hs).
    apply bind_Some in Hs as (Lx & _ & Hs).
    apply bind_Some in Hs as ([[L' lnz'] x'] & _ & Hs).
    simpl in *. simplify_eq. eexists _, _. split; [done|]. simpl. done.
Qed.

Lemma fill_frame {A : Type} n (v : A) a a' :
  LU.fill n v a = Some a' →
  length a' = length a
  ∧ (∀ i, 0 ≤ i < n → rd a' i = Some v)
  ∧ (∀ i, ¬ 0 ≤ i < n → rd a' i = rd a i).
Proof.
  unfold LU.fill. intros Hrun.
  apply (for_range_inv
    (λ i a', length a' = length a
             ∧ (∀ k, 0 ≤ k < Z.min i n → rd a' k = Some v)
             ∧ (∀ k, ¬ 0 ≤ k < Z.min i n → rd a' k = rd a k))) in Hrun.
  - destruct Hrun as (? & Hlo & Hhi). split_and!; [done| |].
    + intros i ?. apply Hlo. lia.
    + intros i ?. apply Hhi. lia.
  - split_and!; [done| |done]. intros; lia.
  - clear Hrun. intros i t t' Hi (Hl & Hlo & Hhi) Hw. split_and!.
    + erewrite wr_length; done.
    + intros k Hk. rewrite (rd_wr _ _ _ _ _ Hw). case_decide; [done|].
      apply Hlo. lia.
    + intros k Hk. rewrite (rd_wr _ _ _ _ _ Hw). case_decide; [lia|].
      apply Hhi. lia.
Qed.

Lemma ludcmp_init_frame n (N : sp_num T) s :
  ludcmp_init n N = Some s →
  Num.topvec (cN s) = Num.topvec N
  ∧ Num.p (cN s) = Num.p N
  ∧ Num.q (cN s) = Num.q N
  ∧ Num.n (cN s) = Num.n N
  ∧ LU.fill n (-1) (Num.pinv N) = Some (Num.pinv (cN s)).
Proof.
  unfold ludcmp_init. intros Hi.
  apply bind_Some in Hi as (x & _ & Hi).
  apply bind_Some in Hi as (pinv & Hpinv & Hi).
  apply bind_Some in Hi as (Lp & _ & Hi).
  by simplify_eq.
Qed.

(** What a step does to [topvec], [p] and [q]: it writes [topvec[k]],
    and [p[k]] unless the step fails. *)
Lemma ludcmp_step_frame A pivtol k (s : lu_loc) r :
  ludcmp_step A pivtol k s = Some r →
  match r with
  | Next s2 =>
      (∀ j, j ≠ k → rd (Num.topvec (cN s2)) j = rd (Num.topvec (cN s)) j)
      ∧ (∀ j, j ≠ k → rd (Num.p (cN s2)) j = rd (Num.p (cN s)) j)
      ∧ Num.q (cN s2) = Num.q (cN s)
  | Break s2 =>
      (∀ j, j ≠ k → rd (Num.topvec (cN s2)) j = rd (Num.topvec (cN s)) j)
      ∧ Num.p (cN s2) = Num.p (cN s)
      ∧ Num.q (cN s2) = Num.q (cN s)
  end.
Proof.
  intros Hstep.
  destruct (ludcmp_step_inv _ _ _ _ _ Hstep)
    as (col & top & s1 & xik & ps & Hsolve & _ & _ & Hcase).
  destruct (step_solve_frame _ _ _ _ _ _ Hsolve)
    as (_ & Htv & _ & Hq & _ & Hp & _).
  destruct Hcase as [(_ & s2 & -> & Htv2 & _ & Hp2 & Hq2 & _)
                    |(_ & ipiv' & s2 & -> & _ & _ & Hp2 & Htv2 & Hq2 & _)].
  - split_and!; [|congruence..]. intros j ?. rewrite Htv2.
    by eapply rd_wr_ne.
  - split_and!; [| |congruence].
    + intros j ?. rewrite Htv2. by eapply rd_wr_ne.
    + intros j ?. rewrite <-Hp. by eapply rd_wr_ne.
Qed.

End LUProofs.

(** *** Claims on the factorisation *)

(** A context for matrices of dimension 2 without column permutation,
    whose [topvec] and [p] hold 7 and 5 in every cell. *)
Definition ctx2 : sp_num float :=
  Num.Build_sp_num 2
    (Build_sp_mat 2 2 3 (alloc 3 0%float) (alloc 3 0) (alloc 3 0))
    (Build_sp_mat 2 2 3 (alloc 3 0%float) (alloc 3 0) (alloc 3 0))
    (alloc 4 0) [7; 7] (alloc 2 0) [5; 5] None (alloc 2 0%float)
    (alloc 24 0).

(** The matrix with the entries 4 and 2 in column 0 and an empty
    column 1. *)
Definition A_empty_col : sp_mat float :=
  Build_sp_mat 2 2 2 [4; 2]%float [0; 1] [0; 2; 2].

(** C2 (as stated it fails): the factorisation of [A_empty_col] fails at
    step 1, after step 0 has written [topvec[0]] and [p[0]] and step 1
    has written [topvec[1]]. *)
Lemma sp_ludcmp_failure_mutates :
  ¬ (∀ N', LU.sp_ludcmp ctx2 A_empty_col 1%float = Some (FAILURE, N') →
           Num.topvec N' = Num.topvec ctx2 ∧ Num.p N' = Num.p ctx2).
Proof.
  intros Hclaim.
  assert (∃ N', LU.sp_ludcmp ctx2 A_empty_col 1%float = Some (FAILURE, N')
                ∧ Num.topvec N' = [0; 2] ∧ Num.p N' = [0; 5])
    as (N' & Hrun & Htv & Hp).
  { eexists. split; [vm_compute; reflexivity|]. by vm_compute. }
  destruct (Hclaim N' Hrun) as [Htv' _]. rewrite Htv in Htv'. discriminate.
Qed.

(** C2 (amended): when [sp_ludcmp] returns the failure status it has
    failed at some step [k]; the cells of [topvec] after [k] and the
    cells of [p] from [k] on are as they were at entry (the cells
    [topvec[0 .. k]] and [p[0 .. k-1]] have been written by the steps
    made). *)
Theorem sp_ludcmp_failure_frame {T} `{Scalar T} (N : sp_num T) A pivtol N' :
  LU.sp_ludcmp N A pivtol = Some (FAILURE, N') →
  ∃ k s, LU.ludcmp_loop N A pivtol = Some (k, Break s) ∧ LU.cN s = N'
         ∧ 0 ≤ k < ncols A
         ∧ (∀ j, k < j → rd (Num.topvec N') j = rd (Num.topvec N) j)
         ∧ (∀ j, k ≤ j → rd (Num.p N') j = rd (Num.p N) j).
Proof.
  unfold LU.sp_ludcmp. intros Hrun.
  apply bind_Some in Hrun as ([k [s|s]] & Hloop & Hrun).
  { apply bind_Some in Hrun as (? & _ & ?). simplify_eq. }
  simplify_eq. exists k, s. split; [done|]. split; [done|].
  unfold LU.ludcmp_loop in Hloop.
  apply bind_Some in Hloop as (s0 & Hinit & Hloop).
  destruct (ludcmp_init_frame _ _ _ Hinit) as (Htv0 & Hp0 & _).
  apply (for_break_inv
    (λ j s, (∀ i, j ≤ i → rd (Num.topvec (LU.cN s)) i = rd (Num.topvec N) i)
            ∧ (∀ i, j ≤ i → rd (Num.p (LU.cN s)) i = rd (Num.p N) i))
    (λ j s, (∀ i, j < i → rd (Num.topvec (LU.cN s)) i = rd (Num.topvec N) i)
            ∧ (∀ i, j ≤ i → rd (Num.p (LU.cN s)) i = rd (Num.p N) i)))
    in Hloop.
  - destruct Hloop as (? & ? & ?). done.
  - rewrite Htv0, Hp0. done.
  - intros j t t' Hj [Htv Hp] Hstep.
    apply ludcmp_step_frame in Hstep as (Htv' & Hp' & _). split.
    + intros i ?. rewrite Htv' by lia. apply Htv. lia.
    + intros i ?. rewrite Hp' by lia. apply Hp. lia.
  - intros j t t' Hj [Htv Hp] Hstep.
    apply ludcmp_step_frame in Hstep as (Htv' & Hp' & _). split.
    + intros i ?. rewrite Htv' by lia. apply Htv. lia.
    + intros i ?. rewrite Hp'. apply Hp. lia.
Qed.

(** The context that the failing call above leaves. *)
Definition ctx2_failed : sp_num float :=
  Eval vm_compute in
    match LU.sp_ludcmp ctx2 A_empty_col 1%float with
    | Some (_, N') => N'
    | None => ctx2
    end.

Lemma sp_ludcmp_failure_frame_witness :
  ∃ k s, LU.ludcmp_loop ctx2 A_empty_col 1%float = Some (k, Break s)
         ∧ LU.cN s = ctx2_failed
         ∧ 0 ≤ k < ncols A_empty_col
         ∧ (∀ j, k < j → rd (Num.topvec ctx2_failed) j = rd (Num.topvec ctx2) j)
         ∧ (∀ j, k ≤ j → rd (Num.p ctx2_failed) j = rd (Num.p ctx2) j).
Proof.
  apply (sp_ludcmp_failure_frame ctx2 A_empty_col 1%float ctx2_failed).
  vm_compute. reflexivity.
Defined.

(** An injective map of [0 .. n-1] into itself is onto. *)
Lemma injective_onto n (f : Z → Z) :
  (∀ j, 0 ≤ j < n → 0 ≤ f j < n) →
  (∀ j1 j2, 0 ≤ j1 < n → 0 ≤ j2 < n → f j1 = f j2 → j1 = j2) →
  ∀ i, 0 ≤ i < n → ∃ j, 0 ≤ j < n ∧ f j = i.
Proof.
  intros Hran Hinj i Hi.
  assert (f <$> seqZ 0 n ≡ₚ seqZ 0 n) as Hperm.
  { apply submseteq_length_Permutation.
    - apply NoDup_submseteq.
      + apply NoDup_fmap_2_strong; [|apply NoDup_seqZ].
        intros x y Hx%elem_of_seqZ Hy%elem_of_seqZ. apply Hinj; lia.
      + intros x (j & -> & Hj%elem_of_seqZ)%list_elem_of_fmap.
        apply elem_of_seqZ. specialize (Hran j). lia.
    - by rewrite length_fmap. }
  assert (i ∈ f <$> seqZ 0 n) as (j & -> & Hj%elem_of_seqZ)%list_elem_of_fmap.
  { rewrite Hperm. apply elem_of_seqZ. lia. }
  exists j. split; [lia|done].
Qed.

(** After [k] steps, [pinv] and [p] are inverse to each other on the
    pivots chosen so far, and the other rows have no pivot. *)
Definition perm_inv (n k : Z) (pinv p : list Z) : Prop :=
  (∀ i, 0 ≤ i < n →
     ∃ v, rd pinv i = Some v ∧ (v = -1 ∨ (0 ≤ v < k ∧ rd p v = Some i)))
  ∧ (∀ j, 0 ≤ j < k → ∃ i, rd p j = Some i ∧ rd pinv i = Some j).

Lemma perm_inv_step n k pinv p ipiv v pinv' p' :
  0 ≤ k →
  perm_inv n k pinv p →
  rd pinv ipiv = Some v → v < 0 → Z.of_nat (length pinv) = n →
  wr pinv ipiv k = Some pinv' → wr p k ipiv = Some p' →
  perm_inv n (k + 1) pinv' p'.
Proof.
  intros Hk [Hrows Hsteps] Hv Hneg Hlen Hwi Hwp.
  pose proof (rd_Some _ _ _ Hv) as Hran. split.
  - intros i Hi. rewrite (rd_wr _ _ _ _ _ Hwi). case_decide as Hd.
    + subst i. exists k. split; [done|]. right. split; [lia|].
      by eapply rd_wr_eq.
    + destruct (Hrows i Hi) as (u & Hu & Hcase). exists u. split; [done|].
      destruct Hcase as [?|[? Hpu]]; [by left|right]. split; [lia|].
      rewrite (rd_wr _ _ _ _ _ Hwp). case_decide; [lia|done].
  - intros j Hj. rewrite (rd_wr _ _ _ _ _ Hwp). case_decide as Hd.
    + subst j. exists ipiv. split; [done|]. by eapply rd_wr_eq.
    + destruct (Hsteps j ltac:(lia)) as (i & Hpj & Hij). exists i.
      split; [done|]. rewrite (rd_wr _ _ _ _ _ Hwi).
      case_decide; [|done]. simplify_eq. lia.
Qed.

Lemma perm_inv_full n pinv p :
  Z.of_nat (length pinv) = n →
  perm_inv n n pinv p →
  (∀ i, 0 ≤ i < n → ∃ k, 0 ≤ k < n ∧ rd pinv i = Some k ∧ rd p k = Some i)
  ∧ (∀ k, 0 ≤ k < n → ∃ i, 0 ≤ i < n ∧ rd p k = Some i ∧ rd pinv i = Some k).
Proof.
  intros Hlen [Hrows Hsteps].
  assert (∀ k, 0 ≤ k < n →
            ∃ i, 0 ≤ i < n ∧ rd p k = Some i ∧ rd pinv i = Some k) as Hp.
  { intros k Hk. destruct (Hsteps k Hk) as (i & ? & Hi). exists i.
    split; [|done]. apply rd_Some in Hi. lia. }
  split; [|done]. intros i Hi.
  destruct (injective_onto n (λ j, default 0 (rd p j))) with (i := i)
    as (k & Hk & Hki); [..|done|].
  - intros j Hj. destruct (Hp j Hj) as (i' & ? & -> & _). done.
  - intros j1 j2 Hj1 Hj2.
    destruct (Hp j1 Hj1) as (i1 & _ & -> & ?).
    destruct (Hp j2 Hj2) as (i2 & _ & -> & ?). simpl. congruence.
  - destruct (Hp k Hk) as (i' & _ & Hpk & ?). rewrite Hpk in Hki.
    simpl in Hki. subst i'. by exists k.
Qed.

Lemma finalize_frame {T} n (s : @LU.lu_loc T) N' :
  LU.finalize n s = Some N' →
  Num.pinv N' = Num.pinv (LU.cN s) ∧ Num.p N' = Num.p (LU.cN s)
  ∧ Num.topvec N' = Num.topvec (LU.cN s) ∧ Num.q N' = Num.q (LU.cN s).
Proof.
  unfold LU.finalize. intros Hf.
  apply bind_Some in Hf as (Lp & _ & Hf).
  apply bind_Some in Hf as (Up & _ & Hf).
  apply bind_Some in Hf as (Li & _ & Hf).
  by simplify_eq.
Qed.

(** The pivot of a step that succeeds is a row without a pivot. *)
Lemma chosen_pivot_fresh {T} `{Scalar T} n xi xik top pinv (x : list T)
    U0 unz0 ps col pivtol ipiv' :
  LU.find_pivot n xi xik top pinv x (LU.PivotState (-1) (-1)%float U0 unz0)
    = Some ps →
  no_pivot ps = false →
  LU.choose_pivot pinv x col pivtol (LU.ipiv ps) (LU.a ps) = Some ipiv' →
  ∃ v, rd pinv ipiv' = Some v ∧ v < 0.
Proof.
  intros Hfind Hno Hch.
  apply choose_pivot_spec in Hch. unfold prefers_diagonal in Hch.
  assert (∃ v, rd pinv (LU.ipiv ps) = Some v ∧ v < 0) as Hmax.
  { destruct (find_pivot_spec _ _ _ _ _ _ _ _ _ Hfind)
      as [_ [[Hm _]|[(p & _ & _ & Hv) _]]]; [|done].
    unfold no_pivot in Hno. rewrite Hm in Hno. done. }
  destruct (rd pinv col) as [pc|] eqn:Hpc; [|by subst].
  case_decide; [|by subst].
  destruct (rd x col); [|by subst].
  destruct (PrimFloat.leb _ _); subst; eauto.
Qed.

(** C4: after a call of [sp_ludcmp] that returns the success status, on
    a context whose [pinv] has one cell per column of [A], the arrays
    [p] and [pinv] are permutations of [0 .. n-1] inverse to each other:
    [p[pinv[i]] = i] for every row [i] and [pinv[p[k]] = k] for every
    step [k]. *)
Theorem sp_ludcmp_permutation {T} `{Scalar T} (N : sp_num T) A pivtol N' :
  LU.sp_ludcmp N A pivtol = Some (SUCCESS, N') →
  Z.of_nat (length (Num.pinv N)) = ncols A →
  (∀ i, 0 ≤ i < ncols A →
     ∃ k, 0 ≤ k < ncols A ∧ rd (Num.pinv N') i = Some k
          ∧ rd (Num.p N') k = Some i)
  ∧ (∀ k, 0 ≤ k < ncols A →
       ∃ i, 0 ≤ i < ncols A ∧ rd (Num.p N') k = Some i
            ∧ rd (Num.pinv N') i = Some k).
Proof.
  unfold LU.sp_ludcmp. intros Hrun Hlen.
  apply bind_Some in Hrun as ([k [s|s]] & Hloop & Hrun); [|done].
  apply bind_Some in Hrun as (N1 & Hfin & Hrun). simplify_eq.
  destruct (finalize_frame _ _ _ Hfin) as (-> & -> & _).
  unfold LU.ludcmp_loop in Hloop.
  apply bind_Some in Hloop as (s0 & Hinit & Hloop).
  destruct (ludcmp_init_frame _ _ _ Hinit) as (_ & _ & _ & _ & Hfill).
  destruct (fill_frame _ _ _ _ Hfill) as (Hlen0 & Hinit0 & _).
  apply (for_break_inv
    (λ k s, Z.of_nat (length (Num.pinv (LU.cN s))) = ncols A
            ∧ perm_inv (ncols A) k (Num.pinv (LU.cN s)) (Num.p (LU.cN s)))
    (λ _ _, True)) in Hloop.
  - destruct Hloop as (-> & Hl & Hinv).
    replace (Z.max 0 (ncols A)) with (ncols A) in Hinv by lia.
    by apply perm_inv_full.
  - split; [lia|]. split; [|intros; lia].
    intros i Hi. exists (-1). split; [by apply Hinit0|by left].
  - intros j t t' Hj [Hl Hinv] Hstep.
    destruct (ludcmp_step_inv _ _ _ _ _ Hstep)
      as (col & top & s1 & xik & ps & Hsolve & _ & Hfind & Hcase).
    destruct (step_solve_frame _ _ _ _ _ _ Hsolve)
      as (_ & _ & _ & _ & Hpinv & Hp & _).
    destruct Hcase as [(_ & s2 & ? & _)
                      |(Hno & ipiv' & s2 & ? & Hch & Hwi & Hwp & _)];
      simplify_eq.
    destruct (chosen_pivot_fresh _ _ _ _ _ _ _ _ _ _ _ _ Hfind Hno Hch)
      as (v & Hv & Hneg).
    rewrite Hpinv in *. rewrite Hp in *. split.
    + erewrite wr_length; done.
    + eapply perm_inv_step; [| | | | |done..]; [lia|done..].
  - done.
Qed.

(** The context that the factorisation of the matrix with columns
    (4, 2) and (1, 3) leaves. *)
Definition A_full : sp_mat float :=
  Build_sp_mat 2 2 4 [4; 2; 1; 3]%float [0; 1; 0; 1] [0; 2; 4].

Definition ctx2_done : sp_num float :=
  Eval vm_compute in
    match LU.sp_ludcmp ctx2 A_full 1%float with
    | Some (_, N') => N'
    | None => ctx2
    end.

Lemma sp_ludcmp_permutation_witness :
  (∀ i, 0 ≤ i < ncols A_full →
     ∃ k, 0 ≤ k < ncols A_full ∧ rd (Num.pinv ctx2_done) i = Some k
          ∧ rd (Num.p ctx2_done) k = Some i)
  ∧ (∀ k, 0 ≤ k < ncols A_full →
       ∃ i, 0 ≤ i < ncols A_full ∧ rd (Num.p ctx2_done) k = Some i
            ∧ rd (Num.pinv ctx2_done) i = Some k).
Proof.
  apply (sp_ludcmp_permutation ctx2 A_full 1%float ctx2_done).
  - vm_compute. reflexivity.
  - reflexivity.
Defined.






(** *** Singular matrices *)

(** Every stored value of column [c] of [A] is a zero (the column may
    also be empty). *)
Definition zero_column (A : sp_mat float) (c : Z) : Prop :=
  ∀ lo hi p v,
    rd (Ap A) c = Some lo → rd (Ap A) (c + 1) = Some hi →
    lo ≤ p < hi → rd (Ax A) p = Some v → PrimFloat.eqb v 0%float = true.

(** Row [i] is on the stack [xik[top .. n-1]]. *)
Definition on_stack (xi : list Z) (xik top n i : Z) : Prop :=
  ∃ p, top ≤ p < n ∧ rd xi (xik + p) = Some i.

(** The solution is a zero or a NaN on every row of the stack. *)
Definition stack_null (xi : list Z) (xik top n : Z) (x : list float) : Prop :=
  ∀ i v, on_stack xi xik top n i → rd x i = Some v → DoubleFacts.null v.

Lemma stack_null_wr xi xik top n x i v x' :
  stack_null xi xik top n x →
  wr x i v = Some x' →
  (on_stack xi xik top n i → DoubleFacts.null v) →
  stack_null xi xik top n x'.
Proof.
  intros Hx Hw Hv j u Hj. rewrite (rd_wr _ _ _ _ _ Hw).
  case_decide; [|by apply Hx]. intros [= <-]. subst. by apply Hv.
Qed.

(** The triangular solve of a zero column leaves zeros and NaNs on the
    stack. *)
Lemma splsolve_zero_column (G A : sp_mat float) c xi xik top x0 pinv x :
  LU.sp_splsolve G A c xi xik top x0 pinv = Some x →
  zero_column A c →
  stack_null xi xik top (ncols G) x.
Proof.
  unfold LU.sp_splsolve. intros Hrun Hzero. set (n := ncols G) in *.
  apply bind_Some in Hrun as (x1 & Hx1 & Hrun).
  apply bind_Some in Hrun as (lo & Hlo & Hrun).
  apply bind_Some in Hrun as (hi & Hhi & Hrun).
  apply bind_Some in Hrun as (x2 & Hx2 & Hrun).
  assert (stack_null xi xik top n x1) as Hn1.
  { apply (for_range_inv (λ p x, stack_null xi xik top (Z.min p n) x))
      in Hx1.
    - intros i v (p & Hp & Hi). apply Hx1. exists p. split; [lia|done].
    - intros i v (p & Hp & _). lia.
    - clear. intros p x x' Hp Hx Hbody.
      apply bind_Some in Hbody as (i & Hi & Hw).
      intros j u (p' & Hp' & Hj). rewrite (rd_wr _ _ _ _ _ Hw).
      case_decide; [intros [= <-]; apply DoubleFacts.null_zero|].
      apply Hx. exists p'. split; [|done].
      destruct (decide (p' = p)); [congruence|lia]. }
  assert (stack_null xi xik top n x2) as Hn2.
  { apply (for_range_inv (λ _ x, stack_null xi xik top n x)) in Hx2;
      [done..|].
    intros p x' x'' Hp Hx Hbody.
    apply bind_Some in Hbody as (i & Hi & Hbody).
    apply bind_Some in Hbody as (v & Hv & Hw).
    eapply stack_null_wr; [done..|]. intros _.
    apply DoubleFacts.eqb_zero_null. by eapply Hzero. }
  apply (for_range_inv (λ _ x, stack_null xi xik top n x)) in Hrun;
    [done..|].
  clear Hrun Hx1 Hx2. intros px y y' Hpx Hy Hbody.
  apply bind_Some in Hbody as (j & Hj & Hbody).
  apply bind_Some in Hbody as (J & HJ & Hbody).
  case_decide; [by simplify_eq|].
  apply bind_Some in Hbody as (gJ & HgJ & Hbody).
  apply bind_Some in Hbody as (d & Hd & Hbody).
  apply bind_Some in Hbody as (xj & Hxj & Hbody).
  apply bind_Some in Hbody as (y1 & Hy1 & Hbody).
  apply bind_Some in Hbody as (q & Hq & Hbody).
  assert (on_stack xi xik top n j) as Hon by (by exists px).
  assert (stack_null xi xik top n y1) as Hn3.
  { eapply stack_null_wr; [done..|]. intros _.
    apply DoubleFacts.null_div. by eapply Hy. }
  apply (for_range_inv (λ _ x, stack_null xi xik top n x)) in Hbody;
    [done..|].
  intros p z z' Hp Hz Hinner.
  apply bind_Some in Hinner as (i & Hi & Hinner).
  apply bind_Some in Hinner as (g & Hg & Hinner).
  apply bind_Some in Hinner as (zj & Hzj & Hinner).
  apply bind_Some in Hinner as (zi & Hzi & Hw).
  eapply stack_null_wr; [done..|]. intros Hion.
  apply DoubleFacts.null_sub; [eapply Hz; [exact Hion|done]|].
  apply (DoubleFacts.null_mul g zj). eapply Hz; [exact Hon|done].
Qed.

(** The triangular solve at the end of the first part of a step. *)
Lemma step_solve_splsolve {T} `{Scalar T} A k (s : @LU.lu_loc T) col top s1 :
  LU.step_solve A k s = Some (col, top, s1) →
  ∃ G xik x0,
    ncols G = ncols (Num.L (LU.cN s))
    ∧ ncols (Num.L (LU.cN s1)) = ncols (Num.L (LU.cN s))
    ∧ LU.xi_row (LU.cN s1) k = Some xik
    ∧ LU.sp_splsolve G A col (Num.xi (LU.cN s1)) xik top x0
        (Num.pinv (LU.cN s1)) = Some (Num.w (LU.cN s1)).
Proof.
  unfold LU.step_solve. intros Hs.
  apply bind_Some in Hs as (Lp & HLp & Hs).
  apply bind_Some in Hs as (Up & HUp & Hs).
  apply bind_Some in Hs as (col' & Hcol & Hs).
  apply bind_Some in Hs as (xik & Hxik & Hs).
  apply bind_Some in Hs as ([[top' Gp] xi'] & Hreach & Hs).
  apply bind_Some in Hs as (tv & Htv & Hs).
  apply bind_Some in Hs as (x & Hx & Hs).
  simpl in *. simplify_eq. simpl. eexists _, xik, _.
  split_and!; [| |done|done]; done.
Qed.

(** A step on a zero column fails. *)
Lemma zero_column_step A pivtol k (s : @LU.lu_loc float) c r :
  LU.ludcmp_step A pivtol k s = Some r →
  ncols (Num.L (LU.cN s)) = ncols A →
  LU.col_of (LU.cN s) k = Some c →
  zero_column A c →
  ∃ s2, r = Break s2.
Proof.
  intros Hstep Hn Hc Hzero.
  destruct (ludcmp_step_inv _ _ _ _ _ Hstep)
    as (col & top & s1 & xik & ps & Hsolve & Hxik & Hfind & Hcase).
  destruct (step_solve_frame _ _ _ _ _ _ Hsolve) as (Hcol & _).
  destruct (step_solve_splsolve _ _ _ _ _ _ Hsolve)
    as (G & xik' & x0 & HG & _ & Hxik' & Hspl).
  simplify_eq.
  pose proof (splsolve_zero_column _ _ _ _ _ _ _ _ _ Hspl Hzero) as Hnull.
  rewrite HG, Hn in Hnull.
  destruct Hcase as [(_ & s2 & -> & _)|(Hno & _)]; [by eexists|].
  exfalso. unfold no_pivot in Hno. apply orb_false_elim in Hno as [_ Hleb].
  destruct (find_pivot_spec _ _ _ _ _ _ _ _ _ Hfind) as [_ Hsel].
  destruct Hsel as [[_ Ha]|((p & Hp & Hi & _) & xv & b & Hx & Ha & Hlt)].
  - rewrite Ha in Hleb. done.
  - rewrite Ha in Hleb, Hlt.
    assert (PrimFloat.leb (PrimFloat.abs xv) 0%float = true) as Hz.
    { apply (DoubleFacts.null_abs_leb b xv); [|done].
      eapply Hnull; [|done]. by exists p. }
    simpl in Hleb. congruence.
Qed.

Lemma store_L_ncols {T} `{Scalar T} n xi xik top pinv (pivot : T) L0 lnz0 x0 L1 lnz1 x1 :
  LU.store_L n xi xik top pinv pivot (L0, lnz0, x0) = Some (L1, lnz1, x1) →
  ncols L1 = ncols L0.
Proof.
  unfold LU.store_L. intros Hrun.
  apply (for_range_inv (λ _ s, ncols s.1.1 = ncols L0)) in Hrun; [done..|].
  clear. intros p [[L lnz] x] [[L' lnz'] x'] _ HL Hbody. simpl in *.
  apply bind_Some in Hbody as (i & _ & Hbody).
  apply bind_Some in Hbody as (pi & _ & Hbody).
  apply bind_Some in Hbody as ([L2 lnz2] & HL2 & Hbody).
  apply bind_Some in Hbody as (x2 & _ & Hbody). simplify_eq.
  case_decide; [|by simplify_eq].
  apply bind_Some in HL2 as (Li & _ & HL2).
  apply bind_Some in HL2 as (xv & _ & HL2).
  apply bind_Some in HL2 as (Lx & _ & HL2). by simplify_eq.
Qed.

Lemma ludcmp_step_ncols {T} `{Scalar T} A pivtol k (s : @LU.lu_loc T) s2 :
  LU.ludcmp_step A pivtol k s = Some (Next s2) →
  ncols (Num.L (LU.cN s2)) = ncols (Num.L (LU.cN s)).
Proof.
  unfold LU.ludcmp_step. intros Hs.
  apply bind_Some in Hs as ([[col top] s1] & Hsolve & Hs).
  destruct (step_solve_splsolve _ _ _ _ _ _ Hsolve) as (_ & _ & _ & _ & HL & _).
  apply bind_Some in Hs as (xik & Hxik & Hs).
  apply bind_Some in Hs as (ps & Hps & Hs).
  destruct (_ || _); [done|].
  apply bind_Some in Hs as (ipiv' & Hch & Hs).
  apply bind_Some in Hs as (pivot & _ & Hs).
  apply bind_Some in Hs as (Ui & _ & Hs).
  apply bind_Some in Hs as (Ux & _ & Hs).
  apply bind_Some in Hs as (pinv' & Hpinv & Hs).
  apply bind_Some in Hs as (pvec' & Hpvec & Hs).
  apply bind_Some in Hs as (Li & _ & Hs).
  apply bind_Some in Hs as (Lx & _ & Hs).
  apply bind_Some in Hs as ([[L' lnz'] x'] & HstL & Hs).
  apply store_L_ncols in HstL. simpl in *. simplify_eq. simpl.
  by rewrite HstL.
Qed.

Lemma ludcmp_init_ncols {T} `{Scalar T} n (N : sp_num T) s :
  LU.ludcmp_init n N = Some s →
  ncols (Num.L (LU.cN s)) = ncols (Num.L N).
Proof.
  unfold LU.ludcmp_init. intros Hi.
  apply bind_Some in Hi as (x & _ & Hi).
  apply bind_Some in Hi as (pinv & Hpinv & Hi).
  apply bind_Some in Hi as (Lp & _ & Hi).
  by simplify_eq.
Qed.

(** A matrix with a zero column is never factorised with success. *)
Lemma zero_column_failure (N : sp_num float) A pivtol k c st N' :
  0 ≤ k < ncols A →
  ncols (Num.L N) = ncols A →
  LU.col_of N k = Some c →
  zero_column A c →
  LU.sp_ludcmp N A pivtol = Some (st, N') →
  st = FAILURE.
Proof.
  intros Hk Hn Hc Hzero. unfold LU.sp_ludcmp. intros Hrun.
  apply bind_Some in Hrun as ([j [s|s]] & Hloop & Hrun); [|by simplify_eq].
  exfalso. clear Hrun. unfold LU.ludcmp_loop in Hloop.
  apply bind_Some in Hloop as (s0 & Hinit & Hloop).
  destruct (ludcmp_init_frame _ _ _ Hinit) as (_ & _ & Hq0 & _).
  pose proof (ludcmp_init_ncols _ _ _ Hinit) as Hn0.
  apply (for_break_inv
    (λ j s, j ≤ k ∧ Num.q (LU.cN s) = Num.q N
            ∧ ncols (Num.L (LU.cN s)) = ncols A)
    (λ _ _, True)) in Hloop.
  - destruct Hloop as (? & ? & _). lia.
  - split_and!; [lia|done|congruence].
  - intros i t t' Hi (Hik & Hq & HL) Hstep.
    pose proof (ludcmp_step_frame _ _ _ _ _ Hstep) as (_ & _ & Hq').
    pose proof (ludcmp_step_ncols _ _ _ _ _ Hstep) as HL'.
    split_and!; [|congruence..].
    destruct (decide (i = k)) as [->|]; [|lia]. exfalso.
    destruct (zero_column_step _ _ _ _ c _ Hstep) as [s2 ?]; [done| |done..].
    unfold LU.col_of in *. by rewrite Hq.
  - done.
Qed.

(** A step fails exactly when no candidate has a magnitude above
    zero. *)
Lemma step_failure_iff {T} `{Scalar T} A pivtol k (s : @LU.lu_loc T) col top s1 r :
  LU.step_solve A k s = Some (col, top, s1) →
  LU.ludcmp_step A pivtol k s = Some r →
  ∀ xik, LU.xi_row (LU.cN s1) k = Some xik →
  (∃ s2, r = Break s2) ↔
  (∀ i xv,
     candidate (Num.xi (LU.cN s1)) (Num.pinv (LU.cN s1)) xik top (ncols A) i →
     rd (Num.w (LU.cN s1)) i = Some xv →
     PrimFloat.ltb 0%float (s_abs xv) = false).
Proof.
  intros Hsolve Hstep xik Hxik.
  destruct (ludcmp_step_inv _ _ _ _ _ Hstep)
    as (col' & top' & s1' & xik' & ps & Hsolve' & Hxik' & Hfind & Hcase).
  rewrite Hsolve in Hsolve'. simplify_eq.
  destruct (find_pivot_spec _ _ _ _ _ _ _ _ _ Hfind) as [Hmax Hsel].
  assert (no_pivot ps = true ↔ ∃ s2, r = Break s2) as <-.
  { destruct Hcase as [(-> & s2 & -> & _)|(-> & ? & s2 & -> & _)].
    - split; [by eexists|done].
    - split; [done|]. by intros [? ?]. }
  unfold no_pivot. split.
  - intros Hno i xv Hc Hxv. specialize (Hmax i xv Hc Hxv).
    apply orb_true_iff in Hno as [Hm|Hle].
    + apply bool_decide_eq_true in Hm.
      destruct Hsel as [[_ Ha]|[(p & _ & _ & v & Hv & _) _]].
      * rewrite Ha in Hmax. by eapply DoubleFacts.leb_ltb_chain.
      * rewrite Hm in Hv. apply rd_Some in Hv. lia.
    + by eapply DoubleFacts.leb_ltb_chain.
  - intros Hall. apply orb_true_iff.
    destruct Hsel as [[Hm _]|(Hc & xv & b & Hx & Ha & Hlt)].
    + left. by apply bool_decide_eq_true.
    + right. eapply DoubleFacts.not_pos_leb; [done|].
      rewrite Ha. by eapply Hall.
Qed.

(** The factorisation of the matrix with an empty column, and of the
    matrix with the columns (4, 2) and (0, 0), fails. *)
Definition A_zero_col : sp_mat float :=
  Build_sp_mat 2 2 4 [4; 2; 0; 0]%float [0; 1; 0; 1] [0; 2; 4].

Lemma zero_column_examples :
  (zero_column A_empty_col 1
   ∧ ∃ N', LU.sp_ludcmp ctx2 A_empty_col 1%float = Some (FAILURE, N'))
  ∧ (zero_column A_zero_col 1
     ∧ ∃ N', LU.sp_ludcmp ctx2 A_zero_col 1%float = Some (FAILURE, N')).
Proof.
  split; (split; [|eexists; vm_compute; reflexivity]).
  - intros lo hi p v [= <-] [= <-]. lia.
  - intros lo hi p v [= <-] [= <-] Hp.
    assert (p = 2 ∨ p = 3) as [-> | ->] by lia; by intros [= <-].
Qed.

(** The matrix with the columns (0, 2) and (1, 3): the pattern of
    [A_full], with a zero where the factorisation of [A_full] has put
    its first pivot. *)
Definition A_zero_pivot : sp_mat float :=
  Build_sp_mat 2 2 4 [0; 2; 1; 3]%float [0; 1; 0; 1] [0; 2; 4].

(** ** The factorisation returns *)

(** A list without repetition of numbers of [0 .. n-1] has at most [n]
    elements. *)
Lemma nodup_bound (l : list Z) n :
  NoDup l → (∀ e, e ∈ l → 0 ≤ e < n) → Z.of_nat (length l) ≤ Z.max 0 n.
Proof.
  intros Hnd Hran.
  assert (l ⊆+ seqZ 0 n) as Hsub.
  { apply NoDup_submseteq; [done|]. intros e He%Hran. apply elem_of_seqZ. lia. }
  apply submseteq_length in Hsub. rewrite length_seqZ in Hsub. lia.
Qed.

Lemma SPUNFLIP_id v : 0 ≤ v → SPUNFLIP v = v.
Proof. intros ?. unfold SPUNFLIP. by rewrite decide_False by lia. Qed.

Lemma SPUNFLIP_FLIP v : 0 ≤ v → SPUNFLIP (SPFLIP v) = v.
Proof.
  intros ?. unfold SPUNFLIP, SPFLIP. rewrite decide_True by lia. lia.
Qed.

Lemma SPFLIP_FLIP v : SPFLIP (SPFLIP v) = v.
Proof. unfold SPFLIP. lia. Qed.

(** Column [e] of [Gp] is marked. *)
Definition marked (Gp : list Z) (e : Z) : Prop :=
  ∃ v, rd Gp e = Some v ∧ v < 0.

Lemma SPMARKED_spec Gp e v :
  rd Gp e = Some v → SPMARKED Gp e = Some (bool_decide (v < 0)).
Proof. unfold SPMARKED. by intros ->. Qed.

(** [stk] lists the cells [xik[top .. n-1]] of the block [xi]. *)
Definition stack_list (xi : list Z) (xik top n : Z) (stk : list Z) : Prop :=
  Z.of_nat (length stk) = n - top
  ∧ ∀ p, top ≤ p < n → rd xi (xik + p) = stk !! Z.to_nat (p - top).

Lemma stack_list_push xi xik top n stk j xi' :
  0 ≤ xik → 1 ≤ top ≤ n →
  stack_list xi xik top n stk →
  wr xi (xik + (top - 1)) j = Some xi' →
  stack_list xi' xik (top - 1) n (j :: stk).
Proof.
  intros Hxik Htop [Hlen Hstk] Hw. split; [simpl; lia|].
  intros p Hp. rewrite (rd_wr _ _ _ _ _ Hw). case_decide as Hd.
  - replace p with (top - 1) by lia. by replace (top - 1 - (top - 1)) with 0 by lia.
  - rewrite Hstk by lia.
    replace (Z.to_nat (p - (top - 1))) with (S (Z.to_nat (p - top))) by lia.
    done.
Qed.

Lemma stack_list_elem xi xik top n stk e :
  stack_list xi xik top n stk →
  e ∈ stk ↔ ∃ p, top ≤ p < n ∧ rd xi (xik + p) = Some e.
Proof.
  intros [Hlen Hstk]. rewrite list_elem_of_lookup. split.
  - intros [i Hi]. pose proof (lookup_lt_Some _ _ _ Hi).
    exists (top + Z.of_nat i). split; [lia|]. rewrite Hstk by lia.
    by replace (Z.to_nat (top + Z.of_nat i - top)) with i by lia.
  - intros (p & Hp & He). exists (Z.to_nat (p - top)). by rewrite <-Hstk.
Qed.

(** The stack [xik[top .. n-1]] holds rows of [0 .. n-1], none twice. *)
Definition stack_ok (n xik : Z) (xi : list Z) (top : Z) : Prop :=
  0 ≤ top ≤ n
  ∧ ∃ stk, stack_list xi xik top n stk ∧ NoDup stk
           ∧ ∀ e, e ∈ stk → 0 ≤ e < n.

Lemma stack_list_inj n xik xi top stk p1 p2 e :
  stack_list xi xik top n stk → NoDup stk →
  top ≤ p1 < n → top ≤ p2 < n →
  rd xi (xik + p1) = Some e → rd xi (xik + p2) = Some e → p1 = p2.
Proof.
  intros [Hlen Hstk] Hnd Hp1 Hp2 H1 H2.
  rewrite Hstk in H1, H2 by done.
  pose proof (NoDup_lookup _ _ _ _ Hnd H1 H2). lia.
Qed.

Section Reach.
Variables (n k lnz : Z) (Lp0 Gi pinv : list Z) (xik : Z) (lxi : nat).
Hypothesis HLp_len : Z.of_nat (length Lp0) = n + 1.
Hypothesis HLp_pos : ∀ j, 0 ≤ j ≤ n → ∃ v, rd Lp0 j = Some v ∧ 0 ≤ v.
Hypothesis Hcols :
  ∀ j, 0 ≤ j < k →
    ∃ a b, rd Lp0 j = Some a ∧ rd Lp0 (j + 1) = Some b ∧ a < b ≤ lnz.
Hypothesis Hk : 0 ≤ k ≤ n.
Hypothesis Hrows : ∀ p, 0 ≤ p < lnz → ∃ i, rd Gi p = Some i ∧ 0 ≤ i < n.
Hypothesis Hpinv : ∀ i, 0 ≤ i < n → ∃ v, rd pinv i = Some v ∧ -1 ≤ v < k.
Hypothesis Hxik : 0 ≤ xik ∧ xik + n ≤ Z.of_nat lxi.

(** The invariant of the depth-first search: [Gp] is [Lp0] with some
    columns marked; the marked columns are those of [path] (the columns
    in which a call of [dfsr] is running) and those of the stack, and no
    column occurs twice among them. *)
Record dfs_inv (path : list Z) (s : LU.dfs_state) : Prop := {
  di_Gp_len : length (LU.dGp s) = length Lp0;
  di_Gp : ∀ j v0, rd Lp0 j = Some v0 →
            rd (LU.dGp s) j = Some v0 ∨ rd (LU.dGp s) j = Some (SPFLIP v0);
  di_xi_len : length (LU.dxi s) = lxi;
  di_top : 0 ≤ LU.dtop s ≤ n;
  di_stk : ∃ stk,
    stack_list (LU.dxi s) xik (LU.dtop s) n stk
    ∧ NoDup (path ++ stk)
    ∧ (∀ e, e ∈ path ++ stk → 0 ≤ e < n ∧ marked (LU.dGp s) e)
    ∧ (∀ e, marked (LU.dGp s) e → e ∈ path ++ stk);
}.

(** What a search changes: marks are only added, and of the block of
    [xi] only the row [xik] is written. *)
Definition dfs_grows (s s' : LU.dfs_state) : Prop :=
  (∀ e, marked (LU.dGp s) e → marked (LU.dGp s') e)
  ∧ (∀ i, ¬ xik ≤ i < xik + n → rd (LU.dxi s') i = rd (LU.dxi s) i).

Lemma dfs_grows_refl s : dfs_grows s s.
Proof. by split. Qed.

Lemma dfs_grows_trans s1 s2 s3 :
  dfs_grows s1 s2 → dfs_grows s2 s3 → dfs_grows s1 s3.
Proof.
  intros [Hm1 Hx1] [Hm2 Hx2]. split; [by auto|].
  intros i Hi. rewrite Hx2, Hx1; done.
Qed.

Lemma unflip_base s path j v0 g :
  dfs_inv path s → 0 ≤ j ≤ n → rd Lp0 j = Some v0 →
  rd (LU.dGp s) j = Some g → SPUNFLIP g = v0.
Proof.
  intros Hinv Hj Hv0 Hg.
  destruct (HLp_pos j Hj) as (v & Hv & Hpos).
  rewrite Hv0 in Hv. injection Hv as <-.
  destruct (di_Gp _ _ Hinv j v0 Hv0) as [Hg'|Hg']; rewrite Hg in Hg';
    injection Hg' as ->; [by apply SPUNFLIP_id|by apply SPUNFLIP_FLIP].
Qed.

Lemma rd_Gp s path j :
  dfs_inv path s → 0 ≤ j ≤ n → ∃ g, rd (LU.dGp s) j = Some g.
Proof.
  intros Hinv Hj. destruct (HLp_pos j Hj) as (v & Hv & _).
  destruct (di_Gp _ _ Hinv j v Hv); eauto.
Qed.

Lemma path_bound s path :
  dfs_inv path s →
  Z.of_nat (length path) + (n - LU.dtop s) ≤ n.
Proof.
  intros Hinv. destruct (di_stk _ _ Hinv) as (stk & [Hlen _] & Hnd & Hran & _).
  pose proof (nodup_bound _ n Hnd) as Hb.
  rewrite length_app in Hb. specialize (Hb (λ e He, proj1 (Hran e He))).
  pose proof (di_top _ _ Hinv). lia.
Qed.

(** Marking a column that is not marked. *)
Lemma dfs_inv_mark s path j :
  dfs_inv path s → 0 ≤ j < n → ¬ marked (LU.dGp s) j →
  ∃ Gp, SPMARK (LU.dGp s) j = Some Gp
        ∧ dfs_inv (j :: path) (LU.DfsState Gp (LU.dtop s) (LU.dxi s))
        ∧ dfs_grows s (LU.DfsState Gp (LU.dtop s) (LU.dxi s)).
Proof.
  intros Hinv Hj Hun.
  destruct (HLp_pos j ltac:(lia)) as (v0 & Hv0 & Hpos).
  assert (rd (LU.dGp s) j = Some v0) as Hg.
  { destruct (di_Gp _ _ Hinv j v0 Hv0) as [?|Hg]; [done|].
    destruct Hun. exists (SPFLIP v0). split; [done|]. unfold SPFLIP. lia. }
  unfold SPMARK. rewrite Hg. simpl.
  assert (wr (LU.dGp s) j (SPFLIP v0)
          = Some (<[Z.to_nat j:=SPFLIP v0]> (LU.dGp s))) as Hw.
  { apply wr_is_Some. rewrite (di_Gp_len _ _ Hinv). lia. }
  rewrite Hw. eexists. split; [done|].
  assert (∀ e, marked (<[Z.to_nat j:=SPFLIP v0]> (LU.dGp s)) e
               ↔ e = j ∨ marked (LU.dGp s) e) as Hmk.
  { intros e. unfold marked. rewrite (rd_wr _ _ _ _ _ Hw). case_decide.
    - subst e. split; [by left|]. intros _. exists (SPFLIP v0).
      split; [done|]. unfold SPFLIP. lia.
    - split; [by right|]. by intros [?|?]. }
  destruct (di_stk _ _ Hinv) as (stk & Hsl & Hnd & Hran & Hall).
  split; [split; simpl|split; simpl].
  - rewrite length_insert. apply (di_Gp_len _ _ Hinv).
  - intros i vi Hvi. rewrite (rd_wr _ _ _ _ _ Hw). case_decide.
    + subst i. simplify_eq. by right.
    + by apply (di_Gp _ _ Hinv).
  - apply (di_xi_len _ _ Hinv).
  - apply (di_top _ _ Hinv).
  - exists stk. split_and!; [done| | |].
    + simpl. apply NoDup_cons. split; [|done].
      intros Hin. apply Hun. by apply Hran.
    + intros e. simpl. rewrite elem_of_cons, Hmk. intros [->|He].
      * split; [done|by left].
      * destruct (Hran e He). split; [done|by right].
    + intros e. simpl. rewrite elem_of_cons, Hmk. intros [->|He].
      * by left.
      * right. by apply Hall.
  - intros e He. apply Hmk. by right.
  - done.
Qed.

(** Pushing the column of the running call on the stack. *)
Lemma dfs_inv_push s path j :
  dfs_inv (j :: path) s →
  ∃ xi, wr (LU.dxi s) (xik + (LU.dtop s - 1)) j = Some xi
        ∧ dfs_inv path (LU.DfsState (LU.dGp s) (LU.dtop s - 1) xi)
        ∧ dfs_grows s (LU.DfsState (LU.dGp s) (LU.dtop s - 1) xi).
Proof.
  intros Hinv. pose proof (path_bound _ _ Hinv) as Hb. simpl in Hb.
  pose proof (di_top _ _ Hinv) as Htop.
  assert (wr (LU.dxi s) (xik + (LU.dtop s - 1)) j
          = Some (<[Z.to_nat (xik + (LU.dtop s - 1)):=j]> (LU.dxi s))) as Hw.
  { apply wr_is_Some. rewrite (di_xi_len _ _ Hinv). lia. }
  rewrite Hw. eexists. split; [done|].
  destruct (di_stk _ _ Hinv) as (stk & Hsl & Hnd & Hran & Hall).
  split; [split; simpl|split; simpl].
  - apply (di_Gp_len _ _ Hinv).
  - apply (di_Gp _ _ Hinv).
  - rewrite length_insert. apply (di_xi_len _ _ Hinv).
  - lia.
  - exists (j :: stk). split_and!.
    + eapply stack_list_push; [lia|lia|done..].
    + by rewrite <-Permutation_middle.
    + intros e He. apply Hran. by rewrite <-Permutation_middle in He.
    + intros e He. rewrite <-Permutation_middle. by apply Hall.
  - done.
  - intros i Hi. rewrite (rd_wr _ _ _ _ _ Hw). case_decide; [lia|done].
Qed.

(** [dfsr] returns when the fuel covers the columns that are not on the
    path of the running calls. *)
Lemma dfsr_total fuel :
  ∀ path j s,
    dfs_inv path s → 0 ≤ j < n → ¬ marked (LU.dGp s) j →
    n + 1 ≤ Z.of_nat fuel + Z.of_nat (length path) →
    ∃ s', LU.dfsr fuel j Gi xik pinv s = Some s'
          ∧ dfs_inv path s' ∧ dfs_grows s s' ∧ marked (LU.dGp s') j.
Proof.
  induction fuel as [|f IH]; intros path j s Hinv Hj Hun Hfuel.
  { exfalso. pose proof (path_bound _ _ Hinv).
    pose proof (di_top _ _ Hinv). lia. }
  simpl. destruct (Hpinv j Hj) as (jnew & Hjnew & Hjr). rewrite Hjnew. simpl.
  destruct (dfs_inv_mark s path j Hinv Hj Hun) as (Gp & -> & Hinv1 & Hg1).
  simpl. set (s1 := LU.DfsState Gp (LU.dtop s) (LU.dxi s)) in *.
  assert (marked (LU.dGp s1) j) as Hmj.
  { destruct (di_stk _ _ Hinv1) as (stk & _ & _ & Hran & _).
    apply Hran. simpl. left. }
  match goal with
  | |- ∃ s', (?inner ≫= _) = Some s' ∧ _ =>
      assert (∃ s2, inner = Some s2 ∧ dfs_inv (j :: path) s2
                    ∧ dfs_grows s1 s2) as (s2 & -> & Hinv2 & Hg2)
  end.
  { case_decide as Hneg; [|exists s1; split_and!; [done..|apply dfs_grows_refl]].
    destruct (Hcols jnew) as (a & b & Ha & Hb & Hab); [lia|].
    assert (0 ≤ a) as Ha0.
    { destruct (HLp_pos jnew) as (a' & Ha' & ?); [lia|]. congruence. }
    destruct (rd_Gp s1 _ jnew Hinv1) as [g1 Hg1']; [lia|].
    destruct (rd_Gp s1 _ (jnew + 1) Hinv1) as [g2 Hg2']; [lia|].
    simpl in Hg1', Hg2'. rewrite Hg1', Hg2'. simpl.
    rewrite (unflip_base s1 _ jnew a g1 Hinv1) by (done || lia).
    rewrite (unflip_base s1 _ (jnew + 1) b g2 Hinv1) by (done || lia).
    match goal with
    | |- ∃ s2, for_range a b ?body s1 = Some s2 ∧ _ =>
        destruct (for_range_total
          (λ _ s2, dfs_inv (j :: path) s2 ∧ dfs_grows s1 s2) a b body s1)
          as (s2 & Hrun & Hinv2 & Hg2)
    end.
    - split; [done|apply dfs_grows_refl].
    - intros p t Hp [Hit Hgt].
      destruct (Hrows p) as (i & Hi & Hir); [lia|]. rewrite Hi. simpl.
      destruct (rd_Gp t _ i Hit) as [g Hg]; [lia|].
      rewrite (SPMARKED_spec _ _ _ Hg). simpl.
      case_bool_decide as Hm.
      + exists t. done.
      + destruct (IH (j :: path) i t Hit Hir) as (t' & Ht' & ? & ? & _).
        * intros (v & Hv & Hlt). rewrite Hg in Hv. simplify_eq. done.
        * simpl. lia.
        * exists t'. split; [done|]. split; [done|].
          by eapply dfs_grows_trans.
    - exists s2. done. }
  simpl.
  destruct (dfs_inv_push s2 path j Hinv2) as (xi & -> & Hinv3 & Hg3). simpl.
  eexists. split; [done|]. split; [done|]. split.
  - eapply dfs_grows_trans; [exact Hg1|]. by eapply dfs_grows_trans.
  - simpl. by apply Hg2.
Qed.

(** [reachr] returns: the marks are removed again, the stack is as
    [stack_ok] says, and the other rows of [xi] are not touched. *)
Lemma reachr_total Bp Bi col xi :
  length xi = lxi →
  (∃ lo hi, rd Bp col = Some lo ∧ rd Bp (col + 1) = Some hi
            ∧ ∀ p, lo ≤ p < hi → ∃ i, rd Bi p = Some i ∧ 0 ≤ i < n) →
  ∃ top xi',
    LU.reachr n Bp Bi Lp0 Gi col xik xi pinv = Some (top, Lp0, xi')
    ∧ length xi' = lxi ∧ stack_ok n xik xi' top
    ∧ ∀ i, ¬ xik ≤ i < xik + n → rd xi' i = rd xi i.
Proof.
  intros Hlxi (lo & hi & Hlo & Hhi & HB). unfold LU.reachr.
  rewrite Hlo, Hhi. simpl.
  assert (∀ e v, rd Lp0 e = Some v → 0 ≤ e ≤ n ∧ 0 ≤ v) as Hbase.
  { intros e v He. pose proof (rd_Some _ _ _ He) as Hr.
    destruct (HLp_pos e) as (v' & Hv' & ?); [lia|]. split; [lia|congruence]. }
  set (s0 := LU.DfsState Lp0 n xi).
  assert (dfs_inv [] s0) as Hinv0.
  { split; simpl; [done|by left|done|lia|]. exists []. split_and!.
    - split; [simpl; lia|]. intros; lia.
    - constructor.
    - intros e He. by apply elem_of_nil in He.
    - intros e (v & Hv & Hneg). destruct (Hbase e v Hv). lia. }
  match goal with
  | |- ∃ top xi', (for_range lo hi ?body s0 ≫= _) = _ ∧ _ =>
      destruct (for_range_total (λ _ s, dfs_inv [] s ∧ dfs_grows s0 s)
                  lo hi body s0) as (s & -> & Hinv & Hg)
  end.
  { split; [done|apply dfs_grows_refl]. }
  { intros p t Hp [Hit Hgt].
    destruct (HB p Hp) as (i & Hi & Hir). rewrite Hi. simpl.
    destruct (rd_Gp t _ i Hit) as [g Hgi]; [lia|].
    rewrite (SPMARKED_spec _ _ _ Hgi). simpl.
    case_bool_decide as Hm; [by exists t|].
    destruct (dfsr_total (S (length Lp0)) [] i t Hit Hir)
      as (t' & Ht' & ? & ? & _).
    - intros (v & Hv & Hlt). rewrite Hgi in Hv. simplify_eq. done.
    - simpl. lia.
    - exists t'. split; [done|]. split; [done|]. by eapply dfs_grows_trans. }
  simpl. destruct (di_stk _ _ Hinv) as (stk & Hsl & Hnd & Hran & Hall).
  simpl in Hnd, Hran, Hall. pose proof (di_top _ _ Hinv) as Htop.
  match goal with
  | |- ∃ top xi', (for_range _ n ?body _ ≫= _) = _ ∧ _ =>
      destruct (for_range_total
        (λ p Gp, length Gp = length Lp0
           ∧ ∀ e v0, rd Lp0 e = Some v0 →
               ((∃ p', p ≤ p' < n ∧ rd (LU.dxi s) (xik + p') = Some e)
                ∧ rd Gp e = Some (SPFLIP v0))
               ∨ ((¬ ∃ p', p ≤ p' < n ∧ rd (LU.dxi s) (xik + p') = Some e)
                  ∧ rd Gp e = Some v0))
        (LU.dtop s) n body (LU.dGp s)) as (Gp & -> & HGl & HGp)
  end.
  { split; [apply (di_Gp_len _ _ Hinv)|]. intros e v0 He.
    destruct (Hbase e v0 He) as [? ?].
    destruct (di_Gp _ _ Hinv e v0 He) as [Hg'|Hg'].
    - right. split; [|done]. intros (p' & Hp' & Hx).
      assert (e ∈ stk) as Hin
        by (eapply stack_list_elem; [done|]; exists p'; split; [lia|done]).
      destruct (Hran e Hin) as [_ (v & Hv & Hneg)]. simplify_eq. lia.
    - left. split; [|done].
      eapply stack_list_elem; [done|]. apply Hall.
      exists (SPFLIP v0). split; [done|]. unfold SPFLIP. lia. }
  { intros p Gp Hp [HGl HGp].
    assert (∃ i, rd (LU.dxi s) (xik + p) = Some i) as [i Hi].
    { destruct Hsl as [Hlen Hstk]. rewrite Hstk by done.
      apply lookup_lt_is_Some. lia. }
    rewrite Hi. simpl.
    assert (i ∈ stk) as Hin
      by (eapply stack_list_elem; [done|]; exists p; split; [lia|done]).
    destruct (HLp_pos i) as (v0 & Hv0 & Hv0pos);
      [specialize (Hran i Hin); lia|].
    destruct (HGp i v0 Hv0) as [[_ Hgi]|[Hno _]];
      [|destruct Hno; exists p; split; [lia|done]].
    unfold SPMARK. rewrite Hgi. simpl. rewrite SPFLIP_FLIP.
    assert (wr Gp i v0 = Some (<[Z.to_nat i:=v0]> Gp)) as Hw.
    { apply wr_is_Some. apply rd_Some in Hgi. done. }
    rewrite Hw. eexists. split; [done|]. split; [by rewrite length_insert|].
    intros e w0 He. rewrite (rd_wr _ _ _ _ _ Hw). case_decide as Hd.
    - subst e. simplify_eq. right. split; [|done].
      intros (p' & Hp' & Hx).
      assert (p = p')
        by (apply (stack_list_inj _ _ _ _ _ p p' i Hsl Hnd); (done || lia)).
      lia.
    - destruct (HGp e w0 He) as [[(p' & Hp' & Hx) Hge]|[Hno Hge]].
      + left. split; [|done]. exists p'. split; [|done].
        destruct (decide (p' = p)); [congruence|lia].
      + right. split; [|done]. intros (p' & Hp' & Hx). apply Hno.
        exists p'. split; [lia|done]. }
  simpl. replace (Z.max (LU.dtop s) n) with n in HGp by lia.
  assert (Gp = Lp0) as ->.
  { apply list_eq. intros i.
    destruct (Lp0 !! i) as [v0|] eqn:Hv0.
    - assert (rd Lp0 (Z.of_nat i) = Some v0) as Hr.
      { unfold rd. rewrite decide_True by lia. by rewrite Nat2Z.id. }
      destruct (HGp _ _ Hr) as [[(p' & Hp' & _) _]|[_ Hg']]; [lia|].
      unfold rd in Hg'. rewrite decide_True in Hg' by lia.
      by rewrite Nat2Z.id in Hg'.
    - apply lookup_ge_None. apply lookup_ge_None in Hv0. lia. }
  exists (LU.dtop s), (LU.dxi s). split_and!; [done|apply (di_xi_len _ _ Hinv)| |].
  - split; [done|]. exists stk. split_and!; [done..|].
    intros e He. by apply Hran.
  - intros i Hi. destruct Hg as [_ Hfr]. by apply Hfr.
Qed.

(** *** The set that the search computes *)

(** Row [i] is stored in the column of L that holds the pivot of row
    [j]: the search goes from [j] to [i]. *)
Definition edge (j i : Z) : Prop :=
  ∃ J, rd pinv j = Some J ∧ 0 ≤ J ∧ in_col Lp0 Gi J i.

(** The rows that can be reached from the rows [roots]. *)
Inductive reachable (roots : Z → Prop) : Z → Prop :=
  | reach_root i : roots i → reachable roots i
  | reach_edge j i : reachable roots j → edge j i → reachable roots i.

(** Along an edge the pivot step grows: L holds, in the column of step
    [J], the pivot row of [J] and rows without a pivot at that step. *)
Definition acyclic : Prop :=
  ∀ j i, edge j i → i ≠ j →
    ∃ vj vi, rd pinv j = Some vj ∧ rd pinv i = Some vi ∧ (vi < 0 ∨ vj < vi).

(** The rows of the running calls have their pivots at earlier steps
    than [j]. *)
Definition above (path : list Z) (j : Z) : Prop :=
  ∀ a, a ∈ path →
    ∃ va, rd pinv a = Some va ∧ 0 ≤ va
          ∧ ∀ vj, rd pinv j = Some vj → vj < 0 ∨ va < vj.

(** What the search keeps besides [dfs_inv]: the rows that follow a row
    of the stack are marked, every marked row can be reached from the
    roots, and a row of the stack lies below the rows that follow it. *)
Record reach_inv (roots : Z → Prop) (s : LU.dfs_state) : Prop := {
  rs_closed : ∀ e i, on_stack (LU.dxi s) xik (LU.dtop s) n e → edge e i →
                marked (LU.dGp s) i;
  rs_reach : ∀ e, marked (LU.dGp s) e → reachable roots e;
  rs_topo : acyclic →
    ∀ e i pe, LU.dtop s ≤ pe < n → rd (LU.dxi s) (xik + pe) = Some e →
      edge e i → i ≠ e →
      ∃ pi, pe < pi < n ∧ rd (LU.dxi s) (xik + pi) = Some i;
}.

Lemma marked_SPMARK Gp j Gp' e :
  SPMARK Gp j = Some Gp' → marked Gp' e → e = j ∨ marked Gp e.
Proof.
  unfold SPMARK. intros Hm. apply bind_Some in Hm as (v & Hv & Hw).
  unfold marked. rewrite (rd_wr _ _ _ _ _ Hw). case_decide; [by left|by right].
Qed.

Lemma edge_inv j i J :
  edge j i → rd pinv j = Some J →
  0 ≤ J ∧ ∃ a b p, rd Lp0 J = Some a ∧ rd Lp0 (J + 1) = Some b
                   ∧ a ≤ p < b ∧ rd Gi p = Some i.
Proof.
  intros (J' & HJ' & ? & a & b & p & ? & ? & ? & ?) HJ. simplify_eq.
  split; [done|]. by exists a, b, p.
Qed.

(** The search from [j] returns with [j] on the stack and keeps
    [reach_inv]. *)
Lemma dfsr_reach roots fuel :
  ∀ path j s,
    dfs_inv path s → reach_inv roots s →
    reachable roots j → (acyclic → above path j) →
    0 ≤ j < n → ¬ marked (LU.dGp s) j →
    n + 1 ≤ Z.of_nat fuel + Z.of_nat (length path) →
    ∃ s', LU.dfsr fuel j Gi xik pinv s = Some s'
          ∧ dfs_inv path s' ∧ dfs_grows s s' ∧ marked (LU.dGp s') j
          ∧ reach_inv roots s'.
Proof.
  induction fuel as [|f IH]; intros path j s Hinv HX Hrj Hab Hj Hun Hfuel.
  { exfalso. pose proof (path_bound _ _ Hinv).
    pose proof (di_top _ _ Hinv). lia. }
  simpl. destruct (Hpinv j Hj) as (jnew & Hjnew & Hjr). rewrite Hjnew. simpl.
  destruct (dfs_inv_mark s path j Hinv Hj Hun) as (Gp & HGp & Hinv1 & Hg1).
  rewrite HGp. simpl. set (s1 := LU.DfsState Gp (LU.dtop s) (LU.dxi s)) in *.
  assert (marked (LU.dGp s1) j) as Hmj.
  { destruct (di_stk _ _ Hinv1) as (stk & _ & _ & Hran & _).
    apply Hran. simpl. left. }
  assert (reach_inv roots s1) as HX1.
  { split; simpl.
    - intros e i He Hei. apply Hg1. by eapply (rs_closed _ _ HX).
    - intros e [->|He]%(marked_SPMARK _ _ _ _ HGp); [done|].
      by apply (rs_reach _ _ HX).
    - apply (rs_topo _ _ HX). }
  match goal with
  | |- ∃ s', (?inner ≫= _) = Some s' ∧ _ =>
      assert (∃ s2, inner = Some s2 ∧ dfs_inv (j :: path) s2
                    ∧ dfs_grows s1 s2 ∧ reach_inv roots s2
                    ∧ ∀ i, edge j i → marked (LU.dGp s2) i)
        as (s2 & -> & Hinv2 & Hg2 & HX2 & Hnb)
  end.
  { case_decide as Hneg.
    2:{ exists s1. split_and!; [done..|apply dfs_grows_refl|done|].
        intros i Hi. destruct (edge_inv _ _ _ Hi Hjnew). lia. }
    destruct (Hcols jnew) as (a & b & Ha & Hb & Hab'); [lia|].
    assert (0 ≤ a) as Ha0.
    { destruct (HLp_pos jnew) as (a' & Ha' & ?); [lia|]. congruence. }
    destruct (rd_Gp s1 _ jnew Hinv1) as [g1 Hg1']; [lia|].
    destruct (rd_Gp s1 _ (jnew + 1) Hinv1) as [g2 Hg2']; [lia|].
    simpl in Hg1', Hg2'. rewrite Hg1', Hg2'. simpl.
    rewrite (unflip_base s1 _ jnew a g1 Hinv1) by (done || lia).
    rewrite (unflip_base s1 _ (jnew + 1) b g2 Hinv1) by (done || lia).
    match goal with
    | |- ∃ s2, for_range a b ?body s1 = Some s2 ∧ _ =>
        destruct (for_range_total
          (λ p s2, dfs_inv (j :: path) s2 ∧ dfs_grows s1 s2
                   ∧ reach_inv roots s2
                   ∧ ∀ p' i, a ≤ p' < p → rd Gi p' = Some i →
                       marked (LU.dGp s2) i) a b body s1)
          as (s2 & Hrun & Hinv2 & Hg2 & HX2 & Hnb)
    end.
    - split_and!; [done|apply dfs_grows_refl|done|]. intros; lia.
    - intros p t Hp (Hit & Hgt & HXt & Hnbt).
      destruct (Hrows p) as (i & Hi & Hir); [lia|]. rewrite Hi. simpl.
      destruct (rd_Gp t _ i Hit) as [g Hg]; [lia|].
      rewrite (SPMARKED_spec _ _ _ Hg). simpl.
      assert (edge j i) as Hji.
      { exists jnew. split_and!; [done|lia|]. by exists a, b, p. }
      case_bool_decide as Hm.
      + exists t. split_and!; [done..|]. intros p' i' Hp' Hi'.
        destruct (decide (p' = p)) as [->|]; [|apply (Hnbt p'); [lia|done]].
        simplify_eq. by exists g.
      + assert (¬ marked (LU.dGp t) i) as Hui.
        { intros (v & Hv & Hlt). rewrite Hg in Hv. simplify_eq. done. }
        assert (i ≠ j) as Hne.
        { intros ->. apply Hui. apply Hgt. done. }
        destruct (IH (j :: path) i t Hit HXt)
          as (t' & Ht' & Hit' & Hgt' & Hmi & HXt'); [..|done|done| |].
        * by eapply reach_edge.
        * intros Hac a' [->|Ha']%elem_of_cons.
          -- destruct (Hac j i Hji Hne) as (vj & vi & Hvj & Hvi & Hlt).
             exists vj. split_and!; [done|by simplify_eq; lia|].
             intros vi' Hvi'. simplify_eq. done.
          -- destruct (Hab Hac a' Ha') as (va & Hva & Hva0 & Hlt).
             exists va. split_and!; [done..|]. intros vi Hvi.
             destruct (Hac j i Hji Hne) as (vj & vi' & Hvj & Hvi' & Hlt').
             simplify_eq. destruct (Hlt jnew Hjnew); lia.
        * simpl. lia.
        * exists t'. split; [done|]. split_and!; [done| |done|].
          -- by eapply dfs_grows_trans.
          -- intros p' i' Hp' Hi'.
             destruct (decide (p' = p)) as [->|]; [by simplify_eq|].
             apply Hgt'. apply (Hnbt p'); [lia|done].
    - exists s2. split_and!; [done..|].
      replace (Z.max a b) with b in Hnb by lia.
      intros i Hi. destruct (edge_inv _ _ _ Hi Hjnew)
        as (_ & a' & b' & p & ? & ? & ? & ?). simplify_eq.
      by apply (Hnb p). }
  simpl.
  destruct (dfs_inv_push s2 path j Hinv2) as (xi & Hw & Hinv3 & Hg3).
  rewrite Hw. simpl.
  eexists. split; [done|]. split; [done|]. split_and!.
  - eapply dfs_grows_trans; [exact Hg1|]. by eapply dfs_grows_trans.
  - simpl. by apply Hg2.
  - pose proof (di_top _ _ Hinv2) as Htop2.
    pose proof (path_bound _ _ Hinv2) as Hpb. simpl in Hpb.
    assert (∀ q, LU.dtop s2 ≤ q < n →
              rd xi (xik + q) = rd (LU.dxi s2) (xik + q)) as Hold.
    { intros q Hq. rewrite (rd_wr _ _ _ _ _ Hw). by rewrite decide_False by lia. }
    assert (rd xi (xik + (LU.dtop s2 - 1)) = Some j) as Hnew
      by (by eapply rd_wr_eq).
    split; simpl.
    + intros e i (q & Hq & He) Hei.
      destruct (decide (q = LU.dtop s2 - 1)) as [->|].
      * rewrite Hnew in He. simplify_eq. by apply Hnb.
      * rewrite Hold in He by lia. apply (rs_closed _ _ HX2 e); [|done].
        exists q. split; [lia|done].
    + apply (rs_reach _ _ HX2).
    + intros Hac e i pe Hpe He Hei Hne.
      destruct (decide (pe = LU.dtop s2 - 1)) as [->|].
      * rewrite Hnew in He. simplify_eq.
        destruct (di_stk _ _ Hinv2) as (stk & Hsl & Hnd & Hran & Hall).
        pose proof (Hall i (Hnb i Hei)) as Hin. simpl in Hin.
        apply elem_of_cons in Hin as [?|Hin]; [done|].
        apply elem_of_app in Hin as [Hin|Hin].
        -- exfalso. destruct (Hab Hac i Hin) as (vi & Hvi & Hvi0 & Hlt).
           destruct (Hac e i Hei Hne) as (vj & vi' & Hvj & Hvi' & Hlt').
           simplify_eq. destruct (Hlt jnew Hjnew); [|lia].
           destruct (edge_inv _ _ _ Hei Hjnew). lia.
        -- apply (stack_list_elem _ _ _ _ _ _ Hsl) in Hin as (q & Hq & Hqi).
           exists q. split; [lia|]. by rewrite Hold.
      * rewrite Hold in He by lia.
        destruct (rs_topo _ _ HX2 Hac e i pe) as (q & Hq & Hqi);
          [lia|done..|].
        exists q. split; [lia|]. rewrite Hold by lia. done.
Qed.

(** The stack that [reachr] returns holds the rows that can be reached
    from the rows of column [col] of [B], and no other; and when the
    pivot step grows along the edges, every row of the stack lies below
    the rows that follow it. *)
Lemma reachr_reach Bp Bi col xi top Gp xi' :
  length xi = lxi →
  (∃ lo hi, rd Bp col = Some lo ∧ rd Bp (col + 1) = Some hi
            ∧ ∀ p, lo ≤ p < hi → ∃ i, rd Bi p = Some i ∧ 0 ≤ i < n) →
  LU.reachr n Bp Bi Lp0 Gi col xik xi pinv = Some (top, Gp, xi') →
  (∀ e, on_stack xi' xik top n e ↔ reachable (in_col Bp Bi col) e)
  ∧ (acyclic →
     ∀ e i pe, top ≤ pe < n → rd xi' (xik + pe) = Some e →
       edge e i → i ≠ e →
       ∃ pi, pe < pi < n ∧ rd xi' (xik + pi) = Some i).
Proof.
  intros Hlxi (lo & hi & Hlo & Hhi & HB) Hrun. unfold LU.reachr in Hrun.
  rewrite Hlo, Hhi in Hrun. simpl in Hrun.
  apply bind_Some in Hrun as (s & Hloop & Hrun).
  apply bind_Some in Hrun as (Gp' & _ & Hrun). injection Hrun as <- <- <-.
  assert (∀ e v, rd Lp0 e = Some v → 0 ≤ e ≤ n ∧ 0 ≤ v) as Hbase.
  { intros e v He. pose proof (rd_Some _ _ _ He) as Hr.
    destruct (HLp_pos e) as (v' & Hv' & ?); [lia|]. split; [lia|congruence]. }
  set (s0 := LU.DfsState Lp0 n xi) in *.
  assert (∀ e, ¬ marked (LU.dGp s0) e) as Hnone.
  { intros e (v & Hv & Hneg). destruct (Hbase e v Hv). lia. }
  assert (dfs_inv [] s0) as Hinv0.
  { split; simpl; [done|by left|done|lia|]. exists []. split_and!.
    - split; [simpl; lia|]. intros; lia.
    - constructor.
    - intros e He. by apply elem_of_nil in He.
    - intros e He. by destruct (Hnone e). }
  set (roots := in_col Bp Bi col).
  assert (reach_inv roots s0) as HX0.
  { split; simpl.
    - intros e i (q & Hq & _). lia.
    - intros e He. by destruct (Hnone e).
    - intros _ e i pe Hpe. lia. }
  match type of Hloop with
  | for_range lo hi ?body s0 = Some s =>
      destruct (for_range_total
        (λ p t, dfs_inv [] t ∧ reach_inv roots t
                ∧ ∀ p' i, lo ≤ p' < p → rd Bi p' = Some i →
                    marked (LU.dGp t) i)
        lo hi body s0) as (s' & Hloop' & Hinv & HX & Hcov)
  end.
  { split_and!; [done..|]. intros; lia. }
  { intros p t Hp (Hit & HXt & Hct).
    destruct (HB p Hp) as (i & Hi & Hir). rewrite Hi. simpl.
    destruct (rd_Gp t _ i Hit) as [g Hgi]; [lia|].
    rewrite (SPMARKED_spec _ _ _ Hgi). simpl.
    case_bool_decide as Hm.
    - exists t. split_and!; [done..|]. intros p' i' Hp' Hi'.
      destruct (decide (p' = p)) as [->|]; [|apply (Hct p'); [lia|done]].
      simplify_eq. by exists g.
    - destruct (dfsr_reach roots (S (length Lp0)) [] i t Hit HXt)
        as (t' & Ht' & Hit' & Hgt' & Hmi & HXt'); [| |done| | |].
      + apply reach_root. by exists lo, hi, p.
      + intros _ a Ha. by apply elem_of_nil in Ha.
      + intros (v & Hv & Hlt). rewrite Hgi in Hv. simplify_eq. done.
      + simpl. lia.
      + exists t'. split_and!; [done..|]. intros p' i' Hp' Hi'.
        destruct (decide (p' = p)) as [->|]; [by simplify_eq|].
        apply Hgt'. apply (Hct p'); [lia|done]. }
  rewrite Hloop in Hloop'. injection Hloop' as <-.
  destruct (di_stk _ _ Hinv) as (stk & Hsl & Hnd & Hran & Hall).
  simpl in Hran, Hall.
  assert (∀ e, marked (LU.dGp s) e ↔ on_stack (LU.dxi s) xik (LU.dtop s) n e)
    as Hms.
  { intros e. unfold on_stack. rewrite <-(stack_list_elem _ _ _ _ _ _ Hsl).
    split; [apply Hall|]. intros He. by apply Hran. }
  split; [|apply (rs_topo _ _ HX)].
  intros e. split.
  - intros He. apply (rs_reach _ _ HX). by apply Hms.
  - induction 1 as [i (lo' & hi' & p & ? & ? & ? & ?)|j i _ IHj Hji].
    + simplify_eq. apply Hms. apply (Hcov p); [lia|done].
    + apply Hms. by apply (rs_closed _ _ HX j).
Qed.

End Reach.

Lemma stack_ok_rd n xik xi top p :
  stack_ok n xik xi top → top ≤ p < n →
  ∃ e, rd xi (xik + p) = Some e ∧ 0 ≤ e < n.
Proof.
  intros (Htop & stk & Hsl & Hnd & Hran) Hp.
  destruct Hsl as [Hlen Hstk].
  destruct (lookup_lt_is_Some_2 stk (Z.to_nat (p - top))) as [e He]; [lia|].
  exists e. split; [by rewrite Hstk|]. apply Hran.
  by eapply list_elem_of_lookup_2.
Qed.

Lemma stack_ok_inj n xik xi top p1 p2 e :
  stack_ok n xik xi top → top ≤ p1 < n → top ≤ p2 < n →
  rd xi (xik + p1) = Some e → rd xi (xik + p2) = Some e → p1 = p2.
Proof.
  intros (Htop & stk & Hsl & Hnd & Hran) Hp1 Hp2 H1 H2.
  by apply (stack_list_inj n xik xi top stk p1 p2 e).
Qed.

(** The stack of one row of [xi] does not depend on the other rows. *)
Lemma stack_ok_frame n xik xi xi' top :
  stack_ok n xik xi top →
  (∀ i, xik ≤ i < xik + n → rd xi' i = rd xi i) →
  stack_ok n xik xi' top.
Proof.
  intros (Htop & stk & [Hlen Hstk] & Hnd & Hran) Hfr.
  split; [done|]. exists stk. split_and!; [|done..].
  split; [done|]. intros p Hp. rewrite Hfr by lia. by apply Hstk.
Qed.

Section Safety.
Context {T : Type} `{Scalar T}.

(** The entries of [A] can be read and its row indices are below the
    number of columns. *)
Definition matrix_ok (A : sp_mat T) : Prop :=
  ∀ c, 0 ≤ c < ncols A →
    ∃ lo hi, rd (Ap A) c = Some lo ∧ rd (Ap A) (c + 1) = Some hi
      ∧ ∀ p, lo ≤ p < hi →
          ∃ i v, rd (Ai A) p = Some i ∧ 0 ≤ i < ncols A ∧ rd (Ax A) p = Some v.

(** The columns [0 .. k-1] of the factor [G] under construction are
    stored below [lnz], each with at least one entry, and hold rows of
    [0 .. n-1]. *)
Record factor_ok (n k lnz : Z) (G : sp_mat T) : Prop := {
  fo_ncols : ncols G = n;
  fo_Lp_len : Z.of_nat (length (Ap G)) = n + 1;
  fo_Lp_pos : ∀ j, 0 ≤ j ≤ n → ∃ v, rd (Ap G) j = Some v ∧ 0 ≤ v;
  fo_cols : ∀ j, 0 ≤ j < k →
              ∃ a b, rd (Ap G) j = Some a ∧ rd (Ap G) (j + 1) = Some b
                     ∧ a < b ≤ lnz;
  fo_lnz : 0 ≤ lnz ≤ Z.of_nat (length (Ai G));
  fo_Lx : length (Ax G) = length (Ai G);
  fo_rows : ∀ p, 0 ≤ p < lnz → ∃ i, rd (Ai G) p = Some i ∧ 0 ≤ i < n;
}.

(** What [sp_splsolve] asks of the factor [G]: for the columns below
    [m], the pointers can be read, the first entry is stored, and the
    entries after it are stored and hold rows of [0 .. n-1]. *)
Definition solve_ok (n m : Z) (G : sp_mat T) : Prop :=
  ncols G = n
  ∧ ∀ j, 0 ≤ j < m →
      ∃ a b, rd (Ap G) j = Some a ∧ rd (Ap G) (j + 1) = Some b
        ∧ 0 ≤ a < Z.of_nat (length (Ax G))
        ∧ ∀ p, a < p < b →
            p < Z.of_nat (length (Ax G))
            ∧ ∃ i, rd (Ai G) p = Some i ∧ 0 ≤ i < n.

Lemma factor_solve_ok n k lnz (G : sp_mat T) :
  factor_ok n k lnz G → solve_ok n k G.
Proof.
  intros HG. split; [apply (fo_ncols _ _ _ _ HG)|]. intros j Hj.
  destruct (fo_cols _ _ _ _ HG j Hj) as (a & b & Ha & Hb & Hab).
  pose proof (fo_lnz _ _ _ _ HG) as Hlnz.
  pose proof (fo_Lx _ _ _ _ HG) as HLx.
  assert (0 ≤ a) as Ha0.
  { pose proof (rd_Some _ _ _ Ha).
    destruct (fo_Lp_pos _ _ _ _ HG j) as (a' & Ha' & ?);
      [pose proof (fo_Lp_len _ _ _ _ HG); lia|]. congruence. }
  exists a, b. split_and!; [done|done|lia|lia|].
  intros p Hp. split; [lia|]. apply (fo_rows _ _ _ _ HG). lia.
Qed.

(** [sp_splsolve] returns. *)
Lemma sp_splsolve_returns n m (G B : sp_mat T) c xi xik top x pinv :
  solve_ok n m G →
  n = ncols B → matrix_ok B → 0 ≤ c < n →
  stack_ok n xik xi top →
  (∀ i, 0 ≤ i < n → ∃ v, rd pinv i = Some v ∧ v < m) →
  Z.of_nat (length x) = n →
  ∃ x', LU.sp_splsolve G B c xi xik top x pinv = Some x'
        ∧ length x' = length x.
Proof.
  intros [Hnc HG] HnB HB Hc Hstk Hpinv Hx. unfold LU.sp_splsolve.
  rewrite Hnc. clear Hnc.
  destruct (for_range_total (λ _ x', length x' = length x) top n
              (λ p x, i ← rd xi (xik + p); wr x i s_zero) x)
    as (x1 & -> & Hx1); [done| |].
  { intros p t Hp Ht. destruct (stack_ok_rd _ _ _ _ p Hstk Hp) as (e & -> & He).
    simpl. rewrite wr_is_Some by lia. eexists. split; [done|].
    by rewrite length_insert. }
  simpl. subst n. destruct (HB c Hc) as (lo & hi & -> & -> & Hcol). simpl.
  destruct (for_range_total (λ _ x', length x' = length x) lo hi
              (λ p x, i ← rd (Ai B) p; v ← rd (Ax B) p; wr x i v) x1)
    as (x2 & -> & Hx2); [done| |].
  { intros p t Hp Ht. destruct (Hcol p Hp) as (i & v & -> & Hi & ->).
    simpl. rewrite wr_is_Some by lia. eexists. split; [done|].
    by rewrite length_insert. }
  simpl.
  match goal with
  | |- ∃ x', for_range _ _ ?body x2 = Some x' ∧ _ =>
      destruct (for_range_total (λ _ x', length x' = length x) top (ncols B)
                  body x2) as (x3 & -> & Hx3); [done| |by exists x3]
  end.
  intros px t Hpx Ht.
  destruct (stack_ok_rd _ _ _ _ px Hstk Hpx) as (j & -> & Hj). simpl.
  destruct (Hpinv j Hj) as (J & -> & HJ). simpl.
  case_decide; [by exists t|].
  destruct (HG J) as (a & b & Ha & Hb & Ha0 & Hab); [lia|].
  rewrite Ha. simpl.
  destruct (rd_is_Some (Ax G) a) as [d ->]; [lia|]. simpl.
  destruct (rd_is_Some t j) as [xj ->]; [lia|]. simpl.
  rewrite wr_is_Some by lia. simpl. rewrite Hb. simpl.
  match goal with
  | |- ∃ t', for_range _ _ ?body ?t0 = Some t' ∧ _ =>
      destruct (for_range_total (λ _ x', length x' = length x) (a + 1) b
                  body t0) as (t1 & -> & Ht1);
        [by rewrite length_insert| |by exists t1]
  end.
  intros p u Hp Hu.
  destruct (Hab p) as (Hpl & i & -> & Hi); [lia|]. simpl.
  destruct (rd_is_Some (Ax G) p) as [g ->]; [lia|]. simpl.
  destruct (rd_is_Some u j) as [uj ->]; [lia|]. simpl.
  destruct (rd_is_Some u i) as [ui ->]; [lia|]. simpl.
  rewrite wr_is_Some by lia. eexists. split; [done|].
  by rewrite length_insert.
Qed.

Lemma sp_splsolve_total n k lnz (G B : sp_mat T) c xi xik top x pinv :
  factor_ok n k lnz G → 0 ≤ k ≤ n →
  n = ncols B → matrix_ok B → 0 ≤ c < n →
  stack_ok n xik xi top →
  (∀ i, 0 ≤ i < n → ∃ v, rd pinv i = Some v ∧ -1 ≤ v < k) →
  Z.of_nat (length x) = n →
  ∃ x', LU.sp_splsolve G B c xi xik top x pinv = Some x'
        ∧ length x' = length x.
Proof.
  intros HG Hk HnB HB Hc Hstk Hpinv Hx.
  apply (sp_splsolve_returns n k); try done.
  - by eapply factor_solve_ok.
  - intros i Hi. destruct (Hpinv i Hi) as (v & ? & ?). exists v.
    split; [done|lia].
Qed.

(** Rows with a pivot, none twice: there are at most [k] of them. *)
Lemma pivoted_bound n k pinv p (lp : list Z) :
  0 ≤ k → perm_inv n k pinv p → NoDup lp →
  (∀ e, e ∈ lp → 0 ≤ e < n ∧ ∃ v, rd pinv e = Some v ∧ 0 ≤ v) →
  Z.of_nat (length lp) ≤ k.
Proof.
  intros Hk [Hrows _] Hnd Hlp.
  assert (∀ e, e ∈ lp → ∃ v, rd pinv e = Some v ∧ 0 ≤ v < k
                            ∧ rd p v = Some e) as Hpiv.
  { intros e He. destruct (Hlp e He) as (Hr & v & Hv & Hpos).
    destruct (Hrows e Hr) as (v' & Hv' & [->|[? ?]]); simplify_eq; [lia|].
    by exists v. }
  pose proof (nodup_bound ((λ e, default 0 (rd pinv e)) <$> lp) k) as Hb.
  rewrite length_fmap in Hb. replace (Z.max 0 k) with k in Hb by lia.
  apply Hb.
  - apply NoDup_fmap_2_strong; [|done]. intros x y Hx Hy.
    destruct (Hpiv x Hx) as (vx & -> & _ & Hpx).
    destruct (Hpiv y Hy) as (vy & -> & _ & Hpy). simpl. intros ->.
    congruence.
  - intros v (e & -> & He)%list_elem_of_fmap.
    destruct (Hpiv e He) as (v & -> & ? & _). done.
Qed.

(** Rows without a pivot, none twice: they are at most [n - k]. *)
Lemma unpivoted_bound n k pinv p (lu : list Z) :
  0 ≤ k → perm_inv n k pinv p → Z.of_nat (length pinv) = n → NoDup lu →
  (∀ e, e ∈ lu → ∃ v, rd pinv e = Some v ∧ v < 0) →
  Z.of_nat (length lu) + k ≤ n.
Proof.
  intros Hk [_ Hsteps] Hlen Hnd Hlu.
  set (P := (λ j, default 0 (rd p j)) <$> seqZ 0 k).
  assert (∀ e, e ∈ P → ∃ j, 0 ≤ j < k ∧ rd p j = Some e
                          ∧ rd pinv e = Some j) as HP.
  { intros e (j & -> & Hj%elem_of_seqZ)%list_elem_of_fmap.
    destruct (Hsteps j) as (i & Hpj & Hij); [lia|]. exists j.
    rewrite Hpj. simpl. split; [lia|done]. }
  pose proof (nodup_bound (lu ++ P) n) as Hb.
  assert (length P = Z.to_nat k) as HlP
    by (unfold P; by rewrite length_fmap, length_seqZ).
  rewrite length_app, HlP in Hb.
  replace (Z.max 0 n) with n in Hb by lia.
  assert (Z.of_nat (length lu + Z.to_nat k) ≤ n); [|lia]. apply Hb.
  - apply NoDup_app. split_and!; [done| |].
    + intros e He HeP. destruct (Hlu e He) as (v & Hv & Hneg).
      destruct (HP e HeP) as (j & Hj & _ & Hej). simplify_eq. lia.
    + apply NoDup_fmap_2_strong; [|apply NoDup_seqZ].
      intros x y Hx%elem_of_seqZ Hy%elem_of_seqZ.
      destruct (Hsteps x) as (ix & Hpx & Hix); [lia|].
      destruct (Hsteps y) as (iy & Hpy & Hiy); [lia|].
      rewrite Hpx, Hpy. simpl. intros ->. congruence.
  - intros e [He|He]%elem_of_app.
    + destruct (Hlu e He) as (v & Hv & _). apply rd_Some in Hv. lia.
    + destruct (HP e He) as (j & _ & _ & Hv). apply rd_Some in Hv. lia.
Qed.

(** The row at position [p] of the stack is not among rows found at
    earlier positions. *)
Lemma stack_fresh n xik xi top p e (l : list Z) :
  stack_ok n xik xi top → top ≤ p < n → rd xi (xik + p) = Some e →
  (∀ e', e' ∈ l → ∃ p', top ≤ p' < p ∧ rd xi (xik + p') = Some e') →
  e ∉ l.
Proof.
  intros Hstk Hp He Hl Hin. destruct (Hl e Hin) as (p' & Hp' & He').
  assert (p = p')
    by (apply (stack_ok_inj _ _ _ _ p p' e Hstk); (done || lia)).
  lia.
Qed.

(** The pivot search returns, and puts at most [k] entries in U. *)
Lemma find_pivot_total n k xi xik top pinv p (x : list T) ps0 :
  stack_ok n xik xi top → 0 ≤ k → perm_inv n k pinv p →
  Z.of_nat (length pinv) = n → Z.of_nat (length x) = n →
  0 ≤ LU.punz ps0 →
  LU.punz ps0 + k ≤ Z.of_nat (length (Ai (LU.pU ps0))) →
  length (Ax (LU.pU ps0)) = length (Ai (LU.pU ps0)) →
  ∃ ps, LU.find_pivot n xi xik top pinv x ps0 = Some ps
        ∧ LU.punz ps0 ≤ LU.punz ps ≤ LU.punz ps0 + k
        ∧ length (Ai (LU.pU ps)) = length (Ai (LU.pU ps0))
        ∧ length (Ax (LU.pU ps)) = length (Ax (LU.pU ps0))
        ∧ Ap (LU.pU ps) = Ap (LU.pU ps0).
Proof.
  intros Hstk Hk Hperm Hpl Hxl Hu0 Hcap HUx. unfold LU.find_pivot.
  match goal with
  | |- ∃ ps, for_range _ _ ?body _ = Some ps ∧ _ =>
      destruct (for_range_total
        (λ q ps,
           (∃ lp : list Z,
              LU.punz ps = LU.punz ps0 + Z.of_nat (length lp) ∧ NoDup lp
              ∧ ∀ e, e ∈ lp →
                  (∃ p', top ≤ p' < q ∧ rd xi (xik + p') = Some e)
                  ∧ ∃ v, rd pinv e = Some v ∧ 0 ≤ v)
           ∧ length (Ai (LU.pU ps)) = length (Ai (LU.pU ps0))
           ∧ length (Ax (LU.pU ps)) = length (Ax (LU.pU ps0))
           ∧ Ap (LU.pU ps) = Ap (LU.pU ps0))
        top n body ps0) as (ps & Hrun & (lp & Hlp & Hnd & Hin) & ? & ? & ?)
  end.
  - split; [|done]. exists []. split_and!; [simpl; lia|constructor|].
    intros e He. by apply elem_of_nil in He.
  - intros q ps Hq ((lp & Hlp & Hnd & Hin) & HUi & HUx' & HUp).
    destruct (stack_ok_rd _ _ _ _ q Hstk Hq) as (e & He & Her).
    rewrite He. simpl.
    destruct (rd_is_Some pinv e) as [pi Hpi]; [lia|]. rewrite Hpi. simpl.
    destruct (rd_is_Some x e) as [xv Hxv]; [lia|].
    assert (∀ e', e' ∈ lp →
              (∃ p', top ≤ p' < q + 1 ∧ rd xi (xik + p') = Some e')
              ∧ ∃ v, rd pinv e' = Some v ∧ 0 ≤ v) as Hin'.
    { intros e' He'. destruct (Hin e' He') as [(p' & ? & ?) ?].
      split; [|done]. exists p'. split; [lia|done]. }
    case_decide as Hneg.
    + rewrite Hxv. simpl.
      destruct (PrimFloat.ltb _ _); eexists; (split; [done|]); simpl;
        (split; [|done]); by exists lp.
    + assert (e ∉ lp) as Hfresh.
      { eapply stack_fresh; [done..|]. intros e' He'.
        by destruct (Hin e' He'). }
      assert (Z.of_nat (length (e :: lp)) ≤ k) as Hbound.
      { eapply pivoted_bound; [done..|by apply NoDup_cons|].
        intros e' [->|He']%elem_of_cons.
        - split; [done|]. exists pi. split; [done|lia].
        - destruct (Hin e' He') as [(p' & Hp' & Hx') ?]. split; [|done].
          destruct (stack_ok_rd _ _ _ _ p' Hstk) as (e'' & ? & ?); [lia|].
          congruence. }
      simpl in Hbound.
      rewrite wr_is_Some by lia. simpl. rewrite Hxv. simpl.
      rewrite wr_is_Some by lia. simpl.
      eexists. split; [done|]. simpl. split_and!.
      * exists (e :: lp). split_and!; [simpl; lia|by apply NoDup_cons|].
        intros e' [->|He']%elem_of_cons; [|by apply Hin'].
        split; [exists q; split; [lia|done]|]. exists pi. split; [done|lia].
      * by rewrite length_insert.
      * by rewrite length_insert.
      * done.
  - exists ps. split_and!; [done| | |done..].
    + lia.
    + assert (Z.of_nat (length lp) ≤ k); [|lia].
      eapply pivoted_bound; [done..|]. intros e He.
      destruct (Hin e He) as [(p' & Hp' & Hx') ?]. split; [|done].
      destruct (stack_ok_rd _ _ _ _ p' Hstk) as (e'' & ? & ?); [lia|].
      congruence.
Qed.

(** The last loop of a step returns, and puts at most [n - k] entries
    in L, where [k] counts the pivots made, that of the step included. *)
Lemma store_L_total n k xi xik top pinv p (pivot : T) L0 lnz0 x0 :
  stack_ok n xik xi top → 0 ≤ k → perm_inv n k pinv p →
  Z.of_nat (length pinv) = n → Z.of_nat (length x0) = n →
  0 ≤ lnz0 →
  lnz0 + (n - k) ≤ Z.of_nat (length (Ai L0)) →
  length (Ax L0) = length (Ai L0) →
  (∀ r, 0 ≤ r < lnz0 → ∃ i, rd (Ai L0) r = Some i ∧ 0 ≤ i < n) →
  ∃ L1 lnz1 x1,
    LU.store_L n xi xik top pinv pivot (L0, lnz0, x0) = Some (L1, lnz1, x1)
    ∧ lnz0 ≤ lnz1 ≤ lnz0 + (n - k)
    ∧ length (Ai L1) = length (Ai L0)
    ∧ length (Ax L1) = length (Ax L0)
    ∧ Ap L1 = Ap L0 ∧ ncols L1 = ncols L0
    ∧ (∀ r, 0 ≤ r < lnz1 → ∃ i, rd (Ai L1) r = Some i ∧ 0 ≤ i < n)
    ∧ length x1 = length x0.
Proof.
  intros Hstk Hk Hperm Hpl Hxl Hl0 Hcap HLx Hrows0. unfold LU.store_L.
  match goal with
  | |- ∃ L1 lnz1 x1, for_range _ _ ?body _ = _ ∧ _ =>
      destruct (for_range_total
        (λ q (s : sp_mat T * Z * list T),
           (∃ lu : list Z,
              s.1.2 = lnz0 + Z.of_nat (length lu) ∧ NoDup lu
              ∧ ∀ e, e ∈ lu →
                  (∃ p', top ≤ p' < q ∧ rd xi (xik + p') = Some e)
                  ∧ ∃ v, rd pinv e = Some v ∧ v < 0)
           ∧ length (Ai s.1.1) = length (Ai L0)
           ∧ length (Ax s.1.1) = length (Ax L0)
           ∧ Ap s.1.1 = Ap L0 ∧ ncols s.1.1 = ncols L0
           ∧ (∀ r, 0 ≤ r < s.1.2 → ∃ i, rd (Ai s.1.1) r = Some i ∧ 0 ≤ i < n)
           ∧ length s.2 = length x0)
        top n body (L0, lnz0, x0))
        as ([[L1 lnz1] x1] & Hrun & (lu & Hlu & Hnd & Hin) & ? & ? & ? & ? & ? & ?)
  end.
  - simpl. split; [|done]. exists []. split_and!; [simpl; lia|constructor|].
    intros e He. by apply elem_of_nil in He.
  - intros q [[L lnz] x] Hq ((lu & Hlu & Hnd & Hin) & HLi & HLx' & HLp & Hnc
                             & Hrows & Hx). simpl in *.
    destruct (stack_ok_rd _ _ _ _ q Hstk Hq) as (e & He & Her).
    rewrite He. simpl.
    destruct (rd_is_Some pinv e) as [pi Hpi]; [lia|]. rewrite Hpi. simpl.
    assert (∀ e', e' ∈ lu →
              (∃ p', top ≤ p' < q + 1 ∧ rd xi (xik + p') = Some e')
              ∧ ∃ v, rd pinv e' = Some v ∧ v < 0) as Hin'.
    { intros e' He'. destruct (Hin e' He') as [(p' & ? & ?) ?].
      split; [|done]. exists p'. split; [lia|done]. }
    case_decide as Hneg.
    + assert (e ∉ lu) as Hfresh.
      { eapply stack_fresh; [done..|]. intros e' He'.
        by destruct (Hin e' He'). }
      assert (Z.of_nat (length (e :: lu)) + k ≤ n) as Hbound.
      { eapply unpivoted_bound; [done..|by apply NoDup_cons|].
        intros e' [->|He']%elem_of_cons; [by exists pi|].
        by destruct (Hin e' He'). }
      simpl in Hbound.
      rewrite wr_is_Some by lia. simpl.
      destruct (rd_is_Some x e) as [xv ->]; [lia|]. simpl.
      rewrite wr_is_Some by lia. simpl.
      rewrite wr_is_Some by lia. simpl.
      eexists. split; [done|]. simpl. split_and!.
      * exists (e :: lu). split_and!; [simpl; lia|by apply NoDup_cons|].
        intros e' [->|He']%elem_of_cons; [|by apply Hin'].
        split; [exists q; split; [lia|done]|]. by exists pi.
      * by rewrite length_insert.
      * by rewrite length_insert.
      * done.
      * done.
      * intros r Hr.
        assert (wr (Ai L) lnz e = Some (<[Z.to_nat lnz:=e]> (Ai L))) as Hw
          by (apply wr_is_Some; lia).
        rewrite (rd_wr _ _ _ _ _ Hw). case_decide; [by exists e|].
        apply Hrows. lia.
      * by rewrite length_insert.
    + rewrite wr_is_Some by lia. simpl.
      eexists. split; [done|]. simpl. split_and!; [by exists lu|done..|].
      by rewrite length_insert.
  - simpl in *. exists L1, lnz1, x1. split_and!; [done| | |done..].
    + lia.
    + assert (Z.of_nat (length lu) + k ≤ n); [|lia].
      eapply unpivoted_bound; [done..|]. intros e He.
      by destruct (Hin e He).
Qed.

(** The sizes of the arrays of a context, with its [n], the number of
    columns of its L and its [q]: no function of the factorisation
    changes them. *)
Definition shape (N : sp_num T) : Z * Z * option (list Z) * list nat :=
  (Num.n N, ncols (Num.L N), Num.q N,
   [length (Num.xi N); length (Num.topvec N); length (Num.pinv N);
    length (Num.p N); length (Num.w N);
    length (Ap (Num.L N)); length (Ai (Num.L N)); length (Ax (Num.L N));
    length (Ap (Num.U N)); length (Ai (Num.U N)); length (Ax (Num.U N))]).

(** The context has the sizes that [sp_num_alloc n] gives it, at least
    [n (n + 1) / 2] entries in L and U, and the column of every step is a
    column of the matrix. *)
Record ctx_ok (n : Z) (N : sp_num T) : Prop := {
  co_n : Num.n N = n;
  co_ncols : ncols (Num.L N) = n;
  co_q : ∀ k, 0 ≤ k < n → ∃ c, LU.col_of N k = Some c ∧ 0 ≤ c < n;
  co_xi : Z.of_nat (length (Num.xi N)) = n * n;
  co_topvec : Z.of_nat (length (Num.topvec N)) = n;
  co_pinv : Z.of_nat (length (Num.pinv N)) = n;
  co_p : Z.of_nat (length (Num.p N)) = n;
  co_w : Z.of_nat (length (Num.w N)) = n;
  co_Lp : Z.of_nat (length (Ap (Num.L N))) = n + 1;
  co_Li : n * (n + 1) ≤ 2 * Z.of_nat (length (Ai (Num.L N)));
  co_Lx : length (Ax (Num.L N)) = length (Ai (Num.L N));
  co_Up : Z.of_nat (length (Ap (Num.U N))) = n + 1;
  co_Ui : n * (n + 1) ≤ 2 * Z.of_nat (length (Ai (Num.U N)));
  co_Ux : length (Ax (Num.U N)) = length (Ai (Num.U N));
}.

Lemma ctx_ok_shape n (N N' : sp_num T) :
  shape N' = shape N → ctx_ok n N → ctx_ok n N'.
Proof.
  unfold shape. intros Hs [].
  injection Hs as Hn Hnc Hq Hxi Htv Hpinv Hp Hw HLp HLi HLx HUp HUi HUx.
  constructor; try congruence.
  unfold LU.col_of in *. by rewrite Hq.
Qed.

Lemma perm_inv_range n k pinv p :
  0 ≤ k → perm_inv n k pinv p →
  ∀ i, 0 ≤ i < n → ∃ v, rd pinv i = Some v ∧ -1 ≤ v < k.
Proof.
  intros Hk [Hrows _] i Hi.
  destruct (Hrows i Hi) as (v & Hv & [?|[? _]]); exists v; split;
    (done || lia).
Qed.

(** The invariant of the column loop, before step [k]: the pivots of
    the steps made are recorded in [pinv] and [p]; L holds the columns
    [0 .. k-1], which end at [lnz], and each step [j] has put at most
    [n - j] entries in L and [j + 1] in U. *)
Record lu_inv (n k : Z) (s : LU.lu_loc) : Prop := {
  li_ctx : ctx_ok n (LU.cN s);
  li_perm : perm_inv n k (Num.pinv (LU.cN s)) (Num.p (LU.cN s));
  li_lnz : 2 * LU.lnz s ≤ k * (2 * n - k + 1);
  li_unz : 0 ≤ LU.unz s ∧ 2 * LU.unz s ≤ k * (k + 1);
  li_L : factor_ok n k (LU.lnz s)
           (with_Ap (Num.L (LU.cN s))
              (<[Z.to_nat k := LU.lnz s]> (Ap (Num.L (LU.cN s)))));
  li_stacks : ∀ j, 0 ≤ j < k →
                ∃ t, rd (Num.topvec (LU.cN s)) j = Some t
                     ∧ stack_ok n (j * n) (Num.xi (LU.cN s)) t;
}.

Lemma with_Ap_twice (M : sp_mat T) a b :
  with_Ap (with_Ap M a) b = with_Ap M b.
Proof. done. Qed.

(** The first part of a step returns. *)
Lemma step_solve_total A k (s : LU.lu_loc) :
  matrix_ok A → 0 ≤ k < ncols A → lu_inv (ncols A) k s →
  ∃ col top s1,
    LU.step_solve A k s = Some (col, top, s1)
    ∧ 0 ≤ col < ncols A
    ∧ stack_ok (ncols A) (k * ncols A) (Num.xi (LU.cN s1)) top
    ∧ shape (LU.cN s1) = shape (LU.cN s)
    ∧ factor_ok (ncols A) k (LU.lnz s) (Num.L (LU.cN s1))
    ∧ rd (Ap (Num.L (LU.cN s1))) k = Some (LU.lnz s)
    ∧ (∀ i, ¬ k * ncols A ≤ i < k * ncols A + ncols A →
         rd (Num.xi (LU.cN s1)) i = rd (Num.xi (LU.cN s)) i)
    ∧ Num.L (LU.cN s1)
      = with_Ap (Num.L (LU.cN s))
          (<[Z.to_nat k := LU.lnz s]> (Ap (Num.L (LU.cN s))))
    ∧ Num.U (LU.cN s1)
      = with_Ap (Num.U (LU.cN s))
          (<[Z.to_nat k := LU.unz s]> (Ap (Num.U (LU.cN s)))).
Proof.
  intros HA Hk [Hctx Hperm Hlnz Hunz HL _].
  destruct s as [N lnz unz]. simpl in *.
  destruct Hctx. unfold LU.step_solve. simpl.
  rewrite wr_is_Some by lia. simpl.
  rewrite wr_is_Some by lia. simpl.
  destruct (co_q0 k Hk) as (col & Hcol & Hcr).
  assert (LU.col_of
            (with_U (with_L N (with_Ap (Num.L N)
                                 (<[Z.to_nat k:=lnz]> (Ap (Num.L N)))))
               (with_Ap (Num.U N) (<[Z.to_nat k:=unz]> (Ap (Num.U N))))) k
          = Some col) as -> by done.
  simpl. unfold LU.xi_row. simpl. rewrite co_n0.
  rewrite decide_True by lia. simpl. rewrite co_ncols0.
  assert (0 ≤ k ≤ ncols A) as Hk' by lia.
  assert (0 ≤ k) as Hk0 by lia.
  assert (0 ≤ k * ncols A
          ∧ k * ncols A + ncols A ≤ Z.of_nat (length (Num.xi N))) as Hrow
    by nia.
  destruct (reachr_total (ncols A) k lnz _ _
              (Num.pinv N) (k * ncols A) (length (Num.xi N))
              (fo_Lp_len _ _ _ _ HL) (fo_Lp_pos _ _ _ _ HL)
              (fo_cols _ _ _ _ HL) Hk' (fo_rows _ _ _ _ HL)
              (perm_inv_range _ _ _ _ Hk0 Hperm) Hrow
              (Ap A) (Ai A) col (Num.xi N) eq_refl)
    as (top & xi' & Hreach & Hxl & Hstk & Hfr).
  { destruct (HA col Hcr) as (lo & hi & ? & ? & Hrows).
    exists lo, hi. split_and!; [done..|]. intros p Hp.
    destruct (Hrows p Hp) as (i & v & ? & ? & _). by exists i. }
  simpl in Hreach. rewrite Hreach. simpl.
  rewrite wr_is_Some by lia. simpl. rewrite !with_Ap_twice.
  destruct (sp_splsolve_total (ncols A) k lnz _
              A col xi' (k * ncols A) top (Num.w N) (Num.pinv N) HL)
    as (x' & Hx' & Hxl'); [lia|done..| |done|].
  { by apply perm_inv_range with (Num.p N); [lia|]. }
  simpl in Hx'. rewrite Hx'. simpl.
  eexists _, _, _. split; [done|]. simpl. split_and!; try done; try lia.
  - unfold shape. simpl. rewrite !length_insert, Hxl, Hxl'. done.
  - apply (rd_wr_eq (Ap (Num.L N)) k lnz). apply wr_is_Some. lia.
Qed.

Lemma choose_pivot_total n pinv (x : list T) col pivtol ipiv0 a0 :
  Z.of_nat (length pinv) = n → Z.of_nat (length x) = n → 0 ≤ col < n →
  is_Some (LU.choose_pivot pinv x col pivtol ipiv0 a0).
Proof.
  intros. unfold LU.choose_pivot.
  destruct (rd_is_Some pinv col) as [pc ->]; [lia|]. simpl.
  case_decide; [|done].
  destruct (rd_is_Some x col) as [xc ->]; [lia|]. simpl.
  by destruct (PrimFloat.leb _ _).
Qed.

(** The column [k] that a step adds to L. *)
Lemma factor_ok_step n k lnz lnz1 (L0 L1 : sp_mat T) :
  0 ≤ k < n →
  factor_ok n k lnz L0 → Ap L1 = Ap L0 → ncols L1 = ncols L0 →
  rd (Ap L1) k = Some lnz → lnz < lnz1 ≤ Z.of_nat (length (Ai L1)) →
  length (Ax L1) = length (Ai L1) →
  (∀ r, 0 ≤ r < lnz1 → ∃ i, rd (Ai L1) r = Some i ∧ 0 ≤ i < n) →
  factor_ok n (k + 1) lnz1
    (with_Ap L1 (<[Z.to_nat (k + 1) := lnz1]> (Ap L1))).
Proof.
  intros Hk [Hnc Hlen Hpos Hcols Hlnz HLx Hrows] HLp Hnc1 Hlast Hl1 HLx1
    Hrows1.
  rewrite <-HLp in *. rewrite <-Hnc1 in *.
  assert (wr (Ap L1) (k + 1) lnz1
          = Some (<[Z.to_nat (k + 1) := lnz1]> (Ap L1))) as Hw
    by (apply wr_is_Some; lia).
  constructor; simpl; try done.
  - rewrite length_insert. done.
  - intros j Hj. rewrite (rd_wr _ _ _ _ _ Hw). case_decide.
    + exists lnz1. split; [done|lia].
    + by apply Hpos.
  - intros j Hj. rewrite !(rd_wr _ _ _ _ _ Hw).
    destruct (decide (j = k)) as [->|].
    + rewrite decide_False by lia. rewrite decide_True by done.
      exists lnz, lnz1. split_and!; (done || lia).
    + rewrite !decide_False by lia.
      destruct (Hcols j) as (a & b & ? & ? & ?); [lia|].
      exists a, b. split_and!; (done || lia).
  - lia.
Qed.

(** A step of [sp_ludcmp] returns, and keeps the invariant when it does
    not fail. *)
Lemma ludcmp_step_total A pivtol k (s : LU.lu_loc) :
  matrix_ok A → 0 ≤ k < ncols A → lu_inv (ncols A) k s →
  ∃ r, LU.ludcmp_step A pivtol k s = Some r
       ∧ match r with
         | Next s' =>
             lu_inv (ncols A) (k + 1) s' ∧ shape (LU.cN s') = shape (LU.cN s)
         | Break s' => shape (LU.cN s') = shape (LU.cN s)
         end.
Proof.
  intros HA Hk Hinv.
  destruct (step_solve_total A k s HA Hk Hinv)
    as (col & top & s1 & Hsolve & Hcol & Hstk & Hshape & HL1 & HLpk & Hfr
        & _).
  destruct (step_solve_frame _ _ _ _ _ _ Hsolve)
    as (_ & Htv & _ & _ & Hpinv1 & Hp1 & Hlnz1 & Hunz1).
  pose proof (ctx_ok_shape _ _ _ Hshape (li_ctx _ _ _ Hinv)) as Hctx1.
  assert (∀ j, 0 ≤ j < k + 1 →
            ∃ t, rd (Num.topvec (LU.cN s1)) j = Some t
                 ∧ stack_ok (ncols A) (j * ncols A) (Num.xi (LU.cN s1)) t)
    as Hstacks.
  { intros j Hj. rewrite (rd_wr _ _ _ _ _ Htv).
    destruct (decide (k = j)) as [<-|]; [by exists top|].
    destruct (li_stacks _ _ _ Hinv j) as (t & Ht & Hst); [lia|].
    exists t. split; [done|]. eapply stack_ok_frame; [done|].
    intros i Hi. apply Hfr. nia. }
  clear Htv Hfr.
  pose proof (li_perm _ _ _ Hinv) as Hperm.
  pose proof (li_lnz _ _ _ Hinv) as Hlnz.
  pose proof (li_unz _ _ _ Hinv) as Hunz.
  rewrite <-Hpinv1, <-Hp1 in Hperm. rewrite <-Hlnz1 in *. rewrite <-Hunz1 in *.
  clear Hinv Hpinv1 Hp1 Hlnz1 Hunz1.
  unfold LU.ludcmp_step. rewrite Hsolve. simpl. clear Hsolve.
  destruct s1 as [N lnz unz]. simpl in *. destruct Hctx1.
  pose proof (fo_lnz _ _ _ _ HL1) as Hlnz0.
  unfold LU.xi_row. rewrite co_n0. rewrite decide_True by lia. simpl.
  destruct (find_pivot_total (ncols A) k (Num.xi N) (k * ncols A) top
              (Num.pinv N) (Num.p N) (Num.w N)
              (LU.PivotState (-1) (-1)%float (Num.U N) unz))
    as (ps & Hfind & Hpunz & HUi & HUx & HUp); simpl;
    [done|lia|done..|lia|nia|done|].
  simpl in *. rewrite Hfind. simpl.
  destruct (bool_decide (LU.ipiv ps = -1) || PrimFloat.leb (LU.a ps) 0)
    eqn:Hno.
  { eexists. split; [done|]. simpl. rewrite <-Hshape. unfold shape. simpl.
    by rewrite HUp, HUi, HUx. }
  destruct (choose_pivot_total (ncols A) (Num.pinv N) (Num.w N) col pivtol
              (LU.ipiv ps) (LU.a ps)) as [ipiv Hch]; [done..|].
  rewrite Hch. simpl.
  destruct (chosen_pivot_fresh _ _ _ _ _ _ _ _ _ _ _ _ Hfind Hno Hch)
    as (v & Hv & Hneg).
  pose proof (rd_Some _ _ _ Hv) as Hipiv.
  destruct (rd_is_Some (Num.w N) ipiv) as [pivot ->]; [lia|]. simpl.
  assert (LU.punz ps + 1 ≤ Z.of_nat (length (Ai (LU.pU ps)))) as HcapU
    by (rewrite HUi; nia).
  assert (2 * lnz + 2 * (ncols A - k) ≤ ncols A * (ncols A + 1)) as Hcap
    by nia.
  rewrite (wr_is_Some (Ai (LU.pU ps))) by lia. simpl.
  rewrite (wr_is_Some (Ax (LU.pU ps))) by lia. simpl.
  assert (wr (Num.pinv N) ipiv k = Some (<[Z.to_nat ipiv:=k]> (Num.pinv N)))
    as Hwi by (apply wr_is_Some; lia).
  assert (wr (Num.p N) k ipiv = Some (<[Z.to_nat k:=ipiv]> (Num.p N)))
    as Hwp by (apply wr_is_Some; lia).
  rewrite Hwi, Hwp. simpl.
  rewrite (wr_is_Some (Ai (Num.L N))) by lia. simpl.
  rewrite (wr_is_Some (Ax (Num.L N))) by lia. simpl.
  assert (0 ≤ k) as Hk0 by lia.
  pose proof (perm_inv_step _ _ _ _ _ _ _ _ Hk0 Hperm Hv Hneg
                co_pinv0 Hwi Hwp) as Hperm'.
  assert (wr (Ai (Num.L N)) lnz ipiv
          = Some (<[Z.to_nat lnz:=ipiv]> (Ai (Num.L N)))) as HwL
    by (apply wr_is_Some; lia).
  match goal with
  | |- ∃ r, (LU.store_L _ _ _ _ ?pinv' _ (?L0, _, _) ≫= _) = _ ∧ _ =>
      destruct (store_L_total (ncols A) (k + 1) (Num.xi N) (k * ncols A) top
                  pinv' (<[Z.to_nat k:=ipiv]> (Num.p N)) pivot L0 (lnz + 1)
                  (Num.w N))
        as (L1 & lnz1 & x1 & Hstore & Hl1 & HLi1 & HLx1 & HLp1 & Hnc1
            & Hrows1 & Hx1)
  end; simpl; try done; try lia.
  { by rewrite length_insert. }
  { rewrite length_insert. lia. }
  { by rewrite !length_insert. }
  { intros r Hr. rewrite (rd_wr _ _ _ _ _ HwL).
    destruct (decide (lnz = r)) as [->|].
    - exists ipiv. split; [done|lia].
    - apply (fo_rows _ _ _ _ HL1). lia. }
  simpl in *. rewrite Hstore. simpl. eexists. split; [done|].
  rewrite length_insert in HLi1. rewrite length_insert in HLx1.
  split; [|rewrite <-Hshape; unfold shape; simpl;
           by rewrite !length_insert, HLp1, HLi1, HLx1, HUp, HUi, HUx, Hx1,
             Hnc1].
  constructor; simpl.
  - constructor; simpl; rewrite ?length_insert; try done; try lia; congruence.
  - done.
  - nia.
  - nia.
  - apply (factor_ok_step _ _ lnz _ (Num.L N)); try done; try lia.
    by rewrite HLp1.
  - done.
Qed.

Lemma fill_total {B : Type} n (v : B) a :
  n ≤ Z.of_nat (length a) → is_Some (LU.fill n v a).
Proof.
  intros Hn. unfold LU.fill.
  destruct (for_range_total (λ _ a', length a' = length a) 0 n
              (λ i a, wr a i v) a) as (a' & -> & _); [done| |done].
  intros i t Hi Ht. rewrite wr_is_Some by lia. eexists. split; [done|].
  by rewrite length_insert.
Qed.

(** The initialisation returns and sets up the invariant of the column
    loop. *)
Lemma ludcmp_init_total n (N : sp_num T) :
  ctx_ok n N →
  ∃ s, LU.ludcmp_init n N = Some s ∧ lu_inv n 0 s
       ∧ shape (LU.cN s) = shape N.
Proof.
  intros Hctx. pose proof Hctx as []. unfold LU.ludcmp_init.
  destruct (fill_total n s_zero (Num.w N)) as [x Hx]; [lia|].
  destruct (fill_total n (-1) (Num.pinv N)) as [pinv Hpinv]; [lia|].
  destruct (fill_total (n + 1) 0 (Ap (Num.L N))) as [Lp HLp]; [lia|].
  rewrite Hx, Hpinv, HLp. simpl. eexists. split; [done|].
  destruct (fill_frame _ _ _ _ Hx) as (Hxl & _ & _).
  destruct (fill_frame _ _ _ _ Hpinv) as (Hpl & Hpv & _).
  destruct (fill_frame _ _ _ _ HLp) as (HLl & HLv & _).
  assert (shape (with_L (with_pinv (with_w N x) pinv) (with_Ap (Num.L N) Lp))
          = shape N) as Hshape.
  { unfold shape. simpl. by rewrite Hxl, Hpl, HLl. }
  split; [|done]. constructor; simpl.
  - by eapply ctx_ok_shape.
  - split; [|intros; lia]. intros i Hi. exists (-1). split; [|by left].
    by apply Hpv.
  - lia.
  - lia.
  - assert (wr Lp 0 0 = Some (<[Z.to_nat 0 := 0]> Lp)) as Hw
      by (apply wr_is_Some; lia).
    constructor; simpl; try done; try lia.
    + rewrite length_insert. lia.
    + intros j Hj. exists 0. split; [|done].
      rewrite (rd_wr _ _ _ _ _ Hw). case_decide; [done|].
      apply HLv. lia.
  - intros; lia.
Qed.

(** The end of the factorisation returns. *)
Lemma finalize_total n (s : LU.lu_loc) :
  lu_inv n n s →
  ∃ N', LU.finalize n s = Some N' ∧ shape N' = shape (LU.cN s)
        ∧ Num.xi N' = Num.xi (LU.cN s).
Proof.
  intros [Hctx Hperm Hlnz Hunz HL _]. destruct s as [N lnz unz].
  simpl in *. destruct Hctx. unfold LU.finalize. simpl.
  rewrite (wr_is_Some (Ap (Num.L N))) by lia. simpl.
  rewrite (wr_is_Some (Ap (Num.U N))) by lia. simpl.
  pose proof (fo_lnz _ _ _ _ HL) as Hcap. simpl in Hcap.
  match goal with
  | |- ∃ N', (for_range _ _ ?body _ ≫= _) = _ ∧ _ =>
      destruct (for_range_total
        (λ p Li, length Li = length (Ai (Num.L N))
           ∧ ∀ r, p ≤ r < lnz → rd Li r = rd (Ai (Num.L N)) r)
        0 lnz body (Ai (Num.L N))) as (Li & -> & HLi & _)
  end; [done| |].
  - intros p Li Hp [Hl Hrest].
    destruct (fo_rows _ _ _ _ HL p Hp) as (i & Hi & Hir). simpl in Hi.
    rewrite Hrest by lia. rewrite Hi. simpl.
    destruct (rd_is_Some (Num.pinv N) i) as [v ->]; [lia|]. simpl.
    assert (wr Li p v = Some (<[Z.to_nat p := v]> Li)) as Hw
      by (apply wr_is_Some; lia).
    rewrite Hw. eexists. split; [done|]. split; [by rewrite length_insert|].
    intros r Hr. rewrite (rd_wr _ _ _ _ _ Hw). rewrite decide_False by lia.
    apply Hrest. lia.
  - simpl. eexists. split; [done|]. unfold shape. simpl.
    by rewrite !length_insert, HLi.
Qed.

(** The symbolic state that [sp_refactor] reuses: [pinv] and [p] are
    permutations inverse to each other, and every step has its recorded
    stack of reachable rows. *)
Record refactor_ok (n : Z) (N : sp_num T) : Prop := {
  ro_ctx : ctx_ok n N;
  ro_perm : perm_inv n n (Num.pinv N) (Num.p N);
  ro_stacks : ∀ j, 0 ≤ j < n →
                ∃ t, rd (Num.topvec N) j = Some t
                     ∧ stack_ok n (j * n) (Num.xi N) t;
}.

(** The column loop returns: it makes all the steps, or it is left at
    some step with the failure status. *)
Lemma ludcmp_loop_total (N : sp_num T) A pivtol :
  matrix_ok A → ctx_ok (ncols A) N →
  (∃ s, LU.ludcmp_loop N A pivtol = Some (ncols A, Next s)
        ∧ lu_inv (ncols A) (ncols A) s
        ∧ shape (LU.cN s) = shape N)
  ∨ (∃ k s, LU.ludcmp_loop N A pivtol = Some (k, Break s)
            ∧ 0 ≤ k < ncols A ∧ shape (LU.cN s) = shape N).
Proof.
  intros HA Hctx. unfold LU.ludcmp_loop.
  destruct (ludcmp_init_total _ _ Hctx) as (s0 & -> & Hinv0 & Hshape0).
  simpl.
  assert (0 ≤ ncols A) as Hn by (pose proof (co_w _ _ Hctx); lia).
  destruct (for_break_total
              (λ k s, lu_inv (ncols A) k s ∧ shape (LU.cN s) = shape N)
              (λ _ s, shape (LU.cN s) = shape N) 0 (ncols A)
              (LU.ludcmp_step A pivtol) s0)
    as [(s & Hrun & Hinv & Hshape)|(k & s & Hrun & Hk & Hshape)].
  - done.
  - intros k s Hk [Hinv Hshape].
    destruct (ludcmp_step_total A pivtol k s HA Hk Hinv) as ([s'|s'] & Hs & Hr).
    + left. exists s'. destruct Hr as [? Hshape'].
      split_and!; [done..|congruence].
    + right. exists s'. split; [done|]. congruence.
  - left. replace (0 `max` ncols A) with (ncols A) in * by lia. by exists s.
  - right. by exists k, s.
Qed.

(** [sp_ludcmp] returns, on a matrix whose entries can be read and a
    context laid out for its dimension. *)
Lemma sp_ludcmp_total (N : sp_num T) A pivtol :
  matrix_ok A → ctx_ok (ncols A) N →
  ∃ st N', LU.sp_ludcmp N A pivtol = Some (st, N').
Proof.
  intros HA Hctx. unfold LU.sp_ludcmp.
  destruct (ludcmp_loop_total N A pivtol HA Hctx)
    as [(s & -> & Hinv & _)|(k & s & -> & _)]; simpl.
  - destruct (finalize_total _ _ Hinv) as (N' & -> & _). simpl.
    by exists SUCCESS, N'.
  - by exists FAILURE, (LU.cN s).
Qed.

(** A factorisation that succeeds leaves such a state. *)
Lemma sp_ludcmp_refactor_ok (N : sp_num T) A pivtol N' :
  matrix_ok A → ctx_ok (ncols A) N →
  LU.sp_ludcmp N A pivtol = Some (SUCCESS, N') →
  refactor_ok (ncols A) N'.
Proof.
  intros HA Hctx. unfold LU.sp_ludcmp.
  destruct (ludcmp_loop_total N A pivtol HA Hctx)
    as [(s & -> & Hinv & _)|(k & s & -> & _)]; simpl; [|done].
  intros Hfin. apply bind_Some in Hfin as (N1 & Hfin & [= <-]).
  destruct (finalize_total _ _ Hinv) as (N2 & Hfin' & Hshape & Hxi).
  rewrite Hfin in Hfin'. injection Hfin' as <-.
  destruct (finalize_frame _ _ _ Hfin) as (Hpinv & Hp & Htv & _).
  constructor.
  - eapply ctx_ok_shape; [done|]. apply (li_ctx _ _ _ Hinv).
  - rewrite Hpinv, Hp. apply (li_perm _ _ _ Hinv).
  - rewrite Htv, Hxi. apply (li_stacks _ _ _ Hinv).
Qed.

(** *** The refactorisation returns *)

(** Rows whose pivot steps lie in [lo .. hi-1], none twice: there are at
    most [hi - lo] of them. *)
Lemma pivot_range_bound n pinv p lo hi (l : list Z) :
  0 ≤ lo → perm_inv n n pinv p → NoDup l →
  (∀ e, e ∈ l → 0 ≤ e < n ∧ ∃ v, rd pinv e = Some v ∧ lo ≤ v < hi) →
  Z.of_nat (length l) ≤ Z.max 0 (hi - lo).
Proof.
  intros Hlo [Hrows _] Hnd Hl.
  assert (∀ e, e ∈ l → ∃ v, rd pinv e = Some v ∧ lo ≤ v < hi
                           ∧ rd p v = Some e) as Hpiv.
  { intros e He. destruct (Hl e He) as (Hr & v & Hv & Hran).
    destruct (Hrows e Hr) as (v' & Hv' & [?|[? ?]]); simplify_eq; [lia|].
    by exists v. }
  pose proof (nodup_bound ((λ e, default 0 (rd pinv e) - lo) <$> l) (hi - lo))
    as Hb.
  rewrite length_fmap in Hb. apply Hb.
  - apply NoDup_fmap_2_strong; [|done]. intros x y Hx Hy.
    destruct (Hpiv x Hx) as (vx & -> & _ & Hpx).
    destruct (Hpiv y Hy) as (vy & -> & _ & Hpy). simpl. intros Heq.
    assert (vx = vy) as -> by lia. congruence.
  - intros v (e & -> & He)%list_elem_of_fmap.
    destruct (Hpiv e He) as (v & -> & ? & _). simpl. lia.
Qed.

(** The rows [l], none twice, were found on the stack before position
    [q], and their pivot steps lie in [lo .. hi-1]. *)
Definition picked (n : Z) (xi : list Z) (xik top : Z) (pinv : list Z)
    (lo hi q : Z) (l : list Z) : Prop :=
  NoDup l
  ∧ ∀ e, e ∈ l →
      (∃ p', top ≤ p' < q ∧ rd xi (xik + p') = Some e)
      ∧ 0 ≤ e < n ∧ ∃ v, rd pinv e = Some v ∧ lo ≤ v < hi.

Lemma picked_skip n xi xik top pinv lo hi q l :
  picked n xi xik top pinv lo hi q l →
  picked n xi xik top pinv lo hi (q + 1) l.
Proof.
  intros [Hnd Hl]. split; [done|]. intros e He.
  destruct (Hl e He) as ((p' & ? & ?) & ? & ?).
  split; [|done]. exists p'. split; [lia|done].
Qed.

Lemma picked_add n xi xik top pinv lo hi q l e v :
  stack_ok n xik xi top → top ≤ q < n →
  picked n xi xik top pinv lo hi q l →
  rd xi (xik + q) = Some e → 0 ≤ e < n →
  rd pinv e = Some v → lo ≤ v < hi →
  picked n xi xik top pinv lo hi (q + 1) (e :: l).
Proof.
  intros Hstk Hq [Hnd Hl] He Her Hv Hvr. split.
  - apply NoDup_cons. split; [|done].
    eapply stack_fresh; [done..|]. intros e' He'.
    by destruct (Hl e' He').
  - intros e' [->|He']%elem_of_cons.
    + split; [|split; [done|by exists v]]. exists q. split; [lia|done].
    + by apply (picked_skip _ _ _ _ _ _ _ _ _ (conj Hnd Hl)).
Qed.

Lemma picked_bound n xi xik top pinv p lo hi q l :
  0 ≤ lo ≤ hi → perm_inv n n pinv p →
  picked n xi xik top pinv lo hi q l →
  Z.of_nat (length l) ≤ hi - lo.
Proof.
  intros Hlo Hperm [Hnd Hl].
  pose proof (pivot_range_bound n pinv p lo hi l ltac:(lia) Hperm Hnd) as Hb.
  replace (Z.max 0 (hi - lo)) with (hi - lo) in Hb by lia. apply Hb.
  intros e He. by destruct (Hl e He) as (_ & ? & ?).
Qed.

(** The loop over the reachable rows of a step of [sp_refactor]
    returns; it puts at most [k] entries in U and [n - k - 1] in L. *)
Lemma refactor_rows_total n k xi xik top pinv p (pivot : T)
    L0 lnz0 U0 unz0 x0 :
  stack_ok n xik xi top → 0 ≤ k < n → perm_inv n n pinv p →
  Z.of_nat (length pinv) = n → Z.of_nat (length x0) = n →
  0 ≤ lnz0 → lnz0 + (n - k - 1) ≤ Z.of_nat (length (Ai L0)) →
  length (Ax L0) = length (Ai L0) →
  (∀ r, 0 ≤ r < lnz0 → ∃ i, rd (Ai L0) r = Some i ∧ 0 ≤ i < n) →
  0 ≤ unz0 → unz0 + k ≤ Z.of_nat (length (Ai U0)) →
  length (Ax U0) = length (Ai U0) →
  ∃ L1 lnz1 U1 unz1 x1,
    LU.refactor_rows n k xi xik top pinv pivot (L0, lnz0, U0, unz0, x0)
      = Some (L1, lnz1, U1, unz1, x1)
    ∧ lnz0 ≤ lnz1 ≤ lnz0 + (n - k - 1)
    ∧ unz0 ≤ unz1 ≤ unz0 + k
    ∧ (length (Ai L1) = length (Ai L0) ∧ length (Ax L1) = length (Ax L0)
       ∧ Ap L1 = Ap L0 ∧ ncols L1 = ncols L0)
    ∧ (∀ r, 0 ≤ r < lnz1 → ∃ i, rd (Ai L1) r = Some i ∧ 0 ≤ i < n)
    ∧ (length (Ai U1) = length (Ai U0) ∧ length (Ax U1) = length (Ax U0)
       ∧ Ap U1 = Ap U0)
    ∧ length x1 = length x0.
Proof.
  intros Hstk Hk Hperm Hpl Hxl Hl0 HcapL HLx0 Hrows0 Hu0 HcapU HUx0.
  destruct (perm_inv_full _ _ _ Hpl Hperm) as [Hfull _].
  unfold LU.refactor_rows.
  match goal with
  | |- ∃ L1 lnz1 U1 unz1 x1, for_range _ _ ?body _ = _ ∧ _ =>
      destruct (for_range_total
        (λ q (s : sp_mat T * Z * sp_mat T * Z * list T),
           (∃ ll, s.1.1.1.2 = lnz0 + Z.of_nat (length ll)
                  ∧ picked n xi xik top pinv (k + 1) n q ll)
           ∧ (∃ lu, s.1.2 = unz0 + Z.of_nat (length lu)
                    ∧ picked n xi xik top pinv 0 k q lu)
           ∧ (length (Ai s.1.1.1.1) = length (Ai L0)
              ∧ length (Ax s.1.1.1.1) = length (Ax L0)
              ∧ Ap s.1.1.1.1 = Ap L0 ∧ ncols s.1.1.1.1 = ncols L0)
           ∧ (∀ r, 0 ≤ r < s.1.1.1.2 →
                ∃ i, rd (Ai s.1.1.1.1) r = Some i ∧ 0 ≤ i < n)
           ∧ (length (Ai s.1.1.2) = length (Ai U0)
              ∧ length (Ax s.1.1.2) = length (Ax U0)
              ∧ Ap s.1.1.2 = Ap U0)
           ∧ length s.2 = length x0)
        top n body (L0, lnz0, U0, unz0, x0))
        as ([[[[L1 lnz1] U1] unz1] x1] & Hrun & (ll & Hll & Hpl1)
            & (lu & Hlu & Hpu1) & HL1 & Hrows1 & HU1 & Hx1)
  end.
  - simpl. split_and!; try done.
    + exists []. split; [simpl; lia|]. split; [constructor|].
      intros e He. by apply elem_of_nil in He.
    + exists []. split; [simpl; lia|]. split; [constructor|].
      intros e He. by apply elem_of_nil in He.
  - intros q [[[[L lnz] U] unz] x] Hq
      ((ll & Hll & Hpll) & (lu & Hlu & Hplu) & (HLi & HLx & HLp & Hnc)
       & Hrows & (HUi & HUx & HUp) & Hx).
    simpl in *.
    destruct (stack_ok_rd _ _ _ _ q Hstk Hq) as (e & He & Her).
    rewrite He. simpl.
    destruct (Hfull e Her) as (pi & Hpir & Hpi & _). rewrite Hpi. simpl.
    destruct (rd_is_Some x e) as [xv Hxv]; [lia|].
    assert (wr x e s_zero = Some (<[Z.to_nat e:=s_zero]> x)) as Hwx
      by (apply wr_is_Some; lia).
    assert (∃ U' unz',
              (if decide (pi < k) then
                 Ui ← wr (Ai U) unz pi;
                 xv ← rd x e;
                 Ux ← wr (Ax U) unz xv;
                 Some (with_Ax (with_Ai U Ui) Ux, unz + 1)
               else Some (U, unz)) = Some (U', unz')
              ∧ (∃ lu', unz' = unz0 + Z.of_nat (length lu')
                        ∧ picked n xi xik top pinv 0 k (q + 1) lu')
              ∧ length (Ai U') = length (Ai U0)
              ∧ length (Ax U') = length (Ax U0)
              ∧ Ap U' = Ap U0)
      as (U' & unz' & -> & HluS & HUS).
    { case_decide.
      - assert (picked n xi xik top pinv 0 k (q + 1) (e :: lu)) as Hadd
          by (eapply picked_add; (done || lia)).
        assert (Z.of_nat (length (e :: lu)) ≤ k - 0) as Hb
          by (eapply picked_bound; [|done..]; lia).
        simpl in Hb.
        rewrite wr_is_Some by lia. simpl. rewrite Hxv. simpl.
        rewrite wr_is_Some by lia. simpl.
        eexists _, _. split; [done|]. simpl.
        rewrite !length_insert. split_and!; try done.
        exists (e :: lu). split; [simpl; lia|done].
      - eexists _, _. split; [done|]. split_and!; try done.
        exists lu. split; [done|]. by apply picked_skip. }
    simpl.
    assert (∃ L' lnz',
              (if decide (pi > k) then
                 Li ← wr (Ai L) lnz e;
                 xv ← rd x e;
                 Lx ← wr (Ax L) lnz (s_div xv pivot);
                 Some (with_Ax (with_Ai L Li) Lx, lnz + 1)
               else Some (L, lnz)) = Some (L', lnz')
              ∧ (∃ ll', lnz' = lnz0 + Z.of_nat (length ll')
                        ∧ picked n xi xik top pinv (k + 1) n (q + 1) ll')
              ∧ (length (Ai L') = length (Ai L0)
                 ∧ length (Ax L') = length (Ax L0)
                 ∧ Ap L' = Ap L0 ∧ ncols L' = ncols L0)
              ∧ (∀ r, 0 ≤ r < lnz' →
                   ∃ i, rd (Ai L') r = Some i ∧ 0 ≤ i < n))
      as (L' & lnz' & -> & HllS & HLS & HrowsS).
    { case_decide.
      - assert (picked n xi xik top pinv (k + 1) n (q + 1) (e :: ll)) as Hadd
          by (eapply picked_add; (done || lia)).
        assert (Z.of_nat (length (e :: ll)) ≤ n - (k + 1)) as Hb
          by (eapply picked_bound; [|done..]; lia).
        simpl in Hb.
        assert (wr (Ai L) lnz e = Some (<[Z.to_nat lnz:=e]> (Ai L))) as Hw
          by (apply wr_is_Some; lia).
        rewrite Hw. simpl. rewrite Hxv. simpl.
        rewrite wr_is_Some by lia. simpl.
        eexists _, _. split; [done|]. simpl.
        rewrite !length_insert. split_and!; try done.
        + exists (e :: ll). split; [simpl; lia|done].
        + intros r Hr. rewrite (rd_wr _ _ _ _ _ Hw).
          destruct (decide (lnz = r)); [by exists e|]. apply Hrows. lia.
      - eexists _, _. split; [done|]. split_and!; try done.
        exists ll. split; [done|]. by apply picked_skip. }
    simpl. rewrite Hwx. simpl. eexists. split; [done|]. simpl.
    rewrite length_insert. done.
  - simpl in *. exists L1, lnz1, U1, unz1, x1.
    replace (Z.max top n) with n in * by (destruct Hstk; lia).
    assert (Z.of_nat (length ll) ≤ n - (k + 1))
      by (eapply picked_bound; [|done..]; lia).
    assert (Z.of_nat (length lu) ≤ k - 0)
      by (eapply picked_bound; [|done..]; lia).
    destruct HL1 as (? & ? & ? & ?), HU1 as (? & ? & ?).
    split_and!; try done; lia.
Qed.

(** The invariant of the column loop of [sp_refactor], before step
    [k]: as for [sp_ludcmp], with the pointers of the columns after [k]
    still at zero. *)
Record rf_inv (n k : Z) (s : LU.lu_loc) : Prop := {
  ri_ok : refactor_ok n (LU.cN s);
  ri_lnz : 2 * LU.lnz s ≤ k * (2 * n - k + 1);
  ri_unz : 0 ≤ LU.unz s ∧ 2 * LU.unz s ≤ k * (k + 1);
  ri_L : factor_ok n k (LU.lnz s)
           (with_Ap (Num.L (LU.cN s))
              (<[Z.to_nat k := LU.lnz s]> (Ap (Num.L (LU.cN s)))));
  ri_Lp : ∀ j, k < j ≤ n → rd (Ap (Num.L (LU.cN s))) j = Some 0;
}.

(** During the refactorisation [sp_splsolve] also visits columns of L
    that are not yet written: their pointers are zero, and they have no
    entry after the first. *)
Lemma rf_solve_ok n k lnz (L : sp_mat T) :
  0 ≤ k < n →
  factor_ok n k lnz (with_Ap L (<[Z.to_nat k := lnz]> (Ap L))) →
  (∀ j, k < j ≤ n → rd (Ap L) j = Some 0) →
  lnz < Z.of_nat (length (Ai L)) →
  solve_ok n n (with_Ap L (<[Z.to_nat k := lnz]> (Ap L))).
Proof.
  intros Hk HL Hzero Hcap.
  destruct (factor_solve_ok _ _ _ _ HL) as [Hnc Hcols].
  pose proof (fo_Lp_len _ _ _ _ HL) as Hlen.
  pose proof (fo_lnz _ _ _ _ HL) as Hlnz.
  pose proof (fo_Lx _ _ _ _ HL) as HLx.
  simpl in *. rewrite length_insert in Hlen.
  assert (wr (Ap L) k lnz = Some (<[Z.to_nat k := lnz]> (Ap L))) as Hw
    by (apply wr_is_Some; lia).
  split; [done|]. simpl. intros j Hj.
  destruct (decide (j < k)) as [Hlt|Hge]; [apply Hcols; lia|].
  rewrite !(rd_wr _ _ _ _ _ Hw).
  rewrite (decide_False (P := k = j + 1)) by lia.
  rewrite (Hzero (j + 1)) by lia.
  destruct (decide (k = j)) as [<-|].
  - exists lnz, 0. split_and!; (done || lia).
  - rewrite (Hzero j) by lia. exists 0, 0. split_and!; (done || lia).
Qed.

(** A step of [sp_refactor] returns and keeps the invariant. *)
Lemma refactor_step_total A k (s : LU.lu_loc) :
  matrix_ok A → 0 ≤ k < ncols A → rf_inv (ncols A) k s →
  ∃ s', LU.refactor_step A k s = Some s' ∧ rf_inv (ncols A) (k + 1) s'.
Proof.
  intros HA Hk [[Hctx Hperm Hstacks] Hlnz Hunz HL HLp].
  destruct s as [N lnz unz]. simpl in *. pose proof Hctx as [].
  destruct (perm_inv_full _ _ _ co_pinv0 Hperm) as [Hfull Hsteps].
  pose proof (fo_lnz _ _ _ _ HL) as Hlnz0. simpl in Hlnz0.
  assert (2 * lnz + 2 * (ncols A - k) ≤ ncols A * (ncols A + 1)) as HcapL
    by nia.
  assert (2 * unz + 2 * (k + 1) ≤ ncols A * (ncols A + 1)) as HcapU by nia.
  unfold LU.refactor_step. simpl.
  rewrite (wr_is_Some (Ap (Num.L N))) by lia. simpl.
  rewrite (wr_is_Some (Ap (Num.U N))) by lia. simpl.
  destruct (co_q0 k Hk) as (col & Hcol & Hcr).
  assert (LU.col_of
            (with_U (with_L N (with_Ap (Num.L N)
                                 (<[Z.to_nat k:=lnz]> (Ap (Num.L N)))))
               (with_Ap (Num.U N) (<[Z.to_nat k:=unz]> (Ap (Num.U N))))) k
          = Some col) as -> by done.
  simpl. destruct (Hstacks k Hk) as (top & -> & Hstk). simpl.
  unfold LU.xi_row. simpl. rewrite co_n0.
  rewrite decide_True by lia. simpl.
  destruct (sp_splsolve_returns (ncols A) (ncols A)
              _ A col (Num.xi N) (k * ncols A) top (Num.w N) (Num.pinv N)
              (rf_solve_ok _ _ _ _ Hk HL HLp ltac:(lia)))
    as (x & Hx & Hxl); try done.
  { intros i Hi. destruct (Hfull i Hi) as (v & ? & ? & _). exists v.
    split; [done|lia]. }
  simpl in Hx. rewrite Hx. simpl.
  destruct (Hsteps k Hk) as (ipiv & Hipiv & -> & _). simpl.
  destruct (rd_is_Some x ipiv) as [pivot ->]; [lia|]. simpl.
  assert (wr (Ai (Num.L N)) lnz ipiv
          = Some (<[Z.to_nat lnz:=ipiv]> (Ai (Num.L N)))) as HwL
    by (apply wr_is_Some; lia).
  rewrite HwL. simpl.
  rewrite (wr_is_Some (Ax (Num.L N))) by lia. simpl.
  match goal with
  | |- ∃ s', (LU.refactor_rows _ _ _ _ _ _ _ (?L0, _, ?U0, _, _) ≫= _) = _
             ∧ _ =>
      destruct (refactor_rows_total (ncols A) k (Num.xi N) (k * ncols A) top
                  (Num.pinv N) (Num.p N) pivot L0 (lnz + 1) U0 unz x)
        as (L1 & lnz1 & U1 & unz1 & x1 & Hrows & Hl1 & Hu1
            & (HLi1 & HLx1 & HLp1 & Hnc1) & Hrows1 & (HUi1 & HUx1 & HUp1)
            & Hx1)
  end; simpl; rewrite ?length_insert; try done; try lia.
  { intros r Hr. rewrite (rd_wr _ _ _ _ _ HwL).
    destruct (decide (lnz = r)) as [->|]; [by exists ipiv|].
    apply (fo_rows _ _ _ _ HL). lia. }
  simpl in *. rewrite Hrows. simpl.
  rewrite length_insert in HLi1. rewrite length_insert in HLx1.
  rewrite (wr_is_Some (Ai U1)) by lia. simpl.
  rewrite (wr_is_Some (Ax U1)) by lia. simpl.
  eexists. split; [done|].
  assert (wr (Ap (Num.L N)) k lnz
          = Some (<[Z.to_nat k := lnz]> (Ap (Num.L N)))) as HwLp
    by (apply wr_is_Some; lia).
  constructor; simpl.
  - constructor; simpl; [|done..].
    constructor; simpl; rewrite ?HLp1, ?HUp1, ?length_insert; try done;
      try lia; congruence.
  - nia.
  - nia.
  - apply (factor_ok_step _ _ lnz _ _ _ Hk HL); simpl; try done; try lia.
    rewrite HLp1. by eapply rd_wr_eq.
  - intros j Hj. rewrite HLp1, (rd_wr _ _ _ _ _ HwLp).
    rewrite decide_False by lia. apply HLp. lia.
Qed.

(** [sp_refactor] returns, with the success status, whatever the values
    of the matrix are. *)
Lemma sp_refactor_total (N : sp_num T) A :
  matrix_ok A → refactor_ok (ncols A) N →
  ∃ N', LU.sp_refactor N A = Some (SUCCESS, N').
Proof.
  intros HA [Hctx Hperm Hstacks]. pose proof Hctx as [].
  unfold LU.sp_refactor.
  destruct (fill_total (ncols A) s_zero (Num.w N)) as [x Hx]; [lia|].
  destruct (fill_total (ncols A + 1) 0 (Ap (Num.L N))) as [Lp HLp]; [lia|].
  rewrite Hx, HLp. simpl.
  destruct (fill_frame _ _ _ _ Hx) as (Hxl & _ & _).
  destruct (fill_frame _ _ _ _ HLp) as (HLl & HLv & _).
  assert (wr Lp 0 0 = Some (<[Z.to_nat 0 := 0]> Lp)) as Hw
    by (apply wr_is_Some; lia).
  destruct (for_range_total (λ k s, rf_inv (ncols A) k s) 0 (ncols A)
              (LU.refactor_step A)
              (LU.LuLoc (with_L (with_w N x) (with_Ap (Num.L N) Lp)) 0 0))
    as (s & -> & Hs).
  - constructor; simpl; try lia.
    + constructor; simpl; [|done..].
      apply (ctx_ok_shape _ N); [|done]. unfold shape. simpl.
      by rewrite Hxl, HLl.
    + constructor; simpl; try done; try lia.
      * rewrite length_insert. lia.
      * intros j Hj. exists 0. split; [|done].
        rewrite (rd_wr _ _ _ _ _ Hw). case_decide; [done|].
        apply HLv. lia.
    + intros j Hj. apply HLv. lia.
  - intros k s Hk Hinv. by apply refactor_step_total.
  - simpl. replace (0 `max` ncols A) with (ncols A) in Hs by lia.
    destruct Hs as [[Hctx' Hperm' Hstacks'] Hlnz Hunz HL _].
    destruct (finalize_total (ncols A) s) as (N' & -> & _); [|by exists N'].
    by constructor.
Qed.

(** *** The values that the refactorisation stores *)

(** What the loop of a step of [sp_refactor] stores: every value that
    it adds to L is a quotient by the pivot, and the entries of L and U
    stored before are kept. *)
Lemma refactor_rows_values n k xi xik top pinv (pivot : T)
    L0 lnz0 U0 unz0 x0 L1 lnz1 U1 unz1 x1 :
  LU.refactor_rows n k xi xik top pinv pivot (L0, lnz0, U0, unz0, x0)
    = Some (L1, lnz1, U1, unz1, x1) →
  lnz0 ≤ lnz1 ∧ unz0 ≤ unz1 ∧ Ap L1 = Ap L0 ∧ Ap U1 = Ap U0
  ∧ (∀ q, q < lnz0 → rd (Ax L1) q = rd (Ax L0) q)
  ∧ (∀ q, lnz0 ≤ q < lnz1 → ∃ xv, rd (Ax L1) q = Some (s_div xv pivot))
  ∧ (∀ q, q < unz0 → rd (Ax U1) q = rd (Ax U0) q)
  ∧ (∀ q, q < unz0 → rd (Ai U1) q = rd (Ai U0) q).
Proof.
  intros Hrun. unfold LU.refactor_rows in Hrun.
  apply (for_range_inv
    (λ (_ : Z) (s : sp_mat T * Z * sp_mat T * Z * list T),
       lnz0 ≤ s.1.1.1.2 ∧ unz0 ≤ s.1.2
       ∧ Ap s.1.1.1.1 = Ap L0 ∧ Ap s.1.1.2 = Ap U0
       ∧ (∀ q, q < lnz0 → rd (Ax s.1.1.1.1) q = rd (Ax L0) q)
       ∧ (∀ q, lnz0 ≤ q < s.1.1.1.2 →
            ∃ xv, rd (Ax s.1.1.1.1) q = Some (s_div xv pivot))
       ∧ (∀ q, q < unz0 → rd (Ax s.1.1.2) q = rd (Ax U0) q)
       ∧ (∀ q, q < unz0 → rd (Ai s.1.1.2) q = rd (Ai U0) q)))
    in Hrun.
  - done.
  - simpl. split_and!; try done; try lia; intros; lia.
  - clear Hrun. intros q [[[[L lnz] U] unz] x] s' Hq
      (HleL & HleU & HApL & HApU & HfrL & Hquot & HfrUx & HfrUi) Hbody.
    simpl in *.
    apply bind_Some in Hbody as (e & He & Hbody).
    apply bind_Some in Hbody as (pi & Hpi & Hbody).
    apply bind_Some in Hbody as ([U' unz'] & HcaseU & Hbody).
    apply bind_Some in Hbody as ([L' lnz'] & HcaseL & Hbody).
    apply bind_Some in Hbody as (x' & _ & Hbody). injection Hbody as <-.
    simpl.
    assert (lnz ≤ lnz' ∧ Ap L' = Ap L0
            ∧ (∀ q', q' < lnz0 → rd (Ax L') q' = rd (Ax L0) q')
            ∧ (∀ q', lnz0 ≤ q' < lnz' →
                 ∃ xv, rd (Ax L') q' = Some (s_div xv pivot)))
      as (? & ? & ? & ?).
    { clear HcaseU. case_decide as Hgt.
      - apply bind_Some in HcaseL as (Li & HLi & HcaseL).
        apply bind_Some in HcaseL as (xv & _ & HcaseL).
        apply bind_Some in HcaseL as (Lx & HLx & HcaseL).
        injection HcaseL as <- <-. simpl. split_and!; [lia|done| |].
        + intros q' Hq'. rewrite <-HfrL by done.
          eapply rd_wr_ne; [done|lia].
        + intros q' Hq'. rewrite (rd_wr _ _ _ _ _ HLx).
          case_decide; [by exists xv|]. apply Hquot. lia.
      - injection HcaseL as <- <-. split_and!; [lia|done..]. }
    assert (unz ≤ unz' ∧ Ap U' = Ap U0
            ∧ (∀ q', q' < unz0 → rd (Ax U') q' = rd (Ax U0) q')
            ∧ (∀ q', q' < unz0 → rd (Ai U') q' = rd (Ai U0) q'))
      as (? & ? & ? & ?).
    { clear HcaseL. case_decide as Hlt.
      - apply bind_Some in HcaseU as (Ui & HUi & HcaseU).
        apply bind_Some in HcaseU as (xv & _ & HcaseU).
        apply bind_Some in HcaseU as (Ux & HUx & HcaseU).
        injection HcaseU as <- <-. simpl. split_and!; [lia|done| |].
        + intros q' Hq'. rewrite <-HfrUx by done.
          eapply rd_wr_ne; [done|lia].
        + intros q' Hq'. rewrite <-HfrUi by done.
          eapply rd_wr_ne; [done|lia].
      - injection HcaseU as <- <-. split_and!; [lia|done..]. }
    split_and!; try done; lia.
Qed.

(** Before step [k] of [sp_refactor]: column [j < k] of U ends with the
    diagonal entry, the pivot of step [j]; column [j] of L starts with
    a one, and each of its further values is a quotient by that
    pivot. *)
Definition val_inv (k : Z) (s : LU.lu_loc) : Prop :=
  ∀ j, 0 ≤ j < k →
    ∃ a b d pivot,
      rd (<[Z.to_nat k := LU.lnz s]> (Ap (Num.L (LU.cN s)))) j = Some a
      ∧ rd (<[Z.to_nat k := LU.lnz s]> (Ap (Num.L (LU.cN s)))) (j + 1)
        = Some b
      ∧ rd (<[Z.to_nat k := LU.unz s]> (Ap (Num.U (LU.cN s)))) (j + 1)
        = Some d
      ∧ a < b ∧ b ≤ LU.lnz s ∧ d ≤ LU.unz s
      ∧ rd (Ai (Num.U (LU.cN s))) (d - 1) = Some j
      ∧ rd (Ax (Num.U (LU.cN s))) (d - 1) = Some pivot
      ∧ rd (Ax (Num.L (LU.cN s))) a = Some s_one
      ∧ ∀ q, a < q < b →
          ∃ xv, rd (Ax (Num.L (LU.cN s))) q = Some (s_div xv pivot).

Lemma refactor_step_values A k (s s' : LU.lu_loc) :
  0 ≤ k < ncols A → rf_inv (ncols A) k s → val_inv k s →
  LU.refactor_step A k s = Some s' → val_inv (k + 1) s'.
Proof.
  intros Hk Hinv Hval Hstep.
  pose proof (ri_ok _ _ _ Hinv) as [Hctx _ _].
  pose proof (co_Lp _ _ Hctx) as HLplen. pose proof (co_Up _ _ Hctx) as HUplen.
  destruct s as [N lnz unz]. unfold val_inv in *. simpl in *.
  unfold LU.refactor_step in Hstep. simpl in Hstep.
  apply bind_Some in Hstep as (Lp & HwLk & Hstep).
  apply bind_Some in Hstep as (Up & HwUk & Hstep).
  pose proof HwLk as [_ ->]%wr_Some. pose proof HwUk as [_ ->]%wr_Some.
  apply bind_Some in Hstep as (col & _ & Hstep).
  apply bind_Some in Hstep as (top & _ & Hstep).
  apply bind_Some in Hstep as (xik & _ & Hstep).
  apply bind_Some in Hstep as (x & _ & Hstep).
  apply bind_Some in Hstep as (ipiv & _ & Hstep).
  apply bind_Some in Hstep as (pivot & _ & Hstep).
  apply bind_Some in Hstep as (Li & HLi & Hstep).
  apply bind_Some in Hstep as (Lx & HLx & Hstep).
  apply bind_Some in Hstep as ([[[[L1 lnz1] U1] unz1] x1] & Hrows & Hstep).
  apply bind_Some in Hstep as (Ui & HUi & Hstep).
  apply bind_Some in Hstep as (Ux & HUx & Hstep).
  injection Hstep as <-. simpl in *.
  destruct (refactor_rows_values _ _ _ _ _ _ _ _ _ _ _ _ _ _ _ _ _ Hrows)
    as (Hl1 & Hu1 & HApL & HApU & HfrLx & Hquot & HfrUx & HfrUi).
  simpl in HApL, HApU, HfrLx, HfrUx, HfrUi.
  assert (wr (<[Z.to_nat k := lnz]> (Ap (Num.L N))) (k + 1) lnz1
          = Some (<[Z.to_nat (k + 1) := lnz1]>
                    (<[Z.to_nat k := lnz]> (Ap (Num.L N))))) as HwL
    by (apply wr_is_Some; rewrite length_insert; lia).
  assert (wr (<[Z.to_nat k := unz]> (Ap (Num.U N))) (k + 1) (unz1 + 1)
          = Some (<[Z.to_nat (k + 1) := unz1 + 1]>
                    (<[Z.to_nat k := unz]> (Ap (Num.U N))))) as HwU
    by (apply wr_is_Some; rewrite length_insert; lia).
  intros j Hj. rewrite HApL, HApU.
  rewrite !(rd_wr _ _ _ _ _ HwL), !(rd_wr _ _ _ _ _ HwU).
  destruct (decide (j = k)) as [->|Hne].
  - rewrite decide_False by lia. rewrite !decide_True by done.
    rewrite (rd_wr _ _ _ _ _ HwLk). rewrite decide_True by done.
    exists lnz, lnz1, (unz1 + 1), pivot.
    replace (unz1 + 1 - 1) with unz1 by lia.
    split_and!; try done; try lia.
    + by eapply rd_wr_eq.
    + by eapply rd_wr_eq.
    + rewrite HfrLx by lia. by eapply rd_wr_eq.
    + intros q Hq. apply Hquot. lia.
  - rewrite !decide_False by lia.
    destruct (Hval j)
      as (a & b & d & pv & Ha & Hb & Hd & Hab & Hbl & Hdu & HUi' & HUx'
          & Hone & Hq); [lia|].
    exists a, b, d, pv. split_and!; try done; try lia.
    + rewrite (rd_wr_ne _ _ _ _ _ HUi) by lia. by rewrite HfrUi by lia.
    + rewrite (rd_wr_ne _ _ _ _ _ HUx) by lia. by rewrite HfrUx by lia.
    + rewrite HfrLx by lia. by rewrite (rd_wr_ne _ _ _ _ _ HLx) by lia.
    + intros q Hq'. rewrite HfrLx by lia.
      rewrite (rd_wr_ne _ _ _ _ _ HLx) by lia. by apply Hq.
Qed.

(** The end of [sp_ludcmp] and [sp_refactor] writes the last pointers of
    L and U and the rows of L; the values of L and the entries of U
    stay. *)
Lemma finalize_values n (s : @LU.lu_loc T) (N' : sp_num T) :
  LU.finalize n s = Some N' →
  Ap (Num.L N') = <[Z.to_nat n := LU.lnz s]> (Ap (Num.L (LU.cN s)))
  ∧ Ap (Num.U N') = <[Z.to_nat n := LU.unz s]> (Ap (Num.U (LU.cN s)))
  ∧ Ax (Num.L N') = Ax (Num.L (LU.cN s))
  ∧ Ax (Num.U N') = Ax (Num.U (LU.cN s))
  ∧ Ai (Num.U N') = Ai (Num.U (LU.cN s)).
Proof.
  unfold LU.finalize. intros Hf.
  apply bind_Some in Hf as (Lp & [_ ->]%wr_Some & Hf).
  apply bind_Some in Hf as (Up & [_ ->]%wr_Some & Hf).
  apply bind_Some in Hf as (Li & _ & Hf).
  by simplify_eq.
Qed.

(** The factors that [sp_refactor] leaves: column [k] of U ends with
    its diagonal entry, the pivot of step [k]; column [k] of L starts
    with a one, and every further value of it is a quotient by that
    pivot. *)
Lemma sp_refactor_values (N : sp_num T) A N' :
  matrix_ok A → refactor_ok (ncols A) N →
  LU.sp_refactor N A = Some (SUCCESS, N') →
  ∀ k, 0 ≤ k < ncols A →
    ∃ a b d pivot,
      rd (Ap (Num.L N')) k = Some a ∧ rd (Ap (Num.L N')) (k + 1) = Some b
      ∧ rd (Ap (Num.U N')) (k + 1) = Some d
      ∧ a < b
      ∧ rd (Ai (Num.U N')) (d - 1) = Some k
      ∧ rd (Ax (Num.U N')) (d - 1) = Some pivot
      ∧ rd (Ax (Num.L N')) a = Some s_one
      ∧ ∀ q, a < q < b → ∃ xv, rd (Ax (Num.L N')) q = Some (s_div xv pivot).
Proof.
  intros HA [Hctx Hperm Hstacks] Hrun. pose proof Hctx as [].
  unfold LU.sp_refactor in Hrun.
  apply bind_Some in Hrun as (x & Hx & Hrun).
  apply bind_Some in Hrun as (Lp & HLp & Hrun).
  apply bind_Some in Hrun as (s & Hloop & Hrun).
  apply bind_Some in Hrun as (N1 & Hfin & [= <-]).
  destruct (fill_frame _ _ _ _ Hx) as (Hxl & _ & _).
  destruct (fill_frame _ _ _ _ HLp) as (HLl & HLv & _).
  assert (wr Lp 0 0 = Some (<[Z.to_nat 0 := 0]> Lp)) as Hw
    by (apply wr_is_Some; lia).
  apply (for_range_inv (λ k s, rf_inv (ncols A) k s ∧ val_inv k s))
    in Hloop.
  - replace (0 `max` ncols A) with (ncols A) in Hloop by lia.
    destruct Hloop as [_ Hval].
    destruct (finalize_values _ _ _ Hfin) as (-> & -> & -> & -> & ->).
    intros k Hk.
    destruct (Hval k Hk)
      as (a & b & d & pv & Ha & Hb & Hd & Hab & _ & _ & HUi & HUx & Hone & Hq).
    by exists a, b, d, pv.
  - split; [|intros j Hj; lia].
    constructor; simpl; try lia.
    + constructor; simpl; [|done..].
      apply (ctx_ok_shape _ N); [|done]. unfold shape. simpl.
      by rewrite Hxl, HLl.
    + constructor; simpl; try done; try lia.
      * rewrite length_insert. lia.
      * intros j Hj. exists 0. split; [|done].
        rewrite (rd_wr _ _ _ _ _ Hw). case_decide; [done|].
        apply HLv. lia.
    + intros j Hj. apply HLv. lia.
  - intros k t t' Hk [Hrf Hval] Hstep. split.
    + destruct (refactor_step_total A k t HA Hk Hrf) as (t'' & Ht & ?).
      congruence.
    + by apply (refactor_step_values A k t).
Qed.


End Safety.

(** *** Claims on singular matrices and on the refactorisation *)

(** The examples meet what the results above ask for. *)
Lemma ctx2_ok : ctx_ok 2 ctx2.
Proof.
  constructor; try done; try (cbn; lia).
  intros k Hk. exists k. split; [done|lia].
Qed.

(** The factors of [ctx2] are those that [sp_mat_alloc] gives for
    dimension 2 and capacity 3. *)
Lemma ctx2_factors_alloc :
  sp_mat_alloc 2 2 3 = (SUCCESS, Some (Num.L ctx2))
  ∧ sp_mat_alloc 2 2 3 = (SUCCESS, Some (Num.U ctx2)).
Proof. split; reflexivity. Qed.

Lemma dense2_ok (a b c d : float) :
  matrix_ok (Build_sp_mat 2 2 4 [a; b; c; d] [0; 1; 0; 1] [0; 2; 4]).
Proof.
  intros col Hcol. simpl in Hcol.
  assert (col = 0 ∨ col = 1) as [-> | ->] by lia.
  - exists 0, 2. split_and!; [done..|]. intros p Hp.
    assert (p = 0 ∨ p = 1) as [-> | ->] by lia.
    + exists 0, a. split_and!; (done || (simpl; lia)).
    + exists 1, b. split_and!; (done || (simpl; lia)).
  - exists 2, 4. split_and!; [done..|]. intros p Hp.
    assert (p = 2 ∨ p = 3) as [-> | ->] by lia.
    + exists 0, c. split_and!; (done || (simpl; lia)).
    + exists 1, d. split_and!; (done || (simpl; lia)).
Qed.

(** C1: (1) when some step [k] of the factorisation works on a column of
    [A] whose stored values are all zero (or that is empty), a call of
    [sp_ludcmp] on a matrix whose entries can be read and a context laid
    out for the dimension of [A] returns, and what it returns is the
    failure status; (2) on any context whose L has the columns of [A],
    such a call never returns the success status; (3) every step [k] of
    a factorisation returns, and (4) it returns the failure status
    exactly when no reachable row without a pivot exists, or no such row
    has a magnitude above zero, that is the largest candidate magnitude
    is not positive. *)
Theorem sp_ludcmp_singular (N : sp_num float) (A : sp_mat float) (pivtol : float) :
  (∀ k c,
     matrix_ok A → ctx_ok (ncols A) N →
     0 ≤ k < ncols A → LU.col_of N k = Some c → zero_column A c →
     ∃ N', LU.sp_ludcmp N A pivtol = Some (FAILURE, N'))
  ∧ (∀ k c st N',
       0 ≤ k < ncols A → ncols (Num.L N) = ncols A →
       LU.col_of N k = Some c → zero_column A c →
       LU.sp_ludcmp N A pivtol = Some (st, N') → st = FAILURE)
  ∧ (∀ k s,
       matrix_ok A → 0 ≤ k < ncols A → lu_inv (ncols A) k s →
       ∃ col top s1 xik r,
         LU.step_solve A k s = Some (col, top, s1)
         ∧ LU.xi_row (LU.cN s1) k = Some xik
         ∧ LU.ludcmp_step A pivtol k s = Some r)
  ∧ (∀ k s col top s1 xik r,
       LU.step_solve A k s = Some (col, top, s1) →
       LU.xi_row (LU.cN s1) k = Some xik →
       LU.ludcmp_step A pivtol k s = Some r →
       (∃ s2, r = Break s2) ↔
       ((∀ i, ¬ candidate (Num.xi (LU.cN s1)) (Num.pinv (LU.cN s1))
                  xik top (ncols A) i)
        ∨ (∀ i xv,
             candidate (Num.xi (LU.cN s1)) (Num.pinv (LU.cN s1))
               xik top (ncols A) i →
             rd (Num.w (LU.cN s1)) i = Some xv →
             PrimFloat.ltb 0%float (PrimFloat.abs xv) = false))).
Proof.
  split_and!.
  - intros k c HA Hctx Hk Hc Hzero.
    destruct (sp_ludcmp_total N A pivtol HA Hctx) as (st & N' & Hrun).
    exists N'. rewrite Hrun. do 2 f_equal.
    eapply zero_column_failure; [done|apply (co_ncols _ _ Hctx)|done..].
  - intros k c st N' Hk Hn Hc Hzero Hrun. by eapply zero_column_failure.
  - intros k s HA Hk Hinv.
    destruct (ludcmp_step_total A pivtol k s HA Hk Hinv) as (r & Hstep & _).
    destruct (ludcmp_step_inv _ _ _ _ _ Hstep)
      as (col & top & s1 & xik & ps & ? & ? & _).
    by exists col, top, s1, xik, r.
  - intros k s col top s1 xik r Hsolve Hxik Hstep.
    rewrite (step_failure_iff _ _ _ _ _ _ _ _ Hsolve Hstep xik Hxik).
    split; [by right|]. intros [Hnone|Hall]; [|done].
    intros i xv Hc. by destruct (Hnone i).
Qed.

Lemma sp_ludcmp_singular_witness :
  ∃ N', LU.sp_ludcmp ctx2 A_zero_col 1%float = Some (FAILURE, N').
Proof.
  apply (proj1 (sp_ludcmp_singular ctx2 A_zero_col 1%float) 1 1).
  - apply dense2_ok.
  - apply ctx2_ok.
  - simpl. lia.
  - reflexivity.
  - apply zero_column_examples.
Defined.

(** The diagonal matrix with the entries 5 and 4, the context that its
    factorisation leaves, and the matrix of the same pattern with a zero
    at the first pivot. *)
Definition A_diag : sp_mat float :=
  Build_sp_mat 2 2 2 [5; 4]%float [0; 1] [0; 1; 2].

Definition ctx2_diag : sp_num float :=
  Eval vm_compute in
    match LU.sp_ludcmp ctx2 A_diag 1%float with
    | Some (_, N') => N'
    | None => ctx2
    end.

Definition A_diag_zero : sp_mat float :=
  Build_sp_mat 2 2 2 [0; 4]%float [0; 1] [0; 1; 2].

Lemma diag2_ok (a b : float) :
  matrix_ok (Build_sp_mat 2 2 2 [a; b] [0; 1] [0; 1; 2]).
Proof.
  intros col Hcol. simpl in Hcol.
  assert (col = 0 ∨ col = 1) as [-> | ->] by lia.
  - exists 0, 1. split_and!; [done..|]. intros p Hp.
    assert (p = 0) as -> by lia.
    exists 0, a. split_and!; (done || (simpl; lia)).
  - exists 1, 2. split_and!; [done..|]. intros p Hp.
    assert (p = 1) as -> by lia.
    exists 1, b. split_and!; (done || (simpl; lia)).
Qed.

Lemma ctx2_diag_ok : refactor_ok 2 ctx2_diag.
Proof.
  apply (sp_ludcmp_refactor_ok ctx2 A_diag 1%float).
  - apply diag2_ok.
  - apply ctx2_ok.
  - vm_compute. reflexivity.
Qed.

(** C10 (as stated it fails): a zero at the recorded pivot position does
    not always bring a NaN or an infinity into the factors.  The
    refactorisation of [A_diag_zero] on the context of [A_diag] returns
    the success status, the pivot of step 0 is zero, and L and U hold
    the values 1, 1 and 0, 4: column 0 of L has no entry below the
    diagonal, so nothing is divided by the zero. *)
Lemma sp_refactor_zero_pivot_clean :
  ¬ (∀ (N N' : sp_num float) (A : sp_mat float) k d pivot,
       matrix_ok A → refactor_ok (ncols A) N →
       LU.sp_refactor N A = Some (SUCCESS, N') →
       0 ≤ k < ncols A →
       rd (Ap (Num.U N')) (k + 1) = Some d →
       rd (Ax (Num.U N')) (d - 1) = Some pivot →
       PrimFloat.eqb pivot 0%float = true →
       ∃ q v, (rd (Ax (Num.L N')) q = Some v ∨ rd (Ax (Num.U N')) q = Some v)
              ∧ DoubleFacts.nan_or_inf v).
Proof.
  intros Hclaim.
  assert (∃ N', LU.sp_refactor ctx2_diag A_diag_zero = Some (SUCCESS, N')
                ∧ Ap (Num.U N') = [0; 1; 2]
                ∧ Ax (Num.L N') = [1; 1; 0]%float
                ∧ Ax (Num.U N') = [0; 4; 0]%float)
    as (N' & Hrun & HUp & HLx & HUx).
  { eexists. split; [vm_compute; reflexivity|]. by vm_compute. }
  destruct (Hclaim ctx2_diag N' A_diag_zero 0 1 0%float)
    as (q & v & Hv & Hbad).
  - apply diag2_ok.
  - apply ctx2_diag_ok.
  - done.
  - simpl. lia.
  - by rewrite HUp.
  - by rewrite HUx.
  - by vm_compute.
  - rewrite HLx, HUx in Hv. unfold rd in Hv.
    destruct (decide (0 ≤ q)); [|by destruct Hv].
    destruct (Z.to_nat q) as [|[|[|?]]]; simpl in Hv;
      destruct Hv as [Hv|Hv]; try done; injection Hv as <-;
      by vm_compute in Hbad.
Qed.

(** C10 (amended): [sp_refactor], and [sp_refactor_cx] (the same code on
    complex scalars), have no failure path and do not test the pivot:
    (1) the status they return is the success status; (2) they return,
    whatever the values of the matrix are, on a matrix whose entries
    can be read and a context whose recorded stacks and permutations
    are in order; (3) the context that a factorisation with success
    leaves is such a context; (4) the refactorisation of [A_zero_pivot]
    on the context of [A_full], whose recorded first pivot is zero,
    returns the success status: the quotient 2/0 is stored in L as an
    infinity, and an infinity reaches U; (5) in the factors that a
    refactorisation leaves, column [k] of U ends with its diagonal
    entry, the pivot of step [k], column [k] of L starts with a one,
    and every entry of column [k] of L below it is a quotient by that
    pivot; (6) so on [double], when the pivot of step [k] is a zero,
    every entry of column [k] of L below the diagonal is a NaN or an
    infinity; (7) a column of L without an entry below the diagonal
    receives none: the refactorisation of [A_diag_zero] on the context
    of [A_diag] stores the zero pivot in U, and L and U hold the values
    1, 1 and 0, 4. *)
Theorem sp_refactor_no_failure :
  (∀ (T : Type) (S : Scalar T) (N : sp_num T) (A : sp_mat T) r,
     LU.sp_refactor N A = Some r → r.1 = SUCCESS)
  ∧ (∀ (T : Type) (S : Scalar T) (N : sp_num T) (A : sp_mat T),
       matrix_ok A → refactor_ok (ncols A) N →
       ∃ N', LU.sp_refactor N A = Some (SUCCESS, N'))
  ∧ (∀ (T : Type) (S : Scalar T) (N0 N : sp_num T) (A0 A : sp_mat T) pivtol,
       matrix_ok A0 → ctx_ok (ncols A0) N0 →
       LU.sp_ludcmp N0 A0 pivtol = Some (SUCCESS, N) →
       matrix_ok A → ncols A = ncols A0 →
       ∃ N', LU.sp_refactor N A = Some (SUCCESS, N'))
  ∧ (∃ N', LU.sp_refactor ctx2_done A_zero_pivot = Some (SUCCESS, N')
           ∧ rd (Ax (Num.U N')) 0 = Some 0%float
           ∧ rd (Ax (Num.L N')) 1 = Some infinity
           ∧ rd (Ax (Num.U N')) 2 = Some neg_infinity)
  ∧ (∀ (T : Type) (S : Scalar T) (N N' : sp_num T) (A : sp_mat T),
       matrix_ok A → refactor_ok (ncols A) N →
       LU.sp_refactor N A = Some (SUCCESS, N') →
       ∀ k, 0 ≤ k < ncols A →
         ∃ a b d pivot,
           rd (Ap (Num.L N')) k = Some a
           ∧ rd (Ap (Num.L N')) (k + 1) = Some b
           ∧ rd (Ap (Num.U N')) (k + 1) = Some d
           ∧ a < b
           ∧ rd (Ai (Num.U N')) (d - 1) = Some k
           ∧ rd (Ax (Num.U N')) (d - 1) = Some pivot
           ∧ rd (Ax (Num.L N')) a = Some s_one
           ∧ ∀ q, a < q < b →
               ∃ xv, rd (Ax (Num.L N')) q = Some (s_div xv pivot))
  ∧ (∀ (N N' : sp_num float) (A : sp_mat float),
       matrix_ok A → refactor_ok (ncols A) N →
       LU.sp_refactor N A = Some (SUCCESS, N') →
       ∀ k, 0 ≤ k < ncols A →
         ∃ a b d pivot,
           rd (Ap (Num.L N')) k = Some a
           ∧ rd (Ap (Num.L N')) (k + 1) = Some b
           ∧ rd (Ap (Num.U N')) (k + 1) = Some d
           ∧ a < b
           ∧ rd (Ai (Num.U N')) (d - 1) = Some k
           ∧ rd (Ax (Num.U N')) (d - 1) = Some pivot
           ∧ (PrimFloat.eqb pivot 0%float = true →
              ∀ q, a < q < b →
                ∃ v, rd (Ax (Num.L N')) q = Some v
                     ∧ DoubleFacts.nan_or_inf v))
  ∧ (∃ N', LU.sp_refactor ctx2_diag A_diag_zero = Some (SUCCESS, N')
           ∧ Ap (Num.L N') = [0; 1; 2] ∧ Ap (Num.U N') = [0; 1; 2]
           ∧ rd (Ax (Num.U N')) 0 = Some 0%float
           ∧ Ax (Num.L N') = [1; 1; 0]%float
           ∧ Ax (Num.U N') = [0; 4; 0]%float).
Proof.
  split_and!.
  - intros T S N A r. apply sp_refactor_status.
  - intros T S N A. apply sp_refactor_total.
  - intros T S N0 N A0 A pivtol HA0 Hctx Hrun HA Hn.
    apply sp_refactor_total; [done|]. rewrite Hn.
    by eapply sp_ludcmp_refactor_ok.
  - eexists. split; [vm_compute; reflexivity|]. by vm_compute.
  - intros T S N N' A HA HN Hrun. by apply (sp_refactor_values N A N').
  - intros N N' A HA HN Hrun k Hk.
    destruct (sp_refactor_values N A N' HA HN Hrun k Hk)
      as (a & b & d & pivot & Ha & Hb & Hd & Hab & HUi & HUx & _ & Hq).
    exists a, b, d, pivot. split_and!; try done.
    intros Hzero q Hqr. destruct (Hq q Hqr) as (xv & Hxv).
    exists (xv / pivot)%float. split; [done|].
    by apply DoubleFacts.div_zero_nan_or_inf.
  - eexists. split; [vm_compute; reflexivity|]. by vm_compute.
Qed.

Lemma sp_refactor_no_failure_witness :
  ∃ N', LU.sp_refactor ctx2_done A_zero_pivot = Some (SUCCESS, N').
Proof.
  apply (proj1 (proj2 (proj2 sp_refactor_no_failure)) float double_scalar
           ctx2 ctx2_done A_full A_zero_pivot 1%float).
  - apply dense2_ok.
  - apply ctx2_ok.
  - vm_compute. reflexivity.
  - apply dense2_ok.
  - reflexivity.
Defined.

(** ** Further functions of [sparse.c] *)

(** *** [get_column_grouping] *)

(** [get_column_grouping]: the loops of [column_grouping2], run on the
    arrays [Ap] and [Ai] and the number of columns [neq] that the caller
    passes. *)
Definition get_column_grouping (Ap Ai : list Z) (neq : Z)
    (col_g filled : list Z) : option (Z * (list Z * list Z)) :=
  col_g ← Grouping.fill neq (-1) col_g;
  r ← for_break 0 neq (Grouping.fill_group Ap Ai neq) (col_g, filled);
  match r with
  | (groupnum, Next s) | (groupnum, Break s) => Some (groupnum - 1, s)
  end.

Lemma get_column_grouping_spec Ap Ai neq col_g filled :
  0 ≤ neq < 2 ^ 31 → pattern_ok Ap Ai neq →
  neq ≤ Z.of_nat (length col_g) → neq ≤ Z.of_nat (length filled) →
  ∃ r cg f, get_column_grouping Ap Ai neq col_g filled = Some (r, (cg, f))
            ∧ first_fit Ap Ai neq cg ∧ last_group neq cg r.
Proof.
  intros Hn Hpat Hlc Hlf.
  destruct (column_grouping2_first_fit
              (Build_sp_mat neq neq 0 ([] : list unit) Ai Ap) col_g filled)
    as (r & cg & f & Hrun & Hff & Hlast).
  { split_and!; simpl; try done; lia. }
  exists r, cg, f. split; [|done].
  unfold Grouping.column_grouping2 in Hrun. simpl in Hrun.
  rewrite size_t_of_int_id in Hrun by lia. done.
Qed.

(** X1: [get_column_grouping] returns, on a square pattern: every column
    holds the number of the first group none of whose earlier columns has
    a row in common with it; two columns of a group have no row in
    common; the groups are numbered from 0 without gap, and the value
    returned is the largest group number ([-1] when there is no
    column). *)
Theorem get_column_grouping_first_fit Ap Ai neq col_g filled :
  0 ≤ neq < 2 ^ 31 → pattern_ok Ap Ai neq →
  neq ≤ Z.of_nat (length col_g) → neq ≤ Z.of_nat (length filled) →
  ∃ r cg f,
    get_column_grouping Ap Ai neq col_g filled = Some (r, (cg, f))
    ∧ first_fit Ap Ai neq cg
    ∧ (∀ i j g, 0 ≤ i < neq → 0 ≤ j < neq → i ≠ j →
         rd cg i = Some g → rd cg j = Some g → ¬ conflict Ap Ai i j)
    ∧ (∀ j, 0 ≤ j < neq → ∃ g, rd cg j = Some g ∧ 0 ≤ g ≤ r)
    ∧ (∀ g, 0 ≤ g ≤ r → ∃ j, 0 ≤ j < neq ∧ rd cg j = Some g)
    ∧ r = num_groups neq cg - 1.
Proof.
  intros Hn Hpat Hlc Hlf.
  destruct (get_column_grouping_spec Ap Ai neq col_g filled)
    as (r & cg & f & Hrun & Hff & Hlast); [done..|].
  destruct (first_fit_groups _ _ _ _ _ Hff Hlast) as [Hall Hex].
  exists r, cg, f. split_and!; [done|done| |done|done|].
  - intros i j g Hi Hj Hne Hgi Hgj. by eapply first_fit_disjoint.
  - rewrite (num_groups_range _ _ r); [lia|lia| |done..].
    by destruct Hlast.
Qed.

Lemma get_column_grouping_first_fit_witness :
  ∃ r cg f,
    get_column_grouping [0; 2; 3; 4] [0; 1; 0; 2] 3 [0; 0; 0] [0; 0; 0]
      = Some (r, (cg, f))
    ∧ first_fit [0; 2; 3; 4] [0; 1; 0; 2] 3 cg
    ∧ (∀ i j g, 0 ≤ i < 3 → 0 ≤ j < 3 → i ≠ j →
         rd cg i = Some g → rd cg j = Some g →
         ¬ conflict [0; 2; 3; 4] [0; 1; 0; 2] i j)
    ∧ (∀ j, 0 ≤ j < 3 → ∃ g, rd cg j = Some g ∧ 0 ≤ g ≤ r)
    ∧ (∀ g, 0 ≤ g ≤ r → ∃ j, 0 ≤ j < 3 ∧ rd cg j = Some g)
    ∧ r = num_groups 3 cg - 1.
Proof.
  apply (get_column_grouping_first_fit [0; 2; 3; 4] [0; 1; 0; 2] 3
           [0; 0; 0] [0; 0; 0]).
  - lia.
  - apply pattern_okb_ok. vm_compute. reflexivity.
  - simpl. lia.
  - simpl. lia.
Defined.

(** X2: on the pattern of a matrix [get_column_grouping] returns what
    [column_grouping] returns and leaves the same group numbers. *)
Theorem get_column_grouping_agrees {T} (G : sp_mat T) col_g filled :
  grouping_input G col_g filled → ncols G < 2 ^ 31 →
  ∃ r cg1 f1 cg2 f2,
    Grouping.column_grouping G col_g filled = Some (r, (cg1, f1))
    ∧ get_column_grouping (Ap G) (Ai G) (size_t_of_int (ncols G))
        col_g filled = Some (r, (cg2, f2))
    ∧ ∀ j, 0 ≤ j < ncols G → rd cg1 j = rd cg2 j.
Proof.
  intros Hin Hn. pose proof Hin as (Hn0 & Hpat & Hlc & Hlf).
  rewrite size_t_of_int_id by done.
  destruct (column_grouping_first_fit G col_g filled Hin)
    as (r1 & cg1 & f1 & Hrun1 & Hff1 & Hlast1).
  destruct (get_column_grouping_spec (Ap G) (Ai G) (ncols G) col_g filled)
    as (r2 & cg2 & f2 & Hrun2 & Hff2 & Hlast2); [lia|done..|].
  pose proof (first_fit_unique _ _ _ _ _ Hff1 Hff2) as Heq.
  assert (r1 = r2) as <- by by eapply last_group_unique.
  by exists r1, cg1, f1, cg2, f2.
Qed.

Lemma get_column_grouping_agrees_witness :
  ∃ r cg1 f1 cg2 f2,
    Grouping.column_grouping pattern3 [0; 0; 0] [0; 0; 0] = Some (r, (cg1, f1))
    ∧ get_column_grouping (Ap pattern3) (Ai pattern3)
        (size_t_of_int (ncols pattern3)) [0; 0; 0] [0; 0; 0]
      = Some (r, (cg2, f2))
    ∧ ∀ j, 0 ≤ j < ncols pattern3 → rd cg1 j = rd cg2 j.
Proof.
  apply (get_column_grouping_agrees pattern3 [0; 0; 0] [0; 0; 0]).
  - apply pattern3_input.
  - simpl. lia.
Defined.

(** *** The reach of a column *)

(** What [reachr] asks for at step [k] of a factorisation of dimension
    [n]: the column pointers [Lp] of L are not marked; the columns
    [0 .. k-1] of L are stored below [lnz], each with an entry, and hold
    rows of [0 .. n-1]; [pinv] gives every row its pivot step, below
    [k], or [-1]; the row of [xi] at the offset [xik] lies in the block;
    and the rows of column [col] of [B] are rows of [0 .. n-1]. *)
Definition reach_input (n k lnz : Z) (Lp Gi pinv : list Z) (xik : Z)
    (xi Bp Bi : list Z) (col : Z) : Prop :=
  Z.of_nat (length Lp) = n + 1
  ∧ (∀ j, 0 ≤ j ≤ n → ∃ v, rd Lp j = Some v ∧ 0 ≤ v)
  ∧ (∀ j, 0 ≤ j < k →
       ∃ a b, rd Lp j = Some a ∧ rd Lp (j + 1) = Some b ∧ a < b ≤ lnz)
  ∧ 0 ≤ k ≤ n
  ∧ (∀ p, 0 ≤ p < lnz → ∃ i, rd Gi p = Some i ∧ 0 ≤ i < n)
  ∧ (∀ i, 0 ≤ i < n → ∃ v, rd pinv i = Some v ∧ -1 ≤ v < k)
  ∧ (0 ≤ xik ∧ xik + n ≤ Z.of_nat (length xi))
  ∧ (∃ lo hi, rd Bp col = Some lo ∧ rd Bp (col + 1) = Some hi
              ∧ ∀ p, lo ≤ p < hi → ∃ i, rd Bi p = Some i ∧ 0 ≤ i < n).

(** X3: [reachr] returns; it leaves the column pointers of L as they were
    (every mark is removed again) and writes only its own row of [xi];
    the stack [xik[top .. n-1]] holds no row twice, and it holds exactly
    the rows that can be reached from the rows of column [col] of [B]
    by going from a row with a pivot to the rows stored in the column of
    L of that pivot. *)
Theorem reachr_reach_set n k lnz Lp Gi pinv xik xi Bp Bi col :
  reach_input n k lnz Lp Gi pinv xik xi Bp Bi col →
  ∃ top xi',
    LU.reachr n Bp Bi Lp Gi col xik xi pinv = Some (top, Lp, xi')
    ∧ length xi' = length xi
    ∧ stack_ok n xik xi' top
    ∧ (∀ i, ¬ xik ≤ i < xik + n → rd xi' i = rd xi i)
    ∧ ∀ e, on_stack xi' xik top n e
           ↔ reachable Lp Gi pinv (in_col Bp Bi col) e.
Proof.
  intros (HLl & HLp & Hcols & Hk & Hrows & Hpinv & Hxik & HB).
  destruct (reachr_total n k lnz Lp Gi pinv xik (length xi)
              HLl HLp Hcols Hk Hrows Hpinv Hxik Bp Bi col xi eq_refl HB)
    as (top & xi' & Hrun & Hlen & Hstk & Hfr).
  exists top, xi'. split_and!; [done..|].
  by apply (reachr_reach n k lnz Lp Gi pinv xik (length xi)
              HLl HLp Hcols Hk Hrows Hpinv Hxik Bp Bi col xi top Lp xi'
              eq_refl HB Hrun).
Qed.

(** X4: when L is the factor of the steps made (along an edge the pivot
    step grows), the stack that [reachr] returns is in topological
    order: a row lies below every other row that it leads to, so
    [sp_splsolve], which goes through the stack from [top] on, has
    finished with a row before it uses it to update another. *)
Theorem reachr_topological n k lnz Lp Gi pinv xik xi Bp Bi col top Gp xi' :
  reach_input n k lnz Lp Gi pinv xik xi Bp Bi col →
  acyclic Lp Gi pinv →
  LU.reachr n Bp Bi Lp Gi col xik xi pinv = Some (top, Gp, xi') →
  ∀ e i pe,
    top ≤ pe < n → rd xi' (xik + pe) = Some e → edge Lp Gi pinv e i → i ≠ e →
    ∃ pi, pe < pi < n ∧ rd xi' (xik + pi) = Some i.
Proof.
  intros (HLl & HLp & Hcols & Hk & Hrows & Hpinv & Hxik & HB) Hac Hrun.
  by apply (reachr_reach n k lnz Lp Gi pinv xik (length xi)
              HLl HLp Hcols Hk Hrows Hpinv Hxik Bp Bi col xi top Gp xi'
              eq_refl HB Hrun).
Qed.

(** An example: step 2 of a factorisation of dimension 3 whose L holds
    the rows 0 and 1 in column 0 and the rows 1 and 2 in column 1; the
    rows 0 and 1 have the pivots of the steps 0 and 1; column 0 of [B]
    holds row 0. *)
Lemma reach_example_input :
  reach_input 3 2 4 [0; 2; 4; 0] [0; 1; 1; 2; 0; 0] [0; 1; -1] 3
    [9; 9; 9; 9; 9; 9; 9; 9; 9] [0; 1] [0] 0.
Proof.
  split_and!; try (simpl; lia).
  - intros j Hj. assert (j = 0 ∨ j = 1 ∨ j = 2 ∨ j = 3) as Hc by lia.
    destruct Hc as [-> | [-> | [-> | ->]]]; eexists; (split; [reflexivity|lia]).
  - intros j Hj. assert (j = 0 ∨ j = 1) as [-> | ->] by lia;
      eexists _, _; (split_and!; [reflexivity|reflexivity|lia|lia]).
  - intros p Hp. assert (p = 0 ∨ p = 1 ∨ p = 2 ∨ p = 3) as Hc by lia.
    destruct Hc as [-> | [-> | [-> | ->]]]; eexists; (split; [reflexivity|lia]).
  - intros i Hi. assert (i = 0 ∨ i = 1 ∨ i = 2) as Hc by lia.
    destruct Hc as [-> | [-> | ->]]; eexists; (split; [reflexivity|lia]).
  - exists 0, 1. split_and!; [done..|]. intros p Hp.
    assert (p = 0) as -> by lia. exists 0. split; [done|lia].
Qed.

Lemma reach_example_acyclic :
  acyclic [0; 2; 4; 0] [0; 1; 1; 2; 0; 0] [0; 1; -1].
Proof.
  intros j i (J & HJ & HJ0 & lo & hi & p & Hlo & Hhi & Hp & Hi) Hne.
  pose proof (rd_Some _ _ _ HJ) as Hr. simpl in Hr.
  assert (j = 0 ∨ j = 1 ∨ j = 2) as Hc by lia.
  destruct Hc as [-> | [-> | ->]]; vm_compute in HJ; injection HJ as <-;
    [| |lia]; vm_compute in Hlo, Hhi; injection Hlo as <-;
    injection Hhi as <-.
  - assert (p = 0 ∨ p = 1) as [-> | ->] by lia; vm_compute in Hi;
      injection Hi as <-; [done|].
    exists 0, 1. split_and!; [done..|lia].
  - assert (p = 2 ∨ p = 3) as [-> | ->] by lia; vm_compute in Hi;
      injection Hi as <-; [done|].
    exists 1, (-1). split_and!; [done..|lia].
Qed.

Lemma reachr_reach_set_witness :
  ∃ top xi',
    LU.reachr 3 [0; 1] [0] [0; 2; 4; 0] [0; 1; 1; 2; 0; 0] 0 3
      [9; 9; 9; 9; 9; 9; 9; 9; 9] [0; 1; -1]
      = Some (top, [0; 2; 4; 0], xi')
    ∧ length xi' = length [9; 9; 9; 9; 9; 9; 9; 9; 9]
    ∧ stack_ok 3 3 xi' top
    ∧ (∀ i, ¬ 3 ≤ i < 3 + 3 → rd xi' i = rd [9; 9; 9; 9; 9; 9; 9; 9; 9] i)
    ∧ ∀ e, on_stack xi' 3 top 3 e
           ↔ reachable [0; 2; 4; 0] [0; 1; 1; 2; 0; 0] [0; 1; -1]
               (in_col [0; 1] [0] 0) e.
Proof.
  apply (reachr_reach_set 3 2 4). apply reach_example_input.
Defined.

Lemma reachr_topological_witness :
  ∃ pi, 0 < pi < 3 ∧ rd [9; 9; 9; 0; 1; 2; 9; 9; 9] (3 + pi) = Some 1.
Proof.
  apply (reachr_topological 3 2 4 [0; 2; 4; 0] [0; 1; 1; 2; 0; 0] [0; 1; -1]
           3 [9; 9; 9; 9; 9; 9; 9; 9; 9] [0; 1] [0] 0 0 [0; 2; 4; 0]
           [9; 9; 9; 0; 1; 2; 9; 9; 9]
           reach_example_input reach_example_acyclic eq_refl 0 1 0).
  - lia.
  - reflexivity.
  - exists 0. split; [reflexivity|]. split; [lia|].
    exists 0, 2, 1. split_and!; [reflexivity|reflexivity|lia|lia|reflexivity].
  - lia.
Defined.

(** *** The pattern of the factors *)

(** The cells [l[a .. b-1]] of an array. *)
Definition seg {A : Type} (l : list A) (a b : Z) : list A :=
  take (Z.to_nat (b - a)) (drop (Z.to_nat a) l).

Section Seg.
Context {A : Type}.
Implicit Types (l : list A) (a b c q : Z).

Lemma seg_lookup l a b (i : nat) :
  0 ≤ a →
  seg l a b !! i
  = if decide (Z.of_nat i < b - a) then rd l (a + Z.of_nat i) else None.
Proof.
  intros Ha. unfold seg, rd. rewrite lookup_take, lookup_drop.
  rewrite (decide_True (P := 0 ≤ a + Z.of_nat i)) by lia.
  replace (Z.to_nat (a + Z.of_nat i)) with (Z.to_nat a + i)%nat by lia.
  case_decide; case_decide; (done || lia).
Qed.

Lemma seg_rd l a b q :
  0 ≤ a ≤ q → q < b → rd (seg l a b) (q - a) = rd l q.
Proof.
  intros Ha Hq. unfold rd at 1. rewrite decide_True by lia.
  rewrite seg_lookup by lia. rewrite decide_True by lia. f_equal. lia.
Qed.

Lemma seg_length l a b :
  0 ≤ a ≤ b → b ≤ Z.of_nat (length l) →
  Z.of_nat (length (seg l a b)) = b - a.
Proof. intros. unfold seg. rewrite length_take, length_drop. lia. Qed.

Lemma seg_empty l a b : b ≤ a → seg l a b = [].
Proof. intros. unfold seg. by replace (Z.to_nat (b - a)) with O by lia. Qed.

Lemma seg_ext l l' a b :
  0 ≤ a → (∀ q, a ≤ q < b → rd l' q = rd l q) → seg l' a b = seg l a b.
Proof.
  intros Ha Heq. apply list_eq. intros i. rewrite !seg_lookup by done.
  case_decide; [|done]. apply Heq. lia.
Qed.

Lemma seg_app l a b c :
  0 ≤ a ≤ b → b ≤ c → b ≤ Z.of_nat (length l) →
  seg l a c = seg l a b ++ seg l b c.
Proof.
  intros Ha Hb Hl. apply list_eq. intros i.
  rewrite lookup_app, !seg_lookup by lia.
  destruct (decide (Z.of_nat i < b - a)) as [Hi|Hi].
  - rewrite decide_True by lia.
    destruct (rd_is_Some l (a + Z.of_nat i)) as [v ->]; [lia|]. done.
  - assert (length (seg l a b) = Z.to_nat (b - a)) as Hlen
      by (pose proof (seg_length l a b); lia).
    rewrite Hlen.
    case_decide; case_decide; try lia; [|done].
    f_equal. lia.
Qed.

Lemma seg_one l a v : 0 ≤ a → rd l a = Some v → seg l a (a + 1) = [v].
Proof.
  intros Ha Hv. apply list_eq. intros i. rewrite seg_lookup by done.
  destruct i as [|i]; simpl.
  - rewrite decide_True by lia. by replace (a + Z.of_nat 0) with a by lia.
  - by rewrite decide_False by lia.
Qed.

Lemma seg_snoc l a b v :
  0 ≤ a ≤ b → rd l b = Some v → seg l a (b + 1) = seg l a b ++ [v].
Proof.
  intros Ha Hv. pose proof (rd_Some _ _ _ Hv).
  rewrite (seg_app l a b (b + 1)) by lia. by rewrite (seg_one l b v) by (done || lia).
Qed.

Lemma seg_cons l a b v :
  0 ≤ a < b → rd l a = Some v → seg l a b = v :: seg l (a + 1) b.
Proof.
  intros Ha Hv. pose proof (rd_Some _ _ _ Hv).
  rewrite (seg_app l a (a + 1) b) by lia. by rewrite (seg_one l a v) by (done || lia).
Qed.

Lemma seg_elem_of l a b v :
  0 ≤ a → v ∈ seg l a b ↔ ∃ q, a ≤ q < b ∧ rd l q = Some v.
Proof.
  intros Ha. rewrite list_elem_of_lookup. split.
  - intros [i Hi]. rewrite seg_lookup in Hi by done.
    case_decide; [|done]. exists (a + Z.of_nat i). split; [lia|done].
  - intros (q & Hq & Hv). exists (Z.to_nat (q - a)).
    rewrite seg_lookup by done. rewrite decide_True by lia.
    by replace (a + Z.of_nat (Z.to_nat (q - a))) with q by lia.
Qed.
End Seg.

(** The pivot step of row [e], and [-1] while it has none. *)
Definition pv (pinv : list Z) (e : Z) : Z := default (-1) (rd pinv e).

(** The stack of reachable rows that step [j] has recorded:
    [xi[j][topvec[j] .. n-1]]. *)
Definition stack_rows (n : Z) (xi topvec : list Z) (j : Z) : list Z :=
  seg xi (j * n + default 0 (rd topvec j)) (j * n + n).

(** The rows of column [j] of L, as the factorisation stores them: the
    pivot row of step [j], then the rows of the stack of step [j] that
    had no pivot at that step, in the order of the stack. *)
Definition L_rows (n : Z) (xi topvec pinv p : list Z) (j : Z) : list Z :=
  default 0 (rd p j)
  :: filter (λ e, pv pinv e < 0 ∨ j < pv pinv e) (stack_rows n xi topvec j).

(** The rows of column [j] of U: the pivot steps of the rows of the
    stack of step [j] that had a pivot at that step, in the order of the
    stack, then [j] itself. *)
Definition U_rows (n : Z) (xi topvec pinv : list Z) (j : Z) : list Z :=
  (pv pinv <$> filter (λ e, 0 ≤ pv pinv e < j) (stack_rows n xi topvec j))
  ++ [j].

(** Column [j] of the finished L: the diagonal, then the pivot steps of
    the rows of the stack of step [j] whose pivots come after [j], in
    the order of the stack. *)
Definition L_col (n : Z) (xi topvec pinv : list Z) (j : Z) : list Z :=
  j :: (pv pinv <$> filter (λ e, j < pv pinv e) (stack_rows n xi topvec j)).

(** Column [j] of the finished U: the pivot steps of the rows of the
    stack of step [j] whose pivots come before [j], in the order of the
    stack, then the diagonal. *)
Definition U_col (n : Z) (xi topvec pinv : list Z) (j : Z) : list Z :=
  (pv pinv <$> filter (λ e, pv pinv e < j) (stack_rows n xi topvec j))
  ++ [j].

(** The rows of column [j] of L, as the refactorisation stores them:
    the pivot row of step [j], then the rows of the stack of step [j]
    whose pivots come after [j], in the order of the stack. *)
Definition R_rows (n : Z) (xi topvec pinv p : list Z) (j : Z) : list Z :=
  default 0 (rd p j)
  :: filter (λ e, j < pv pinv e) (stack_rows n xi topvec j).

Section Pattern.
Context {T : Type} `{Scalar T}.

(** What the pivot search adds to U. *)
Lemma find_pivot_pattern n xi xik top pinv (x : list T) ps0 ps :
  LU.find_pivot n xi xik top pinv x ps0 = Some ps →
  0 ≤ xik → 0 ≤ top ≤ n → 0 ≤ LU.punz ps0 →
  LU.punz ps0 ≤ LU.punz ps
  ∧ seg (Ai (LU.pU ps)) (LU.punz ps0) (LU.punz ps)
    = (pv pinv <$> filter (λ e, 0 ≤ pv pinv e) (seg xi (xik + top) (xik + n)))
  ∧ (∀ q, q < LU.punz ps0 → rd (Ai (LU.pU ps)) q = rd (Ai (LU.pU ps0)) q)
  ∧ Ap (LU.pU ps) = Ap (LU.pU ps0).
Proof.
  intros Hrun Hxik Htop Hu0. unfold LU.find_pivot in Hrun.
  apply (for_range_inv
    (λ q ps,
       LU.punz ps0 ≤ LU.punz ps
       ∧ seg (Ai (LU.pU ps)) (LU.punz ps0) (LU.punz ps)
         = (pv pinv <$> filter (λ e, 0 ≤ pv pinv e)
                          (seg xi (xik + top) (xik + q)))
       ∧ (∀ q', q' < LU.punz ps0 →
            rd (Ai (LU.pU ps)) q' = rd (Ai (LU.pU ps0)) q')
       ∧ Ap (LU.pU ps) = Ap (LU.pU ps0))) in Hrun.
  - by replace (Z.max top n) with n in Hrun by lia.
  - split_and!; [lia| |done..]. by rewrite !seg_empty by lia.
  - clear Hrun. intros q s s' Hq (Hle & Hseg & Hfr & HAp) Hbody.
    apply bind_Some in Hbody as (e & He & Hbody).
    apply bind_Some in Hbody as (pi & Hpi & Hbody).
    replace (xik + (q + 1)) with (xik + q + 1) by lia.
    rewrite (seg_snoc xi (xik + top) (xik + q) e) by (done || lia).
    rewrite filter_app, fmap_app.
    assert (pv pinv e = pi) as Hpv by (unfold pv; by rewrite Hpi).
    case_decide as Hneg.
    + assert (filter (λ e, 0 ≤ pv pinv e) [e] = []) as ->.
      { apply (filter_singleton_False _ e []). simpl. lia. }
      rewrite app_nil_r.
      apply bind_Some in Hbody as (xv & _ & Hbody).
      destruct (PrimFloat.ltb _ _); by simplify_eq.
    + apply bind_Some in Hbody as (Ui & HUi & Hbody).
      apply bind_Some in Hbody as (xv & _ & Hbody).
      apply bind_Some in Hbody as (Ux & _ & Hbody).
      injection Hbody as <-. simpl.
      rewrite (filter_singleton_True _ e []) by (simpl; lia). simpl. rewrite Hpv.
      split_and!; [lia| | |done].
      * rewrite (seg_snoc _ _ _ pi); [|lia|by eapply rd_wr_eq].
        f_equal. rewrite <-Hseg. apply seg_ext; [done|].
        intros q' Hq'. eapply rd_wr_ne; [done|lia].
      * intros q' Hq'. rewrite <-Hfr by done.
        eapply rd_wr_ne; [done|lia].
Qed.

(** What the last loop of a step adds to L. *)
Lemma store_L_pattern n xi xik top pinv (pivot : T) L0 lnz0 x0 L1 lnz1 x1 :
  LU.store_L n xi xik top pinv pivot (L0, lnz0, x0) = Some (L1, lnz1, x1) →
  0 ≤ xik → 0 ≤ top ≤ n → 0 ≤ lnz0 →
  lnz0 ≤ lnz1
  ∧ seg (Ai L1) lnz0 lnz1
    = filter (λ e, pv pinv e < 0) (seg xi (xik + top) (xik + n))
  ∧ (∀ q, q < lnz0 → rd (Ai L1) q = rd (Ai L0) q)
  ∧ (∀ q, q < lnz0 → rd (Ax L1) q = rd (Ax L0) q)
  ∧ Ap L1 = Ap L0.
Proof.
  intros Hrun Hxik Htop Hl0. unfold LU.store_L in Hrun.
  apply (for_range_inv
    (λ q (s : sp_mat T * Z * list T),
       lnz0 ≤ s.1.2
       ∧ seg (Ai s.1.1) lnz0 s.1.2
         = filter (λ e, pv pinv e < 0) (seg xi (xik + top) (xik + q))
       ∧ (∀ q', q' < lnz0 → rd (Ai s.1.1) q' = rd (Ai L0) q')
       ∧ (∀ q', q' < lnz0 → rd (Ax s.1.1) q' = rd (Ax L0) q')
       ∧ Ap s.1.1 = Ap L0)) in Hrun.
  - by replace (Z.max top n) with n in Hrun by lia.
  - simpl. split_and!; [lia| |done..]. by rewrite !seg_empty by lia.
  - clear Hrun. intros q [[L lnz] x] s' Hq
      (Hle & Hseg & HfrI & HfrX & HAp) Hbody.
    simpl in *.
    apply bind_Some in Hbody as (e & He & Hbody).
    apply bind_Some in Hbody as (pi & Hpi & Hbody).
    apply bind_Some in Hbody as ([L' lnz'] & Hcase & Hbody).
    apply bind_Some in Hbody as (x' & _ & Hbody). injection Hbody as <-.
    simpl. replace (xik + (q + 1)) with (xik + q + 1) by lia.
    rewrite (seg_snoc xi (xik + top) (xik + q) e) by (done || lia).
    rewrite filter_app.
    assert (pv pinv e = pi) as Hpv by (unfold pv; by rewrite Hpi).
    case_decide as Hneg.
    + apply bind_Some in Hcase as (Li & HLi & Hcase).
      apply bind_Some in Hcase as (xv & _ & Hcase).
      apply bind_Some in Hcase as (Lx & HLx & Hcase).
      injection Hcase as <- <-. simpl.
      rewrite (filter_singleton_True _ e []) by (simpl; lia).
      split_and!; [lia| | | |done].
      * rewrite (seg_snoc _ _ _ e); [|lia|by eapply rd_wr_eq].
        f_equal. rewrite <-Hseg. apply seg_ext; [done|].
        intros q' Hq'. eapply rd_wr_ne; [done|lia].
      * intros q' Hq'. rewrite <-HfrI by done.
        eapply rd_wr_ne; [done|lia].
      * intros q' Hq'. rewrite <-HfrX by done.
        eapply rd_wr_ne; [done|lia].
    + injection Hcase as <- <-.
      rewrite (filter_singleton_False _ e []) by (simpl; lia). by rewrite app_nil_r.
Qed.

(** What the loop of a step of [sp_refactor] adds to L and to U. *)
Lemma refactor_rows_pattern n k xi xik top pinv (pivot : T)
    L0 lnz0 U0 unz0 x0 L1 lnz1 U1 unz1 x1 :
  LU.refactor_rows n k xi xik top pinv pivot (L0, lnz0, U0, unz0, x0)
    = Some (L1, lnz1, U1, unz1, x1) →
  0 ≤ xik → 0 ≤ top ≤ n → 0 ≤ lnz0 → 0 ≤ unz0 →
  (lnz0 ≤ lnz1
   ∧ seg (Ai L1) lnz0 lnz1
     = filter (λ e, k < pv pinv e) (seg xi (xik + top) (xik + n))
   ∧ (∀ q, q < lnz0 → rd (Ai L1) q = rd (Ai L0) q)
   ∧ (∀ q, q < lnz0 → rd (Ax L1) q = rd (Ax L0) q)
   ∧ Ap L1 = Ap L0)
  ∧ (unz0 ≤ unz1
     ∧ seg (Ai U1) unz0 unz1
       = (pv pinv <$> filter (λ e, pv pinv e < k)
                        (seg xi (xik + top) (xik + n)))
     ∧ (∀ q, q < unz0 → rd (Ai U1) q = rd (Ai U0) q)
     ∧ Ap U1 = Ap U0).
Proof.
  intros Hrun Hxik Htop Hl0 Hu0. unfold LU.refactor_rows in Hrun.
  apply (for_range_inv
    (λ q (s : sp_mat T * Z * sp_mat T * Z * list T),
       (lnz0 ≤ s.1.1.1.2
        ∧ seg (Ai s.1.1.1.1) lnz0 s.1.1.1.2
          = filter (λ e, k < pv pinv e) (seg xi (xik + top) (xik + q))
        ∧ (∀ q', q' < lnz0 → rd (Ai s.1.1.1.1) q' = rd (Ai L0) q')
        ∧ (∀ q', q' < lnz0 → rd (Ax s.1.1.1.1) q' = rd (Ax L0) q')
        ∧ Ap s.1.1.1.1 = Ap L0)
       ∧ (unz0 ≤ s.1.2
          ∧ seg (Ai s.1.1.2) unz0 s.1.2
            = (pv pinv <$> filter (λ e, pv pinv e < k)
                             (seg xi (xik + top) (xik + q)))
          ∧ (∀ q', q' < unz0 → rd (Ai s.1.1.2) q' = rd (Ai U0) q')
          ∧ Ap s.1.1.2 = Ap U0)))
    in Hrun.
  - by replace (Z.max top n) with n in Hrun by lia.
  - simpl. split; (split_and!; [lia| |done..]); by rewrite !seg_empty by lia.
  - clear Hrun. intros q [[[[L lnz] U] unz] x] s' Hq
      ((HleL & HsegL & HfrI & HfrX & HApL) & (HleU & HsegU & HfrU & HApU))
      Hbody.
    simpl in *.
    apply bind_Some in Hbody as (e & He & Hbody).
    apply bind_Some in Hbody as (pi & Hpi & Hbody).
    apply bind_Some in Hbody as ([U' unz'] & HcaseU & Hbody).
    apply bind_Some in Hbody as ([L' lnz'] & HcaseL & Hbody).
    apply bind_Some in Hbody as (x' & _ & Hbody). injection Hbody as <-.
    simpl. replace (xik + (q + 1)) with (xik + q + 1) by lia.
    rewrite (seg_snoc xi (xik + top) (xik + q) e) by (done || lia).
    rewrite !filter_app, fmap_app.
    assert (pv pinv e = pi) as Hpv by (unfold pv; by rewrite Hpi).
    split.
    + clear HcaseU. case_decide as Hgt.
      * apply bind_Some in HcaseL as (Li & HLi & HcaseL).
        apply bind_Some in HcaseL as (xv & _ & HcaseL).
        apply bind_Some in HcaseL as (Lx & HLx & HcaseL).
        injection HcaseL as <- <-. simpl.
        rewrite (filter_singleton_True _ e []) by (simpl; lia).
        split_and!; [lia| | | |done].
        -- rewrite (seg_snoc _ _ _ e); [|lia|by eapply rd_wr_eq].
           f_equal. rewrite <-HsegL. apply seg_ext; [done|].
           intros q' Hq'. eapply rd_wr_ne; [done|lia].
        -- intros q' Hq'. rewrite <-HfrI by done.
           eapply rd_wr_ne; [done|lia].
        -- intros q' Hq'. rewrite <-HfrX by done.
           eapply rd_wr_ne; [done|lia].
      * injection HcaseL as <- <-.
        rewrite (filter_singleton_False _ e []) by (simpl; lia).
        by rewrite app_nil_r.
    + clear HcaseL. case_decide as Hlt.
      * apply bind_Some in HcaseU as (Ui & HUi & HcaseU).
        apply bind_Some in HcaseU as (xv & _ & HcaseU).
        apply bind_Some in HcaseU as (Ux & HUx & HcaseU).
        injection HcaseU as <- <-. simpl.
        rewrite (filter_singleton_True _ e []) by (simpl; lia).
        simpl. rewrite Hpv. split_and!; [lia| | |done].
        -- rewrite (seg_snoc _ _ _ pi); [|lia|by eapply rd_wr_eq].
           f_equal. rewrite <-HsegU. apply seg_ext; [done|].
           intros q' Hq'. eapply rd_wr_ne; [done|lia].
        -- intros q' Hq'. rewrite <-HfrU by done.
           eapply rd_wr_ne; [done|lia].
      * injection HcaseU as <- <-.
        rewrite (filter_singleton_False _ e []) by (simpl; lia).
        simpl. by rewrite app_nil_r.
Qed.

Lemma fmap_filter_ext {A B : Type} (f g : A → B) (P Q : A → Prop)
    `{!∀ x, Decision (P x), !∀ x, Decision (Q x)} (l : list A) :
  (∀ e, e ∈ l → (P e ↔ Q e) ∧ (P e → f e = g e)) →
  f <$> filter P l = g <$> filter Q l.
Proof.
  induction l as [|e l IH]; intros Hext; [done|].
  destruct (Hext e) as [Hiff Heq]; [by left|].
  rewrite !filter_cons.
  assert (f <$> filter P l = g <$> filter Q l) as IH'.
  { apply IH. intros e' He'. apply Hext. by right. }
  destruct (decide (P e)) as [HP|HP].
  - rewrite (decide_True (P := Q e)) by (by apply Hiff).
    rewrite !fmap_cons, IH'. by rewrite Heq.
  - rewrite (decide_False (P := Q e)); [done|]. intros HQ. by apply HP, Hiff.
Qed.

Lemma filter_ext_in {A : Type} (P Q : A → Prop)
    `{!∀ x, Decision (P x), !∀ x, Decision (Q x)} (l : list A) :
  (∀ e, e ∈ l → (P e ↔ Q e)) → filter P l = filter Q l.
Proof.
  intros Hext. rewrite <-(list_fmap_id (filter P l)).
  rewrite <-(list_fmap_id (filter Q l)).
  apply fmap_filter_ext. intros e He. split; [by apply Hext|done].
Qed.

Lemma pv_wr pinv i v pinv' e :
  wr pinv i v = Some pinv' →
  pv pinv' e = if decide (i = e) then v else pv pinv e.
Proof.
  intros Hw. unfold pv. rewrite (rd_wr _ _ _ _ _ Hw). by case_decide.
Qed.

Lemma stack_rows_frame n xi xi' topvec topvec' j t :
  0 ≤ j → 0 ≤ n → rd topvec j = Some t → 0 ≤ t →
  rd topvec' j = rd topvec j →
  (∀ q, j * n ≤ q < j * n + n → rd xi' q = rd xi q) →
  stack_rows n xi' topvec' j = stack_rows n xi topvec j.
Proof.
  intros Hj Hn Ht Ht0 Htv Hxi. unfold stack_rows. rewrite Htv, Ht. simpl.
  apply seg_ext; [nia|]. intros q Hq. apply Hxi. nia.
Qed.

Lemma rd_insert {A : Type} (l : list A) i v j :
  0 ≤ i < Z.of_nat (length l) →
  rd (<[Z.to_nat i := v]> l) j = if decide (i = j) then Some v else rd l j.
Proof. intros Hi. apply rd_wr. by apply wr_is_Some. Qed.

Lemma pv_range n k pinv p e :
  0 ≤ k → perm_inv n k pinv p → Z.of_nat (length pinv) = n →
  -1 ≤ pv pinv e < k.
Proof.
  intros Hk Hperm Hlen. unfold pv.
  destruct (rd pinv e) as [v|] eqn:Hv; simpl; [|lia].
  pose proof (rd_Some _ _ _ Hv).
  destruct (perm_inv_range _ _ _ _ Hk Hperm e) as (v' & Hv' & ?); [lia|].
  congruence.
Qed.

(** Before step [k]: the columns [0 .. k-1] of L and U hold the rows
    that [Lr] and [Ur] give, each column of L starts with a one, and
    the columns follow each other from position 0 on. *)
Record cols_inv (Lr Ur : Z → list Z) (k : Z) (s : LU.lu_loc) : Prop := {
  pt_L : ∀ j, 0 ≤ j < k →
    ∃ a b,
      rd (<[Z.to_nat k := LU.lnz s]> (Ap (Num.L (LU.cN s)))) j = Some a
      ∧ rd (<[Z.to_nat k := LU.lnz s]> (Ap (Num.L (LU.cN s)))) (j + 1)
        = Some b
      ∧ 0 ≤ a < b ∧ b ≤ LU.lnz s
      ∧ seg (Ai (Num.L (LU.cN s))) a b = Lr j
      ∧ rd (Ax (Num.L (LU.cN s))) a = Some s_one;
  pt_U : ∀ j, 0 ≤ j < k →
    ∃ a b,
      rd (<[Z.to_nat k := LU.unz s]> (Ap (Num.U (LU.cN s)))) j = Some a
      ∧ rd (<[Z.to_nat k := LU.unz s]> (Ap (Num.U (LU.cN s)))) (j + 1)
        = Some b
      ∧ 0 ≤ a < b ∧ b ≤ LU.unz s
      ∧ seg (Ai (Num.U (LU.cN s))) a b = Ur j;
  pt_L0 : rd (<[Z.to_nat k := LU.lnz s]> (Ap (Num.L (LU.cN s)))) 0 = Some 0;
  pt_U0 : rd (<[Z.to_nat k := LU.unz s]> (Ap (Num.U (LU.cN s)))) 0 = Some 0;
}.

(** The invariant of the column loop of [sp_ludcmp]. *)
Definition pat_inv (n k : Z) (s : LU.lu_loc) : Prop :=
  cols_inv
    (L_rows n (Num.xi (LU.cN s)) (Num.topvec (LU.cN s))
       (Num.pinv (LU.cN s)) (Num.p (LU.cN s)))
    (U_rows n (Num.xi (LU.cN s)) (Num.topvec (LU.cN s))
       (Num.pinv (LU.cN s)))
    k s.

(** The rows of the columns made do not change when a row gets the
    pivot of a later step. *)
Lemma L_rows_step n xi xi' topvec topvec' pinv pinv' p p' ipiv k j t :
  0 ≤ j < k → 0 ≤ n →
  rd topvec j = Some t → 0 ≤ t → rd topvec' j = rd topvec j →
  (∀ q, j * n ≤ q < j * n + n → rd xi' q = rd xi q) →
  rd p' j = rd p j →
  wr pinv ipiv k = Some pinv' → pv pinv ipiv < 0 →
  L_rows n xi' topvec' pinv' p' j = L_rows n xi topvec pinv p j.
Proof.
  intros Hj Hn Ht Ht0 Htv Hxi Hp Hw Hneg. unfold L_rows.
  rewrite Hp, (stack_rows_frame n xi xi' topvec topvec' j t) by (done || lia).
  f_equal. apply list_filter_iff. intros e.
  rewrite (pv_wr _ _ _ _ e Hw). case_decide; [subst; lia|done].
Qed.

Lemma U_rows_step n xi xi' topvec topvec' pinv pinv' ipiv k j t :
  0 ≤ j < k → 0 ≤ n →
  rd topvec j = Some t → 0 ≤ t → rd topvec' j = rd topvec j →
  (∀ q, j * n ≤ q < j * n + n → rd xi' q = rd xi q) →
  wr pinv ipiv k = Some pinv' → pv pinv ipiv < 0 →
  U_rows n xi' topvec' pinv' j = U_rows n xi topvec pinv j.
Proof.
  intros Hj Hn Ht Ht0 Htv Hxi Hw Hneg. unfold U_rows.
  rewrite (stack_rows_frame n xi xi' topvec topvec' j t) by (done || lia).
  f_equal. apply fmap_filter_ext. intros e _.
  rewrite (pv_wr _ _ _ _ e Hw). case_decide; [subst; lia|done].
Qed.

(** A step of [sp_ludcmp] that goes on adds column [k] to L and to U
    and leaves the columns made as they are. *)
Lemma ludcmp_step_pattern A pivtol k (s s' : LU.lu_loc) :
  matrix_ok A → 0 ≤ k < ncols A →
  lu_inv (ncols A) k s → pat_inv (ncols A) k s →
  LU.ludcmp_step A pivtol k s = Some (Next s') →
  pat_inv (ncols A) (k + 1) s'.
Proof.
  intros HA Hk Hinv Hpat Hstep.
  destruct (step_solve_total A k s HA Hk Hinv)
    as (col & top & s1 & Hsolve & Hcol & Hstk & Hshape & HL1 & HLpk & Hfr
        & HLeq & HUeq).
  destruct (step_solve_frame _ _ _ _ _ _ Hsolve)
    as (_ & Htv & _ & _ & Hpinv1 & Hp1 & Hlnz1 & Hunz1).
  pose proof (ctx_ok_shape _ _ _ Hshape (li_ctx _ _ _ Hinv)) as Hctx1.
  pose proof (li_ctx _ _ _ Hinv) as Hctx.
  pose proof (li_perm _ _ _ Hinv) as Hperm.
  pose proof (li_stacks _ _ _ Hinv) as Hstacks.
  pose proof (li_unz _ _ _ Hinv) as Hunz.
  pose proof (fo_lnz _ _ _ _ HL1) as Hlnz.
  destruct Hpat as [HpL HpU HpL0 HpU0].
  unfold LU.ludcmp_step in Hstep. rewrite Hsolve in Hstep. simpl in Hstep.
  clear Hsolve Hinv.
  destruct s as [N lnz unz], s1 as [N1 lnz1 unz1]. simpl in *.
  subst lnz1 unz1.
  unfold LU.xi_row in Hstep. rewrite (co_n _ _ Hctx1) in Hstep.
  rewrite decide_True in Hstep by lia. simpl in Hstep.
  apply bind_Some in Hstep as (ps & Hfind & Hstep).
  destruct (bool_decide (LU.ipiv ps = -1) || PrimFloat.leb (LU.a ps) 0)
    eqn:Hno; [done|].
  apply bind_Some in Hstep as (ipiv & Hch & Hstep).
  apply bind_Some in Hstep as (pivot & Hpivot & Hstep).
  apply bind_Some in Hstep as (Ui & HUi & Hstep).
  apply bind_Some in Hstep as (Ux & HUx & Hstep).
  apply bind_Some in Hstep as (pinv' & Hwi & Hstep).
  apply bind_Some in Hstep as (pvec' & Hwp & Hstep).
  apply bind_Some in Hstep as (Li & HLi & Hstep).
  apply bind_Some in Hstep as (Lx & HLx & Hstep).
  apply bind_Some in Hstep as ([[L2 lnz2] x2] & Hstore & Hstep).
  injection Hstep as <-. simpl in *.
  assert (0 ≤ k * ncols A) as Hrow by nia.
  destruct (find_pivot_pattern _ _ _ _ _ _ _ _ Hfind)
    as (Hpu & HsegU & HfrU & HApU); [done|by destruct Hstk|simpl; lia|].
  simpl in Hpu, HsegU, HfrU, HApU.
  destruct (store_L_pattern _ _ _ _ _ _ _ _ _ _ _ _ Hstore)
    as (Hl2 & HsegL & HfrLi & HfrLx & HApL); [done|by destruct Hstk|lia|].
  simpl in HfrLi, HfrLx, HApL.
  destruct (chosen_pivot_fresh _ _ _ _ _ _ _ _ _ _ _ _ Hfind Hno Hch)
    as (v & Hv & Hneg).
  assert (pv (Num.pinv N1) ipiv < 0) as Hpvneg by (unfold pv; by rewrite Hv).
  assert (∀ e, -1 ≤ pv (Num.pinv N1) e < k) as Hpvr.
  { intros e. apply (pv_range (ncols A) k _ (Num.p N1)); [lia| |].
    - by rewrite Hpinv1, Hp1.
    - apply (co_pinv _ _ Hctx1). }
  assert (rd (Num.topvec N1) k = Some top) as Htopk by (by eapply rd_wr_eq).
  assert (stack_rows (ncols A) (Num.xi N1) (Num.topvec N1) k
          = seg (Num.xi N1) (k * ncols A + top) (k * ncols A + ncols A))
    as Hstack by (unfold stack_rows; by rewrite Htopk).
  pose proof (co_Lp _ _ Hctx) as HLplen. pose proof (co_Up _ _ Hctx) as HUplen.
  rewrite HLeq in *. rewrite HUeq in *. simpl in *.
  assert (∀ j, 0 ≤ j < k →
            ∃ t, rd (Num.topvec N) j = Some t ∧ 0 ≤ t
                 ∧ rd (Num.topvec N1) j = rd (Num.topvec N) j
                 ∧ ∀ q, j * ncols A ≤ q < j * ncols A + ncols A →
                     rd (Num.xi N1) q = rd (Num.xi N) q) as Hold.
  { intros j Hj. destruct (Hstacks j Hj) as (t & Ht & Hst).
    exists t. split_and!; [done|destruct Hst; lia| |].
    - eapply rd_wr_ne; [done|lia].
    - intros q Hq. apply Hfr. nia. }
  constructor; simpl.
  - (* the columns of L *)
    intros j Hj. rewrite HApL. simpl.
    rewrite !(rd_insert (<[Z.to_nat k:=lnz]> (Ap (Num.L N))) (k + 1))
      by (rewrite length_insert; lia).
    destruct (decide (j = k)) as [->|Hne].
    + rewrite decide_False by lia. rewrite decide_True by done.
      rewrite HLpk. exists lnz, lnz2. split_and!; [done|done|lia|lia|lia| |].
      * rewrite (seg_cons _ lnz lnz2 ipiv);
          [|lia|rewrite HfrLi by lia; by eapply rd_wr_eq].
        unfold L_rows. rewrite (rd_wr_eq _ _ _ _ Hwp). simpl. f_equal.
        rewrite HsegL, Hstack. apply list_filter_iff. intros e.
        rewrite (pv_wr _ _ _ _ e Hwi). specialize (Hpvr e).
        destruct (decide (ipiv = e)); lia.
      * rewrite HfrLx by lia. by eapply rd_wr_eq.
    + rewrite !decide_False by lia.
      destruct (HpL j) as (a & b & Ha & Hb & Hab & Hbl & Hseg & Hone); [lia|].
      destruct (Hold j) as (t & Ht & Ht0 & Htv' & Hxi'); [lia|].
      exists a, b. split_and!; [done|done|lia|lia|lia| |].
      * rewrite (L_rows_step _ (Num.xi N) _ (Num.topvec N) _ (Num.pinv N1)
                   _ (Num.p N1) _ ipiv k j t); try done; try lia.
        -- rewrite Hpinv1, Hp1, <-Hseg. apply seg_ext; [lia|].
           intros q Hq. rewrite HfrLi by lia. eapply rd_wr_ne; [done|lia].
        -- eapply rd_wr_ne; [done|lia].
      * rewrite HfrLx by lia. rewrite <-Hone. eapply rd_wr_ne; [done|lia].
  - (* the columns of U *)
    intros j Hj. rewrite HApU.
    rewrite !(rd_insert (<[Z.to_nat k:=unz]> (Ap (Num.U N))) (k + 1))
      by (rewrite length_insert; lia).
    destruct (decide (j = k)) as [->|Hne].
    + rewrite decide_False by lia. rewrite decide_True by done.
      rewrite (rd_insert (Ap (Num.U N)) k) by lia.
      rewrite decide_True by done.
      exists unz, (LU.punz ps + 1). split_and!; [done|done|lia|lia|lia|].
      rewrite (seg_snoc _ unz (LU.punz ps) k);
        [|lia|by eapply rd_wr_eq].
      unfold U_rows. f_equal. rewrite Hstack.
      transitivity (seg (Ai (LU.pU ps)) unz (LU.punz ps)).
      { apply seg_ext; [lia|]. intros q Hq. eapply rd_wr_ne; [done|lia]. }
      rewrite HsegU. apply fmap_filter_ext. intros e _.
      rewrite (pv_wr _ _ _ _ e Hwi). specialize (Hpvr e).
      destruct (decide (ipiv = e)); [subst|]; (split; [lia|]); [lia|done].
    + rewrite !decide_False by lia.
      destruct (HpU j) as (a & b & Ha & Hb & Hab & Hbl & Hseg); [lia|].
      destruct (Hold j) as (t & Ht & Ht0 & Htv' & Hxi'); [lia|].
      exists a, b. split_and!; [done|done|lia|lia|lia|].
      rewrite (U_rows_step _ (Num.xi N) _ (Num.topvec N) _ (Num.pinv N1)
                 _ ipiv k j t); try done; try lia.
      rewrite Hpinv1, <-Hseg. apply seg_ext; [lia|].
      intros q Hq. rewrite <-HfrU by lia. eapply rd_wr_ne; [done|lia].
  - rewrite HApL. simpl.
    rewrite (rd_insert (<[Z.to_nat k:=lnz]> (Ap (Num.L N))) (k + 1))
      by (rewrite length_insert; lia).
    by rewrite decide_False by lia.
  - rewrite HApU.
    rewrite (rd_insert (<[Z.to_nat k:=unz]> (Ap (Num.U N))) (k + 1))
      by (rewrite length_insert; lia).
    by rewrite decide_False by lia.
Qed.

(** The column loop of [sp_ludcmp], when all steps are made. *)
Lemma ludcmp_loop_pattern (N : sp_num T) A pivtol i s :
  matrix_ok A → ctx_ok (ncols A) N →
  LU.ludcmp_loop N A pivtol = Some (i, Next s) →
  lu_inv (ncols A) (ncols A) s ∧ pat_inv (ncols A) (ncols A) s.
Proof.
  intros HA Hctx Hloop. unfold LU.ludcmp_loop in Hloop.
  destruct (ludcmp_init_total _ _ Hctx) as (s0 & Hinit & Hinv0 & Hshape0).
  rewrite Hinit in Hloop. simpl in Hloop.
  assert (0 ≤ ncols A) as Hn by (pose proof (co_w _ _ Hctx); lia).
  assert (pat_inv (ncols A) 0 s0) as Hpat0.
  { pose proof (li_ctx _ _ _ Hinv0) as [].
    pose proof (li_lnz _ _ _ Hinv0). pose proof (li_unz _ _ _ Hinv0).
    pose proof (fo_lnz _ _ _ _ (li_L _ _ _ Hinv0)).
    constructor; try (intros; lia).
    - rewrite rd_insert, decide_True by lia. f_equal. lia.
    - rewrite rd_insert, decide_True by lia. f_equal. lia. }
  apply (for_break_inv
    (λ k s, lu_inv (ncols A) k s ∧ pat_inv (ncols A) k s)
    (λ _ _, True)) in Hloop; [|done| |done].
  - destruct Hloop as [-> Hend].
    by replace (Z.max 0 (ncols A)) with (ncols A) in Hend by lia.
  - intros k t t' Hk [Hinv Hpat] Hstep. split.
    + destruct (ludcmp_step_total A pivtol k t HA Hk Hinv) as (r & Hr & Hpost).
      rewrite Hstep in Hr. injection Hr as <-. apply Hpost.
    + by eapply ludcmp_step_pattern.
Qed.

Lemma seg_fmap_rd {B C : Type} (f : B → C) (l : list B) (l' : list C) a b :
  0 ≤ a →
  (∀ q, a ≤ q < b → ∃ i, rd l q = Some i ∧ rd l' q = Some (f i)) →
  seg l' a b = f <$> seg l a b.
Proof.
  intros Ha Hmap. apply list_eq. intros i.
  rewrite list_lookup_fmap, !seg_lookup by done.
  case_decide; [|done].
  destruct (Hmap (a + Z.of_nat i)) as (e & -> & ->); [lia|]. done.
Qed.

(** The end of the factorisation replaces every row of L by its pivot
    step and closes the last column. *)
Lemma finalize_pattern n (s : LU.lu_loc) N' Lr Ur :
  lu_inv n n s → cols_inv Lr Ur n s →
  LU.finalize n s = Some N' →
  (∀ j, 0 ≤ j < n →
     ∃ a b, rd (Ap (Num.L N')) j = Some a ∧ rd (Ap (Num.L N')) (j + 1) = Some b
       ∧ 0 ≤ a < b ∧ b ≤ Z.of_nat (length (Ai (Num.L N')))
       ∧ seg (Ai (Num.L N')) a b = (pv (Num.pinv (LU.cN s)) <$> Lr j)
       ∧ rd (Ax (Num.L N')) a = Some s_one)
  ∧ (∀ j, 0 ≤ j < n →
       ∃ a b, rd (Ap (Num.U N')) j = Some a
         ∧ rd (Ap (Num.U N')) (j + 1) = Some b
         ∧ 0 ≤ a < b ∧ b ≤ Z.of_nat (length (Ai (Num.U N')))
         ∧ seg (Ai (Num.U N')) a b = Ur j)
  ∧ rd (Ap (Num.L N')) 0 = Some 0 ∧ rd (Ap (Num.U N')) 0 = Some 0.
Proof.
  intros Hinv [HpL HpU HpL0 HpU0] Hfin.
  pose proof (li_ctx _ _ _ Hinv) as Hctx. pose proof Hctx as [].
  pose proof (li_L _ _ _ Hinv) as HL. pose proof (li_unz _ _ _ Hinv) as Hunz.
  pose proof (fo_lnz _ _ _ _ HL) as Hlnz.
  pose proof (fo_rows _ _ _ _ HL) as Hrows.
  destruct s as [N lnz unz]. simpl in *.
  unfold LU.finalize in Hfin. simpl in Hfin.
  rewrite (wr_is_Some (Ap (Num.L N))) in Hfin by lia.
  rewrite (wr_is_Some (Ap (Num.U N))) in Hfin by lia. simpl in Hfin.
  apply bind_Some in Hfin as (Li & HLi & Hfin). injection Hfin as <-.
  simpl.
  apply (for_range_inv
    (λ p Li', length Li' = length (Ai (Num.L N))
       ∧ (∀ q, 0 ≤ q < p →
            ∃ i, rd (Ai (Num.L N)) q = Some i
                 ∧ rd Li' q = Some (pv (Num.pinv N) i))
       ∧ (∀ q, p ≤ q → rd Li' q = rd (Ai (Num.L N)) q))) in HLi.
  2:{ split_and!; [done| |done]. intros; lia. }
  2:{ clear HLi. intros p t t' Hp (Hl & Hlo & Hhi) Hbody.
      apply bind_Some in Hbody as (i & Hi & Hbody).
      apply bind_Some in Hbody as (v & Hv & Hw).
      rewrite Hhi in Hi by lia.
      split_and!.
      - by rewrite (wr_length _ _ _ _ Hw).
      - intros q Hq. rewrite (rd_wr _ _ _ _ _ Hw).
        destruct (decide (p = q)) as [<-|].
        + exists i. split; [done|]. unfold pv. by rewrite Hv.
        + apply Hlo. lia.
      - intros q Hq. rewrite (rd_wr _ _ _ _ _ Hw).
        rewrite decide_False by lia. apply Hhi. lia. }
  replace (Z.max 0 lnz) with lnz in HLi by lia.
  destruct HLi as (HLl & Hmap & _).
  assert (2 * unz ≤ 2 * Z.of_nat (length (Ai (Num.U N)))) as HcapU by nia.
  split_and!; [| |done..].
  - intros j Hj.
    destruct (HpL j Hj) as (a & b & Ha & Hb & Hab & Hbl & Hseg & Hone).
    exists a, b. split_and!; [done|done|lia|lia|lia| |done].
    rewrite <-Hseg. apply seg_fmap_rd; [lia|].
    intros q Hq. apply Hmap. lia.
  - intros j Hj.
    destruct (HpU j Hj) as (a & b & Ha & Hb & Hab & Hbl & Hseg).
    exists a, b. split_and!; [done|done|lia|lia|lia|done].
Qed.

(** The layout of the factors in a context: the columns of L and U
    follow each other from position 0 on; column [j] of L starts with
    the diagonal entry, of value one, and holds the rows of [L_col];
    column [j] of U holds the rows of [U_col]. *)
Record factors_ok (n : Z) (N : sp_num T) : Prop := {
  fa_L : ∀ j, 0 ≤ j < n →
    ∃ a b, rd (Ap (Num.L N)) j = Some a ∧ rd (Ap (Num.L N)) (j + 1) = Some b
      ∧ 0 ≤ a < b ∧ b ≤ Z.of_nat (length (Ai (Num.L N)))
      ∧ seg (Ai (Num.L N)) a b
        = L_col n (Num.xi N) (Num.topvec N) (Num.pinv N) j
      ∧ rd (Ax (Num.L N)) a = Some s_one;
  fa_U : ∀ j, 0 ≤ j < n →
    ∃ a b, rd (Ap (Num.U N)) j = Some a ∧ rd (Ap (Num.U N)) (j + 1) = Some b
      ∧ 0 ≤ a < b ∧ b ≤ Z.of_nat (length (Ai (Num.U N)))
      ∧ seg (Ai (Num.U N)) a b
        = U_col n (Num.xi N) (Num.topvec N) (Num.pinv N) j;
  fa_L0 : rd (Ap (Num.L N)) 0 = Some 0;
  fa_U0 : rd (Ap (Num.U N)) 0 = Some 0;
}.

Lemma stack_rows_range n xi topvec j t e :
  0 ≤ j → rd topvec j = Some t → stack_ok n (j * n) xi t →
  e ∈ stack_rows n xi topvec j → 0 ≤ e < n.
Proof.
  intros Hj Ht Hstk. unfold stack_rows. rewrite Ht. simpl.
  pose proof Hstk as [Htop _].
  intros (q & Hq & He)%seg_elem_of; [|nia].
  destruct (stack_ok_rd _ _ _ _ (q - j * n) Hstk) as (e' & He' & Hr); [lia|].
  replace (j * n + (q - j * n)) with q in He' by lia. congruence.
Qed.

Lemma pv_full n pinv p e :
  Z.of_nat (length pinv) = n → perm_inv n n pinv p → 0 ≤ e < n →
  0 ≤ pv pinv e < n.
Proof.
  intros Hlen Hperm He.
  destruct (perm_inv_full _ _ _ Hlen Hperm) as [Hfull _].
  destruct (Hfull e He) as (v & ? & Hv & _). unfold pv. by rewrite Hv.
Qed.

(** With all pivots made, the rows that [sp_ludcmp] has stored are
    those of [L_col] and [U_col]. *)
Lemma L_rows_col n xi topvec pinv p j t :
  0 ≤ j < n → Z.of_nat (length pinv) = n → perm_inv n n pinv p →
  rd topvec j = Some t → stack_ok n (j * n) xi t →
  pv pinv <$> L_rows n xi topvec pinv p j = L_col n xi topvec pinv j.
Proof.
  intros Hj Hlen Hperm Ht Hstk. unfold L_rows, L_col. rewrite fmap_cons.
  destruct (perm_inv_full _ _ _ Hlen Hperm) as [_ Hsteps].
  destruct (Hsteps j Hj) as (i & _ & -> & Hi). simpl. f_equal.
  - unfold pv. by rewrite Hi.
  - f_equal. apply filter_ext_in. intros e He.
    assert (0 ≤ j) as Hj0 by lia.
    pose proof (stack_rows_range _ _ _ _ _ _ Hj0 Ht Hstk He) as Her.
    pose proof (pv_full _ _ _ e Hlen Hperm Her). lia.
Qed.

Lemma U_rows_col n xi topvec pinv p j t :
  0 ≤ j < n → Z.of_nat (length pinv) = n → perm_inv n n pinv p →
  rd topvec j = Some t → stack_ok n (j * n) xi t →
  U_rows n xi topvec pinv j = U_col n xi topvec pinv j.
Proof.
  intros Hj Hlen Hperm Ht Hstk. unfold U_rows, U_col. do 2 f_equal.
  apply filter_ext_in. intros e He.
  assert (0 ≤ j) as Hj0 by lia.
  pose proof (stack_rows_range _ _ _ _ _ _ Hj0 Ht Hstk He) as Her.
  pose proof (pv_full _ _ _ e Hlen Hperm Her). lia.
Qed.

(** The factors that a successful [sp_ludcmp] leaves. *)
Lemma sp_ludcmp_pattern (N : sp_num T) A pivtol N' :
  matrix_ok A → ctx_ok (ncols A) N →
  LU.sp_ludcmp N A pivtol = Some (SUCCESS, N') →
  factors_ok (ncols A) N'.
Proof.
  intros HA Hctx Hrun.
  pose proof (sp_ludcmp_refactor_ok N A pivtol N' HA Hctx Hrun)
    as [Hctx' Hperm' Hstacks'].
  unfold LU.sp_ludcmp in Hrun.
  apply bind_Some in Hrun as ([i [s|s]] & Hloop & Hrun); [|done].
  apply bind_Some in Hrun as (N1 & Hfin & [= <-]).
  destruct (ludcmp_loop_pattern N A pivtol i s HA Hctx Hloop) as [Hinv Hpat].
  destruct (finalize_pattern _ _ _ _ _ Hinv Hpat Hfin)
    as (HL & HU & HL0 & HU0).
  destruct (finalize_frame _ _ _ Hfin) as (Hpinv & Hp & Htv & _).
  destruct (finalize_total _ _ Hinv) as (N2 & Hfin' & _ & Hxi).
  rewrite Hfin in Hfin'. injection Hfin' as <-.
  constructor; [| |done..].
  - intros j Hj. destruct (HL j Hj) as (a & b & ? & ? & ? & ? & Hseg & ?).
    exists a, b. split_and!; try done; try lia.
    rewrite Hseg, <-Hpinv, <-Hp, <-Htv, <-Hxi.
    destruct (Hstacks' j Hj) as (t & Ht & Hst).
    apply (L_rows_col _ _ _ _ _ _ t); try done. apply (co_pinv _ _ Hctx').
  - intros j Hj. destruct (HU j Hj) as (a & b & ? & ? & ? & ? & Hseg).
    exists a, b. split_and!; try done; try lia.
    rewrite Hseg, <-Hpinv, <-Htv, <-Hxi.
    destruct (Hstacks' j Hj) as (t & Ht & Hst).
    apply (U_rows_col _ _ _ _ (Num.p N1) _ t); try done.
    apply (co_pinv _ _ Hctx').
Qed.

Lemma stack_list_seg xi xik top n stk :
  0 ≤ xik → 0 ≤ top ≤ n → stack_list xi xik top n stk →
  stk = seg xi (xik + top) (xik + n).
Proof.
  intros Hxik Htop [Hlen Hstk]. apply list_eq. intros i.
  rewrite seg_lookup by lia.
  destruct (decide (Z.of_nat i < xik + n - (xik + top))) as [Hi|Hi].
  - rewrite <-Z.add_assoc, Hstk by lia. f_equal. lia.
  - apply lookup_ge_None. lia.
Qed.

Lemma stack_rows_NoDup n xi topvec j t :
  0 ≤ j → 0 ≤ n → rd topvec j = Some t → stack_ok n (j * n) xi t →
  NoDup (stack_rows n xi topvec j).
Proof.
  intros Hj Hn Ht (Htop & stk & Hsl & Hnd & _).
  unfold stack_rows. rewrite Ht. simpl.
  assert (0 ≤ j * n) as Hjn by nia.
  by rewrite <-(stack_list_seg _ _ _ _ _ Hjn Htop Hsl).
Qed.

Lemma pv_inj n pinv p e1 e2 :
  Z.of_nat (length pinv) = n → perm_inv n n pinv p →
  0 ≤ e1 < n → 0 ≤ e2 < n → pv pinv e1 = pv pinv e2 → e1 = e2.
Proof.
  intros Hlen Hperm He1 He2.
  destruct (perm_inv_full _ _ _ Hlen Hperm) as [Hfull _].
  destruct (Hfull e1 He1) as (k1 & _ & Hk1 & Hp1).
  destruct (Hfull e2 He2) as (k2 & _ & Hk2 & Hp2).
  unfold pv. rewrite Hk1, Hk2. simpl. intros ->. congruence.
Qed.

(** The factors are triangular, with their diagonals where the solves
    look for them: column [j] of L starts with the diagonal entry, of
    value one, followed by rows below the diagonal; column [j] of U ends
    with the diagonal entry, preceded by rows above the diagonal; no
    column holds a row twice, and the columns follow each other from
    position 0 on, inside the arrays. *)
Definition triangular (n : Z) (N : sp_num T) : Prop :=
  rd (Ap (Num.L N)) 0 = Some 0 ∧ rd (Ap (Num.U N)) 0 = Some 0
  ∧ ∀ j, 0 ≤ j < n →
    (∃ a b, rd (Ap (Num.L N)) j = Some a
       ∧ rd (Ap (Num.L N)) (j + 1) = Some b
       ∧ 0 ≤ a < b ∧ b ≤ Z.of_nat (length (Ai (Num.L N)))
       ∧ b ≤ Z.of_nat (length (Ax (Num.L N)))
       ∧ rd (Ai (Num.L N)) a = Some j ∧ rd (Ax (Num.L N)) a = Some s_one
       ∧ (∀ q, a < q < b → ∃ i, rd (Ai (Num.L N)) q = Some i ∧ j < i < n)
       ∧ NoDup (seg (Ai (Num.L N)) a b))
    ∧ (∃ c d, rd (Ap (Num.U N)) j = Some c
       ∧ rd (Ap (Num.U N)) (j + 1) = Some d
       ∧ 0 ≤ c < d ∧ d ≤ Z.of_nat (length (Ai (Num.U N)))
       ∧ d ≤ Z.of_nat (length (Ax (Num.U N)))
       ∧ rd (Ai (Num.U N)) (d - 1) = Some j
       ∧ (∀ q, c ≤ q < d - 1 →
            ∃ r, rd (Ai (Num.U N)) q = Some r ∧ 0 ≤ r < j)
       ∧ NoDup (seg (Ai (Num.U N)) c d)).

Lemma factors_triangular n (N : sp_num T) :
  refactor_ok n N → factors_ok n N → triangular n N.
Proof.
  intros [Hctx Hperm Hstacks] [HL HU HL0 HU0].
  pose proof (co_pinv _ _ Hctx) as Hlen.
  split; [done|]. split; [done|]. intros j Hj.
  destruct (Hstacks j Hj) as (t & Ht & Hstk).
  assert (0 ≤ j) as Hj0 by lia. assert (0 ≤ n) as Hn0 by lia.
  pose proof (stack_rows_NoDup _ _ _ _ _ Hj0 Hn0 Ht Hstk) as Hnd.
  assert (∀ e, e ∈ stack_rows n (Num.xi N) (Num.topvec N) j →
               0 ≤ e < n ∧ 0 ≤ pv (Num.pinv N) e < n) as Hran.
  { intros e He.
    pose proof (stack_rows_range _ _ _ _ _ _ Hj0 Ht Hstk He) as Her.
    split; [done|]. by apply (pv_full _ _ (Num.p N)). }
  assert (∀ (P : Z → Prop) `{!∀ e, Decision (P e)},
            NoDup (pv (Num.pinv N)
                     <$> filter P (stack_rows n (Num.xi N) (Num.topvec N) j)))
    as Hndf.
  { intros P ?. apply NoDup_fmap_2_strong; [|by apply NoDup_filter].
    intros e1 e2 [_ He1]%list_elem_of_filter [_ He2]%list_elem_of_filter.
    apply (pv_inj n _ (Num.p N)); try done; by apply Hran. }
  split.
  - destruct (HL j Hj) as (a & b & Ha & Hb & Hab & Hbl & Hseg & Hone).
    assert (rd (Ai (Num.L N)) a = Some j) as Hd.
    { rewrite <-(seg_rd _ a b a) by lia. rewrite Hseg.
      by rewrite Z.sub_diag. }
    exists a, b. split_and!; try done; try lia.
    + rewrite (co_Lx _ _ Hctx). lia.
    + intros q Hq. destruct (rd_is_Some (Ai (Num.L N)) q) as [i Hi]; [lia|].
      exists i. split; [done|].
      rewrite (seg_cons _ a b j) in Hseg by (done || lia).
      unfold L_col in Hseg. injection Hseg as Hseg.
      assert (i ∈ seg (Ai (Num.L N)) (a + 1) b) as Hin.
      { apply seg_elem_of; [lia|]. exists q. split; [lia|done]. }
      rewrite Hseg in Hin.
      apply list_elem_of_fmap in Hin as (e & -> & [He Hin]%list_elem_of_filter).
      apply Hran in Hin. lia.
    + rewrite Hseg. unfold L_col. apply NoDup_cons. split; [|apply Hndf].
      intros (e & He & [Hlt _]%list_elem_of_filter)%list_elem_of_fmap. lia.
  - destruct (HU j Hj) as (c & d & Hc & Hd & Hcd & Hdl & Hseg).
    destruct (rd_is_Some (Ai (Num.U N)) (d - 1)) as [v Hv]; [lia|].
    assert (0 ≤ c ≤ d - 1) as Hcd1 by lia.
    pose proof (seg_snoc (Ai (Num.U N)) c (d - 1) v Hcd1 Hv) as Hsn.
    replace (d - 1 + 1) with d in Hsn by lia.
    rewrite Hseg in Hsn. unfold U_col in Hsn.
    apply app_inj_tail in Hsn as [Hfront ->].
    exists c, d. split_and!; try done; try lia.
    + rewrite (co_Ux _ _ Hctx). lia.
    + intros q Hq. destruct (rd_is_Some (Ai (Num.U N)) q) as [r Hr]; [lia|].
      exists r. split; [done|].
      assert (r ∈ seg (Ai (Num.U N)) c (d - 1)) as Hin.
      { apply seg_elem_of; [lia|]. exists q. split; [lia|done]. }
      rewrite <-Hfront in Hin.
      apply list_elem_of_fmap in Hin as (e & -> & [He Hin]%list_elem_of_filter).
      apply Hran in Hin. lia.
    + rewrite Hseg. unfold U_col. apply NoDup_app. split_and!.
      * apply Hndf.
      * intros x (e & -> & [Hlt _]%list_elem_of_filter)%list_elem_of_fmap.
        rewrite list_elem_of_singleton. lia.
      * apply NoDup_singleton.
Qed.

(** The invariant of the column loop of [sp_refactor], on the context
    [N0] that it was given: the columns written so far hold the rows
    that the stacks of [N0] give, and the permutations and the stacks
    are those of [N0]. *)
Definition rpat_inv (n : Z) (N0 : sp_num T) (k : Z) (s : LU.lu_loc) : Prop :=
  cols_inv
    (R_rows n (Num.xi N0) (Num.topvec N0) (Num.pinv N0) (Num.p N0))
    (U_col n (Num.xi N0) (Num.topvec N0) (Num.pinv N0)) k s
  ∧ Num.xi (LU.cN s) = Num.xi N0
  ∧ Num.topvec (LU.cN s) = Num.topvec N0
  ∧ Num.pinv (LU.cN s) = Num.pinv N0
  ∧ Num.p (LU.cN s) = Num.p N0
  ∧ Num.q (LU.cN s) = Num.q N0.

Lemma refactor_step_pattern A N0 k (s s' : LU.lu_loc) :
  matrix_ok A → 0 ≤ k < ncols A →
  rf_inv (ncols A) k s → rpat_inv (ncols A) N0 k s →
  LU.refactor_step A k s = Some s' →
  rpat_inv (ncols A) N0 (k + 1) s'.
Proof.
  intros HA Hk Hinv (Hpat & Hxi & Htv & Hpinv & Hp & Hqq) Hstep.
  pose proof (ri_ok _ _ _ Hinv) as [Hctx Hperm Hstacks].
  pose proof (fo_lnz _ _ _ _ (ri_L _ _ _ Hinv)) as Hlnz.
  pose proof (ri_unz _ _ _ Hinv) as Hunz.
  destruct Hpat as [HpL HpU HpL0 HpU0].
  destruct s as [N lnz unz]. simpl in *.
  pose proof (co_Lp _ _ Hctx) as HLplen. pose proof (co_Up _ _ Hctx) as HUplen.
  unfold LU.refactor_step in Hstep. simpl in Hstep.
  apply bind_Some in Hstep as (Lp & [_ ->]%wr_Some & Hstep).
  apply bind_Some in Hstep as (Up & [_ ->]%wr_Some & Hstep).
  apply bind_Some in Hstep as (col & _ & Hstep).
  apply bind_Some in Hstep as (top & Htop & Hstep).
  apply bind_Some in Hstep as (xik & Hxik & Hstep).
  apply bind_Some in Hstep as (x & _ & Hstep).
  apply bind_Some in Hstep as (ipiv & Hipiv & Hstep).
  apply bind_Some in Hstep as (pivot & _ & Hstep).
  apply bind_Some in Hstep as (Li & HLi & Hstep).
  apply bind_Some in Hstep as (Lx & HLx & Hstep).
  apply bind_Some in Hstep as ([[[[L1 lnz1] U1] unz1] x1] & Hrows & Hstep).
  apply bind_Some in Hstep as (Ui & HUi & Hstep).
  apply bind_Some in Hstep as (Ux & HUx & Hstep).
  injection Hstep as <-. simpl in *.
  unfold LU.xi_row in Hxik. simpl in Hxik. rewrite (co_n _ _ Hctx) in Hxik.
  rewrite decide_True in Hxik by lia. injection Hxik as <-.
  destruct (Hstacks k Hk) as (top' & Htop' & Hstk).
  rewrite Htop in Htop'. injection Htop' as <-.
  assert (0 ≤ k * ncols A) as Hrow by nia.
  destruct (refactor_rows_pattern _ _ _ _ _ _ _ _ _ _ _ _ _ _ _ _ _ Hrows)
    as ((Hl1 & HsegL & HfrLi & HfrLx & HApL) & (Hu1 & HsegU & HfrU & HApU));
    [done|by destruct Hstk|lia|lia|].
  simpl in HfrLi, HfrLx, HApL, HfrU, HApU.
  assert (stack_rows (ncols A) (Num.xi N0) (Num.topvec N0) k
          = seg (Num.xi N) (k * ncols A + top) (k * ncols A + ncols A))
    as Hstack by (unfold stack_rows; by rewrite <-Htv, <-Hxi, Htop).
  split; [|done]. constructor; simpl.
  - intros j Hj. rewrite HApL.
    rewrite !(rd_insert (<[Z.to_nat k:=lnz]> (Ap (Num.L N))) (k + 1))
      by (rewrite length_insert; lia).
    destruct (decide (j = k)) as [->|Hne].
    + rewrite decide_False by lia. rewrite decide_True by done.
      rewrite (rd_insert (Ap (Num.L N)) k) by lia.
      rewrite decide_True by done.
      exists lnz, lnz1. split_and!; [done|done|lia|lia|lia| |].
      * rewrite (seg_cons _ lnz lnz1 ipiv);
          [|lia|rewrite HfrLi by lia; by eapply rd_wr_eq].
        unfold R_rows. rewrite <-Hp, Hipiv. simpl. f_equal.
        by rewrite HsegL, Hstack, Hpinv.
      * rewrite HfrLx by lia. by eapply rd_wr_eq.
    + rewrite !decide_False by lia.
      destruct (HpL j) as (a & b & Ha & Hb & Hab & Hbl & Hseg & Hone); [lia|].
      exists a, b. split_and!; [done|done|lia|lia|lia| |].
      * rewrite <-Hseg. apply seg_ext; [lia|].
        intros q Hq. rewrite HfrLi by lia. eapply rd_wr_ne; [done|lia].
      * rewrite HfrLx by lia. rewrite <-Hone. eapply rd_wr_ne; [done|lia].
  - intros j Hj. rewrite HApU.
    rewrite !(rd_insert (<[Z.to_nat k:=unz]> (Ap (Num.U N))) (k + 1))
      by (rewrite length_insert; lia).
    destruct (decide (j = k)) as [->|Hne].
    + rewrite decide_False by lia. rewrite decide_True by done.
      rewrite (rd_insert (Ap (Num.U N)) k) by lia.
      rewrite decide_True by done.
      exists unz, (unz1 + 1). split_and!; [done|done|lia|lia|lia|].
      rewrite (seg_snoc _ unz unz1 k); [|lia|by eapply rd_wr_eq].
      unfold U_col. f_equal. rewrite Hstack, <-Hpinv, <-HsegU.
      apply seg_ext; [lia|]. intros q Hq. eapply rd_wr_ne; [done|lia].
    + rewrite !decide_False by lia.
      destruct (HpU j) as (a & b & Ha & Hb & Hab & Hbl & Hseg); [lia|].
      exists a, b. split_and!; [done|done|lia|lia|lia|].
      rewrite <-Hseg. apply seg_ext; [lia|].
      intros q Hq. rewrite <-HfrU by lia. eapply rd_wr_ne; [done|lia].
  - rewrite HApL.
    rewrite (rd_insert (<[Z.to_nat k:=lnz]> (Ap (Num.L N))) (k + 1))
      by (rewrite length_insert; lia).
    by rewrite decide_False by lia.
  - rewrite HApU.
    rewrite (rd_insert (<[Z.to_nat k:=unz]> (Ap (Num.U N))) (k + 1))
      by (rewrite length_insert; lia).
    by rewrite decide_False by lia.
Qed.

Lemma R_rows_col n xi topvec pinv p j :
  0 ≤ j < n → Z.of_nat (length pinv) = n → perm_inv n n pinv p →
  pv pinv <$> R_rows n xi topvec pinv p j = L_col n xi topvec pinv j.
Proof.
  intros Hj Hlen Hperm. unfold R_rows, L_col. rewrite fmap_cons.
  destruct (perm_inv_full _ _ _ Hlen Hperm) as [_ Hsteps].
  destruct (Hsteps j Hj) as (i & _ & -> & Hi). simpl. f_equal.
  unfold pv. by rewrite Hi.
Qed.

(** The refactorisation writes the factors in the layout that it found:
    the permutations and the stacks are not changed, and the columns of
    L and U are again those that the stacks give. *)
Lemma sp_refactor_pattern (N : sp_num T) A N' :
  matrix_ok A → refactor_ok (ncols A) N →
  LU.sp_refactor N A = Some (SUCCESS, N') →
  refactor_ok (ncols A) N' ∧ factors_ok (ncols A) N'
  ∧ Num.xi N' = Num.xi N ∧ Num.topvec N' = Num.topvec N
  ∧ Num.pinv N' = Num.pinv N ∧ Num.p N' = Num.p N ∧ Num.q N' = Num.q N.
Proof.
  intros HA [Hctx Hperm Hstacks] Hrun. pose proof Hctx as [].
  unfold LU.sp_refactor in Hrun.
  apply bind_Some in Hrun as (x & Hx & Hrun).
  apply bind_Some in Hrun as (Lp & HLp & Hrun).
  apply bind_Some in Hrun as (s & Hloop & Hrun).
  apply bind_Some in Hrun as (N1 & Hfin & [= <-]).
  destruct (fill_frame _ _ _ _ Hx) as (Hxl & _ & _).
  destruct (fill_frame _ _ _ _ HLp) as (HLl & HLv & _).
  assert (wr Lp 0 0 = Some (<[Z.to_nat 0 := 0]> Lp)) as Hw
    by (apply wr_is_Some; lia).
  apply (for_range_inv
           (λ k s, rf_inv (ncols A) k s ∧ rpat_inv (ncols A) N k s))
    in Hloop.
  - replace (0 `max` ncols A) with (ncols A) in Hloop by lia.
    destruct Hloop as [Hrf (Hpat & Hxi & Htv & Hpinv & Hp & Hq)].
    pose proof Hrf as [[Hctx' Hperm' Hstacks'] Hlnz Hunz HL _].
    assert (lu_inv (ncols A) (ncols A) s) as Hinv by (by constructor).
    destruct (finalize_pattern _ _ _ _ _ Hinv Hpat Hfin)
      as (HL' & HU' & HL0 & HU0).
    destruct (finalize_frame _ _ _ Hfin) as (Hpinv1 & Hp1 & Htv1 & Hq1).
    destruct (finalize_total _ _ Hinv) as (N2 & Hfin' & Hshape & Hxi1).
    rewrite Hfin in Hfin'. injection Hfin' as <-.
    split_and!; try congruence.
    + constructor.
      * by apply (ctx_ok_shape _ (LU.cN s)).
      * by rewrite Hpinv1, Hp1.
      * by rewrite Htv1, Hxi1.
    + constructor; [| |done..].
      * intros j Hj. destruct (HL' j Hj) as (a & b & ? & ? & ? & ? & Hseg & ?).
        exists a, b. split_and!; try done; try lia.
        rewrite Hseg, Hpinv, Hxi1, Htv1, Hpinv1, Hxi, Htv, Hpinv.
        apply R_rows_col; [done|done|by rewrite <-Hpinv, <-Hp].
      * intros j Hj. destruct (HU' j Hj) as (a & b & ? & ? & ? & ? & Hseg).
        exists a, b. split_and!; try done; try lia.
        by rewrite Hseg, Hxi1, Htv1, Hpinv1, Hxi, Htv, Hpinv.
  - split.
    + constructor; simpl; try lia.
      * constructor; simpl; [|done..].
        apply (ctx_ok_shape _ N); [|done]. unfold shape. simpl.
        by rewrite Hxl, HLl.
      * constructor; simpl; try done; try lia.
        -- rewrite length_insert. lia.
        -- intros j Hj. exists 0. split; [|done].
           rewrite (rd_wr _ _ _ _ _ Hw). case_decide; [done|].
           apply HLv. lia.
      * intros j Hj. apply HLv. lia.
    + split; [|done]. constructor; simpl; try (intros; lia).
      * rewrite (rd_insert Lp 0) by lia. by rewrite decide_True.
      * rewrite (rd_insert (Ap (Num.U N)) 0) by lia. by rewrite decide_True.
  - intros k t t' Hk [Hrf Hpat] Hstep. split.
    + destruct (refactor_step_total A k t HA Hk Hrf) as (t'' & Ht & ?).
      congruence.
    + by apply (refactor_step_pattern A N k t).
Qed.

(** Two column layouts that start at position 0 and hold the same rows
    column by column have the same pointers and the same entries. *)
Lemma cols_same (Ap1 Ap2 Ai1 Ai2 : list Z) (C : Z → list Z) n :
  (∀ j, 0 ≤ j < n →
     ∃ a b, rd Ap1 j = Some a ∧ rd Ap1 (j + 1) = Some b ∧ 0 ≤ a ≤ b
       ∧ b ≤ Z.of_nat (length Ai1) ∧ seg Ai1 a b = C j) →
  (∀ j, 0 ≤ j < n →
     ∃ a b, rd Ap2 j = Some a ∧ rd Ap2 (j + 1) = Some b ∧ 0 ≤ a ≤ b
       ∧ b ≤ Z.of_nat (length Ai2) ∧ seg Ai2 a b = C j) →
  rd Ap1 0 = Some 0 → rd Ap2 0 = Some 0 →
  ∀ j, 0 ≤ j ≤ n →
    ∃ a, rd Ap1 j = Some a ∧ rd Ap2 j = Some a
         ∧ ∀ q, 0 ≤ q < a → rd Ai2 q = rd Ai1 q.
Proof.
  intros H1 H2 H10 H20 j [Hj0 Hjn]. revert Hjn.
  pattern j. apply natlike_ind; [| |done].
  - intros _. exists 0. split_and!; [done..|]. intros; lia.
  - clear j Hj0. intros j Hj0 IH Hjn.
    destruct IH as (a & Ha1 & Ha2 & Hq); [lia|].
    destruct (H1 j) as (a1 & b1 & Ha1' & Hb1 & Hab1 & Hl1 & Hs1); [lia|].
    destruct (H2 j) as (a2 & b2 & Ha2' & Hb2 & Hab2 & Hl2 & Hs2); [lia|].
    assert (a1 = a) as -> by congruence.
    assert (a2 = a) as -> by congruence.
    pose proof (seg_length Ai1 a b1 ltac:(lia) Hl1) as Hlen1.
    pose proof (seg_length Ai2 a b2 ltac:(lia) Hl2) as Hlen2.
    rewrite Hs1 in Hlen1. rewrite Hs2 in Hlen2.
    assert (b2 = b1) as -> by lia.
    exists b1. unfold Z.succ. split_and!; [done..|].
    intros q Hqb. destruct (decide (q < a)) as [?|?]; [apply Hq; lia|].
    rewrite <-(seg_rd Ai2 a b1 q), <-(seg_rd Ai1 a b1 q) by lia.
    by rewrite Hs1, Hs2.
Qed.

(** Two contexts with the same stacks and the same row permutation, and
    with the factors in the layout that the stacks give, have the same
    pattern: the same column pointers, and the same row indices at all
    the positions that the pointers cover. *)
Definition same_pattern (n : Z) (N1 N2 : sp_num T) : Prop :=
  Ap (Num.L N2) = Ap (Num.L N1) ∧ Ap (Num.U N2) = Ap (Num.U N1)
  ∧ (∃ lnz, rd (Ap (Num.L N1)) n = Some lnz
       ∧ ∀ q, 0 ≤ q < lnz → rd (Ai (Num.L N2)) q = rd (Ai (Num.L N1)) q)
  ∧ (∃ unz, rd (Ap (Num.U N1)) n = Some unz
       ∧ ∀ q, 0 ≤ q < unz → rd (Ai (Num.U N2)) q = rd (Ai (Num.U N1)) q).

Lemma rd_ext {A : Type} (l1 l2 : list A) :
  length l1 = length l2 →
  (∀ j, 0 ≤ j < Z.of_nat (length l1) → rd l2 j = rd l1 j) → l2 = l1.
Proof.
  intros Hlen Hrd. apply list_eq. intros i.
  destruct (decide (i < length l1)%nat) as [Hi|Hi].
  - specialize (Hrd (Z.of_nat i) ltac:(lia)). unfold rd in Hrd.
    rewrite !decide_True in Hrd by lia. by rewrite Nat2Z.id in Hrd.
  - rewrite !(lookup_ge_None_2) by lia. done.
Qed.

Lemma factors_same n (N1 N2 : sp_num T) :
  0 ≤ n → ctx_ok n N1 → ctx_ok n N2 →
  factors_ok n N1 → factors_ok n N2 →
  Num.xi N2 = Num.xi N1 → Num.topvec N2 = Num.topvec N1 →
  Num.pinv N2 = Num.pinv N1 →
  same_pattern n N1 N2.
Proof.
  intros Hn Hc1 Hc2 [HL1 HU1 HL10 HU10] [HL2 HU2 HL20 HU20] Hxi Htv Hpinv.
  rewrite Hxi, Htv, Hpinv in HL2, HU2.
  pose proof (cols_same (Ap (Num.L N1)) (Ap (Num.L N2))
                (Ai (Num.L N1)) (Ai (Num.L N2))
                (L_col n (Num.xi N1) (Num.topvec N1) (Num.pinv N1)) n) as HL.
  pose proof (cols_same (Ap (Num.U N1)) (Ap (Num.U N2))
                (Ai (Num.U N1)) (Ai (Num.U N2))
                (U_col n (Num.xi N1) (Num.topvec N1) (Num.pinv N1)) n) as HU.
  assert (∀ j, 0 ≤ j ≤ n →
            ∃ a, rd (Ap (Num.L N1)) j = Some a ∧ rd (Ap (Num.L N2)) j = Some a
                 ∧ ∀ q, 0 ≤ q < a →
                     rd (Ai (Num.L N2)) q = rd (Ai (Num.L N1)) q) as HL'.
  { apply HL; try done.
    - intros j Hj. destruct (HL1 j Hj) as (a & b & ? & ? & ? & ? & ? & _).
      exists a, b. split_and!; try done; lia.
    - intros j Hj. destruct (HL2 j Hj) as (a & b & ? & ? & ? & ? & ? & _).
      exists a, b. split_and!; try done; lia. }
  assert (∀ j, 0 ≤ j ≤ n →
            ∃ a, rd (Ap (Num.U N1)) j = Some a ∧ rd (Ap (Num.U N2)) j = Some a
                 ∧ ∀ q, 0 ≤ q < a →
                     rd (Ai (Num.U N2)) q = rd (Ai (Num.U N1)) q) as HU'.
  { apply HU; try done.
    - intros j Hj. destruct (HU1 j Hj) as (a & b & ? & ? & ? & ? & ?).
      exists a, b. split_and!; try done; lia.
    - intros j Hj. destruct (HU2 j Hj) as (a & b & ? & ? & ? & ? & ?).
      exists a, b. split_and!; try done; lia. }
  clear HL HU.
  pose proof (co_Lp _ _ Hc1) as Hl1. pose proof (co_Lp _ _ Hc2) as Hl2.
  pose proof (co_Up _ _ Hc1) as Hu1. pose proof (co_Up _ _ Hc2) as Hu2.
  split_and!.
  - apply rd_ext; [lia|]. intros j Hj.
    destruct (HL' j) as (a & -> & -> & _); [lia|done].
  - apply rd_ext; [lia|]. intros j Hj.
    destruct (HU' j) as (a & -> & -> & _); [lia|done].
  - destruct (HL' n) as (a & ? & _ & ?); [lia|]. by exists a.
  - destruct (HU' n) as (a & ? & _ & ?); [lia|]. by exists a.
Qed.

End Pattern.

(** *** [sp_lusolve] *)

Section Solve.
Context {T : Type} `{Scalar T}.

(** [for (j = n-1; j >= 0; j--) body]: the steps [n-1], [n-2], ..., [0],
    in this order. *)
Definition for_down {St : Type} (n : Z) (body : Z → St → option St)
    (s : St) : option St :=
  for_range 0 n (λ i s, body (n - 1 - i) s) s.

(** The lower solve of [sp_lusolve]: the diagonal entry of column [j] is
    read at [Ap[j]], the other entries after it. *)
Definition lower_solve (L : sp_mat T) (n : Z) (x : list T)
    : option (list T) :=
  for_range 0 n
    (λ j x,
       a ← rd (Ap L) j;
       d ← rd (Ax L) a;
       xj ← rd x j;
       x ← wr x j (s_div xj d);
       b ← rd (Ap L) (j + 1);
       for_range (a + 1) b
         (λ p x,
            i ← rd (Ai L) p;
            v ← rd (Ax L) p;
            xj ← rd x j;
            xi ← rd x i;
            wr x i (s_sub xi (s_mul v xj)))
         x)
    x.

(** The upper solve: the diagonal entry of column [j] is read at
    [Ap[j+1]-1], the other entries before it. *)
Definition upper_solve (U : sp_mat T) (n : Z) (x : list T)
    : option (list T) :=
  for_down n
    (λ j x,
       b ← rd (Ap U) (j + 1);
       d ← rd (Ax U) (b - 1);
       xj ← rd x j;
       x ← wr x j (s_div xj d);
       a ← rd (Ap U) j;
       for_range a (b - 1)
         (λ p x,
            i ← rd (Ai U) p;
            v ← rd (Ax U) p;
            xj ← rd x j;
            xi ← rd x i;
            wr x i (s_sub xi (s_mul v xj)))
         x)
    x.

(** [sp_lusolve], and [sp_lusolve_cx] on complex scalars, on arrays [b]
    and [x] that do not overlap.  The result is the status, the context,
    of which [w] is written when there is a column permutation, and
    [x]. *)
Definition sp_lusolve (N : sp_num T) (b x : list T)
    : option (status * sp_num T * list T) :=
  let n := Num.n N in
  x ← for_range 0 n
         (λ j x, pj ← rd (Num.pinv N) j; bj ← rd b j; wr x pj bj) x;
  x ← lower_solve (Num.L N) n x;
  x ← upper_solve (Num.U N) n x;
  match Num.q N with
  | None => Some (SUCCESS, N, x)
  | Some q =>
      w ← for_range 0 n (λ j w, xj ← rd x j; wr w j xj) (Num.w N);
      x ← for_range 0 n (λ j x, qj ← rd q j; wj ← rd w j; wr x qj wj) x;
      Some (SUCCESS, with_w N w, x)
  end.

Lemma for_down_total {St : Type} (I : Z → St → Prop) n body (s : St) :
  0 ≤ n → I n s →
  (∀ j t, 0 ≤ j < n → I (j + 1) t → ∃ t', body j t = Some t' ∧ I j t') →
  ∃ s', for_down n body s = Some s' ∧ I 0 s'.
Proof.
  intros Hn H0 Hstep. unfold for_down.
  destruct (for_range_total (λ i t, I (n - i) t) 0 n
              (λ i s, body (n - 1 - i) s) s) as (s' & Hs & HI).
  - by rewrite Z.sub_0_r.
  - intros i t Hi Ht. destruct (Hstep (n - 1 - i) t) as (t' & Ht' & HI').
    + lia.
    + by replace (n - 1 - i + 1) with (n - i) by lia.
    + exists t'. split; [done|].
      by replace (n - (i + 1)) with (n - 1 - i) by lia.
  - exists s'. split; [done|].
    replace (0 `max` n) with n in HI by lia. by rewrite Z.sub_diag in HI.
Qed.

(** One update [x[i] -= v * x[j]] of a solve, with the indices in
    range. *)
Lemma solve_update_total (Ai : list Z) (Ax x : list T) p j n :
  0 ≤ j < n → n ≤ Z.of_nat (length x) →
  0 ≤ p < Z.of_nat (length Ax) →
  (∃ i, rd Ai p = Some i ∧ 0 ≤ i < n) →
  ∃ x', (i ← rd Ai p; v ← rd Ax p; xj ← rd x j; xi ← rd x i;
         wr x i (s_sub xi (s_mul v xj))) = Some x'
        ∧ length x' = length x.
Proof.
  intros Hj Hx Hp (i & Hi & Hir). rewrite Hi. simpl.
  destruct (rd_is_Some Ax p) as [v ->]; [lia|]. simpl.
  destruct (rd_is_Some x j) as [xj ->]; [lia|]. simpl.
  destruct (rd_is_Some x i) as [xi ->]; [lia|]. simpl.
  rewrite wr_is_Some by lia. eexists. split; [done|].
  by rewrite length_insert.
Qed.

(** On triangular factors, and with [x] of [n] cells or more,
    [sp_lusolve] returns: no access leaves its array.  It returns the
    success status, [x] keeps its size, and of the context only [w] can
    have changed. *)
Lemma sp_lusolve_total n (N : sp_num T) (b x : list T) :
  refactor_ok n N → triangular n N →
  n ≤ Z.of_nat (length b) → n ≤ Z.of_nat (length x) →
  ∃ N' x', sp_lusolve N b x = Some (SUCCESS, N', x')
    ∧ length x' = length x
    ∧ N' = with_w N (Num.w N') ∧ length (Num.w N') = length (Num.w N).
Proof.
  intros [Hctx Hperm Hstacks] (_ & _ & Htri) Hb Hx. pose proof Hctx as [].
  destruct (perm_inv_full _ _ _ co_pinv0 Hperm) as [Hfull _].
  unfold sp_lusolve. rewrite co_n0.
  destruct (for_range_total (λ _ (t : list T), length t = length x) 0 n
              (λ j x, pj ← rd (Num.pinv N) j; bj ← rd b j; wr x pj bj) x)
    as (x1 & -> & Hx1); [done| |].
  { intros j t Hj Ht. destruct (Hfull j Hj) as (k & Hk & -> & _). simpl.
    destruct (rd_is_Some b j) as [bj ->]; [lia|]. simpl.
    rewrite wr_is_Some by lia. eexists. split; [done|].
    by rewrite length_insert. }
  simpl. unfold lower_solve.
  destruct (for_range_total (λ _ (t : list T), length t = length x) 0 n
              (λ j x,
                 a ← rd (Ap (Num.L N)) j;
                 d ← rd (Ax (Num.L N)) a;
                 xj ← rd x j;
                 x ← wr x j (s_div xj d);
                 b ← rd (Ap (Num.L N)) (j + 1);
                 for_range (a + 1) b
                   (λ p x,
                      i ← rd (Ai (Num.L N)) p;
                      v ← rd (Ax (Num.L N)) p;
                      xj ← rd x j;
                      xi ← rd x i;
                      wr x i (s_sub xi (s_mul v xj)))
                   x) x1)
    as (x2 & -> & Hx2); [done| |].
  { intros j t Hj Ht.
    destruct (Htri j Hj)
      as ((a & e & -> & He & Hae & Hel & Helx & _ & Hone & Hrows & _) & _).
    simpl. rewrite Hone. simpl.
    destruct (rd_is_Some t j) as [xj ->]; [lia|]. simpl.
    rewrite wr_is_Some by lia. simpl. rewrite He. simpl.
    destruct (for_range_total
                (λ _ (t : list T), length t = length x) (a + 1) e
                (λ p x,
                   i ← rd (Ai (Num.L N)) p;
                   v ← rd (Ax (Num.L N)) p;
                   xj ← rd x j;
                   xi ← rd x i;
                   wr x i (s_sub xi (s_mul v xj)))
                (<[Z.to_nat j := s_div xj s_one]> t))
      as (t' & -> & Ht'); [by rewrite length_insert| |by exists t'].
    intros p u Hp Hu.
    destruct (solve_update_total (Ai (Num.L N)) (Ax (Num.L N)) u p j n)
      as (u' & -> & Hu'); [lia|lia|lia| |exists u'; split; [done|congruence]].
    destruct (Hrows p) as (i & ? & ?); [lia|]. exists i. split; [done|lia]. }
  simpl. unfold upper_solve.
  destruct (for_down_total (λ _ (t : list T), length t = length x) n
              (λ j x,
                 b ← rd (Ap (Num.U N)) (j + 1);
                 d ← rd (Ax (Num.U N)) (b - 1);
                 xj ← rd x j;
                 x ← wr x j (s_div xj d);
                 a ← rd (Ap (Num.U N)) j;
                 for_range a (b - 1)
                   (λ p x,
                      i ← rd (Ai (Num.U N)) p;
                      v ← rd (Ax (Num.U N)) p;
                      xj ← rd x j;
                      xi ← rd x i;
                      wr x i (s_sub xi (s_mul v xj)))
                   x) x2)
    as (x3 & -> & Hx3); [lia|done| |].
  { intros j t Hj Ht.
    destruct (Htri j Hj)
      as (_ & (c & d & Hc & -> & Hcd & Hdl & Hdlx & _ & Hrows & _)).
    simpl. destruct (rd_is_Some (Ax (Num.U N)) (d - 1)) as [dv ->]; [lia|].
    simpl. destruct (rd_is_Some t j) as [xj ->]; [lia|]. simpl.
    rewrite wr_is_Some by lia. simpl. rewrite Hc. simpl.
    destruct (for_range_total
                (λ _ (t : list T), length t = length x) c (d - 1)
                (λ p x,
                   i ← rd (Ai (Num.U N)) p;
                   v ← rd (Ax (Num.U N)) p;
                   xj ← rd x j;
                   xi ← rd x i;
                   wr x i (s_sub xi (s_mul v xj)))
                (<[Z.to_nat j := s_div xj dv]> t))
      as (t' & -> & Ht'); [by rewrite length_insert| |by exists t'].
    intros p u Hp Hu.
    destruct (solve_update_total (Ai (Num.U N)) (Ax (Num.U N)) u p j n)
      as (u' & -> & Hu'); [lia|lia|lia| |exists u'; split; [done|congruence]].
    destruct (Hrows p) as (i & ? & ?); [lia|]. exists i. split; [done|lia]. }
  simpl. destruct (Num.q N) as [q|] eqn:Hq.
  - destruct (for_range_total
                (λ _ (t : list T), length t = length (Num.w N)) 0 n
                (λ j w, xj ← rd x3 j; wr w j xj) (Num.w N))
      as (w1 & -> & Hw1); [done| |].
    { intros j t Hj Ht. destruct (rd_is_Some x3 j) as [xj ->]; [lia|]. simpl.
      rewrite wr_is_Some by lia. eexists. split; [done|].
      by rewrite length_insert. }
    simpl.
    destruct (for_range_total (λ _ (t : list T), length t = length x) 0 n
                (λ j x, qj ← rd q j; wj ← rd w1 j; wr x qj wj) x3)
      as (x4 & -> & Hx4); [done| |].
    { intros j t Hj Ht. destruct (co_q0 j Hj) as (c & Hc & Hcr).
      unfold LU.col_of in Hc. rewrite Hq in Hc. rewrite Hc. simpl.
      destruct (rd_is_Some w1 j) as [wj ->]; [lia|]. simpl.
      rewrite wr_is_Some by lia. eexists. split; [done|].
      by rewrite length_insert. }
    simpl. by exists (with_w N w1), x4.
  - exists N, x3. split_and!; [done..| |done]. by destruct N.
Qed.

End Solve.

(** *** A factorisation and its later uses *)

Section Factorised.
Context {T : Type} `{Scalar T}.

(** What [sp_refactor] and [sp_lusolve] rely on: the recorded stacks and
    permutations are in order, and the factors are laid out as the
    stacks say. *)
Definition factored (n : Z) (N : sp_num T) : Prop :=
  refactor_ok n N ∧ factors_ok n N.

(** The contexts that a program can hold after a factorisation: the
    context that a call of [sp_ludcmp] leaves when it returns the
    success status, and the contexts that calls of [sp_refactor] and of
    [sp_lusolve] leave when they are given such a context. *)
Inductive factorised (n : Z) : sp_num T → Prop :=
  | by_ludcmp N A pivtol N' :
      matrix_ok A → ncols A = n → ctx_ok n N →
      LU.sp_ludcmp N A pivtol = Some (SUCCESS, N') →
      factorised n N'
  | by_refactor N A N' :
      factorised n N → matrix_ok A → ncols A = n →
      LU.sp_refactor N A = Some (SUCCESS, N') →
      factorised n N'
  | by_lusolve N b x N' x' :
      factorised n N →
      sp_lusolve N b x = Some (SUCCESS, N', x') →
      factorised n N'.

(** [sp_lusolve] has no failure path, and of the context it writes [w]
    only, which keeps its size. *)
Lemma sp_lusolve_frame (N : sp_num T) b x st N' x' :
  sp_lusolve N b x = Some (st, N', x') →
  st = SUCCESS ∧ N' = with_w N (Num.w N')
  ∧ length (Num.w N') = length (Num.w N).
Proof.
  unfold sp_lusolve. intros Hrun.
  apply bind_Some in Hrun as (x1 & _ & Hrun).
  apply bind_Some in Hrun as (x2 & _ & Hrun).
  apply bind_Some in Hrun as (x3 & _ & Hrun).
  destruct (Num.q N) as [q|] eqn:Hq.
  - apply bind_Some in Hrun as (w1 & Hw & Hrun).
    apply bind_Some in Hrun as (x4 & _ & [= <- <- <-]).
    split; [done|]. split; [done|]. simpl.
    apply (for_range_inv (λ _ (t : list T), length t = length (Num.w N)))
      in Hw; [done|done|].
    intros i t t' _ Ht Hb. apply bind_Some in Hb as (xj & _ & Hb).
    apply wr_length in Hb. congruence.
  - injection Hrun as <- <- <-. split; [done|]. split; [by destruct N|done].
Qed.

Lemma factored_with_w n (N : sp_num T) w :
  length w = length (Num.w N) → factored n N → factored n (with_w N w).
Proof.
  intros Hlen [[Hctx Hperm Hstacks] [HL HU HL0 HU0]]. split.
  - constructor; [|done..].
    apply (ctx_ok_shape _ N); [|done]. unfold shape. simpl. by rewrite Hlen.
  - by constructor.
Qed.

Lemma factorised_factored n (N : sp_num T) : factorised n N → factored n N.
Proof.
  induction 1 as [N A pivtol N' HA <- Hctx Hrun
                 |N A N' _ IH HA <- Hrun
                 |N b x N' x' _ IH Hrun].
  - split.
    + by apply (sp_ludcmp_refactor_ok N A pivtol).
    + by apply (sp_ludcmp_pattern N A pivtol).
  - destruct IH as [Hok _].
    destruct (sp_refactor_pattern N A N' HA Hok Hrun) as (? & ? & _).
    by split.
  - destruct (sp_lusolve_frame _ _ _ _ _ _ Hrun) as (_ & -> & Hlen).
    by apply factored_with_w.
Qed.

End Factorised.

(** The context of the example is one that a factorisation has left. *)
Lemma ctx2_done_factorised : factorised 2 ctx2_done.
Proof.
  apply (by_ludcmp 2 ctx2 A_full 1%float);
    [apply dense2_ok|reflexivity|apply ctx2_ok|vm_compute; reflexivity].
Qed.

(** X5: after a factorisation that succeeded, and after any
    refactorisations and solves that followed it, the factors are
    triangular with their diagonals where [sp_lusolve] reads them:
    column [j] of L starts at [Lp[j]] with the row [j] and the value
    one, and its other rows lie in [j+1 .. n-1]; column [j] of U ends at
    [Up[j+1]-1] with the row [j], and its other rows lie in [0 .. j-1];
    no column holds a row twice; [Lp[0]] and [Up[0]] are zero, and every
    column lies inside the arrays. *)
Theorem factors_are_triangular {T} `{Scalar T} n (N : sp_num T) :
  factorised n N → triangular n N.
Proof.
  intros [Hok Hfac]%factorised_factored. by apply factors_triangular.
Qed.

Lemma factors_are_triangular_witness :
  factorised 2 ctx2_done ∧ triangular 2 ctx2_done.
Proof.
  split; [apply ctx2_done_factorised|].
  apply (factors_are_triangular 2 ctx2_done).
  apply (by_ludcmp 2 ctx2 A_full 1%float);
    [apply dense2_ok|reflexivity|apply ctx2_ok|vm_compute; reflexivity].
Defined.

(** X6: a refactorisation changes values only.  Run on a context that a
    factorisation has left, and on any matrix of the same dimension
    whose entries can be read, [sp_refactor] returns the success status
    and leaves the stacks [xi] and [topvec], the permutations [pinv],
    [p] and [q], the column pointers of L and U, and the row indices of
    all the stored entries of L and U as they were. *)
Theorem sp_refactor_keeps_pattern {T} `{Scalar T} n (N : sp_num T) A st N' :
  factorised n N → matrix_ok A → ncols A = n →
  LU.sp_refactor N A = Some (st, N') →
  st = SUCCESS
  ∧ Num.xi N' = Num.xi N ∧ Num.topvec N' = Num.topvec N
  ∧ Num.pinv N' = Num.pinv N ∧ Num.p N' = Num.p N ∧ Num.q N' = Num.q N
  ∧ same_pattern n N N'.
Proof.
  intros [Hok Hfac]%factorised_factored HA <- Hrun.
  pose proof (sp_refactor_status _ _ _ Hrun) as Hst. simpl in Hst. subst st.
  destruct (sp_refactor_pattern N A N' HA Hok Hrun)
    as (Hok' & Hfac' & Hxi & Htv & Hpinv & Hp & Hq).
  split_and!; try done.
  apply factors_same; try done.
  - pose proof (co_w _ _ (ro_ctx _ _ Hok)). lia.
  - apply (ro_ctx _ _ Hok).
  - apply (ro_ctx _ _ Hok').
Qed.

Lemma sp_refactor_keeps_pattern_witness :
  ∃ N', LU.sp_refactor ctx2_done A_zero_pivot = Some (SUCCESS, N')
        ∧ same_pattern 2 ctx2_done N'.
Proof.
  eexists. split; [vm_compute; reflexivity|].
  eapply (sp_refactor_keeps_pattern 2 ctx2_done A_zero_pivot SUCCESS).
  - apply (by_ludcmp 2 ctx2 A_full 1%float);
      [apply dense2_ok|reflexivity|apply ctx2_ok|vm_compute; reflexivity].
  - apply dense2_ok.
  - reflexivity.
  - vm_compute. reflexivity.
Defined.

(** X7: on a matrix whose entries can be read and a context laid out for
    its dimension, [sp_ludcmp] returns, with one of its two statuses,
    for every value of the entries and of [pivtol]: the searches end and
    no access leaves its array.  The context that it leaves has arrays
    of the same sizes, the same [n] and the same [q], so that it can be
    given to [sp_ludcmp] again, also after a failure. *)
Theorem sp_ludcmp_returns {T} `{Scalar T} (N : sp_num T) A pivtol :
  matrix_ok A → ctx_ok (ncols A) N →
  ∃ st N', LU.sp_ludcmp N A pivtol = Some (st, N')
    ∧ shape N' = shape N ∧ ctx_ok (ncols A) N'.
Proof.
  intros HA Hctx. unfold LU.sp_ludcmp.
  destruct (ludcmp_loop_total N A pivtol HA Hctx)
    as [(s & -> & Hinv & Hshape)|(k & s & -> & _ & Hshape)]; simpl.
  - destruct (finalize_total _ _ Hinv) as (N' & -> & Hshape' & _). simpl.
    exists SUCCESS, N'. split; [done|].
    assert (shape N' = shape N) as Hs by congruence.
    split; [done|]. by apply (ctx_ok_shape _ N).
  - exists FAILURE, (LU.cN s). split; [done|]. split; [done|].
    by apply (ctx_ok_shape _ N).
Qed.

Lemma sp_ludcmp_returns_witness :
  ∃ st N', LU.sp_ludcmp ctx2 A_zero_pivot 1%float = Some (st, N')
    ∧ shape N' = shape ctx2 ∧ ctx_ok 2 N'.
Proof.
  apply (sp_ludcmp_returns ctx2 A_zero_pivot 1%float);
    [apply dense2_ok|apply ctx2_ok].
Defined.

(** X8: on a context that a factorisation has left, and with [b] and [x]
    of [n] cells or more, [sp_lusolve] returns the success status and
    no access leaves its array: the pointers of the columns, the rows
    stored in them and the two permutations all stay in range.  [x]
    keeps its size, and of the context only the workspace [w] can have
    changed. *)
Theorem sp_lusolve_returns {T} `{Scalar T} n (N : sp_num T) (b x : list T) :
  factorised n N →
  n ≤ Z.of_nat (length b) → n ≤ Z.of_nat (length x) →
  ∃ N' x', sp_lusolve N b x = Some (SUCCESS, N', x')
    ∧ length x' = length x
    ∧ N' = with_w N (Num.w N') ∧ length (Num.w N') = length (Num.w N).
Proof.
  intros [Hok Hfac]%factorised_factored Hb Hx.
  apply (sp_lusolve_total n); try done. by apply factors_triangular.
Qed.

Lemma sp_lusolve_returns_witness :
  ∃ N' x', sp_lusolve ctx2_done [1; 2]%float [0; 0]%float
             = Some (SUCCESS, N', x')
    ∧ length x' = 2%nat
    ∧ N' = with_w ctx2_done (Num.w N')
    ∧ length (Num.w N') = length (Num.w ctx2_done).
Proof.
  apply (sp_lusolve_returns 2 ctx2_done [1; 2]%float [0; 0]%float).
  - apply (by_ludcmp 2 ctx2 A_full 1%float);
      [apply dense2_ok|reflexivity|apply ctx2_ok|vm_compute; reflexivity].
  - simpl. lia.
  - simpl. lia.
Defined.

(** *** The union that [get_pattern_A_plus_AT] computes *)

(** The cells [l[lo .. hi-1]] can be read and grow strictly. *)
Definition inc (l : list Z) (lo hi : Z) : Prop :=
  (∀ p, lo ≤ p < hi → is_Some (rd l p))
  ∧ ∀ p q x y, lo ≤ p < q → q < hi →
      rd l p = Some x → rd l q = Some y → x < y.

Section Merge.
Variables (A Tr : list Z) (a0 aend t0 tend nz0 : Z) (Ci0 : list Z).
Hypothesis HA : inc A a0 aend.
Hypothesis HT : inc Tr t0 tend.
Hypothesis Ha : a0 ≤ aend.
Hypothesis Ht : t0 ≤ tend.
Hypothesis Hnz0 : 0 ≤ nz0.
Hypothesis Hcap : nz0 + (aend - a0) + (tend - t0) ≤ Z.of_nat (length Ci0).

(** The state of the merge of the column [A[a0 .. aend-1]] with the
    column [Tr[t0 .. tend-1]], when the cells before [ca] and [ct] are
    done: the output [Ci[nz0 .. nz-1]] grows strictly, lies below what
    is left of the two columns, and holds the values done; the cells
    before [nz0] are as they were. *)
Definition minv (ca ct nz : Z) (Ci : list Z) : Prop :=
  a0 ≤ ca ≤ aend ∧ t0 ≤ ct ≤ tend
  ∧ nz0 ≤ nz ∧ nz - nz0 ≤ (ca - a0) + (ct - t0)
  ∧ length Ci = length Ci0
  ∧ (∀ p, p < nz0 → rd Ci p = rd Ci0 p)
  ∧ (∀ p q x y, nz0 ≤ p < q → q < nz →
       rd Ci p = Some x → rd Ci q = Some y → x < y)
  ∧ (∀ p x, nz0 ≤ p < nz → rd Ci p = Some x →
       (∀ a y, ca ≤ a < aend → rd A a = Some y → x < y)
       ∧ (∀ t y, ct ≤ t < tend → rd Tr t = Some y → x < y))
  ∧ (∀ x, (∃ p, nz0 ≤ p < nz ∧ rd Ci p = Some x)
          ↔ (∃ a, a0 ≤ a < ca ∧ rd A a = Some x)
            ∨ (∃ t, t0 ≤ t < ct ∧ rd Tr t = Some x)).

Lemma minv_init : minv a0 t0 nz0 Ci0.
Proof.
  unfold minv. split_and!; try done; try lia; try (intros; lia).
  intros x. split; [intros (p & ? & _); lia|].
  intros [(a & ? & _)|(t & ? & _)]; lia.
Qed.

(** One write of the merge: [x] is the value at [ca], at [ct] or at
    both, and the positions that held it move on. *)
Lemma minv_write ca ct nz Ci x ca' ct' :
  minv ca ct nz Ci →
  ca ≤ ca' ≤ ca + 1 → ct ≤ ct' ≤ ct + 1 → ca' ≤ aend → ct' ≤ tend →
  ca + ct < ca' + ct' →
  (ca' = ca + 1 → rd A ca = Some x) →
  (ct' = ct + 1 → rd Tr ct = Some x) →
  (∀ a y, ca' ≤ a < aend → rd A a = Some y → x < y) →
  (∀ t y, ct' ≤ t < tend → rd Tr t = Some y → x < y) →
  ∃ Ci', wr Ci nz x = Some Ci' ∧ minv ca' ct' (nz + 1) Ci'.
Proof.
  intros (Hca & Hct & Hnz & Hcnt & Hlen & Hfr & Hsort & Hlow & Hmem)
    Ha' Ht' Hae Hte Hmove HxA HxT HlowA HlowT.
  assert (0 ≤ nz < Z.of_nat (length Ci)) as Hin by (rewrite Hlen; lia).
  exists (<[Z.to_nat nz := x]> Ci). split; [by apply wr_is_Some|].
  assert (∀ p, rd (<[Z.to_nat nz := x]> Ci) p
               = if decide (nz = p) then Some x else rd Ci p) as Hrd
    by (intros p; by apply rd_insert).
  unfold minv. split_and!; try lia.
  - by rewrite length_insert.
  - intros p Hp. rewrite Hrd, decide_False by lia. by apply Hfr.
  - intros p q v y Hpq Hq. rewrite !Hrd.
    rewrite (decide_False (P := nz = p)) by lia.
    destruct (decide (nz = q)) as [<-|Hne].
    + intros Hv [= <-]. destruct (Hlow p v) as [HlA HlT]; [lia|done|].
      assert (ca' = ca + 1 ∨ ct' = ct + 1) as [Hc|Hc] by lia.
      * apply (HlA ca); [lia|by apply HxA].
      * apply (HlT ct); [lia|by apply HxT].
    + apply Hsort; lia.
  - intros p v Hp. rewrite Hrd.
    destruct (decide (nz = p)) as [<-|Hne].
    + intros [= <-]. split; [apply HlowA|apply HlowT].
    + intros Hv. destruct (Hlow p v) as [HlA HlT]; [lia|done|].
      split; [intros a y Hay; apply HlA; lia|intros t y Hty; apply HlT; lia].
  - intros v. split.
    + intros (p & Hp & Hv). rewrite Hrd in Hv.
      destruct (decide (nz = p)) as [<-|Hne].
      * injection Hv as <-.
        assert (ca' = ca + 1 ∨ ct' = ct + 1) as [Hc|Hc] by lia.
        -- left. exists ca. split; [lia|by apply HxA].
        -- right. exists ct. split; [lia|by apply HxT].
      * destruct (proj1 (Hmem v)) as [(a & ? & ?)|(t & ? & ?)].
        -- exists p. split; [lia|done].
        -- left. exists a. split; [lia|done].
        -- right. exists t. split; [lia|done].
    + assert (∀ p, nz0 ≤ p < nz → rd Ci p = Some v →
                ∃ p, nz0 ≤ p < nz + 1
                     ∧ rd (<[Z.to_nat nz := x]> Ci) p = Some v) as Hold.
      { intros p Hp Hv. exists p. split; [lia|].
        by rewrite Hrd, decide_False by lia. }
      assert (∃ p, nz0 ≤ p < nz + 1
                   ∧ rd (<[Z.to_nat nz := x]> Ci) p = Some x) as Hnew.
      { exists nz. split; [lia|]. by rewrite Hrd, decide_True. }
      intros [(a & Hab & Hv)|(t & Htb & Hv)].
      * destruct (decide (a = ca)) as [->|Hne].
        -- rewrite HxA in Hv by lia. by injection Hv as <-.
        -- destruct (proj2 (Hmem v)) as (p & ? & ?); [|by apply (Hold p)].
           left. exists a. split; [lia|done].
      * destruct (decide (t = ct)) as [->|Hne].
        -- rewrite HxT in Hv by lia. by injection Hv as <-.
        -- destruct (proj2 (Hmem v)) as (p & ? & ?); [|by apply (Hold p)].
           right. exists t. split; [lia|done].
Qed.

Lemma inc_lt l lo hi p q x y :
  inc l lo hi → lo ≤ p < q → q < hi →
  rd l p = Some x → rd l q = Some y → x < y.
Proof. intros [_ Hinc]. apply Hinc. Qed.

(** The loop that compares the heads of the two columns ends with one
    of them used up. *)
Lemma merge_while_spec fuel ca ct nz Ci :
  minv ca ct nz Ci →
  (aend - ca) + (tend - ct) ≤ Z.of_nat fuel →
  ∃ ca' ct' nz' Ci',
    PatternUnion.merge_while fuel A Tr aend tend
      (PatternUnion.MergeState ca ct nz Ci)
    = Some (PatternUnion.MergeState ca' ct' nz' Ci')
    ∧ minv ca' ct' nz' Ci' ∧ (ca' = aend ∨ ct' = tend).
Proof.
  revert ca ct nz Ci.
  induction fuel as [|fuel IH]; intros ca ct nz Ci Hinv Hfuel;
    pose proof Hinv as (Hca & Hct & _).
  - simpl. rewrite (bool_decide_eq_false_2 (ca < aend)) by lia. simpl.
    exists ca, ct, nz, Ci. split; [done|]. split; [done|lia].
  - simpl.
    destruct (decide (ca < aend ∧ ct < tend)) as [[Hlta Hltt]|Hend]; cycle 1.
    { assert (bool_decide (ca < aend) && bool_decide (ct < tend) = false)
        as ->.
      { apply andb_false_iff.
        destruct (decide (ca < aend));
          [right|left]; apply bool_decide_eq_false_2; lia. }
      exists ca, ct, nz, Ci. split; [done|]. split; [done|lia]. }
    rewrite (bool_decide_eq_true_2 (ca < aend)) by lia.
    rewrite (bool_decide_eq_true_2 (ct < tend)) by lia. simpl.
    destruct (proj1 HA ca) as [a Hrda]; [lia|].
    destruct (proj1 HT ct) as [t Hrdt]; [lia|].
    rewrite Hrda, Hrdt. simpl.
    assert (∀ a' y, ca + 1 ≤ a' < aend → rd A a' = Some y → a < y) as HnextA.
    { intros a' y Ha' Hy. apply (inc_lt A a0 aend ca a'); try done; lia. }
    assert (∀ t' y, ct + 1 ≤ t' < tend → rd Tr t' = Some y → t < y)
      as HnextT.
    { intros t' y Ht' Hy. apply (inc_lt Tr t0 tend ct t'); try done; lia. }
    assert (∀ a' y, ca ≤ a' < aend → rd A a' = Some y → a ≤ y) as HfromA.
    { intros a' y Ha' Hy. destruct (decide (a' = ca)) as [->|?].
      - rewrite Hrda in Hy. injection Hy as <-. lia.
      - apply Z.lt_le_incl, (HnextA a'); [lia|done]. }
    assert (∀ t' y, ct ≤ t' < tend → rd Tr t' = Some y → t ≤ y) as HfromT.
    { intros t' y Ht' Hy. destruct (decide (t' = ct)) as [->|?].
      - rewrite Hrdt in Hy. injection Hy as <-. lia.
      - apply Z.lt_le_incl, (HnextT t'); [lia|done]. }
    destruct (decide (a < t)) as [Hat|Hat].
    + rewrite (bool_decide_eq_true_2 (a < t)) by done.
      destruct (minv_write ca ct nz Ci a (ca + 1) ct Hinv)
        as (Ci' & -> & Hinv'); try lia; try done.
      { intros t' y Ht' Hy. specialize (HfromT t' y Ht' Hy). lia. }
      simpl. apply IH; [done|lia].
    + rewrite (bool_decide_eq_false_2 (a < t)) by done.
      destruct (decide (t < a)) as [Hta|Hta].
      * rewrite (bool_decide_eq_true_2 (t < a)) by done.
        destruct (minv_write ca ct nz Ci t ca (ct + 1) Hinv)
          as (Ci' & -> & Hinv'); try lia; try done.
        { intros a' y Ha' Hy. specialize (HfromA a' y Ha' Hy). lia. }
        simpl. apply IH; [done|lia].
      * rewrite (bool_decide_eq_false_2 (t < a)) by done.
        assert (t = a) as -> by lia.
        destruct (minv_write ca ct nz Ci a (ca + 1) (ct + 1) Hinv)
          as (Ci' & -> & Hinv'); try lia; try done.
        simpl. apply IH; [done|lia].
Qed.

(** The loops that copy what is left of a column. *)
Lemma copy_rest_A ca ct nz Ci :
  minv ca ct nz Ci → ct = tend ∨ ca = aend →
  ∃ nz' Ci', PatternUnion.copy_rest A ca aend (nz, Ci) = Some (nz', Ci')
             ∧ minv aend ct nz' Ci'.
Proof.
  intros Hinv Hend. pose proof Hinv as (Hca & Hct & _).
  unfold PatternUnion.copy_rest.
  destruct (for_range_total (λ p (s : Z * list Z), minv p ct s.1 s.2)
              ca aend
              (λ p '(nz, c), v ← rd A p; c ← wr c nz v; Some (nz + 1, c))
              (nz, Ci)) as ([nz' Ci'] & Hrun & Hfin); [done| |].
  - intros p [nz1 c1] Hp Hi. simpl in Hi.
    destruct (proj1 HA p) as [v Hv]; [lia|]. rewrite Hv. simpl.
    destruct (minv_write p ct nz1 c1 v (p + 1) ct Hi)
      as (c2 & -> & Hi2); try lia; try done.
    + intros a' y Ha' Hy. apply (inc_lt A a0 aend p a'); try done; lia.
    + simpl. by exists (nz1 + 1, c2).
  - exists nz', Ci'. split; [done|].
    by replace (ca `max` aend) with aend in Hfin by lia.
Qed.

Lemma copy_rest_T ct nz Ci :
  minv aend ct nz Ci →
  ∃ nz' Ci', PatternUnion.copy_rest Tr ct tend (nz, Ci) = Some (nz', Ci')
             ∧ minv aend tend nz' Ci'.
Proof.
  intros Hinv. pose proof Hinv as (Hca & Hct & _).
  unfold PatternUnion.copy_rest.
  destruct (for_range_total (λ p (s : Z * list Z), minv aend p s.1 s.2)
              ct tend
              (λ p '(nz, c), v ← rd Tr p; c ← wr c nz v; Some (nz + 1, c))
              (nz, Ci)) as ([nz' Ci'] & Hrun & Hfin); [done| |].
  - intros p [nz1 c1] Hp Hi. simpl in Hi.
    destruct (proj1 HT p) as [v Hv]; [lia|]. rewrite Hv. simpl.
    destruct (minv_write aend p nz1 c1 v aend (p + 1) Hi)
      as (c2 & -> & Hi2); try lia; try done.
    + intros t' y Ht' Hy. apply (inc_lt Tr t0 tend p t'); try done; lia.
    + simpl. by exists (nz1 + 1, c2).
  - exists nz', Ci'. split; [done|].
    by replace (ct `max` tend) with tend in Hfin by lia.
Qed.

(** One run of the column loop: the three loops one after the other,
    and the pointer of the next column. *)
Lemma merge_column_run (Apx Tpx : list Z) j w :
  rd Apx j = Some a0 → rd Apx (j + 1) = Some aend →
  rd Tpx j = Some t0 → rd Tpx (j + 1) = Some tend →
  0 ≤ j + 1 < Z.of_nat (length w) →
  ∃ nz2 Ci2,
    PatternUnion.merge_column Apx A Tpx Tr j (nz0, Ci0, w)
    = Some (nz2, Ci2, <[Z.to_nat (j + 1) := nz2]> w)
    ∧ minv aend tend nz2 Ci2.
Proof.
  intros Ha0 Hae Ht0 Hte Hj. unfold PatternUnion.merge_column.
  rewrite Ha0, Hae, Ht0, Hte. simpl.
  destruct (merge_while_spec (Z.to_nat ((aend - a0) + (tend - t0)))
              a0 t0 nz0 Ci0 minv_init)
    as (ca & ct & nz & Ci & -> & Hinv & Hend); [lia|].
  simpl.
  destruct (copy_rest_A ca ct nz Ci Hinv) as (nz1 & Ci1 & -> & Hinv1);
    [lia|].
  simpl.
  destruct (copy_rest_T ct nz1 Ci1 Hinv1) as (nz2 & Ci2 & -> & Hinv2).
  simpl. rewrite wr_is_Some by lia. simpl. by exists nz2, Ci2.
Qed.

End Merge.

(** The number of the positions [0 .. i-1] at which [f] holds. *)
Fixpoint count (f : Z → bool) (i : nat) : Z :=
  match i with
  | O => 0
  | S i => count f i + (if f (Z.of_nat i) then 1 else 0)
  end.

Lemma count_range f i : 0 ≤ count f i ≤ Z.of_nat i.
Proof. induction i as [|i IH]; simpl; [lia|]. destruct (f _); lia. Qed.

Lemma count_mono f i i' : (i ≤ i')%nat → count f i ≤ count f i'.
Proof.
  induction 1 as [|i' _ IH]; [lia|]. simpl. destruct (f _); lia.
Qed.

Lemma count_none f i :
  (∀ p, 0 ≤ p < Z.of_nat i → f p = false) → count f i = 0.
Proof.
  induction i as [|i IH]; intros Hf; simpl; [done|].
  rewrite IH by (intros; apply Hf; lia). rewrite Hf by lia. done.
Qed.

Lemma count_split f g h i :
  (∀ p, 0 ≤ p < Z.of_nat i →
     h p = f p || g p ∧ f p && g p = false) →
  count h i = count f i + count g i.
Proof.
  induction i as [|i IH]; intros Hh; simpl; [done|].
  rewrite IH by (intros; apply Hh; lia).
  destruct (Hh (Z.of_nat i)) as [-> Hd]; [lia|].
  destruct (f (Z.of_nat i)), (g (Z.of_nat i)); simpl in *; try done; lia.
Qed.

Lemma count_succ f i :
  0 ≤ i → count f (Z.to_nat (i + 1))
          = count f (Z.to_nat i) + (if f i then 1 else 0).
Proof.
  intros Hi. replace (Z.to_nat (i + 1)) with (S (Z.to_nat i)) by lia.
  simpl. by rewrite Z2Nat.id.
Qed.

Section Transpose.
Variables (Ap Ai : list Z) (n nnz : Z).
Hypothesis Hn : 0 ≤ n.
Hypothesis HAp0 : rd Ap 0 = Some 0.
Hypothesis HApn : rd Ap n = Some nnz.
Hypothesis Hcols :
  ∀ j, 0 ≤ j < n →
    ∃ lo hi, rd Ap j = Some lo ∧ rd Ap (j + 1) = Some hi ∧ lo ≤ hi
             ∧ inc Ai lo hi.
Hypothesis Hrows : ∀ p, 0 ≤ p < nnz → ∃ r, rd Ai p = Some r ∧ 0 ≤ r < n.

(** The column pointers, as a function. *)
Definition P (j : Z) : Z := default 0 (rd Ap j).

Lemma P_spec j : 0 ≤ j ≤ n → rd Ap j = Some (P j).
Proof.
  intros Hj. unfold P. destruct (decide (j = n)) as [->|Hne].
  - by rewrite HApn.
  - destruct (Hcols j) as (lo & hi & -> & _); [lia|done].
Qed.

Lemma P_step j : 0 ≤ j < n → P j ≤ P (j + 1) ∧ inc Ai (P j) (P (j + 1)).
Proof.
  intros Hj. destruct (Hcols j Hj) as (lo & hi & Hlo & Hhi & Hle & Hinc).
  unfold P. by rewrite Hlo, Hhi.
Qed.

Lemma P_mono a b : 0 ≤ a ≤ b → b ≤ n → P a ≤ P b.
Proof.
  intros [Ha Hab] Hb.
  replace b with (a + Z.of_nat (Z.to_nat (b - a))) in * by lia.
  induction (Z.to_nat (b - a)) as [|d IH]; [by rewrite Z.add_0_r|].
  transitivity (P (a + Z.of_nat d)); [apply IH; lia|].
  replace (a + Z.of_nat (S d)) with (a + Z.of_nat d + 1) by lia.
  apply P_step. lia.
Qed.

Lemma P_0 : P 0 = 0.
Proof. unfold P. by rewrite HAp0. Qed.

Lemma P_n : P n = nnz.
Proof. unfold P. by rewrite HApn. Qed.

Lemma P_range j : 0 ≤ j ≤ n → 0 ≤ P j ≤ nnz.
Proof.
  intros Hj. rewrite <-P_0 at 1. rewrite <-P_n.
  split; apply P_mono; lia.
Qed.

(** A position belongs to one column only. *)
Lemma P_column c j p :
  0 ≤ c < n → 0 ≤ j < n → P c ≤ p < P (c + 1) → P j ≤ p < P (j + 1) →
  c = j.
Proof.
  intros Hc Hj Hpc Hpj.
  destruct (decide (c < j)) as [Hlt|Hge].
  - pose proof (P_mono (c + 1) j). lia.
  - destruct (decide (j < c)) as [Hlt|?]; [|lia].
    pose proof (P_mono (j + 1) c). lia.
Qed.

(** Position [p] holds row [r]; position [p] holds a row before [r]. *)
Definition isrow (r p : Z) : bool := bool_decide (rd Ai p = Some r).
Definition lessrow (r p : Z) : bool :=
  match rd Ai p with Some v => bool_decide (v < r) | None => false end.

(** The number of entries of row [r], and of the rows before [r], among
    the first [i] entries. *)
Definition ceq (r i : Z) : Z := count (isrow r) (Z.to_nat i).
Definition clt (r i : Z) : Z := count (lessrow r) (Z.to_nat i).

Lemma ceq_succ r i :
  0 ≤ i → ceq r (i + 1) = ceq r i + (if isrow r i then 1 else 0).
Proof. apply count_succ. Qed.

Lemma ceq_mono r i i' : i ≤ i' → ceq r i ≤ ceq r i'.
Proof. intros Hi. apply count_mono. lia. Qed.

Lemma ceq_range r i : 0 ≤ ceq r i.
Proof. apply count_range. Qed.

Lemma clt_succ r i : clt (r + 1) i = clt r i + ceq r i.
Proof.
  unfold clt, ceq. apply count_split. intros p _. unfold lessrow, isrow.
  destruct (rd Ai p) as [v|]; simpl.
  - destruct (decide (v < r)), (decide (v = r)).
    + lia.
    + rewrite (bool_decide_eq_true_2 (v < r + 1)) by lia.
      rewrite (bool_decide_eq_true_2 (v < r)) by lia. simpl.
      rewrite bool_decide_eq_false_2 by congruence. done.
    + rewrite (bool_decide_eq_true_2 (v < r + 1)) by lia.
      rewrite (bool_decide_eq_false_2 (v < r)) by lia. simpl.
      rewrite bool_decide_eq_true_2 by congruence. done.
    + rewrite (bool_decide_eq_false_2 (v < r + 1)) by lia.
      rewrite (bool_decide_eq_false_2 (v < r)) by lia. simpl.
      rewrite bool_decide_eq_false_2 by congruence. done.
  - done.
Qed.

Lemma clt_range r i : 0 ≤ i → 0 ≤ clt r i ≤ i.
Proof. intros Hi. pose proof (count_range (lessrow r) (Z.to_nat i)). unfold clt. lia. Qed.

Lemma clt_mono r r' i : 0 ≤ r ≤ r' → clt r i ≤ clt r' i.
Proof.
  intros [Hr Hrr].
  replace r' with (r + Z.of_nat (Z.to_nat (r' - r))) by lia.
  induction (Z.to_nat (r' - r)) as [|d IH]; [by rewrite Z.add_0_r|].
  replace (r + Z.of_nat (S d)) with (r + Z.of_nat d + 1) by lia.
  rewrite clt_succ. pose proof (ceq_range (r + Z.of_nat d) i). lia.
Qed.

Lemma clt_0 i : i ≤ nnz → clt 0 i = 0.
Proof.
  intros Hi. apply count_none. intros p Hp. unfold lessrow.
  destruct (Hrows p) as (r & -> & Hr); [lia|].
  apply bool_decide_eq_false_2. lia.
Qed.

Lemma ceq_n i : i ≤ nnz → ceq n i = 0.
Proof.
  intros Hi. apply count_none. intros p Hp. unfold isrow.
  destruct (Hrows p) as (r & -> & Hr); [lia|].
  apply bool_decide_eq_false_2. intros [= ->]. lia.
Qed.

Lemma nnz_pos : 0 ≤ nnz.
Proof. pose proof (P_range n). rewrite P_n in *. lia. Qed.

(** The first loop counts the entries of every row. *)
Lemma count_rows_spec :
  ∃ w, PatternUnion.count_rows Ai nnz (alloc (n + 1) 0) = Some w
       ∧ Z.of_nat (length w) = n + 1
       ∧ ∀ r, 0 ≤ r ≤ n → rd w r = Some (ceq r nnz).
Proof.
  pose proof nnz_pos as Hnnz. unfold PatternUnion.count_rows.
  destruct (for_range_total
              (λ i (w : list Z),
                 Z.of_nat (length w) = n + 1
                 ∧ ∀ r, 0 ≤ r ≤ n → rd w r = Some (ceq r i))
              0 nnz (λ i w, r ← rd Ai i; c ← rd w r; wr w r (c + 1))
              (alloc (n + 1) 0)) as (w & Hrun & Hfin).
  - split; [unfold alloc; rewrite length_replicate; lia|].
    intros r Hr. rewrite rd_alloc by lia. done.
  - intros i w Hi [Hlen Hw].
    destruct (Hrows i Hi) as (r0 & Hr0 & Hr0r). rewrite Hr0. simpl.
    rewrite Hw by lia. simpl.
    destruct (wr w r0 (ceq r0 i + 1)) as [w'|] eqn:Hwr;
      [|by rewrite wr_is_Some in Hwr by lia].
    exists w'. split; [done|]. split.
    + rewrite (wr_length _ _ _ _ Hwr). done.
    + intros r Hr. rewrite (rd_wr _ _ _ _ _ Hwr), ceq_succ by lia.
      unfold isrow. rewrite Hr0. destruct (decide (r0 = r)) as [->|Hne].
      * by rewrite bool_decide_eq_true_2.
      * rewrite bool_decide_eq_false_2 by congruence.
        rewrite Z.add_0_r. apply Hw. lia.
  - exists w. split; [done|].
    by replace (0 `max` nnz) with nnz in Hfin by lia.
Qed.

(** The second loop turns the counts into the column pointers of the
    transpose. *)
Lemma cumulate_spec w :
  Z.of_nat (length w) = n + 1 →
  (∀ r, 0 ≤ r ≤ n → rd w r = Some (ceq r nnz)) →
  ∃ Tp w',
    PatternUnion.cumulate n (0, alloc (n + 1) 0, w)
    = Some (clt n nnz, Tp, w')
    ∧ Z.of_nat (length Tp) = n + 1 ∧ Z.of_nat (length w') = n + 1
    ∧ ∀ r, 0 ≤ r < n →
        rd Tp r = Some (clt r nnz) ∧ rd w' r = Some (clt r nnz).
Proof.
  intros Hlen Hw. unfold PatternUnion.cumulate.
  destruct (for_range_total
              (λ j (s : Z * list Z * list Z),
                 s.1.1 = clt j nnz
                 ∧ Z.of_nat (length s.1.2) = n + 1
                 ∧ Z.of_nat (length s.2) = n + 1
                 ∧ (∀ r, 0 ≤ r < j →
                      rd s.1.2 r = Some (clt r nnz)
                      ∧ rd s.2 r = Some (clt r nnz))
                 ∧ ∀ r, j ≤ r ≤ n → rd s.2 r = Some (ceq r nnz))
              0 n
              (λ j '(nz, Tp, w),
                 Tp ← wr Tp j nz;
                 c ← rd w j;
                 t ← rd Tp j;
                 w ← wr w j t;
                 Some (nz + c, Tp, w))
              (0, alloc (n + 1) 0, w)) as ([[nz Tp] w'] & Hrun & Hfin).
  - simpl. split_and!; try done.
    + by rewrite clt_0 by lia.
    + unfold alloc. rewrite length_replicate. lia.
    + intros; lia.
  - intros j [[nz Tp] w1] Hj (Hnz & HlT & Hlw & Hdone & Htodo).
    simpl in *. subst nz.
    destruct (wr Tp j (clt j nnz)) as [Tp'|] eqn:HwT;
      [|by rewrite wr_is_Some in HwT by lia].
    simpl. rewrite Htodo by lia. simpl.
    rewrite (rd_wr_eq _ _ _ _ HwT). simpl.
    destruct (wr w1 j (clt j nnz)) as [w2|] eqn:Hww;
      [|by rewrite wr_is_Some in Hww by lia].
    simpl. eexists. split; [done|]. simpl. split_and!.
    + by rewrite clt_succ.
    + by rewrite (wr_length _ _ _ _ HwT).
    + by rewrite (wr_length _ _ _ _ Hww).
    + intros r Hr. rewrite (rd_wr _ _ _ _ _ HwT), (rd_wr _ _ _ _ _ Hww).
      destruct (decide (j = r)) as [->|Hne]; [done|]. apply Hdone. lia.
    + intros r Hr. rewrite (rd_wr _ _ _ _ _ Hww).
      rewrite decide_False by lia. apply Htodo. lia.
  - replace (0 `max` n) with n in Hfin by lia. simpl in Hfin.
    destruct Hfin as (-> & ? & ? & ? & _). by exists Tp, w'.
Qed.

(** Column [r] of the transpose starts at [Tq r]. *)
Definition Tq (r : Z) : Z := clt r nnz.

Lemma Tq_succ r : Tq (r + 1) = Tq r + ceq r nnz.
Proof. apply clt_succ. Qed.

Lemma Tq_mono r r' : 0 ≤ r ≤ r' → Tq r ≤ Tq r'.
Proof. apply clt_mono. Qed.

Lemma Tq_range r : 0 ≤ Tq r ≤ nnz.
Proof. apply clt_range, nnz_pos. Qed.

(** Among the first [i] entries there is one of column [c] with the
    row [r]. *)
Definition donep (i c r : Z) : Prop :=
  0 ≤ c < n ∧ ∃ p, P c ≤ p < P (c + 1) ∧ p < i ∧ rd Ai p = Some r.

(** The third loop, with the first [i] entries scattered: column [r] of
    the transpose holds, in growing order, the columns of the entries of
    row [r] among them, and [w[r]] is the position after them. *)
Definition scat_inv (i : Z) (s : list Z * list Z) : Prop :=
  Z.of_nat (length s.1) = nnz ∧ Z.of_nat (length s.2) = n + 1
  ∧ (∀ r, 0 ≤ r < n → rd s.2 r = Some (Tq r + ceq r i))
  ∧ (∀ r t t' c c', 0 ≤ r < n → Tq r ≤ t < t' → t' < Tq r + ceq r i →
       rd s.1 t = Some c → rd s.1 t' = Some c' → c < c')
  ∧ (∀ r c, 0 ≤ r < n →
       (∃ t, Tq r ≤ t < Tq r + ceq r i ∧ rd s.1 t = Some c) ↔ donep i c r).

Lemma donep_before i j c r :
  0 ≤ j < n → P j ≤ i < P (j + 1) → rd Ai i = Some r →
  donep i c r → c < j.
Proof.
  intros Hj Hi Hr (Hc & p & Hp & Hpi & Hpr).
  destruct (decide (c < j)) as [?|Hge]; [done|].
  destruct (decide (c = j)) as [->|Hne].
  - destruct (P_step j Hj) as [_ Hinc].
    assert (r < r); [|lia].
    apply (inc_lt Ai (P j) (P (j + 1)) p i); (done || lia).
  - pose proof (P_mono (j + 1) c). lia.
Qed.

Lemma scat_step j i s :
  0 ≤ j < n → P j ≤ i < P (j + 1) → scat_inv i s →
  ∃ s', (let '(Ti, w) := s in
         r ← rd Ai i;
         q ← rd w r;
         Ti ← wr Ti q j;
         c ← rd w r;
         w ← wr w r (c + 1);
         Some (Ti, w)) = Some s'
        ∧ scat_inv (i + 1) s'.
Proof.
  intros Hj Hi (HlT & Hlw & Hw & Hsort & Hmem). destruct s as [Ti w].
  simpl in *.
  pose proof (P_range j) as Hpj. pose proof (P_range (j + 1)) as Hpj1.
  destruct (Hrows i) as (r0 & Hr0 & Hr0r); [lia|]. rewrite Hr0. simpl.
  rewrite (Hw r0 Hr0r). simpl.
  assert (isrow r0 i = true) as Hisrow
    by (unfold isrow; by rewrite Hr0, bool_decide_eq_true_2).
  assert (ceq r0 (i + 1) = ceq r0 i + 1) as Hsucc
    by (rewrite ceq_succ, Hisrow by lia; done).
  assert (∀ r, r ≠ r0 → ceq r (i + 1) = ceq r i) as Hsame.
  { intros r Hr. rewrite ceq_succ by lia. unfold isrow. rewrite Hr0.
    rewrite bool_decide_eq_false_2 by congruence. lia. }
  pose proof (ceq_mono r0 (i + 1) nnz ltac:(lia)) as Hle.
  pose proof (Tq_succ r0) as HTs. pose proof (Tq_range (r0 + 1)) as HTr.
  pose proof (Tq_range r0) as HTr0. pose proof (ceq_range r0 i) as Hc0.
  set (q := Tq r0 + ceq r0 i) in *.
  assert (0 ≤ q < nnz) as Hq by lia.
  rewrite (wr_is_Some Ti) by lia. simpl.
  rewrite (wr_is_Some w) by lia. simpl.
  eexists. split; [done|]. unfold scat_inv. simpl.
  assert (∀ t, rd (<[Z.to_nat q := j]> Ti) t
               = if decide (q = t) then Some j else rd Ti t) as HrdT
    by (intros t; apply rd_insert; lia).
  assert (∀ r, rd (<[Z.to_nat r0 := q + 1]> w) r
               = if decide (r0 = r) then Some (q + 1) else rd w r) as Hrdw
    by (intros r; apply rd_insert; lia).
  assert (∀ r t, 0 ≤ r < n → r ≠ r0 → Tq r ≤ t < Tq r + ceq r i → q ≠ t)
    as Hdisj.
  { intros r t Hr Hne Ht.
    pose proof (ceq_mono r i nnz ltac:(lia)) as Hler.
    pose proof (Tq_succ r) as HTsr.
    destruct (decide (r < r0)).
    - pose proof (Tq_mono (r + 1) r0). lia.
    - pose proof (Tq_mono (r0 + 1) r). lia. }
  split_and!.
  - by rewrite length_insert.
  - by rewrite length_insert.
  - intros r Hr. rewrite Hrdw. destruct (decide (r0 = r)) as [<-|Hne].
    + rewrite Hsucc. f_equal. lia.
    + rewrite Hsame by done. by apply Hw.
  - intros r t t' c c' Hr Ht Ht'. rewrite !HrdT.
    destruct (decide (r = r0)) as [->|Hne].
    + rewrite Hsucc in Ht'. rewrite (decide_False (P := q = t)) by lia.
      destruct (decide (q = t')) as [<-|Hne'].
      * intros Hc [= <-]. apply (donep_before i j c r0); try done.
        apply Hmem; [done|]. exists t. split; [lia|done].
      * apply (Hsort r0); try done; lia.
    + rewrite Hsame in Ht' by done.
      rewrite !decide_False by (apply (Hdisj r); (done || lia)).
      by apply (Hsort r).
  - intros r c Hr. destruct (decide (r = r0)) as [->|Hne].
    + rewrite Hsucc. split.
      * intros (t & Ht & Hc). rewrite HrdT in Hc.
        destruct (decide (q = t)) as [<-|Hne].
        -- injection Hc as <-. split; [done|]. exists i.
           split; [lia|]. split; [lia|done].
        -- destruct (proj1 (Hmem r0 c Hr0r)) as (Hcr & p & ? & ? & ?).
           { exists t. split; [lia|done]. }
           split; [done|]. exists p. split; [done|]. split; [lia|done].
      * intros (Hcr & p & Hp & Hpi & Hpr).
        destruct (decide (p = i)) as [->|Hne].
        -- assert (c = j) as -> by (by apply (P_column c j i)).
           exists q. split; [lia|]. by rewrite HrdT, decide_True.
        -- destruct (proj2 (Hmem r0 c Hr0r)) as (t & Ht & Hc).
           { split; [done|]. exists p. split; [done|]. split; [lia|done]. }
           exists t. split; [lia|]. by rewrite HrdT, decide_False by lia.
    + rewrite Hsame by done.
      assert (donep (i + 1) c r ↔ donep i c r) as Hdone.
      { split; intros (Hcr & p & Hp & Hpi & Hpr); (split; [done|]);
          exists p; (split; [done|]); (split; [|done]); [|lia].
        destruct (decide (p = i)) as [->|?]; [congruence|lia]. }
      rewrite Hdone, <-(Hmem r c Hr). split.
      * intros (t & Ht & Hc). exists t. split; [done|].
        by rewrite HrdT, decide_False in Hc by (by apply (Hdisj r)).
      * intros (t & Ht & Hc). exists t. split; [done|].
        by rewrite HrdT, decide_False by (by apply (Hdisj r)).
Qed.

Lemma scatter_spec w :
  Z.of_nat (length w) = n + 1 →
  (∀ r, 0 ≤ r < n → rd w r = Some (Tq r)) →
  ∃ Ti w', PatternUnion.scatter Ap Ai n (alloc nnz 0, w) = Some (Ti, w')
           ∧ scat_inv nnz (Ti, w').
Proof.
  intros Hlen Hw. pose proof nnz_pos as Hnnz. unfold PatternUnion.scatter.
  assert (∀ r, ceq r 0 = 0) as Hc0 by done.
  destruct (for_range_total (λ j s, scat_inv (P j) s) 0 n
              (λ j s,
                 lo ← rd Ap j;
                 hi ← rd Ap (j + 1);
                 for_range lo hi
                   (λ i '(Ti, w),
                      r ← rd Ai i;
                      q ← rd w r;
                      Ti ← wr Ti q j;
                      c ← rd w r;
                      w ← wr w r (c + 1);
                      Some (Ti, w)) s)
              (alloc nnz 0, w)) as ([Ti w'] & Hrun & Hfin).
  - rewrite P_0. unfold scat_inv. simpl. split_and!.
    + unfold alloc. rewrite length_replicate. lia.
    + done.
    + intros r Hr. rewrite Hc0, Z.add_0_r. by apply Hw.
    + intros r t t' c c' Hr Ht Ht'. rewrite Hc0 in Ht'. lia.
    + intros r c Hr. split.
      * intros (t & Ht & _). rewrite Hc0 in Ht. lia.
      * intros (Hc & p & Hp & Hp0 & _). pose proof (P_range c). lia.
  - intros j s Hj Hinv. rewrite (P_spec j), (P_spec (j + 1)) by lia. simpl.
    destruct (P_step j Hj) as [Hle _].
    destruct (for_range_total (λ i s, scat_inv i s) (P j) (P (j + 1))
                (λ i '(Ti, w),
                   r ← rd Ai i;
                   q ← rd w r;
                   Ti ← wr Ti q j;
                   c ← rd w r;
                   w ← wr w r (c + 1);
                   Some (Ti, w)) s) as (s' & Hs' & Hinv'); [done| |].
    + intros i t Hi Ht. by apply scat_step.
    + exists s'. split; [done|].
      by replace (P j `max` P (j + 1)) with (P (j + 1)) in Hinv' by lia.
  - exists Ti, w'. split; [done|].
    replace (0 `max` n) with n in Hfin by lia. by rewrite P_n in Hfin.
Qed.

(** The columns of the transpose, when all the entries are scattered. *)
Lemma T_column Ti w r :
  scat_inv nnz (Ti, w) → 0 ≤ r < n →
  Tq r ≤ Tq (r + 1) ∧ inc Ti (Tq r) (Tq (r + 1))
  ∧ ∀ c, (∃ t, Tq r ≤ t < Tq (r + 1) ∧ rd Ti t = Some c)
         ↔ (0 ≤ c < n ∧ ∃ p, P c ≤ p < P (c + 1) ∧ rd Ai p = Some r).
Proof.
  intros (HlT & _ & _ & Hsort & Hmem) Hr. simpl in *.
  pose proof (Tq_succ r) as Hs. pose proof (ceq_range r nnz).
  pose proof (Tq_range r). pose proof (Tq_range (r + 1)).
  split; [lia|]. split; [split|].
  - intros p Hp. apply rd_is_Some. lia.
  - intros p q x y Hpq Hq. apply (Hsort r); (done || lia).
  - intros c. rewrite Hs, (Hmem r c Hr). unfold donep. split.
    + intros (Hc & p & ? & ? & ?). split; [done|]. by exists p.
    + intros (Hc & p & Hp & Hv). split; [done|]. exists p.
      split; [done|]. split; [|done].
      pose proof (P_range (c + 1)). lia.
Qed.

Lemma inc_ext l l' lo hi :
  (∀ p, lo ≤ p < hi → rd l' p = rd l p) → inc l lo hi → inc l' lo hi.
Proof.
  intros Hext [Hsome Hlt]. split.
  - intros p Hp. rewrite Hext by done. by apply Hsome.
  - intros p q x y Hpq Hq. rewrite !Hext by lia. by apply Hlt.
Qed.

(** Column [c] of the output [(w, Ci)] is written: it lies below [nz],
    grows strictly, and holds the rows of column [c] of the pattern and
    the columns that have an entry in row [c]. *)
Definition col_ok (Ci w : list Z) (nz c : Z) : Prop :=
  ∃ lo hi, rd w c = Some lo ∧ rd w (c + 1) = Some hi
    ∧ 0 ≤ lo ≤ hi ∧ hi ≤ nz ∧ inc Ci lo hi
    ∧ ∀ x, (∃ p, lo ≤ p < hi ∧ rd Ci p = Some x)
           ↔ (∃ a, P c ≤ a < P (c + 1) ∧ rd Ai a = Some x)
             ∨ (0 ≤ x < n ∧ ∃ p, P x ≤ p < P (x + 1) ∧ rd Ai p = Some c).

(** The invariant of the last loop, before column [j]. *)
Definition cinv (j : Z) (s : Z * list Z * list Z) : Prop :=
  Z.of_nat (length s.1.2) = 2 * nnz ∧ Z.of_nat (length s.2) = n + 1
  ∧ 0 ≤ s.1.1 ≤ P j + Tq j
  ∧ rd s.2 j = Some s.1.1 ∧ rd s.2 0 = Some 0
  ∧ ∀ c, 0 ≤ c < j → col_ok s.1.2 s.2 s.1.1 c.

Lemma merge_column_step Tp Ti wT j s :
  (∀ r, 0 ≤ r ≤ n → rd Tp r = Some (Tq r)) → scat_inv nnz (Ti, wT) →
  0 ≤ j < n → cinv j s →
  ∃ s', PatternUnion.merge_column Ap Ai Tp Ti j s = Some s'
        ∧ cinv (j + 1) s'.
Proof.
  intros HTp HT Hj (HlC & Hlw & Hnz & Hwj & Hw0 & Hcols').
  destruct s as [[nz Ci] w]. simpl in HlC, Hlw, Hnz, Hwj, Hw0, Hcols'.
  destruct (T_column Ti wT j HT Hj) as (HleT & HincT & HmemT).
  destruct (P_step j Hj) as [HleA HincA].
  pose proof (P_range (j + 1)). pose proof (Tq_range (j + 1)).
  assert (nz + (P (j + 1) - P j) + (Tq (j + 1) - Tq j)
          ≤ Z.of_nat (length Ci)) as Hcap by lia.
  assert (0 ≤ nz) as Hnz0 by lia.
  assert (0 ≤ j + 1 < Z.of_nat (length w)) as Hj1 by lia.
  destruct (merge_column_run Ai Ti (P j) (P (j + 1)) (Tq j) (Tq (j + 1))
              nz Ci HincA HincT HleA HleT Hnz0 Hcap Ap Tp j w)
    as (nz2 & Ci2 & -> & Hminv); try done.
  { apply P_spec. lia. } { apply P_spec. lia. }
  { apply HTp. lia. } { apply HTp. lia. }
  destruct Hminv as (_ & _ & Hge & Hcnt & Hlen2 & Hfr & Hsort & _ & Hmem).
  eexists. split; [done|]. unfold cinv. simpl.
  assert (∀ c, rd (<[Z.to_nat (j + 1) := nz2]> w) c
               = if decide (j + 1 = c) then Some nz2 else rd w c) as Hrdw
    by (intros c; apply rd_insert; lia).
  split_and!.
  - lia.
  - rewrite length_insert. lia.
  - lia.
  - lia.
  - by rewrite Hrdw, decide_True.
  - rewrite Hrdw, decide_False by lia. done.
  - intros c Hc. unfold col_ok. rewrite !Hrdw.
    destruct (decide (c = j)) as [->|Hne].
    + exists nz, nz2. rewrite (decide_False (P := j + 1 = j)) by lia.
      rewrite decide_True by done. split_and!; try done; try lia.
      * split.
        -- intros p Hp. apply rd_is_Some. lia.
        -- intros p q x y Hpq Hq. by apply Hsort.
      * intros x. rewrite (Hmem x), (HmemT x). done.
    + destruct (Hcols' c) as (lo & hi & Hlo & Hhi & Hlh & Hhn & Hinc & Hm);
        [lia|].
      exists lo, hi. rewrite !decide_False by lia.
      split_and!; try done; try lia.
      * apply (inc_ext Ci); [|done]. intros p Hp. apply Hfr. lia.
      * intros x. rewrite <-(Hm x). split.
        -- intros (p & Hp & Hv). exists p. split; [done|].
           by rewrite Hfr in Hv by lia.
        -- intros (p & Hp & Hv). exists p. split; [done|].
           by rewrite Hfr by lia.
Qed.

Lemma realloc_null {A : Type} (a : list A) len v :
  len ≤ 0 → PatternUnion.realloc a len v = None.
Proof. intros ?. unfold PatternUnion.realloc. by rewrite decide_False by lia. Qed.

Lemma realloc_some {A : Type} (a : list A) len v :
  0 < len →
  ∃ a', PatternUnion.realloc a len v = Some a'
        ∧ Z.of_nat (length a') = len
        ∧ ∀ p, p < len → p < Z.of_nat (length a) → rd a' p = rd a p.
Proof.
  intros Hlen. unfold PatternUnion.realloc. rewrite decide_True by done.
  eexists. split; [done|]. split.
  - rewrite length_app, length_take, length_replicate. lia.
  - intros p Hp Hpa. unfold rd. case_decide; [|done].
    rewrite lookup_app_l by (rewrite length_take; lia).
    apply lookup_take_lt. lia.
Qed.

(** The run of [get_pattern_A_plus_AT], up to the last allocation. *)
Lemma get_pattern_run :
  ∃ Cp Ci_loc nz,
    PatternUnion.get_pattern_A_plus_AT Ap Ai n
    = match PatternUnion.realloc Ci_loc
              (int_wrap (nz + nz `quot` 5 + 2 * n)) 0 with
      | None => Some (FAILURE, [], [])
      | Some Ci => Some (SUCCESS, Cp, Ci)
      end
    ∧ Z.of_nat (length Cp) = n + 1
    ∧ rd Cp 0 = Some 0 ∧ rd Cp n = Some nz ∧ 0 ≤ nz ≤ 2 * nnz
    ∧ Z.of_nat (length Ci_loc) = 2 * nnz
    ∧ ∀ c, 0 ≤ c < n → col_ok Ci_loc Cp nz c.
Proof.
  pose proof nnz_pos as Hnnz. unfold PatternUnion.get_pattern_A_plus_AT.
  rewrite HApn. simpl.
  destruct count_rows_spec as (w1 & -> & Hl1 & Hw1). simpl.
  destruct (cumulate_spec w1 Hl1 Hw1) as (Tp & w2 & -> & HlT & Hl2 & Hs2).
  simpl. rewrite (wr_is_Some Tp) by lia. simpl.
  destruct (scatter_spec w2 Hl2) as (Ti & w3 & -> & Hscat).
  { intros r Hr. by apply Hs2. }
  simpl. pose proof Hscat as (_ & Hl3 & _). simpl in Hl3.
  rewrite (wr_is_Some w3) by lia. simpl.
  destruct (for_range_total cinv 0 n
              (PatternUnion.merge_column Ap Ai
                 (<[Z.to_nat n := clt n nnz]> Tp) Ti)
              (0, alloc (2 * nnz) 0, <[Z.to_nat 0 := 0]> w3))
    as ([[nz Ci] Cp] & -> & Hfin).
  - unfold cinv. simpl. rewrite P_0.
    assert (rd (<[Z.to_nat 0 := 0]> w3) 0 = Some 0) as Hw0
      by (rewrite rd_insert by lia; by rewrite decide_True).
    pose proof (Tq_range 0). split_and!; try done; try lia.
    + unfold alloc. rewrite length_replicate. lia.
    + rewrite length_insert. lia.
  - intros j s Hj Hinv. apply (merge_column_step _ Ti w3); try done.
    intros r Hr. rewrite rd_insert by lia.
    destruct (decide (n = r)) as [<-|Hne]; [done|]. apply Hs2. lia.
  - replace (0 `max` n) with n in Hfin by lia.
    destruct Hfin as (HlC & Hlw & Hnz & Hwn & Hw0 & Hcols').
    simpl in *. rewrite P_n in Hnz. pose proof (Tq_range n).
    exists Cp, Ci, nz. split; [done|].
    split_and!; try done; lia.
Qed.

Lemma in_col_P j r :
  0 ≤ j < n →
  in_col Ap Ai j r ↔ ∃ a, P j ≤ a < P (j + 1) ∧ rd Ai a = Some r.
Proof.
  intros Hj. unfold in_col.
  rewrite (P_spec j), (P_spec (j + 1)) by lia. split.
  - intros (lo & hi & a & [= <-] & [= <-] & Ha & Hr). by exists a.
  - intros (a & Ha & Hr). by exists (P j), (P (j + 1)), a.
Qed.

End Transpose.

(** A pattern that [get_pattern_A_plus_AT] can work on: [n + 1] column
    pointers that start at 0 and do not decrease, in every column rows
    of [0 .. n-1] in strictly growing order, and so few entries that the
    number of cells asked for at the end, at most two for an entry with
    a fifth more and two for a column, is an [int]. *)
Definition sorted_pattern (Ap Ai : list Z) (n : Z) : Prop :=
  0 ≤ n ∧ Z.of_nat (length Ap) = n + 1 ∧ rd Ap 0 = Some 0
  ∧ (∃ nnz, rd Ap n = Some nnz
       ∧ 2 * nnz + (2 * nnz) `quot` 5 + 2 * n < 2 ^ 31
       ∧ ∀ p, 0 ≤ p < nnz → ∃ r, rd Ai p = Some r ∧ 0 ≤ r < n)
  ∧ ∀ j, 0 ≤ j < n →
      ∃ lo hi, rd Ap j = Some lo ∧ rd Ap (j + 1) = Some hi ∧ lo ≤ hi
               ∧ inc Ai lo hi.

(** X9: on a pattern with sorted columns and at least one column
    [get_pattern_A_plus_AT] returns the success status with the pattern
    of A + A': [Cp] has [n + 1] cells, starts at 0 and ends with the
    number [nz] of entries written, [Ci] has [nz + nz/5 + 2n] cells,
    every column of the output lies below [nz] and is in strictly
    growing order (so it holds no row twice), and row [r] is in column
    [j] of the output exactly when the pattern has an entry at row [r]
    of column [j] or at row [j] of column [r].  The diagonal entries of
    the pattern are kept.  On the pattern without a column the function
    asks [realloc] for no byte and returns the failure status. *)
Theorem get_pattern_A_plus_AT_union Ap Ai n :
  sorted_pattern Ap Ai n →
  (n = 0 →
   PatternUnion.get_pattern_A_plus_AT Ap Ai n = Some (FAILURE, [], []))
  ∧ (0 < n →
     ∃ Cp Ci nz,
       PatternUnion.get_pattern_A_plus_AT Ap Ai n = Some (SUCCESS, Cp, Ci)
       ∧ Z.of_nat (length Cp) = n + 1
       ∧ rd Cp 0 = Some 0 ∧ rd Cp n = Some nz
       ∧ Z.of_nat (length Ci) = nz + nz `quot` 5 + 2 * n
       ∧ ∀ j, 0 ≤ j < n →
           (∃ lo hi, rd Cp j = Some lo ∧ rd Cp (j + 1) = Some hi
              ∧ 0 ≤ lo ≤ hi ∧ hi ≤ nz ∧ inc Ci lo hi)
           ∧ ∀ r, in_col Cp Ci j r ↔ in_col Ap Ai j r ∨ in_col Ap Ai r j).
Proof.
  intros (Hn & Hlen & HAp0 & (nnz & HApn & Hsize & Hrows) & Hcols).
  destruct (get_pattern_run Ap Ai n nnz Hn HAp0 HApn Hcols Hrows)
    as (Cp & Ci0 & nz & Hrun & HlC & HC0 & HCn & Hnz & HlCi & Hcol).
  assert (0 ≤ nz `quot` 5 ≤ (2 * nnz) `quot` 5) as Hq.
  { split; [apply Z.quot_pos; lia|apply Z.quot_le_mono; lia]. }
  rewrite int_wrap_id in Hrun by lia.
  split.
  - intros ->. rewrite HC0 in HCn. injection HCn as <-.
    by rewrite realloc_null in Hrun by (by vm_compute).
  - intros Hn0.
    destruct (realloc_some Ci0 (nz + nz `quot` 5 + 2 * n) 0)
      as (Ci & HCi & HlCi' & Hre); [lia|].
    rewrite HCi in Hrun.
    exists Cp, Ci, nz. split_and!; try done.
    intros j Hj.
    destruct (Hcol j Hj) as (lo & hi & Hlo & Hhi & Hlh & Hhn & Hinc & Hm).
    assert (∀ p, lo ≤ p < hi → rd Ci p = rd Ci0 p) as Hre'
      by (intros p Hp; apply Hre; lia).
    split.
    { exists lo, hi. split_and!; try done; try lia.
      by apply (inc_ext Ci0). }
    assert (∀ c x, 0 ≤ c < n →
              in_col Ap Ai c x
              ↔ ∃ a, P Ap c ≤ a < P Ap (c + 1) ∧ rd Ai a = Some x) as HinP
      by (intros c x Hc; by apply (in_col_P Ap Ai n nnz)).
    intros r. rewrite (HinP j r Hj).
    assert (in_col Ap Ai r j
            ↔ 0 ≤ r < n ∧ ∃ p, P Ap r ≤ p < P Ap (r + 1) ∧ rd Ai p = Some j)
      as ->.
    { split.
      - intros Hin. assert (0 ≤ r < n) as Hr.
        { destruct Hin as (a & b & _ & Ha%rd_Some & Hb%rd_Some & _). lia. }
        split; [done|]. by apply HinP.
      - intros [Hr Hin]. by apply HinP. }
    rewrite <-(Hm r). unfold in_col. rewrite Hlo, Hhi. split.
    + intros (a & b & p & [= <-] & [= <-] & Hp & Hv). exists p.
      split; [done|]. by rewrite <-Hre'.
    + intros (p & Hp & Hv). exists lo, hi, p.
      split; [done|]. split; [done|]. split; [done|]. by rewrite Hre'.
Qed.

Lemma get_pattern_A_plus_AT_union_witness :
  (3 = 0 →
   PatternUnion.get_pattern_A_plus_AT [0; 2; 3; 4] [0; 1; 0; 2] 3
   = Some (FAILURE, [], []))
  ∧ (0 < 3 →
     ∃ Cp Ci nz,
       PatternUnion.get_pattern_A_plus_AT [0; 2; 3; 4] [0; 1; 0; 2] 3
       = Some (SUCCESS, Cp, Ci)
       ∧ Z.of_nat (length Cp) = 3 + 1
       ∧ rd Cp 0 = Some 0 ∧ rd Cp 3 = Some nz
       ∧ Z.of_nat (length Ci) = nz + nz `quot` 5 + 2 * 3
       ∧ ∀ j, 0 ≤ j < 3 →
           (∃ lo hi, rd Cp j = Some lo ∧ rd Cp (j + 1) = Some hi
              ∧ 0 ≤ lo ≤ hi ∧ hi ≤ nz ∧ inc Ci lo hi)
           ∧ ∀ r, in_col Cp Ci j r
                  ↔ in_col [0; 2; 3; 4] [0; 1; 0; 2] j r
                    ∨ in_col [0; 2; 3; 4] [0; 1; 0; 2] r j).
Proof.
  apply (get_pattern_A_plus_AT_union [0; 2; 3; 4] [0; 1; 0; 2] 3).
  split; [lia|]. split; [done|]. split; [done|]. split.
  - exists 4. split; [done|]. split; [by vm_compute|]. intros p Hp.
    assert (p = 0 ∨ p = 1 ∨ p = 2 ∨ p = 3) as [-> | [-> | [-> | ->]]] by lia;
      eexists; (split; [reflexivity|lia]).
  - intros j Hj.
    assert (j = 0 ∨ j = 1 ∨ j = 2) as [-> | [-> | ->]] by lia.
    + exists 0, 2. split_and!; try done. split.
      * intros p Hp. assert (p = 0 ∨ p = 1) as [-> | ->] by lia; by eexists.
      * intros p q x y Hpq Hq. assert (p = 0 ∧ q = 1) as [-> ->] by lia.
        intros [= <-] [= <-]. lia.
    + exists 2, 3. split_and!; try done. split.
      * intros p Hp. assert (p = 2) as -> by lia. by eexists.
      * intros; lia.
    + exists 3, 4. split_and!; try done. split.
      * intros p Hp. assert (p = 3) as -> by lia. by eexists.
      * intros; lia.
Defined.

(** *** The sizes that [sp_num_alloc] gives *)

Lemma lasagna_alloc_some {A : Type} len (v : A) :
  0 ≤ len → lasagna_alloc len v = Some (alloc len v).
Proof. intros ?. unfold lasagna_alloc. by rewrite decide_True. Qed.

Lemma lasagna_alloc_null {A : Type} len (v : A) :
  len < 0 → lasagna_alloc len v = None.
Proof. intros ?. unfold lasagna_alloc. by rewrite decide_False by lia. Qed.

Lemma half_triangle n : 0 ≤ n → n * (n + 1) = 2 * ((n * (n + 1)) `quot` 2).
Proof.
  intros Hn. rewrite Z.quot_div_nonneg by lia.
  destruct (Z.Even_or_Odd n) as [[m ->]|[m ->]].
  - replace (2 * m * (2 * m + 1)) with (m * (2 * m + 1) * 2) by lia.
    rewrite Z.div_mul by lia. lia.
  - replace ((2 * m + 1) * (2 * m + 1 + 1)) with ((2 * m + 1) * (m + 1) * 2)
      by lia.
    rewrite Z.div_mul by lia. lia.
Qed.

(** The context that [sp_num_alloc] returns when no size leaves the
    range of [int]. *)
Lemma sp_num_alloc_success {T} `{Scalar T} n :
  0 < n → n * (n + 1) < 2 ^ 31 →
  let maxnz := (n * (n + 1)) `quot` 2 in
  let M := Build_sp_mat n n maxnz
             (alloc maxnz s_zero) (alloc maxnz 0) (alloc (n + 1) 0) in
  sp_num_alloc (T := T) n
  = Some (SUCCESS,
          Some (Num.Build_sp_num n M M (alloc (n * n) 0) (alloc n 0)
                  (alloc n 0) (alloc n 0) (Some (alloc (n + 1) 0))
                  (alloc n s_zero) (alloc (8 * (n + 1)) 0))).
Proof.
  intros Hn Hsize. simpl.
  pose proof (half_triangle n ltac:(lia)) as Heven.
  assert (n * n < 2 ^ 31) by nia.
  assert (8 * (n + 1) < 2 ^ 31).
  { destruct (decide (n < 8)); [lia|nia]. }
  unfold sp_num_alloc, sp_mat_alloc.
  rewrite !(int_wrap_id (n + 1)) by lia.
  rewrite !(int_wrap_id (n * (n + 1))) by lia.
  rewrite !(int_wrap_id (n * n)) by lia.
  rewrite !(int_wrap_id (8 * (n + 1))) by lia.
  rewrite !lasagna_alloc_some by lia.
  rewrite !decide_True by (unfold alloc; rewrite length_replicate; lia).
  done.
Qed.

(** X10: for [0 < n] with [n (n + 1)] in the range of [int],
    [sp_num_alloc(n)] returns the success status and the arrays that it
    allocates are large enough.  A context with [n] and with arrays of
    the sizes that [sp_num_alloc(n)] gives, whatever their cells hold,
    and with [q] null or holding columns of [0 .. n-1], takes every
    factorisation of dimension [n]: [sp_ludcmp] returns on it for every
    matrix whose entries can be read, so the [n (n + 1) / 2] entries of
    L and of U are never exceeded, and it leaves the sizes as they are.
    When [n (n + 1)] is beyond the range of [int] and below [2^32] the
    product wraps to a negative capacity and [sp_num_alloc] returns the
    failure status. *)
Theorem sp_num_alloc_capacity {T} `{Scalar T} n :
  0 < n →
  (n * (n + 1) < 2 ^ 31 →
   ∃ N0, sp_num_alloc (T := T) n = Some (SUCCESS, Some N0)
         ∧ Num.n N0 = n ∧ ncols (Num.L N0) = n
         ∧ ∀ (N : sp_num T) A pivtol,
             Num.n N = n → ncols (Num.L N) = n →
             (shape N).2 = (shape N0).2 →
             (∀ k, 0 ≤ k < n → ∃ c, LU.col_of N k = Some c ∧ 0 ≤ c < n) →
             matrix_ok A → ncols A = n →
             ∃ st N', LU.sp_ludcmp N A pivtol = Some (st, N')
                      ∧ (shape N').2 = (shape N0).2)
  ∧ (2 ^ 31 ≤ n * (n + 1) < 2 ^ 32 →
     sp_num_alloc (T := T) n = Some (FAILURE, None)).
Proof.
  intros Hn. split.
  - intros Hsize. eexists. split; [by apply sp_num_alloc_success|].
    split; [done|]. split; [done|].
    intros N A pivtol HNn HLn Hsizes Hq HA HAn.
    pose proof (half_triangle n ltac:(lia)) as Heven.
    assert (0 ≤ (n * (n + 1)) `quot` 2) by (apply Z.quot_pos; lia).
    assert (ctx_ok (ncols A) N) as Hctx.
    { rewrite HAn. unfold shape, alloc in Hsizes.
      simpl in Hsizes. rewrite !length_replicate in Hsizes.
      injection Hsizes as Hxi Htv Hpinv Hp Hw HLp HLi HLx HUp HUi HUx.
      constructor; try done; try lia; try nia. }
    destruct (ludcmp_loop_total N A pivtol HA Hctx)
      as [(s & Hloop & Hinv & Hshape)|(k & s & Hloop & _ & Hshape)];
      unfold LU.sp_ludcmp; rewrite Hloop.
    + destruct (finalize_total _ _ Hinv) as (N' & HN' & Hshape' & _).
      exists SUCCESS, N'. split; [simpl; by rewrite HN'|].
      by rewrite Hshape', Hshape.
    + exists FAILURE, (LU.cN s). split; [done|]. by rewrite Hshape.
  - intros Hsize.
    assert (n < 2 ^ 16) by nia.
    unfold sp_num_alloc, sp_mat_alloc.
    rewrite !(int_wrap_id (n + 1)) by lia.
    assert (int_wrap (n * (n + 1)) = n * (n + 1) - 2 ^ 32) as ->.
    { unfold int_wrap.
      replace (n * (n + 1) + 2 ^ 31)
        with (n * (n + 1) - 2 ^ 31 + 1 * 2 ^ 32) by lia.
      rewrite Z.mod_add by lia. rewrite Z.mod_small; lia. }
    assert ((n * (n + 1) - 2 ^ 32) `quot` 2 < 0).
    { pose proof (half_triangle n ltac:(lia)) as Heven.
      set (m := (n * (n + 1)) `quot` 2) in *.
      replace (n * (n + 1) - 2 ^ 32) with ((m - 2 ^ 31) * 2) by lia.
      rewrite Z.quot_mul by lia. lia. }
    by rewrite !lasagna_alloc_null by lia.
Qed.

Lemma sp_num_alloc_capacity_witness :
  ∃ N0, sp_num_alloc (T := float) 2 = Some (SUCCESS, Some N0)
        ∧ ∃ st N', LU.sp_ludcmp ctx2 A_full 1%float = Some (st, N')
                   ∧ (shape N').2 = (shape N0).2.
Proof.
  destruct (sp_num_alloc_capacity (T := float) 2) as [Hsmall _]; [lia|].
  destruct Hsmall as (N0 & HN0 & _ & _ & Hall); [lia|].
  exists N0. split; [done|].
  apply (Hall ctx2 A_full 1%float).
  - reflexivity.
  - reflexivity.
  - rewrite (sp_num_alloc_success (T := float) 2) in HN0 by lia.
    injection HN0 as <-. reflexivity.
  - intros k Hk. exists k. split; [reflexivity|lia].
  - apply dense2_ok.
  - reflexivity.
Defined.

(** *** The order of the recorded stacks *)

Lemma rd_cons_pos {A : Type} (x : A) l m : 0 < m → rd (x :: l) m = rd l (m - 1).
Proof.
  intros Hm. unfold rd. rewrite !decide_True by lia.
  replace (Z.to_nat m) with (S (Z.to_nat (m - 1))) by lia. done.
Qed.

Lemma rd_elem_of {A : Type} (l : list A) i v : rd l i = Some v → v ∈ l.
Proof.
  unfold rd. case_decide; [|done]. apply list_elem_of_lookup_2.
Qed.

(** Row [e] of the stack of step [j] comes before the rows that the
    column of L of its pivot holds below the diagonal: the columns are
    those that [Lp] and [Li] give, the pivots those of [pinv]. *)
Definition topo_row (n : Z) (xi topvec pinv Lp Li : list Z) (j : Z) : Prop :=
  ∀ t pe e J a b q i,
    rd topvec j = Some t → t ≤ pe < n → rd xi (j * n + pe) = Some e →
    rd pinv e = Some J → 0 ≤ J < j →
    rd Lp J = Some a → rd Lp (J + 1) = Some b → a < q < b →
    rd Li q = Some i →
    ∃ pi, pe < pi < n ∧ rd xi (j * n + pi) = Some i.

Section Topo.
Context {T : Type} `{Scalar T}.

(** Before step [k] the stacks of the steps made are in this order. *)
Definition topo_inv (n k : Z) (s : @LU.lu_loc T) : Prop :=
  ∀ j, 0 ≤ j < k →
    topo_row n (Num.xi (LU.cN s)) (Num.topvec (LU.cN s))
      (Num.pinv (LU.cN s))
      (<[Z.to_nat k := LU.lnz s]> (Ap (Num.L (LU.cN s))))
      (Ai (Num.L (LU.cN s))) j.

(** An entry of a column of L during the factorisation: the pivot row
    of the column at its first position, and after it rows that have no
    pivot yet or a later one. *)
Lemma col_entry n k (s : LU.lu_loc) J a b q i :
  lu_inv n k s → pat_inv n k s → 0 ≤ J < k →
  rd (<[Z.to_nat k := LU.lnz s]> (Ap (Num.L (LU.cN s)))) J = Some a →
  rd (<[Z.to_nat k := LU.lnz s]> (Ap (Num.L (LU.cN s)))) (J + 1) = Some b →
  a ≤ q < b → rd (Ai (Num.L (LU.cN s))) q = Some i →
  (q = a ∧ rd (Num.p (LU.cN s)) J = Some i)
  ∨ (a < q ∧ 0 ≤ i < n
     ∧ (pv (Num.pinv (LU.cN s)) i < 0 ∨ J < pv (Num.pinv (LU.cN s)) i)).
Proof.
  intros Hinv [HpL _ _ _] HJ Ha Hb Hq Hi.
  destruct (HpL J HJ) as (a' & b' & Ha' & Hb' & Hab & _ & Hseg & _).
  rewrite Ha in Ha'. rewrite Hb in Hb'.
  injection Ha' as <-. injection Hb' as <-.
  rewrite <-(seg_rd _ a b q), Hseg in Hi by lia. unfold L_rows in Hi.
  destruct (li_perm _ _ _ Hinv) as [_ Hsteps].
  destruct (Hsteps J HJ) as (i' & Hi' & _).
  destruct (decide (q = a)) as [->|Hne].
  - left. split; [done|]. rewrite Z.sub_diag, Hi' in Hi.
    unfold rd in Hi at 1. rewrite decide_True in Hi by lia.
    simpl in Hi. by injection Hi as <-.
  - right. split; [lia|]. rewrite rd_cons_pos in Hi by lia.
    apply rd_elem_of, list_elem_of_filter in Hi as [Hcond Hin].
    split; [|done].
    destruct (li_stacks _ _ _ Hinv J HJ) as (t & Ht & Hstk).
    assert (0 ≤ J) as HJ0 by lia.
    apply (stack_rows_range _ _ _ _ _ _ HJ0 Ht Hstk Hin).
Qed.

(** Along an edge of the L of the steps made the pivot step grows. *)
Lemma ludcmp_acyclic n k (s : LU.lu_loc) :
  0 ≤ k → lu_inv n k s → pat_inv n k s →
  acyclic (<[Z.to_nat k := LU.lnz s]> (Ap (Num.L (LU.cN s))))
    (Ai (Num.L (LU.cN s))) (Num.pinv (LU.cN s)).
Proof.
  intros Hk Hinv Hpat j i (J & HJ & HJ0 & lo & hi & q & Hlo & Hhi & Hq & Hi)
    Hne.
  pose proof (li_ctx _ _ _ Hinv) as Hctx.
  pose proof (li_perm _ _ _ Hinv) as Hperm.
  pose proof (rd_Some _ _ _ HJ) as Hj. rewrite (co_pinv _ _ Hctx) in Hj.
  destruct (perm_inv_range _ _ _ _ Hk Hperm j Hj) as (v & Hv & Hvr).
  assert (v = J) as -> by congruence.
  destruct (col_entry n k s J lo hi q i Hinv Hpat) as [[-> Hp]|(_ & Hir & Hpv)];
    try done; try lia.
  - destruct Hperm as [Hrows _].
    destruct (Hrows j Hj) as (v & Hv' & Hcase).
    assert (v = J) as -> by congruence.
    destruct Hcase as [?|[_ Hpj]]; [lia|]. congruence.
  - destruct (perm_inv_range _ _ _ _ Hk Hperm i Hir) as (vi & Hvi & _).
    exists J, vi. split; [done|]. split; [done|].
    unfold pv in Hpv. rewrite Hvi in Hpv. simpl in Hpv. lia.
Qed.

(** The stack that step [k] records is in this order. *)
Lemma step_solve_topo A k (s : LU.lu_loc) col top s1 :
  matrix_ok A → 0 ≤ k < ncols A →
  lu_inv (ncols A) k s → pat_inv (ncols A) k s →
  LU.step_solve A k s = Some (col, top, s1) →
  topo_row (ncols A) (Num.xi (LU.cN s1)) (Num.topvec (LU.cN s1))
    (Num.pinv (LU.cN s))
    (<[Z.to_nat k := LU.lnz s]> (Ap (Num.L (LU.cN s))))
    (Ai (Num.L (LU.cN s))) k.
Proof.
  intros HA Hk Hinv Hpat Hsolve.
  assert (0 ≤ k) as Hk0 by lia.
  pose proof (ludcmp_acyclic _ _ _ Hk0 Hinv Hpat) as Hacyc.
  pose proof (λ J a b q i, col_entry (ncols A) k s J a b q i Hinv Hpat)
    as Hentry.
  destruct (step_solve_frame _ _ _ _ _ _ Hsolve)
    as (_ & Htv & _ & _ & _ & _ & _ & _).
  pose proof Hinv as [Hctx Hperm Hlnz Hunz HL _].
  destruct s as [N lnz unz]. simpl in *.
  pose proof Hctx as [].
  unfold LU.step_solve in Hsolve. simpl in Hsolve.
  apply bind_Some in Hsolve as (Lp & [_ ->]%wr_Some & Hsolve).
  apply bind_Some in Hsolve as (Up & [_ ->]%wr_Some & Hsolve).
  apply bind_Some in Hsolve as (col' & Hcol & Hsolve).
  apply bind_Some in Hsolve as (xik & Hxik & Hsolve).
  apply bind_Some in Hsolve as ([[top' Gp] xi'] & Hreach & Hsolve).
  apply bind_Some in Hsolve as (topvec' & Htv' & Hsolve).
  apply bind_Some in Hsolve as (x & Hx & Hsolve).
  injection Hsolve as <- <- <-. simpl in *.
  unfold LU.xi_row in Hxik. simpl in Hxik. rewrite co_n0 in Hxik.
  rewrite decide_True in Hxik by lia. injection Hxik as <-.
  rewrite co_ncols0 in Hreach.
  assert (0 ≤ k ≤ ncols A) as Hk' by lia.
  assert (0 ≤ k * ncols A
          ∧ k * ncols A + ncols A ≤ Z.of_nat (length (Num.xi N))) as Hrow
    by nia.
  assert (0 ≤ col' < ncols A) as Hcr.
  { destruct (co_q0 k Hk) as (c & Hc & Hcr).
    assert (LU.col_of
              (with_U (with_L N (with_Ap (Num.L N)
                                   (<[Z.to_nat k:=lnz]> (Ap (Num.L N)))))
                 (with_Ap (Num.U N) (<[Z.to_nat k:=unz]> (Ap (Num.U N))))) k
            = Some c) as Hc' by done.
    congruence. }
  destruct (reachr_reach (ncols A) k lnz _ _
              (Num.pinv N) (k * ncols A) (length (Num.xi N))
              (fo_Lp_len _ _ _ _ HL) (fo_Lp_pos _ _ _ _ HL)
              (fo_cols _ _ _ _ HL) Hk' (fo_rows _ _ _ _ HL)
              (perm_inv_range _ _ _ _ Hk0 Hperm) Hrow
              (Ap A) (Ai A) col' (Num.xi N) top' Gp xi' eq_refl)
    as [_ Htopo]; [|exact Hreach|].
  { destruct (HA col' Hcr) as (lo & hi & ? & ? & Hrows).
    exists lo, hi. split_and!; [done..|]. intros p Hp.
    destruct (Hrows p Hp) as (i & v & ? & ? & _). by exists i. }
  specialize (Htopo Hacyc).
  intros t pe e J a b q i Ht Hpe He HJ HJr Ha Hb Hq Hi.
  rewrite (rd_wr_eq _ _ _ _ Htv') in Ht. injection Ht as <-.
  apply (Htopo e i pe); [done|done| |].
  - exists J. split; [done|]. split; [lia|]. exists a, b, q.
    split_and!; try done; lia.
  - intros ->.
    destruct (Hentry J a b q e) as [[? _]|(_ & _ & Hpv)]; try done; try lia.
    unfold pv in Hpv. rewrite HJ in Hpv. simpl in Hpv. lia.
Qed.

Lemma ludcmp_step_topo A pivtol k (s s' : LU.lu_loc) :
  matrix_ok A → 0 ≤ k < ncols A →
  lu_inv (ncols A) k s → pat_inv (ncols A) k s → topo_inv (ncols A) k s →
  LU.ludcmp_step A pivtol k s = Some (Next s') →
  topo_inv (ncols A) (k + 1) s'.
Proof.
  intros HA Hk Hinv Hpat Htopo Hstep.
  destruct (step_solve_total A k s HA Hk Hinv)
    as (col & top & s1 & Hsolve & Hcol & Hstk & Hshape & HL1 & HLpk & Hfr
        & HLeq & HUeq).
  pose proof (step_solve_topo A k s col top s1 HA Hk Hinv Hpat Hsolve)
    as Htopk.
  destruct (step_solve_frame _ _ _ _ _ _ Hsolve)
    as (_ & Htv & _ & _ & Hpinv1 & Hp1 & Hlnz1 & Hunz1).
  pose proof (ctx_ok_shape _ _ _ Hshape (li_ctx _ _ _ Hinv)) as Hctx1.
  pose proof (li_ctx _ _ _ Hinv) as Hctx.
  pose proof (li_unz _ _ _ Hinv) as Hunz.
  pose proof (fo_lnz _ _ _ _ HL1) as Hlnz.
  destruct Hpat as [HpL _ _ _].
  unfold LU.ludcmp_step in Hstep. rewrite Hsolve in Hstep. simpl in Hstep.
  clear Hsolve Hinv.
  destruct s as [N lnz unz], s1 as [N1 lnz1 unz1]. simpl in *.
  subst lnz1 unz1.
  unfold LU.xi_row in Hstep. rewrite (co_n _ _ Hctx1) in Hstep.
  rewrite decide_True in Hstep by lia. simpl in Hstep.
  apply bind_Some in Hstep as (ps & Hfind & Hstep).
  destruct (bool_decide (LU.ipiv ps = -1) || PrimFloat.leb (LU.a ps) 0)
    eqn:Hno; [done|].
  apply bind_Some in Hstep as (ipiv & Hch & Hstep).
  apply bind_Some in Hstep as (pivot & Hpivot & Hstep).
  apply bind_Some in Hstep as (Ui & HUi & Hstep).
  apply bind_Some in Hstep as (Ux & HUx & Hstep).
  apply bind_Some in Hstep as (pinv' & Hwi & Hstep).
  apply bind_Some in Hstep as (pvec' & Hwp & Hstep).
  apply bind_Some in Hstep as (Li & HLi & Hstep).
  apply bind_Some in Hstep as (Lx & HLx & Hstep).
  apply bind_Some in Hstep as ([[L2 lnz2] x2] & Hstore & Hstep).
  injection Hstep as <-. simpl in *.
  assert (0 ≤ k * ncols A) as Hrow by nia.
  destruct (store_L_pattern _ _ _ _ _ _ _ _ _ _ _ _ Hstore)
    as (Hl2 & _ & HfrLi & _ & HApL); [done|by destruct Hstk|lia|].
  simpl in HfrLi, HApL.
  pose proof (co_Lp _ _ Hctx) as HLplen.
  rewrite HLeq in *. simpl in *.
  intros j Hj t pe e J a b q i Ht Hpe He HJ HJr Ha Hb Hq Hi.
  simpl in Ht, He, HJ, Ha, Hb, Hi. rewrite HApL in Ha, Hb.
  rewrite (rd_insert (<[Z.to_nat k:=lnz]> (Ap (Num.L N))) (k + 1)) in Ha, Hb
    by (rewrite length_insert; lia).
  rewrite decide_False in Ha by lia. rewrite decide_False in Hb by lia.
  rewrite (rd_wr _ _ _ _ _ Hwi) in HJ.
  destruct (decide (ipiv = e)) as [->|Hne]; [injection HJ as <-; lia|].
  rewrite Hpinv1 in HJ.
  destruct (HpL J) as (a' & b' & Ha' & Hb' & Hab & Hbl & _); [lia|].
  rewrite Ha in Ha'. rewrite Hb in Hb'.
  injection Ha' as <-. injection Hb' as <-.
  rewrite HfrLi in Hi by lia. rewrite (rd_wr_ne _ _ _ _ _ HLi) in Hi by lia.
  destruct (decide (j = k)) as [->|Hjk].
  - by apply (Htopk t pe e J a b q i).
  - rewrite (rd_wr_ne _ _ _ _ _ Htv) in Ht by lia.
    rewrite Hfr in He by nia.
    destruct (Htopo j ltac:(lia) t pe e J a b q i) as (pi & Hpi & Hxi);
      try done.
    exists pi. split; [done|]. rewrite Hfr by nia. done.
Qed.

Lemma ludcmp_loop_topo (N : sp_num T) A pivtol i s :
  matrix_ok A → ctx_ok (ncols A) N →
  LU.ludcmp_loop N A pivtol = Some (i, Next s) →
  lu_inv (ncols A) (ncols A) s ∧ pat_inv (ncols A) (ncols A) s
  ∧ topo_inv (ncols A) (ncols A) s.
Proof.
  intros HA Hctx Hloop. unfold LU.ludcmp_loop in Hloop.
  destruct (ludcmp_init_total _ _ Hctx) as (s0 & Hinit & Hinv0 & Hshape0).
  rewrite Hinit in Hloop. simpl in Hloop.
  assert (0 ≤ ncols A) as Hn by (pose proof (co_w _ _ Hctx); lia).
  assert (pat_inv (ncols A) 0 s0) as Hpat0.
  { pose proof (li_ctx _ _ _ Hinv0) as [].
    pose proof (li_lnz _ _ _ Hinv0). pose proof (li_unz _ _ _ Hinv0).
    pose proof (fo_lnz _ _ _ _ (li_L _ _ _ Hinv0)).
    constructor; try (intros; lia).
    - rewrite rd_insert, decide_True by lia. f_equal. lia.
    - rewrite rd_insert, decide_True by lia. f_equal. lia. }
  apply (for_break_inv
    (λ k s, lu_inv (ncols A) k s ∧ pat_inv (ncols A) k s
            ∧ topo_inv (ncols A) k s)
    (λ _ _, True)) in Hloop; [| | |done].
  - destruct Hloop as [-> Hend].
    by replace (Z.max 0 (ncols A)) with (ncols A) in Hend by lia.
  - split; [done|]. split; [done|]. intros j Hj. lia.
  - intros k t t' Hk (Hinv & Hpat & Htopo) Hstep. split_and!.
    + destruct (ludcmp_step_total A pivtol k t HA Hk Hinv) as (r & Hr & Hpost).
      rewrite Hstep in Hr. injection Hr as <-. apply Hpost.
    + by eapply ludcmp_step_pattern.
    + by eapply ludcmp_step_topo.
Qed.

(** The end of the factorisation closes the last column of L and
    replaces every row stored in L by its pivot step. *)
Lemma finalize_map n (s : @LU.lu_loc T) N' :
  LU.finalize n s = Some N' →
  Ap (Num.L N') = <[Z.to_nat n := LU.lnz s]> (Ap (Num.L (LU.cN s)))
  ∧ ∀ q, 0 ≤ q < LU.lnz s →
      ∃ i, rd (Ai (Num.L (LU.cN s))) q = Some i
           ∧ rd (Ai (Num.L N')) q = Some (pv (Num.pinv (LU.cN s)) i).
Proof.
  intros Hfin. destruct s as [N lnz unz]. simpl in *.
  unfold LU.finalize in Hfin. simpl in Hfin.
  apply bind_Some in Hfin as (Lp & [_ ->]%wr_Some & Hfin).
  apply bind_Some in Hfin as (Up & _ & Hfin).
  apply bind_Some in Hfin as (Li & HLi & Hfin). injection Hfin as <-.
  simpl. split; [done|].
  apply (for_range_inv
    (λ p Li', (∀ q, 0 ≤ q < p →
                 ∃ i, rd (Ai (Num.L N)) q = Some i
                      ∧ rd Li' q = Some (pv (Num.pinv N) i))
              ∧ (∀ q, p ≤ q → rd Li' q = rd (Ai (Num.L N)) q))) in HLi.
  - intros q Hq. apply HLi. lia.
  - split; [intros; lia|done].
  - clear HLi. intros p t t' Hp (Hlo & Hhi) Hbody.
    apply bind_Some in Hbody as (i & Hi & Hbody).
    apply bind_Some in Hbody as (v & Hv & Hw).
    rewrite Hhi in Hi by lia. split.
    + intros q Hq. rewrite (rd_wr _ _ _ _ _ Hw).
      destruct (decide (p = q)) as [<-|].
      * exists i. split; [done|]. unfold pv. by rewrite Hv.
      * apply Hlo. lia.
    + intros q Hq. rewrite (rd_wr _ _ _ _ _ Hw).
      rewrite decide_False by lia. apply Hhi. lia.
Qed.

(** Every recorded stack is in topological order for the finished L:
    row [e] of the stack of step [j], when its pivot step [J] is before
    [j], comes before the pivot rows of the steps that column [J] of L
    holds below its diagonal.  The triangular solve of [sp_refactor],
    which goes through the stack from [top] on, has finished with a row
    before it uses it. *)
Definition stacks_ordered (n : Z) (N : sp_num T) : Prop :=
  ∀ j t pe e J a b q I,
    0 ≤ j < n → rd (Num.topvec N) j = Some t → t ≤ pe < n →
    rd (Num.xi N) (j * n + pe) = Some e →
    rd (Num.pinv N) e = Some J → 0 ≤ J < j →
    rd (Ap (Num.L N)) J = Some a → rd (Ap (Num.L N)) (J + 1) = Some b →
    a < q < b → rd (Ai (Num.L N)) q = Some I →
    ∃ pi i, pe < pi < n ∧ rd (Num.xi N) (j * n + pi) = Some i
            ∧ rd (Num.pinv N) i = Some I.

Lemma sp_ludcmp_stacks_ordered (N : sp_num T) A pivtol N' :
  matrix_ok A → ctx_ok (ncols A) N →
  LU.sp_ludcmp N A pivtol = Some (SUCCESS, N') →
  stacks_ordered (ncols A) N'.
Proof.
  intros HA Hctx Hrun. unfold LU.sp_ludcmp in Hrun.
  apply bind_Some in Hrun as ([k [s|s]] & Hloop & Hrun); [|done].
  apply bind_Some in Hrun as (N1 & Hfin & [= <-]).
  destruct (ludcmp_loop_topo N A pivtol k s HA Hctx Hloop)
    as (Hinv & Hpat & Htopo).
  destruct (finalize_map _ _ _ Hfin) as (HAp & Hmap).
  destruct (finalize_frame _ _ _ Hfin) as (Hpinv & Hp & Htv & _).
  destruct (finalize_total _ _ Hinv) as (N2 & Hfin' & _ & Hxi).
  rewrite Hfin in Hfin'. injection Hfin' as <-.
  pose proof (li_ctx _ _ _ Hinv) as Hctx'.
  pose proof (li_perm _ _ _ Hinv) as Hperm.
  destruct (perm_inv_full _ _ _ (co_pinv _ _ Hctx') Hperm) as [Hfull _].
  intros j t pe e J a b q I Hj Ht Hpe He HJ HJr Ha Hb Hq Hi.
  rewrite Htv in Ht. rewrite Hxi in *. rewrite Hpinv in *.
  rewrite HAp in Ha, Hb.
  destruct (pt_L _ _ _ _ Hpat J) as (a' & b' & Ha' & Hb' & Hab & Hbl & _);
    [lia|].
  rewrite Ha in Ha'. rewrite Hb in Hb'.
  injection Ha' as <-. injection Hb' as <-.
  destruct (Hmap q) as (i & Hi' & HI); [lia|].
  rewrite Hi in HI. injection HI as ->.
  destruct (Htopo j Hj t pe e J a b q i) as (pi & Hpi & Hxpi); try done.
  exists pi, i. split; [done|]. split; [done|].
  destruct (col_entry _ _ s J a b q i Hinv Hpat) as [[? _]|(_ & Hir & _)];
    try done; try lia.
  destruct (Hfull i Hir) as (v & _ & Hv & _). unfold pv. by rewrite Hv.
Qed.

End Topo.

Lemma factors_Lp_mono {T} `{Scalar T} n (N : sp_num T) c d :
  factors_ok n N → 0 ≤ c ≤ d → d ≤ n →
  ∃ vc vd, rd (Ap (Num.L N)) c = Some vc ∧ rd (Ap (Num.L N)) d = Some vd
           ∧ vc ≤ vd.
Proof.
  intros [HL _ HL0 _] [Hc Hcd] Hd.
  assert (∃ vc, rd (Ap (Num.L N)) c = Some vc) as [vc Hvc].
  { destruct (decide (c = n)) as [->|?].
    - destruct (decide (n = 0)) as [->|?]; [by exists 0|].
      destruct (HL (n - 1)) as (a & b & _ & Hb & _); [lia|].
      replace (n - 1 + 1) with n in Hb by lia. by exists b.
    - destruct (HL c) as (a & b & Ha & _); [lia|]. by exists a. }
  replace d with (c + Z.of_nat (Z.to_nat (d - c))) in * by lia.
  induction (Z.to_nat (d - c)) as [|m IH].
  - exists vc, vc. rewrite Z.add_0_r. split_and!; (done || lia).
  - destruct IH as (vc' & vd & Hvc' & Hvd & Hle); [lia..|].
    destruct (HL (c + Z.of_nat m)) as (a & b & Ha & Hb & Hab & _); [lia|].
    replace (c + Z.of_nat (S m)) with (c + Z.of_nat m + 1) by lia.
    exists vc, b. split_and!; [done|done|].
    assert (vc' = vc) as -> by congruence.
    assert (a = vd) as -> by congruence. lia.
Qed.

(** X11: the stacks that a factorisation records stay valid for the
    refactorisation.  In a context left by a successful [sp_ludcmp],
    also after later calls of [sp_refactor] and [sp_lusolve], every
    recorded stack is in topological order for L: a row [e] of the stack
    of step [j] whose pivot step [J] is before [j] lies below the pivot
    row of every step [I] that column [J] of L holds under its diagonal.
    [sp_refactor], which replays the stack from [top] upwards, so
    finishes the value of a row before it uses it on another. *)
Theorem recorded_stacks_ordered {T} `{Scalar T} n (N : sp_num T) :
  factorised n N → stacks_ordered n N.
Proof.
  induction 1 as [N A pivtol N' HA <- Hctx Hrun
                 |N A N' Hfd IH HA <- Hrun
                 |N b x N' x' _ IH Hrun].
  - by apply (sp_ludcmp_stacks_ordered N A pivtol).
  - destruct (factorised_factored _ _ Hfd) as [Hok Hfac].
    destruct (sp_refactor_pattern N A N' HA Hok Hrun)
      as (Hok' & Hfac' & Hxi & Htv & Hpinv & _).
    assert (0 ≤ ncols A) as Hn
      by (pose proof (co_w _ _ (ro_ctx _ _ Hok)); lia).
    destruct (factors_same (ncols A) N N' Hn (ro_ctx _ _ Hok)
                (ro_ctx _ _ Hok') Hfac Hfac' Hxi Htv Hpinv)
      as (HAp & _ & (lnz & Hlnz & HLi) & _).
    intros j t pe e J a b q I Hj Ht Hpe He HJ HJr Ha Hb Hq Hi.
    rewrite Hxi, Htv, Hpinv, HAp in *.
    destruct (factors_Lp_mono (ncols A) N J (J + 1) Hfac)
      as (a' & b' & Ha' & Hb' & _); [lia|lia|].
    destruct (factors_Lp_mono (ncols A) N (J + 1) (ncols A) Hfac)
      as (b'' & l' & Hb'' & Hl' & Hle); [lia|lia|].
    assert (b'' = b) as -> by congruence.
    assert (l' = lnz) as -> by congruence.
    assert (a' = a) as -> by congruence.
    assert (0 ≤ a).
    { destruct (fa_L _ _ Hfac J) as (a1 & b1 & Ha1 & _ & ? & _); [lia|].
      assert (a1 = a) as -> by congruence. lia. }
    rewrite HLi in Hi by lia.
    by apply (IH j t pe e J a b q I).
  - destruct (sp_lusolve_frame _ _ _ _ _ _ Hrun) as (_ & -> & _).
    exact IH.
Qed.

Lemma recorded_stacks_ordered_witness :
  factorised 2 ctx2_done ∧ stacks_ordered 2 ctx2_done.
Proof.
  split; [apply ctx2_done_factorised|].
  apply (recorded_stacks_ordered 2 ctx2_done).
  apply (by_ludcmp 2 ctx2 A_full 1%float);
    [apply dense2_ok|reflexivity|apply ctx2_ok|vm_compute; reflexivity].
Defined.

(** *** [sp_tdfs] *)

(** The state of the loop of [sp_tdfs]: [top], [k], and the arrays
    [head], [post] and [stack]. *)
Record tdfs_state : Type := TdfsState {
  ttop : Z;
  tk : Z;
  thead : list Z;
  tpost : list Z;
  tstack : list Z;
}.

(** The body of the loop:
    [p = stack[top]; i = head[p];
     if (i == -1) { top--; post[k++] = p; }
     else { head[p] = next[i]; stack[++top] = i; }]. *)
Definition tdfs_body (next : list Z) (s : tdfs_state) : option tdfs_state :=
  p ← rd (tstack s) (ttop s);
  i ← rd (thead s) p;
  if decide (i = -1) then
    post ← wr (tpost s) (tk s) p;
    Some (TdfsState (ttop s - 1) (tk s + 1) (thead s) post (tstack s))
  else
    ni ← rd next i;
    head ← wr (thead s) p ni;
    stack ← wr (tstack s) (ttop s + 1) i;
    Some (TdfsState (ttop s + 1) (tk s) head (tpost s) stack).

(** [while (top >= 0) body]; [fuel] bounds the number of runs of the
    body. *)
Fixpoint tdfs_while (fuel : nat) (next : list Z) (s : tdfs_state)
    : option tdfs_state :=
  if decide (0 ≤ ttop s) then
    match fuel with
    | O => None
    | S fuel => s' ← tdfs_body next s; tdfs_while fuel next s'
    end
  else Some s.

(** [sp_tdfs]; the result is the returned [k] with the final [head],
    [post] and [stack]. *)
Definition sp_tdfs (fuel : nat) (j k : Z) (head next post stack : list Z)
    : option (Z * list Z * list Z * list Z) :=
  stack ← wr stack 0 j;
  s ← tdfs_while fuel next (TdfsState 0 k head post stack);
  Some (tk s, thead s, tpost s, tstack s).

(** The nodes of the trees whose roots are [i] and the siblings that
    follow [i] in its list, in post order: the children of a node, which
    [head] and [next] give as a list that [-1] ends, come before the
    node, and a node with its subtree comes before its next sibling. *)
Inductive forest (next head : list Z) : Z → list Z → Prop :=
  | forest_nil : forest next head (-1) []
  | forest_cons i c ni lc ln :
      i ≠ -1 → rd head i = Some c → rd next i = Some ni →
      forest next head c lc → forest next head ni ln →
      forest next head i (lc ++ i :: ln).

(** [f] runs of the body, each with [top >= 0]. *)
Fixpoint tdfs_steps (f : nat) (next : list Z) (s : tdfs_state)
    : option tdfs_state :=
  match f with
  | O => Some s
  | S f =>
      if decide (0 ≤ ttop s) then
        s' ← tdfs_body next s; tdfs_steps f next s'
      else None
  end.

Lemma tdfs_steps_app f g next s s1 :
  tdfs_steps f next s = Some s1 →
  tdfs_steps (f + g) next s = tdfs_steps g next s1.
Proof.
  revert s. induction f as [|f IH]; intros s Hs; simpl in *.
  - by injection Hs as ->.
  - case_decide; [|done]. destruct (tdfs_body next s) as [s'|]; [|done].
    simpl in *. by apply IH.
Qed.

Lemma tdfs_while_steps f g next s s1 :
  tdfs_steps f next s = Some s1 →
  tdfs_while (f + g) next s = tdfs_while g next s1.
Proof.
  revert s. induction f as [|f IH]; intros s Hs; simpl in *.
  - by injection Hs as ->.
  - case_decide; [|done]. destruct (tdfs_body next s) as [s'|]; [|done].
    simpl in *. by apply IH.
Qed.

(** What the loop has done when the trees of a list of siblings are
    through, [p] being their parent, at [stack[top]]: [top] is as it
    was, the nodes [l] are written to [post] from [k] on, [head] is [-1]
    at [p] and at the nodes written, and nothing else has changed in
    [post], in [head] or in the stack up to [top]. *)
Definition tdfs_done (p : Z) (l : list Z) (s s' : tdfs_state) : Prop :=
  ttop s' = ttop s ∧ tk s' = tk s + Z.of_nat (length l)
  ∧ length (tstack s') = length (tstack s)
  ∧ (∀ q, q ≤ ttop s → rd (tstack s') q = rd (tstack s) q)
  ∧ length (tpost s') = length (tpost s)
  ∧ seg (tpost s') (tk s) (tk s + Z.of_nat (length l)) = l
  ∧ (∀ q, q < tk s ∨ tk s + Z.of_nat (length l) ≤ q →
       rd (tpost s') q = rd (tpost s) q)
  ∧ length (thead s') = length (thead s)
  ∧ rd (thead s') p = Some (-1)
  ∧ (∀ x, x ∈ l → rd (thead s') x = Some (-1))
  ∧ (∀ x, x ∉ l → x ≠ p → rd (thead s') x = rd (thead s) x).

Lemma forest_run next h i l :
  forest next h i l →
  ∀ s p,
    NoDup l → p ∉ l → 0 ≤ ttop s →
    rd (tstack s) (ttop s) = Some p → rd (thead s) p = Some i →
    (∀ x, x ∈ l → rd (thead s) x = rd h x) →
    ttop s + Z.of_nat (length l) < Z.of_nat (length (tstack s)) →
    0 ≤ tk s → tk s + Z.of_nat (length l) ≤ Z.of_nat (length (tpost s)) →
    ∃ s', tdfs_steps (2 * length l) next s = Some s' ∧ tdfs_done p l s s'.
Proof.
  induction 1 as [|i c ni lc ln Hi Hc Hni Hfc IHc Hfn IHn];
    intros s p Hnd Hp Htop Hstk Hhd Hagree Hcap Hk Hpcap.
  - exists s. split; [done|]. unfold tdfs_done. simpl.
    split_and!; try done; try lia.
    + apply seg_empty. lia.
    + intros x Hx. by apply elem_of_nil in Hx.
  - destruct s as [t k head post stack]. simpl in *.
    rewrite length_app in Hcap, Hpcap. simpl in Hcap, Hpcap.
    apply NoDup_app in Hnd as (Hndc & Hdisj & Hndi).
    apply NoDup_cons in Hndi as [Hiln Hndn].
    rewrite elem_of_app, elem_of_cons in Hp.
    assert ((p ∉ lc) ∧ p ≠ i ∧ (p ∉ ln)) as (Hpc & Hpi & Hpn) by tauto.
    assert (i ∉ lc) as Hilc.
    { intros Hin. apply (Hdisj i Hin). by left. }
    pose proof (rd_Some _ _ _ Hhd) as Hpr.
    (* the child [i] is pushed *)
    set (s1 := TdfsState (t + 1) k (<[Z.to_nat p := ni]> head) post
                 (<[Z.to_nat (t + 1) := i]> stack)).
    assert (tdfs_body next (TdfsState t k head post stack) = Some s1) as Hb1.
    { unfold tdfs_body. simpl. rewrite Hstk. simpl. rewrite Hhd. simpl.
      rewrite decide_False by done. rewrite Hni. simpl.
      rewrite (wr_is_Some head) by lia. simpl.
      rewrite (wr_is_Some stack) by lia. done. }
    assert (∀ x, rd (<[Z.to_nat p := ni]> head) x
                 = if decide (p = x) then Some ni else rd head x) as Hh1
      by (intros x; apply rd_insert; lia).
    assert (∀ q, rd (<[Z.to_nat (t + 1) := i]> stack) q
                 = if decide (t + 1 = q) then Some i else rd stack q) as Hs1
      by (intros q; apply rd_insert; lia).
    (* the subtree of [i] *)
    destruct (IHc s1 i) as (s2 & Hrun2 & Hd2); simpl; try done; try lia.
    { by rewrite Hs1, decide_True. }
    { rewrite Hh1, decide_False by done. rewrite Hagree; [done|].
      rewrite elem_of_app, elem_of_cons. tauto. }
    { intros x Hx. rewrite Hh1, decide_False by (intros ->; done).
      apply Hagree. rewrite elem_of_app. tauto. }
    { rewrite length_insert. lia. }
    destruct Hd2 as (Ht2 & Hk2 & Hls2 & Hst2 & Hlp2 & Hseg2 & Hpost2 & Hlh2
                     & Hhi2 & Hhc2 & Hhf2).
    simpl in *. rewrite length_insert in Hls2, Hlh2.
    (* [i] is written *)
    set (s3 := TdfsState t (tk s2 + 1) (thead s2)
                 (<[Z.to_nat (tk s2) := i]> (tpost s2)) (tstack s2)).
    assert (tdfs_body next s2 = Some s3) as Hb3.
    { unfold tdfs_body. rewrite Ht2, Hst2 by lia.
      rewrite Hs1, decide_True by done. simpl. rewrite Hhi2. simpl.
      rewrite (wr_is_Some (tpost s2)) by lia. simpl.
      unfold s3. do 2 f_equal. lia. }
    assert (∀ q, rd (<[Z.to_nat (tk s2) := i]> (tpost s2)) q
                 = if decide (tk s2 = q) then Some i else rd (tpost s2) q)
      as Hp3 by (intros q; apply rd_insert; lia).
    (* the siblings that follow *)
    destruct (IHn s3 p) as (s4 & Hrun4 & Hd4); simpl; try done; try lia.
    { rewrite Hst2 by lia. rewrite Hs1, decide_False by lia. done. }
    { rewrite Hhf2 by done. by rewrite Hh1, decide_True. }
    { intros x Hx.
      assert (x ∉ lc) as Hxc.
      { intros Hin. apply (Hdisj x Hin). by right. }
      assert (x ≠ i) by (intros ->; done).
      assert (x ≠ p) by (intros ->; done).
      rewrite Hhf2 by done. rewrite Hh1, decide_False by done.
      apply Hagree. rewrite elem_of_app, elem_of_cons. tauto. }
    { rewrite length_insert. lia. }
    destruct Hd4 as (Ht4 & Hk4 & Hls4 & Hst4 & Hlp4 & Hseg4 & Hpost4 & Hlh4
                     & Hhp4 & Hhn4 & Hhf4).
    simpl in *. rewrite length_insert in Hlp4.
    exists s4. split.
    + replace (length (lc ++ i :: ln) + (length (lc ++ i :: ln) + 0))%nat
        with (S ((length lc + (length lc + 0))
                 + S (length ln + (length ln + 0))))%nat
        by (rewrite length_app; simpl; lia).
      simpl. rewrite decide_True by done. rewrite Hb1. simpl.
      rewrite (tdfs_steps_app _ _ _ _ _ Hrun2). simpl.
      rewrite decide_True by lia. rewrite Hb3. done.
    + unfold tdfs_done. simpl. rewrite length_app. simpl.
      split_and!; try done; try lia.
      * intros q Hq. rewrite Hst4 by lia. rewrite Hst2 by lia.
        rewrite Hs1, decide_False by lia. done.
      * rewrite (seg_app _ k (k + Z.of_nat (length lc))) by lia.
        f_equal.
        -- etransitivity; [|exact Hseg2]. apply seg_ext; [lia|].
           intros q Hq. rewrite Hpost4 by lia.
           rewrite Hp3, decide_False by lia. done.
        -- rewrite (seg_cons _ (k + Z.of_nat (length lc)) _ i).
           ++ f_equal. etransitivity; [|exact Hseg4]. f_equal; lia.
           ++ lia.
           ++ rewrite Hpost4 by lia. rewrite Hp3, decide_True by lia. done.
      * intros q Hq. rewrite Hpost4 by lia.
        rewrite Hp3, decide_False by lia. apply Hpost2. lia.
      * intros x. rewrite elem_of_app, elem_of_cons.
        intros [Hx|[->|Hx]].
        -- assert (x ∉ ln) by (intros Hin; apply (Hdisj x Hx); by right).
           rewrite Hhf4 by (done || (intros ->; done)). by apply Hhc2.
        -- rewrite Hhf4 by done. done.
        -- by apply Hhn4.
      * intros x Hx Hxp. rewrite elem_of_app, elem_of_cons in Hx.
        rewrite Hhf4 by tauto. rewrite Hhf2 by tauto.
        rewrite Hh1, decide_False by done. done.
Qed.

(** X12: [sp_tdfs] writes the tree of [j] in post order.  When [head]
    and [next] give below [j] a tree without a repeated node, whose
    nodes in post order are [lc] followed by [j], and [post] and [stack]
    have the room ([post] for the nodes from [k] on, [stack] for as many
    cells as there are nodes), a call with enough fuel for two runs of
    the loop per node returns [k] plus the number of nodes, has written
    the nodes to [post[k ..]] in that order, children before their
    parent and a node before its next sibling, has changed nothing else
    in [post], and leaves [head] at [-1] on the nodes of the tree and as
    it was elsewhere. *)
Theorem sp_tdfs_postorder fuel j k head next post stack c lc :
  rd head j = Some c → forest next head c lc → NoDup (lc ++ [j]) →
  0 ≤ k → k + Z.of_nat (length lc) + 1 ≤ Z.of_nat (length post) →
  Z.of_nat (length lc) + 1 ≤ Z.of_nat (length stack) →
  (2 * (length lc + 1) ≤ fuel)%nat →
  ∃ head' post' stack',
    sp_tdfs fuel j k head next post stack
    = Some (k + Z.of_nat (length lc) + 1, head', post', stack')
    ∧ length post' = length post
    ∧ seg post' k (k + Z.of_nat (length lc) + 1) = lc ++ [j]
    ∧ (∀ q, q < k ∨ k + Z.of_nat (length lc) + 1 ≤ q →
         rd post' q = rd post q)
    ∧ length head' = length head
    ∧ (∀ x, x ∈ lc ++ [j] → rd head' x = Some (-1))
    ∧ (∀ x, x ∉ lc ++ [j] → rd head' x = rd head x).
Proof.
  intros Hc Hforest Hnd Hk Hpcap Hscap Hfuel.
  apply NoDup_app in Hnd as (Hndc & Hdisj & _).
  assert (j ∉ lc) as Hj.
  { intros Hin. apply (Hdisj j Hin). by left. }
  unfold sp_tdfs. rewrite (wr_is_Some stack) by lia. simpl.
  set (s0 := TdfsState 0 k head post (<[Z.to_nat 0 := j]> stack)).
  destruct (forest_run next head c lc Hforest s0 j) as (s1 & Hrun & Hdone);
    simpl; try done; try lia.
  { rewrite rd_insert by lia. by rewrite decide_True. }
  { rewrite length_insert. lia. }
  destruct Hdone as (Ht1 & Hk1 & Hls1 & Hst1 & Hlp1 & Hseg1 & Hpost1 & Hlh1
                     & Hhj1 & Hhc1 & Hhf1).
  simpl in *.
  replace fuel
    with ((length lc + (length lc + 0)) + S (fuel - 2 * length lc - 1))%nat
    by lia.
  rewrite (tdfs_while_steps _ _ _ _ _ Hrun). simpl.
  rewrite Ht1. rewrite decide_True by lia.
  unfold tdfs_body. rewrite Ht1, Hst1 by lia.
  rewrite rd_insert by lia. rewrite decide_True by done. simpl.
  rewrite Hhj1. simpl. rewrite (wr_is_Some (tpost s1)) by lia. simpl.
  assert (∀ g s, ttop s = -1 → tdfs_while g next s = Some s) as Hend.
  { intros g s Hs. destruct g; simpl; by rewrite decide_False by lia. }
  rewrite Hend by done. simpl.
  assert (∀ q, rd (<[Z.to_nat (tk s1) := j]> (tpost s1)) q
               = if decide (tk s1 = q) then Some j else rd (tpost s1) q)
    as Hp2 by (intros q; apply rd_insert; lia).
  eexists _, _, _. split; [do 4 f_equal; lia|].
  split_and!.
  - rewrite length_insert. done.
  - rewrite (seg_snoc _ k (k + Z.of_nat (length lc)) j).
    + f_equal. etransitivity; [|exact Hseg1]. apply seg_ext; [lia|].
      intros q Hq. rewrite Hp2, decide_False by lia. done.
    + lia.
    + rewrite Hp2, decide_True by lia. done.
  - intros q Hq. rewrite Hp2, decide_False by lia. apply Hpost1. lia.
  - done.
  - intros x. rewrite elem_of_app, list_elem_of_singleton.
    intros [Hx| ->]; [by apply Hhc1|done].
  - intros x Hx. rewrite elem_of_app, list_elem_of_singleton in Hx.
    apply Hhf1; tauto.
Qed.

Lemma sp_tdfs_postorder_witness :
  ∃ head' post' stack',
    sp_tdfs 6 0 1 [1; -1; -1] [-1; 2; -1] [9; 9; 9; 9] [9; 9; 9]
    = Some (1 + Z.of_nat (length [1; 2]) + 1, head', post', stack')
    ∧ length post' = length [9; 9; 9; 9]
    ∧ seg post' 1 (1 + Z.of_nat (length [1; 2]) + 1) = [1; 2] ++ [0]
    ∧ (∀ q, q < 1 ∨ 1 + Z.of_nat (length [1; 2]) + 1 ≤ q →
         rd post' q = rd [9; 9; 9; 9] q)
    ∧ length head' = length [1; -1; -1]
    ∧ (∀ x, x ∈ [1; 2] ++ [0] → rd head' x = Some (-1))
    ∧ (∀ x, x ∉ [1; 2] ++ [0] → rd head' x = rd [1; -1; -1] x).
Proof.
  apply (sp_tdfs_postorder 6 0 1 [1; -1; -1] [-1; 2; -1] [9; 9; 9; 9]
           [9; 9; 9] 1 [1; 2]).
  - reflexivity.
  - apply (forest_cons _ _ 1 (-1) 2 [] [2]);
      [lia|reflexivity|reflexivity|apply forest_nil|].
    apply (forest_cons _ _ 2 (-1) (-1) [] []);
      [lia|reflexivity|reflexivity|apply forest_nil|apply forest_nil].
  - simpl. solve_nodup.
  - lia.
  - simpl. lia.
  - simpl. lia.
  - simpl. lia.
Defined.

(** X13: the factors are laid out as the recorded stacks say.  In a
    context left by a successful factorisation, also after later
    refactorisations and solves, column [j] of L is stored at
    [Lp[j] .. Lp[j+1]-1] and holds [j], with the value one, followed by
    the pivot steps of the rows on the stack of step [j] whose pivot
    comes after [j], in the order of the stack; column [j] of U is
    stored at [Up[j] .. Up[j+1]-1] and holds the pivot steps of the rows
    on that stack whose pivot comes before [j], in the order of the
    stack, followed by [j]; [Lp[0]] and [Up[0]] are zero. *)
Theorem factors_follow_stacks {T} `{Scalar T} n (N : sp_num T) :
  factorised n N →
  rd (Ap (Num.L N)) 0 = Some 0 ∧ rd (Ap (Num.U N)) 0 = Some 0
  ∧ ∀ j, 0 ≤ j < n →
      (∃ a b, rd (Ap (Num.L N)) j = Some a
         ∧ rd (Ap (Num.L N)) (j + 1) = Some b ∧ 0 ≤ a < b
         ∧ seg (Ai (Num.L N)) a b
           = j :: (pv (Num.pinv N)
                     <$> filter (λ e, j < pv (Num.pinv N) e)
                           (stack_rows n (Num.xi N) (Num.topvec N) j))
         ∧ rd (Ax (Num.L N)) a = Some s_one)
      ∧ (∃ c d, rd (Ap (Num.U N)) j = Some c
           ∧ rd (Ap (Num.U N)) (j + 1) = Some d ∧ 0 ≤ c < d
           ∧ seg (Ai (Num.U N)) c d
             = (pv (Num.pinv N)
                  <$> filter (λ e, pv (Num.pinv N) e < j)
                        (stack_rows n (Num.xi N) (Num.topvec N) j))
               ++ [j]).
Proof.
  intros [_ [HL HU HL0 HU0]]%factorised_factored.
  split; [done|]. split; [done|]. intros j Hj. split.
  - destruct (HL j Hj) as (a & b & ? & ? & ? & _ & Hseg & ?).
    by exists a, b.
  - destruct (HU j Hj) as (c & d & ? & ? & ? & _ & Hseg).
    by exists c, d.
Qed.

Lemma factors_follow_stacks_witness :
  rd (Ap (Num.L ctx2_done)) 0 = Some 0 ∧ rd (Ap (Num.U ctx2_done)) 0 = Some 0
  ∧ ∀ j, 0 ≤ j < 2 →
      (∃ a b, rd (Ap (Num.L ctx2_done)) j = Some a
         ∧ rd (Ap (Num.L ctx2_done)) (j + 1) = Some b ∧ 0 ≤ a < b
         ∧ seg (Ai (Num.L ctx2_done)) a b
           = j :: (pv (Num.pinv ctx2_done)
                     <$> filter (λ e, j < pv (Num.pinv ctx2_done) e)
                           (stack_rows 2 (Num.xi ctx2_done)
                              (Num.topvec ctx2_done) j))
         ∧ rd (Ax (Num.L ctx2_done)) a = Some s_one)
      ∧ (∃ c d, rd (Ap (Num.U ctx2_done)) j = Some c
           ∧ rd (Ap (Num.U ctx2_done)) (j + 1) = Some d ∧ 0 ≤ c < d
           ∧ seg (Ai (Num.U ctx2_done)) c d
             = (pv (Num.pinv ctx2_done)
                  <$> filter (λ e, pv (Num.pinv ctx2_done) e < j)
                        (stack_rows 2 (Num.xi ctx2_done)
                           (Num.topvec ctx2_done) j))
               ++ [j]).
Proof.
  apply (factors_follow_stacks 2 ctx2_done).
  apply (by_ludcmp 2 ctx2 A_full 1%float);
    [apply dense2_ok|reflexivity|apply ctx2_ok|vm_compute; reflexivity].
Defined.
